(** * Bidirectional path tracing with stratification-aware MIS

    A shallow embedding of [src/integrators/bdpt.cpp]: the random walk that
    builds subpaths, the MIS weight with its scoped mutation of the two
    vertex arrays, the connection routine, the per-sample strategy loop,
    the rectifier factor scheme, the variance-buffer index and the FNV
    sampler seed.

    Numeric conventions.
    - [Float] is modelled by exact rationals ([Q]): no rounding, overflow,
      infinities or NaN.  [x / 0] is [0] in [Q], where IEEE arithmetic
      gives an infinity or NaN: a statement about a computed number
      assumes what keeps every divisor away from 0, and says what the code
      computes up to rounding and as long as nothing overflows or
      underflows.  The arithmetic of the MIS weight is also given over an
      arbitrary number format and run in binary32 ([Binary32]), where
      overflow and underflow show.
    - [int] is modelled by [Z]; the loop counters and strategy indices of
      the integrator stay far below 2^31.
    - [uint32_t] is modelled by [Z] with the reduction modulo 2^32 written
      out at every multiplication. *)

From Stdlib Require Import ZArith QArith Qround Lia Lqa List Bool.
From Stdlib Require Import Floats.SpecFloat.
From stdpp Require Import base option list gmap.

Import ListNotations.
Local Open Scope Z_scope.

(** ** Numbers *)

(** [Float] as an exact rational.  A theorem about a [Float] the code
    computes is a theorem of exact arithmetic: it holds of the binary32
    run up to rounding, and only while no intermediate result overflows,
    underflows or divides by zero. *)
Definition Float := Q.
Bind Scope Q_scope with Float.

(** [f != 0] on Floats. *)
Definition fnonzero (f : Float) : bool := negb (Qeq_bool f 0).

(** [a > b] on Floats. *)
Definition fgt (a b : Float) : bool := negb (Qle_bool a b).

Definition uint32 (z : Z) : Z := z mod 2 ^ 32.

(** Conversion of a [uint32_t] value to [int] (two's complement). *)
Definition int_of_uint32 (z : Z) : Z :=
  if z <? 2 ^ 31 then z else z - 2 ^ 32.

(** ** Variance-estimator buffer index *)

Definition BufferIndex (s t : Z) : Z := s + t - 2 + t.

(** ** Sampler seeding *)

Module Fnv.

Definition fnv_init : Z := 0x811C9DC5.

Definition fnv_prime : Z := 16777619.

(** Hashes the four bytes of [d] into [h]. *)
Definition fnv_hash (h d : Z) : Z :=
  let h := Z.lxor (uint32 (h * fnv_prime)) (Z.land d 0xFF) in
  let h := Z.lxor (uint32 (h * fnv_prime)) (Z.land (Z.shiftr d 8) 0xFF) in
  let h := Z.lxor (uint32 (h * fnv_prime)) (Z.land (Z.shiftr d 16) 0xFF) in
  let h := Z.lxor (uint32 (h * fnv_prime)) (Z.land (Z.shiftr d 24) 0xFF) in
  h.

Definition sampler_seed (pixel iter : Z) : Z :=
  fnv_hash (fnv_hash fnv_init pixel) iter.

(** The seed of a tile as [Render] computes it:
    [int seed = sampler_seed(tile.y * nXTiles + tile.x, sampleOffset)],
    with the [int] arguments converted to [uint32_t] and the result back
    to [int]. *)
Definition tile_seed (tile_x tile_y nXTiles sampleOffset : Z) : Z :=
  int_of_uint32
    (sampler_seed (uint32 (tile_y * nXTiles + tile_x)) (uint32 sampleOffset)).

(** The four bytes of a 32-bit word, least significant first. *)
Definition le_bytes (d : Z) : list Z :=
  [d mod 256; (d / 2 ^ 8) mod 256; (d / 2 ^ 16) mod 256; (d / 2 ^ 24) mod 256].

(** Reference FNV-1 on a byte string: multiply, then xor the byte in. *)
Definition fnv1_32 (bytes : list Z) : Z :=
  fold_left (fun h b => Z.lxor (uint32 (h * fnv_prime)) b) bytes fnv_init.

(** Reference FNV-1a on a byte string, as the specification names it:
    xor the byte in, then multiply. *)
Definition fnv1a_32 (bytes : list Z) : Z :=
  fold_left (fun h b => uint32 (Z.lxor h b * fnv_prime)) bytes fnv_init.

(** One step of FNV-1 on a byte. *)
Definition fnv1_step (h b : Z) : Z := Z.lxor (uint32 (h * fnv_prime)) b.

End Fnv.

(** ** Rectifier factor scheme *)

(** [BDPTIntegrator::MisModification]. *)
Inductive MisModification :=
| MIS_MOD_NONE
| MIS_MOD_RECIPROCAL_VARIANCE
| MIS_MOD_MOMENT_OVER_VARIANCE.

(** The lambda [factorScheme] of [Render]; [misMod] is the captured field
    of the integrator, [d] and [t] are accepted and ignored. *)
Definition factorScheme (misMod : MisModification) (d t : Z)
    (var mean : Float) : Float :=
  match misMod with
  | MIS_MOD_NONE => 1%Q
  | MIS_MOD_RECIPROCAL_VARIANCE =>
      if Qeq_bool var 0 then 1%Q else (1 / var)%Q
  | MIS_MOD_MOMENT_OVER_VARIANCE =>
      if fnonzero var && fnonzero mean
      then (1 + mean * mean / var)%Q
      else 1%Q
  end.

(** The factor as the specification words it, with the tests [var > 0]
    and [mean != 0]. *)
Definition spec_factor (misMod : MisModification) (var mean : Float) : Float :=
  match misMod with
  | MIS_MOD_NONE => 1%Q
  | MIS_MOD_RECIPROCAL_VARIANCE =>
      if fgt var 0 then (1 / var)%Q else 1%Q
  | MIS_MOD_MOMENT_OVER_VARIANCE =>
      if fgt var 0 && fnonzero mean
      then (1 + mean * mean / var)%Q
      else 1%Q
  end.

(** ** Enumerations of the integrator *)

(** [BDPTIntegrator::MisStrategy]. *)
Inductive MisStrategy := MIS_BALANCE | MIS_POWER | MIS_UNIFORM.

Inductive TransportMode := Radiance | Importance.

Module VertexType.

(** Modelled from the spec: [enum class VertexType] of bdpt.h, the four
    variants of a vertex. *)
Inductive t := Camera | Light | Surface | Medium.

Definition eqb (a b : t) : bool :=
  match a, b with
  | Camera, Camera | Light, Light | Surface, Surface | Medium, Medium => true
  | _, _ => false
  end.
End VertexType.

(** ** Points *)

Record Point2f := mkPoint2f { x : Float; y : Float }.

Definition Point2i : Type := Z * Z.

(** Conversion of a Float to [int]: truncation toward zero. *)
Definition int_of_Float (f : Float) : Z := Z.quot (Qnum f) (Zpos (Qden f)).

Definition Point2i_of (p : Point2f) : Point2i :=
  (int_of_Float (x p), int_of_Float (y p)).

(** ** Spectrum *)

(** Modelled from the spec: [Spectrum] (spectrum.h) is not under src/; it
    is a vector of coefficient samples with channel-wise arithmetic, black
    when every channel is zero. *)
Definition Spectrum := list Float.

(** The operations of [Spectrum] the integrator uses. *)
Module Spec.

Definition IsBlack (s : Spectrum) : bool := forallb (fun c => Qeq_bool c 0) s.

Definition mul (a b : Spectrum) : Spectrum := zip_with Qmult a b.

Definition add (a b : Spectrum) : Spectrum := zip_with Qplus a b.

Definition scale (a : Spectrum) (k : Float) : Spectrum :=
  map (fun c => (c * k)%Q) a.

Definition div (a : Spectrum) (k : Float) : Spectrum :=
  map (fun c => (c / k)%Q) a.

Definition eqb (a b : Spectrum) : bool :=
  (length a =? length b)%nat && forallb (fun p => Qeq_bool p.1 p.2) (zip a b).

End Spec.

(** ** The collaborators' types

    The scene, the camera, lights, media, BSDFs, the sampler and the
    geometric types are used by the integrator through their interfaces
    only. *)

Class Types := {
  Scene : Type;
  Camera : Type;
  Light : Type;
  Medium : Type;
  BSDF : Type;
  RayDifferential : Type;
  Vector3f : Type;
  Normal3f : Type;
  Point3f : Type;
  Interaction : Type;
  SurfaceInteraction : Type;
  MediumInteraction : Type;
  EndpointInteraction : Type;
  VisibilityTester : Type;
  Sampler : Type;
  Distribution1D : Type;
  LightToIndex : Type;
  SAMISRectifier : Type;
  (** number of coefficients of a [Spectrum] *)
  nSpectrumSamples : nat;
}.

Section Model.
Context {T : Types}.

(** [Spectrum(v)]: every channel set to [v]. *)
Definition Spectrum_const (v : Float) : Spectrum := replicate nSpectrumSamples v.

(** ** Vertex *)

(** Modelled from the spec: the interaction a [Vertex] holds, a union of
    the endpoint, medium and surface interactions (bdpt.h, not under
    src/). *)
Inductive VertexInteraction :=
| EI (ei : EndpointInteraction)
| MI (mi : MediumInteraction)
| SI (si : SurfaceInteraction).

(** Modelled from the spec: [Vertex] is declared in bdpt.h, not under src/.
    A tagged union that carries the throughput [beta], the two area
    densities and the [delta] flag. *)
Record Vertex := mkVertex {
  type : VertexType.t;
  beta : Spectrum;
  interaction : VertexInteraction;
  delta : bool;
  pdfFwd : Float;
  pdfRev : Float;
}.

Definition set_delta (d : bool) (v : Vertex) : Vertex :=
  mkVertex (type v) (beta v) (interaction v) d (pdfFwd v) (pdfRev v).

Definition set_pdfFwd (p : Float) (v : Vertex) : Vertex :=
  mkVertex (type v) (beta v) (interaction v) (delta v) p (pdfRev v).

Definition set_pdfRev (p : Float) (v : Vertex) : Vertex :=
  mkVertex (type v) (beta v) (interaction v) (delta v) (pdfFwd v) p.

(** Modelled from the spec: the constructors [Vertex(type, ei, beta)],
    [Vertex(si, beta)] and [Vertex(mi, beta)] of bdpt.h; the densities
    start at zero and [delta] at false. *)
Definition Vertex_new (ty : VertexType.t) (i : VertexInteraction)
    (b : Spectrum) : Vertex :=
  mkVertex ty b i false 0 0.

(** ** The collaborators' operations *)

Record WiSample := mkWiSample {
  Wi : Spectrum; wi_dir : Vector3f; wi_pdf : Float;
  wi_pRaster : Point2f; wi_vis : VisibilityTester }.

Record LiSample := mkLiSample {
  Li : Spectrum; li_dir : Vector3f; li_pdf : Float; li_vis : VisibilityTester }.

Record LeSample := mkLeSample {
  Le_L : Spectrum; le_ray : RayDifferential; le_nLight : Normal3f;
  le_pdfPos : Float; le_pdfDir : Float }.

Record BSDFSample := mkBSDFSample {
  bs_f : Spectrum; bs_wi : Vector3f; bs_pdf : Float; bs_specular : bool }.

Class World := {
  (** Sampler: each call returns a value and advances the sampler. *)
  Get1D : Sampler -> Float * Sampler;
  Get2D : Sampler -> Point2f * Sampler;
  samplesPerPixel : Sampler -> Float;
  (** Scene; [Intersect] also returns the ray, whose extent it shortens
      to the hit. *)
  Intersect :
    Scene -> RayDifferential -> option SurfaceInteraction * RayDifferential;
  lights : Scene -> list Light;
  (** Rays, vectors *)
  ray_d : RayDifferential -> Vector3f;
  ray_medium : RayDifferential -> option Medium;
  ScaleDifferentials : RayDifferential -> Float -> RayDifferential;
  vneg : Vector3f -> Vector3f;
  vscale : Vector3f -> Float -> Vector3f;
  psub : Point3f -> Point3f -> Vector3f;
  LengthSquared : Vector3f -> Float;
  (** [AbsDot] of a vector and a normal; the source's overload with the
      normal first is the same function with the arguments swapped. *)
  AbsDot : Vector3f -> Normal3f -> Float;
  fsqrt : Float -> Float;
  (** Media and phase functions *)
  Medium_Sample :
    Medium -> RayDifferential -> Sampler ->
    (Spectrum * option MediumInteraction) * Sampler;
  Sample_p : MediumInteraction -> Vector3f -> Point2f -> Float * Vector3f;
  mi_SpawnRay : MediumInteraction -> Vector3f -> RayDifferential;
  (** Surfaces and BSDFs *)
  ComputeScatteringFunctions :
    SurfaceInteraction -> RayDifferential -> TransportMode -> option BSDF;
  si_SpawnRay : SurfaceInteraction -> Vector3f -> RayDifferential;
  si_wo : SurfaceInteraction -> Vector3f;
  si_n : SurfaceInteraction -> Normal3f;
  si_shading_n : SurfaceInteraction -> Normal3f;
  Sample_f : BSDF -> Vector3f -> Point2f -> BSDFSample;
  BSDF_Pdf : BSDF -> Vector3f -> Vector3f -> Float;
  (** Camera *)
  GenerateRayDifferential :
    Camera -> Point2f -> Float -> Point2f -> Spectrum * RayDifferential;
  Pdf_We : Camera -> RayDifferential -> Float * Float;
  Sample_Wi : Camera -> Interaction -> Point2f -> Point2f -> WiSample;
  (** Lights *)
  SampleDiscrete : Distribution1D -> Float -> Z * Float;
  Sample_Le : Light -> Point2f -> Point2f -> Float -> LeSample;
  Sample_Li : Light -> Interaction -> Point2f -> LiSample;
  InfiniteLightDensity :
    Scene -> Distribution1D -> LightToIndex -> Vector3f -> Float;
  (** Visibility *)
  VisibilityTester_new : Interaction -> Interaction -> VisibilityTester;
  P1 : VisibilityTester -> Interaction;
  Tr : VisibilityTester -> Scene -> Sampler -> Spectrum * Sampler;
  (** Endpoint interactions *)
  EndpointInteraction_default : EndpointInteraction;
  EndpointInteraction_camera_ray : Camera -> RayDifferential -> EndpointInteraction;
  EndpointInteraction_camera_it : Camera -> Interaction -> EndpointInteraction;
  EndpointInteraction_light_ray :
    Light -> RayDifferential -> Normal3f -> EndpointInteraction;
  EndpointInteraction_light_it : Interaction -> Light -> EndpointInteraction;
  EndpointInteraction_ray : RayDifferential -> EndpointInteraction;
  (** Vertex queries (bdpt.h) *)
  GetInteraction : Vertex -> Interaction;
  Vertex_p : Vertex -> Point3f;
  Vertex_time : Vertex -> Float;
  Vertex_ns : Vertex -> Normal3f;
  Vertex_ng : Vertex -> Normal3f;
  IsOnSurface : Vertex -> bool;
  IsLight : Vertex -> bool;
  IsDeltaLight : Vertex -> bool;
  IsInfiniteLight : Vertex -> bool;
  IsConnectible : Vertex -> bool;
  Vertex_Le : Vertex -> Scene -> Vertex -> Spectrum;
  Vertex_f : Vertex -> Vertex -> TransportMode -> Spectrum;
  (** the geometric Jacobian |cos| / dist^2 from a vertex to the next *)
  Jacobian : Vertex -> Vertex -> Float;
  Pdf : Vertex -> Scene -> option Vertex -> Vertex -> Float;
  PdfLight : Vertex -> Scene -> Vertex -> Float;
  PdfLightOrigin :
    Vertex -> Scene -> Vertex -> Distribution1D -> LightToIndex -> Float;
  (** Rectifier lookup *)
  Get : SAMISRectifier -> Point2i -> Z -> Z -> Float;
}.

Context {W : World}.

(** Modelled from the spec: [Vertex::ConvertDensity], declared in bdpt.h,
    converts a solid-angle density at this vertex into an area density at
    [next] by the geometric Jacobian. *)
Definition ConvertDensity (v : Vertex) (pdf : Float) (next : Vertex) : Float :=
  (pdf * Jacobian v next)%Q.

(** Modelled from the spec: the vertex constructors of bdpt.h.  The surface
    and medium constructors store the forward density converted to area
    measure from the predecessor. *)
Definition CreateCamera (camera : Camera) (ray : RayDifferential)
    (b : Spectrum) : Vertex :=
  Vertex_new VertexType.Camera (EI (EndpointInteraction_camera_ray camera ray)) b.

Definition CreateCamera_it (camera : Camera) (it : Interaction)
    (b : Spectrum) : Vertex :=
  Vertex_new VertexType.Camera (EI (EndpointInteraction_camera_it camera it)) b.

Definition CreateLight_ei (e : EndpointInteraction) (b : Spectrum)
    (pdf : Float) : Vertex :=
  set_pdfFwd pdf (Vertex_new VertexType.Light (EI e) b).

Definition CreateLight (light : Light) (ray : RayDifferential)
    (nLight : Normal3f) (Le : Spectrum) (pdf : Float) : Vertex :=
  CreateLight_ei (EndpointInteraction_light_ray light ray nLight) Le pdf.

Definition CreateMedium (m : MediumInteraction) (b : Spectrum) (pdf : Float)
    (prev : Vertex) : Vertex :=
  let v := Vertex_new VertexType.Medium (MI m) b in
  set_pdfFwd (ConvertDensity prev pdf v) v.

Definition CreateSurface (s : SurfaceInteraction) (b : Spectrum) (pdf : Float)
    (prev : Vertex) : Vertex :=
  let v := Vertex_new VertexType.Surface (SI s) b in
  set_pdfFwd (ConvertDensity prev pdf v) v.

(** A default-constructed [Vertex] (its [type] is indeterminate in the
    source; the model fixes it to [Camera]). *)
Definition Vertex_default : Vertex :=
  Vertex_new VertexType.Camera (EI EndpointInteraction_default) (Spectrum_const 0).

End Model.

Arguments Vertex {T}.
Arguments World {T}.
Arguments Build_World T &.

(** ** Program state and the execution monad

    The two vertex arrays of a pixel sample, the sampler, and the outputs
    the strategy loop appends to.  A computation either yields a value and
    a new state, or has no defined behaviour ([None]: an access outside an
    array or through a null pointer). *)

Section State.
Context {T : Types}.

Record St := mkSt {
  sampler : Sampler;
  lightVertices : list Vertex;
  cameraVertices : list Vertex;
  (** calls of [film->AddSplat] *)
  splats : list (Point2f * Spectrum);
  (** calls of [rectifier->AddEstimate] *)
  rectifierLog : list (Point2f * Z * Z * Spectrum * Spectrum);
  (** calls of [varianceEstimators[i]->AddEstimate] *)
  varianceLog : list (Z * Point2f * Spectrum);
}.

Definition M (A : Type) : Type := St -> option (A * St).

Definition ret {A} (a : A) : M A := fun st => Some (a, st).

Definition bind {A B} (c : M A) (k : A -> M B) : M B :=
  fun st => match c st with
            | Some (a, st') => k a st'
            | None => None
            end.

Definition undefined {A} : M A := fun _ => None.

Definition get_state : M St := fun st => Some (st, st).

Definition put_state (st : St) : M unit := fun _ => Some (tt, st).

Definition lift {A} (o : option A) : M A :=
  fun st => match o with Some a => Some (a, st) | None => None end.

(** Runs a pure sampler query against the sampler of the state. *)
Definition with_sampler {A} (q : Sampler -> A * Sampler) : M A :=
  fun st =>
    let '(a, smp) := q (sampler st) in
    Some (a, mkSt smp (lightVertices st) (cameraVertices st)
               (splats st) (rectifierLog st) (varianceLog st)).

(** *** Pointers into the vertex arrays *)

Inductive Array := LightArr | CameraArr.

(** [(a, i)] is [&a[i]]; the offset may be negative, as in [path[-1]]. *)
Definition VertexPtr : Type := Array * Z.

Definition array_of (a : Array) (st : St) : list Vertex :=
  match a with LightArr => lightVertices st | CameraArr => cameraVertices st end.

Definition set_array (a : Array) (l : list Vertex) (st : St) : St :=
  match a with
  | LightArr => mkSt (sampler st) l (cameraVertices st)
                  (splats st) (rectifierLog st) (varianceLog st)
  | CameraArr => mkSt (sampler st) (lightVertices st) l
                  (splats st) (rectifierLog st) (varianceLog st)
  end.

Definition in_bounds (p : VertexPtr) (st : St) : bool :=
  (0 <=? p.2) && (p.2 <? Z.of_nat (length (array_of p.1 st))).

Definition load (p : VertexPtr) : M Vertex :=
  fun st =>
    if in_bounds p st
    then match array_of p.1 st !! Z.to_nat p.2 with
         | Some v => Some (v, st)
         | None => None
         end
    else None.

Definition store (p : VertexPtr) (v : Vertex) : M unit :=
  fun st =>
    if in_bounds p st
    then Some (tt, set_array p.1 (<[Z.to_nat p.2 := v]> (array_of p.1 st)) st)
    else None.

(** Reads the pointee of a pointer that may be null. *)
Definition load_opt (p : option VertexPtr) : M (option Vertex) :=
  match p with
  | Some q => bind (load q) (fun v => ret (Some v))
  | None => ret None
  end.

(** Dereferences a pointer that must not be null. *)
Definition deref (p : option VertexPtr) : M Vertex :=
  match p with
  | Some q => load q
  | None => undefined
  end.

End State.

Notation "'let*' x ':=' c1 'in' c2" := (bind c1 (fun x => c2))
  (at level 10, x name, c1 at level 200, c2 at level 200).
Notation "'let*' ' pat ':=' c1 'in' c2" :=
  (bind c1 (fun x => match x with pat => c2 end))
  (at level 10, pat pattern, c1 at level 200, c2 at level 200).

(** ** Scoped assignment *)

Section Scoped.
Context {T : Types}.

(** The part of a vertex an assignment targets: the whole vertex,
    [&v->delta] or [&v->pdfRev]. *)
Record Field (A : Type) := mkField {
  fget : Vertex -> A;
  fset : A -> Vertex -> Vertex;
}.
Arguments fget {A}.
Arguments fset {A}.

Definition whole : Field Vertex := mkField Vertex (fun v => v) (fun a _ => a).
Definition delta_of : Field bool := mkField bool delta set_delta.
Definition pdfRev_of : Field Float := mkField Float pdfRev set_pdfRev.

(** Modelled from the spec: [ScopedAssignment<T>] is declared in bdpt.h, not
    under src/.  Constructed on a target it saves the target's value and
    overwrites it; destroyed, it writes the saved value back.  A null
    target makes both a no-op. *)
Record ScopedAssignment (A : Type) := mkScoped {
  target : option (VertexPtr * Field A);
  backup : option A;
}.
Arguments target {A}.
Arguments backup {A}.

(** [ScopedAssignment<A> a;] *)
Definition scoped_null {A} : ScopedAssignment A := mkScoped A None None.

(** [a = {target, value}] on a non-null target. *)
Definition scoped_assign {A} (p : VertexPtr) (F : Field A) (value : A)
    : M (ScopedAssignment A) :=
  let* v := load p in
  let* _ := store p (fset F value v) in
  ret (mkScoped A (Some (p, F)) (Some (fget F v))).

(** [~ScopedAssignment()]. *)
Definition scoped_restore {A} (a : ScopedAssignment A) : M unit :=
  match target a, backup a with
  | Some (p, F), Some b => let* v := load p in store p (fset F b v)
  | _, _ => ret tt
  end.

End Scoped.

Arguments fget {T A}.
Arguments fset {T A}.
Arguments target {T A}.
Arguments backup {T A}.

(** ** MIS weight *)

Section MIS.
Context {T : Types} {W : World}.

(** The helper [remap0] that deals with Dirac delta functions. *)
Definition remap0 (f : Float) : Float := if fnonzero f then f else 1%Q.

(** [rectifier ? rectifier->Get(pxCoords, d, t) : 1.0f] *)
Definition stratFactor (rectifier : option SAMISRectifier) (pxCoords : Point2i)
    (d t : Z) : Float :=
  match rectifier with
  | Some r => Get r pxCoords d t
  | None => 1%Q
  end.

(** The effective density ratio of a hypothetical strategy under the three
    heuristics. *)
Definition effDensRatio (mode : MisStrategy) (ri : Float) : Float :=
  match mode with
  | MIS_POWER => (ri * ri)%Q
  | MIS_UNIFORM => 1%Q
  | MIS_BALANCE => ri
  end.

Definition ptr_if (c : bool) (a : Array) (i : Z) : option VertexPtr :=
  if c then Some (a, i) else None.

(** The seven scoped assignments of [MISWeight], in declaration order. *)
Record Scopes := mkScopes {
  a1 : ScopedAssignment Vertex;
  a2 : ScopedAssignment bool;
  a3 : ScopedAssignment bool;
  a4 : ScopedAssignment Float;
  a5 : ScopedAssignment Float;
  a6 : ScopedAssignment Float;
  a7 : ScopedAssignment Float;
}.

(** "Temporarily update vertex properties for current strategy". *)
Definition update_for_strategy (scene : Scene) (sampled : Vertex) (s t : Z)
    (lightPdf : Distribution1D) (lightToIndex : LightToIndex) : M Scopes :=
  (* Look up connection vertices and their predecessors *)
  let qs := ptr_if (0 <? s) LightArr (s - 1) in
  let pt := ptr_if (0 <? t) CameraArr (t - 1) in
  let qsMinus := ptr_if (1 <? s) LightArr (s - 2) in
  let ptMinus := ptr_if (1 <? t) CameraArr (t - 2) in
  (* Update sampled vertex for s = 1 or t = 1 strategy *)
  let* a1 :=
    (if s =? 1 then
       match qs with
       | Some q => scoped_assign q whole sampled
       | None => ret scoped_null
       end
     else if t =? 1 then
       match pt with
       | Some p => scoped_assign p whole sampled
       | None => ret scoped_null
       end
     else ret scoped_null) in
  (* Mark connection vertices as non-degenerate *)
  let* a2 :=
    match pt with
    | Some p => scoped_assign p delta_of false
    | None => ret scoped_null
    end in
  let* a3 :=
    match qs with
    | Some q => scoped_assign q delta_of false
    | None => ret scoped_null
    end in
  (* Update reverse density of vertex pt_{t-1} *)
  let* a4 :=
    match pt with
    | Some p =>
        let* value :=
          (if 0 <? s then
             let* vqs := deref qs in
             let* vqsMinus := load_opt qsMinus in
             let* vpt := load p in
             ret (Pdf vqs scene vqsMinus vpt)
           else
             let* vpt := load p in
             let* vptMinus := deref ptMinus in
             ret (PdfLightOrigin vpt scene vptMinus lightPdf lightToIndex)) in
        scoped_assign p pdfRev_of value
    | None => ret scoped_null
    end in
  (* Update reverse density of vertex pt_{t-2} *)
  let* a5 :=
    match ptMinus with
    | Some pm =>
        let* value :=
          (if 0 <? s then
             let* vpt := deref pt in
             let* vqs := load_opt qs in
             let* vptMinus := load pm in
             ret (Pdf vpt scene vqs vptMinus)
           else
             let* vpt := deref pt in
             let* vptMinus := load pm in
             ret (PdfLight vpt scene vptMinus)) in
        scoped_assign pm pdfRev_of value
    | None => ret scoped_null
    end in
  (* Update reverse density of vertices pq_{s-1} and pq_{s-2} *)
  let* a6 :=
    match qs with
    | Some q =>
        let* vpt := deref pt in
        let* vptMinus := load_opt ptMinus in
        let* vqs := load q in
        scoped_assign q pdfRev_of (Pdf vpt scene vptMinus vqs)
    | None => ret scoped_null
    end in
  let* a7 :=
    match qsMinus with
    | Some qm =>
        let* vqs := deref qs in
        let* vpt := load_opt pt in
        let* vqsMinus := load qm in
        scoped_assign qm pdfRev_of (Pdf vqs scene vpt vqsMinus)
    | None => ret scoped_null
    end in
  ret (mkScopes a1 a2 a3 a4 a5 a6 a7).

(** The destructors run in the reverse order of the declarations. *)
Definition restore_all (sc : Scopes) : M unit :=
  let* _ := scoped_restore (a7 sc) in
  let* _ := scoped_restore (a6 sc) in
  let* _ := scoped_restore (a5 sc) in
  let* _ := scoped_restore (a4 sc) in
  let* _ := scoped_restore (a3 sc) in
  let* _ := scoped_restore (a2 sc) in
  scoped_restore (a1 sc).

(** "Consider hypothetical connection strategies along the camera
    subpath": [for (int i = t - 1; i > 0; --i)], with [i] the loop counter,
    [ri] and [sumRi] the two accumulators. *)
Fixpoint camera_walk (cameraVertices : list Vertex) (mode : MisStrategy)
    (rectifier : option SAMISRectifier) (pxCoords : Point2i) (s t : Z)
    (i : nat) (ri sumRi : Float) : option Float :=
  match i with
  | O => Some sumRi
  | S i' =>
      match cameraVertices !! i with
      | None => None
      | Some vi =>
          let ri := (ri * (remap0 (pdfRev vi) / remap0 (pdfFwd vi)))%Q in
          let term :=
            (effDensRatio mode ri
             * stratFactor rectifier pxCoords (s + t) (Z.of_nat i))%Q in
          if delta vi
          then camera_walk cameraVertices mode rectifier pxCoords s t i' ri sumRi
          else
            match cameraVertices !! i' with
            | None => None
            | Some vprev =>
                camera_walk cameraVertices mode rectifier pxCoords s t i' ri
                  (if delta vprev then sumRi else (sumRi + term)%Q)
            end
      end
  end.

(** "Consider hypothetical connection strategies along the light subpath":
    [for (int i = s - 1; i >= 0; --i)]; [n] is [i + 1]. *)
Fixpoint light_walk (lightVertices : list Vertex) (mode : MisStrategy)
    (rectifier : option SAMISRectifier) (pxCoords : Point2i) (s t : Z)
    (n : nat) (ri sumRi : Float) : option Float :=
  match n with
  | O => Some sumRi
  | S i =>
      match lightVertices !! i with
      | None => None
      | Some vi =>
          let ri := (ri * (remap0 (pdfRev vi) / remap0 (pdfFwd vi)))%Q in
          let term :=
            (effDensRatio mode ri
             * stratFactor rectifier pxCoords (s + t) (s + t - Z.of_nat i))%Q in
          match
            (match i with
             | O => option_map IsDeltaLight (lightVertices !! O)
             | S i' => option_map delta (lightVertices !! i')
             end)
          with
          | None => None
          | Some deltaLightvertex =>
              light_walk lightVertices mode rectifier pxCoords s t i ri
                (if negb (delta vi) && negb deltaLightvertex
                 then (sumRi + term)%Q else sumRi)
          end
      end
  end.

Definition MISWeight (scene : Scene) (sampled : Vertex) (s t : Z)
    (lightPdf : Distribution1D) (lightToIndex : LightToIndex)
    (pxCoords : Point2i) (rectifier : option SAMISRectifier)
    (mode : MisStrategy) : M Float :=
  if s + t =? 2 then ret 1%Q
  else
    let* scopes := update_for_strategy scene sampled s t lightPdf lightToIndex in
    let* st := get_state in
    let* sumRi :=
      lift (camera_walk (cameraVertices st) mode rectifier pxCoords s t
              (Z.to_nat (t - 1)) 1 0) in
    let* sumRi :=
      lift (light_walk (lightVertices st) mode rectifier pxCoords s t
              (Z.to_nat s) 1 sumRi) in
    let stratFactorCurTech := stratFactor rectifier pxCoords (s + t) t in
    let weight := (1 / (1 + sumRi / stratFactorCurTech))%Q in
    let* _ := restore_all scopes in
    ret weight.

(** *** The weight as the specification words it

    For a subpath [path] joined after its first [n] vertices, the ratio
    [r_i] is the product of [remap0 pdfRev / remap0 pdfFwd] over the
    vertices [i .. n-1], taken from the connection end. *)

Definition ratio (v : Vertex) : Float :=
  (remap0 (pdfRev v) / remap0 (pdfFwd v))%Q.

Definition density_ratio (path : list Vertex) (n i : nat) : Float :=
  fold_left Qmult (map ratio (rev (firstn (n - i) (skipn i path)))) 1%Q.

Definition is_delta (path : list Vertex) (i : nat) : bool :=
  match path !! i with Some v => delta v | None => true end.

(** Hypothetical strategies on the camera side: [i] camera vertices,
    for [i] from [t - 1] down to [1], kept when neither [z_i] nor
    [z_{i-1}] is delta. *)
Definition camera_terms (cam : list Vertex) (mode : MisStrategy)
    (alpha : Z -> Float) (t : nat) : list Float :=
  map (fun i => (effDensRatio mode (density_ratio cam t i) * alpha (Z.of_nat i))%Q)
      (List.filter (fun i => negb (is_delta cam i) && negb (is_delta cam (i - 1)))
              (rev (seq 1 (t - 1)))).

(** Hypothetical strategies on the light side: [i] light vertices, for
    [i] from [s - 1] down to [0]; at [i = 0] the predecessor test is
    [IsDeltaLight] of the first light vertex.  The strategy then has
    [s + t - i] camera vertices. *)
Definition light_terms (lv : list Vertex) (mode : MisStrategy)
    (alpha : Z -> Float) (s : nat) (t : Z) : list Float :=
  map (fun i => (effDensRatio mode (density_ratio lv s i)
                 * alpha (Z.of_nat s + t - Z.of_nat i)%Z)%Q)
      (List.filter (fun i =>
                 negb (is_delta lv i)
                 && negb (match i with
                          | O => match lv !! O with
                                 | Some v => IsDeltaLight v
                                 | None => true
                                 end
                          | S i' => is_delta lv i'
                          end))
              (rev (seq 0 s))).

Definition spec_sumRi (st : St) (mode : MisStrategy)
    (rectifier : option SAMISRectifier) (pxCoords : Point2i) (s t : Z) : Float :=
  let alpha := stratFactor rectifier pxCoords (s + t) in
  fold_left Qplus
    (camera_terms (cameraVertices st) mode alpha (Z.to_nat t)
     ++ light_terms (lightVertices st) mode alpha (Z.to_nat s) t)
    0%Q.

(** *** Hypotheses on densities

    The densities stored in a vertex are non-negative; so are the ones the
    vertex queries of bdpt.h compute; the rectifier's factors are
    positive. *)

Definition vertex_nonneg (v : Vertex) : Prop :=
  (0 <= pdfFwd v)%Q /\ (0 <= pdfRev v)%Q.

Definition densities_nonneg : Prop :=
  (forall v scene prev next, (0 <= Pdf v scene prev next)%Q)
  /\ (forall v scene next, (0 <= PdfLight v scene next)%Q)
  /\ (forall v scene next distr idx,
        (0 <= PdfLightOrigin v scene next distr idx)%Q).

Definition rectifier_positive (rectifier : option SAMISRectifier) : Prop :=
  forall r, rectifier = Some r ->
    forall pxCoords d t, (0 < Get r pxCoords d t)%Q.

(** A call the render loop can make: [s] light and [t] camera vertices
    are there, and the strategy has at least two vertices. *)
Definition valid_call (s t : Z) (st : St) : Prop :=
  0 <= s <= Z.of_nat (length (lightVertices st))
  /\ 1 <= t <= Z.of_nat (length (cameraVertices st))
  /\ 2 <= s + t.

End MIS.

(** ** Connecting two subpaths *)

Section Connect.
Context {T : Types} {W : World}.

(** The generalized geometric term between two vertices. *)
Definition G (scene : Scene) (v0 v1 : Vertex) : M Spectrum :=
  let d := psub (Vertex_p v0) (Vertex_p v1) in
  let g := (1 / LengthSquared d)%Q in
  let d := vscale d (fsqrt g) in
  let g := if IsOnSurface v0 then (g * AbsDot d (Vertex_ns v0))%Q else g in
  let g := if IsOnSurface v1 then (g * AbsDot d (Vertex_ns v1))%Q else g in
  let vis := VisibilityTester_new (GetInteraction v0) (GetInteraction v1) in
  let* tr := with_sampler (Tr vis scene) in
  ret (Spec.scale tr g).

(** "Perform connection and write contribution to L": the four cases of
    [ConnectBDPT].  Returns the unweighted contribution [L], the vertex
    [sampled] and the raster position. *)
Definition connect (scene : Scene) (s t : Z) (lightDistr : Distribution1D)
    (lightToIndex : LightToIndex) (camera : Camera) (pRaster : Point2f)
    : M (Spectrum * Vertex * Point2f) :=
  let L := Spectrum_const 0 in
  let sampled := Vertex_default in
  if s =? 0 then
    (* Interpret the camera subpath as a complete path *)
    let* pt := load (CameraArr, t - 1) in
    if IsLight pt then
      let* ptMinus := load (CameraArr, t - 2) in
      ret (Spec.mul (Vertex_Le pt scene ptMinus) (beta pt), sampled, pRaster)
    else ret (L, sampled, pRaster)
  else if t =? 1 then
    (* Sample a point on the camera and connect it to the light subpath *)
    let* qs := load (LightArr, s - 1) in
    if IsConnectible qs then
      let* u := with_sampler Get2D in
      let r := Sample_Wi camera (GetInteraction qs) u pRaster in
      let pRaster := wi_pRaster r in
      if fgt (wi_pdf r) 0 && negb (Spec.IsBlack (Wi r)) then
        let sampled :=
          CreateCamera_it camera (P1 (wi_vis r)) (Spec.div (Wi r) (wi_pdf r)) in
        let L :=
          Spec.mul (Spec.mul (beta qs) (Vertex_f qs sampled Importance))
            (beta sampled) in
        let L :=
          if IsOnSurface qs
          then Spec.scale L (AbsDot (wi_dir r) (Vertex_ns qs)) else L in
        if negb (Spec.IsBlack L) then
          let* tr := with_sampler (Tr (wi_vis r) scene) in
          ret (Spec.mul L tr, sampled, pRaster)
        else ret (L, sampled, pRaster)
      else ret (L, sampled, pRaster)
    else ret (L, sampled, pRaster)
  else if s =? 1 then
    (* Sample a point on a light and connect it to the camera subpath *)
    let* pt := load (CameraArr, t - 1) in
    if IsConnectible pt then
      let* u1 := with_sampler Get1D in
      let '(lightNum, lightPdf) := SampleDiscrete lightDistr u1 in
      let* light :=
        lift (if 0 <=? lightNum then lights scene !! Z.to_nat lightNum
              else None) in
      let* u2 := with_sampler Get2D in
      let r := Sample_Li light (GetInteraction pt) u2 in
      if fgt (li_pdf r) 0 && negb (Spec.IsBlack (Li r)) then
        let e := EndpointInteraction_light_it (P1 (li_vis r)) light in
        let sampled :=
          CreateLight_ei e (Spec.div (Li r) (li_pdf r * lightPdf)%Q) 0 in
        let sampled :=
          set_pdfFwd (PdfLightOrigin sampled scene pt lightDistr lightToIndex)
            sampled in
        let L :=
          Spec.mul (Spec.mul (beta pt) (Vertex_f pt sampled Radiance))
            (beta sampled) in
        let L :=
          if IsOnSurface pt
          then Spec.scale L (AbsDot (li_dir r) (Vertex_ns pt)) else L in
        if negb (Spec.IsBlack L) then
          let* tr := with_sampler (Tr (li_vis r) scene) in
          ret (Spec.mul L tr, sampled, pRaster)
        else ret (L, sampled, pRaster)
      else ret (L, sampled, pRaster)
    else ret (L, sampled, pRaster)
  else
    (* Handle all other bidirectional connection cases *)
    let* qs := load (LightArr, s - 1) in
    let* pt := load (CameraArr, t - 1) in
    if IsConnectible qs && IsConnectible pt then
      let L :=
        Spec.mul
          (Spec.mul (Spec.mul (beta qs) (Vertex_f qs pt Importance))
             (Vertex_f pt qs Radiance))
          (beta pt) in
      if negb (Spec.IsBlack L) then
        let* g := G scene qs pt in
        ret (Spec.mul L g, sampled, pRaster)
      else ret (L, sampled, pRaster)
    else ret (L, sampled, pRaster).

(** "Ignore invalid connections related to infinite area lights": the
    test of the early return. *)
Definition infinite_light_guard (s t : Z) : M bool :=
  if (1 <? t) && negb (s =? 0) then
    let* pt := load (CameraArr, t - 1) in
    ret (VertexType.eqb (type pt) VertexType.Light)
  else ret false.

(** [*misWeightPtr = misWeight] behind [if (misWeightPtr)]: [None] is the
    null pointer, [Some w] a pointer to a Float holding [w]. *)
Definition write_through (misWeightPtr : option Float) (misWeight : Float)
    : option Float :=
  match misWeightPtr with
  | Some _ => Some misWeight
  | None => None
  end.

(** [ConnectBDPT] with the weight function as a parameter [mis], which
    receives [sampled] and the pixel coordinates.  The result is the
    returned spectrum, the raster position and the Float behind
    [misWeightPtr]. *)
Definition ConnectBDPT_with (mis : Vertex -> Point2i -> M Float)
    (scene : Scene) (s t : Z) (lightDistr : Distribution1D)
    (lightToIndex : LightToIndex) (camera : Camera) (pRaster : Point2f)
    (misWeightPtr : option Float) : M (Spectrum * Point2f * option Float) :=
  let* invalid := infinite_light_guard s t in
  if invalid then ret (Spectrum_const 0, pRaster, misWeightPtr)
  else
    let* '(L, sampled, pRaster) :=
      connect scene s t lightDistr lightToIndex camera pRaster in
    (* Compute MIS weight for connection strategy *)
    let* misWeight :=
      (if Spec.IsBlack L then ret 0%Q
       else mis sampled (Point2i_of pRaster)) in
    let L := Spec.scale L misWeight in
    ret (L, pRaster, write_through misWeightPtr misWeight).

Definition ConnectBDPT (scene : Scene) (s t : Z) (lightDistr : Distribution1D)
    (lightToIndex : LightToIndex) (camera : Camera) (pRaster : Point2f)
    (misWeightPtr : option Float) (rectifier : option SAMISRectifier)
    (misStrategy : MisStrategy) : M (Spectrum * Point2f * option Float) :=
  ConnectBDPT_with
    (fun sampled pxCoords =>
       MISWeight scene sampled s t lightDistr lightToIndex pxCoords rectifier
         misStrategy)
    scene s t lightDistr lightToIndex camera pRaster misWeightPtr.

End Connect.

(** ** The strategy loop of a pixel sample *)

Section Strategies.
Context {T : Types} {W : World}.

(** [for (int i = lo; ...; ++i)] run [n] times, threading the local
    variables [a] of the enclosing block. *)
Fixpoint for_loop {A} (n : nat) (i : Z) (body : Z -> A -> M A) (a : A) : M A :=
  match n with
  | O => ret a
  | S k => let* a' := body i a in for_loop k (i + 1) body a'
  end.

Definition AddSplat (p : Point2f) (v : Spectrum) : M unit :=
  fun st =>
    Some (tt, mkSt (sampler st) (lightVertices st) (cameraVertices st)
                (splats st ++ [(p, v)]) (rectifierLog st) (varianceLog st)).

(** [rectifier->AddEstimate(pFilm, depth, t, unweighted, weighted)]; the
    rectifier pointer must not be null. *)
Definition Rectifier_AddEstimate (rectifier : option SAMISRectifier)
    (p : Point2f) (d t : Z) (unweighted weighted : Spectrum) : M unit :=
  fun st =>
    match rectifier with
    | None => None
    | Some _ =>
        Some (tt, mkSt (sampler st) (lightVertices st) (cameraVertices st)
                    (splats st)
                    (rectifierLog st ++ [(p, d, t, unweighted, weighted)])
                    (varianceLog st))
    end.

(** The number of variance estimators [Render] allocates:
    [t = 1 .. d + 2] for every [d = 0 .. maxDepth]. *)
Definition nVarianceEstimators (maxDepth : Z) : Z :=
  fold_left (fun n d => n + (d + 2)) (seqZ 0 (maxDepth + 1)) 0.

(** [varianceEstimators[i]->AddEstimate(pFilm, unweighted)]. *)
Definition Variance_AddEstimate (maxDepth : Z) (i : Z) (p : Point2f)
    (unweighted : Spectrum) : M unit :=
  fun st =>
    if (0 <=? i) && (i <? nVarianceEstimators maxDepth)
    then Some (tt, mkSt (sampler st) (lightVertices st) (cameraVertices st)
                     (splats st) (rectifierLog st)
                     (varianceLog st ++ [(i, p, unweighted)]))
    else None.

(** [(misWeight == 0 || Lpath == 0) ? 0 : (Lpath / misWeight)] *)
Definition unweighted_of (misWeight : Float) (Lpath : Spectrum) : Spectrum :=
  if Qeq_bool misWeight 0 || Spec.eqb Lpath (Spectrum_const 0)
  then Spectrum_const 0
  else Spec.div Lpath misWeight.

(** The part of the integrator and of [renderIterFn] the loop reads. *)
Record RenderParams := mkRenderParams {
  rp_scene : Scene;
  rp_camera : Camera;
  rp_maxDepth : Z;
  rp_misStrategy : MisStrategy;
  rp_rectifier : option SAMISRectifier;
  rp_rectify : bool;
  rp_estimateFactors : bool;
  rp_estimateVariances : bool;
}.

(** "Execute the (s, t) connection strategy and update L". *)
Definition execute_strategy (rp : RenderParams) (lightDistr : Distribution1D)
    (lightToIndex : LightToIndex) (pFilm : Point2f) (t s : Z) (L : Spectrum)
    : M Spectrum :=
  let pFilmNew := pFilm in
  let misWeight := 0%Q in
  let* '(Lpath, pFilmNew, misWeightOut) :=
    ConnectBDPT (rp_scene rp) s t lightDistr lightToIndex (rp_camera rp)
      pFilmNew (Some misWeight)
      (if rp_rectify rp then rp_rectifier rp else None)
      (rp_misStrategy rp) in
  let misWeight := default misWeight misWeightOut in
  let* L :=
    (if negb (t =? 1) then ret (Spec.add L Lpath)
     else let* _ := AddSplat pFilmNew Lpath in ret L) in
  (* for Stratification-Aware MIS: log the contribution *)
  let* _ :=
    (if rp_estimateFactors rp then
       Rectifier_AddEstimate (rp_rectifier rp) pFilmNew (s + t) t
         (unweighted_of misWeight Lpath) Lpath
     else ret tt) in
  let* _ :=
    (if rp_estimateVariances rp then
       Variance_AddEstimate (rp_maxDepth rp) (BufferIndex s t) pFilmNew
         (unweighted_of misWeight Lpath)
     else ret tt) in
  ret L.

(** The test in front of [continue]. *)
Definition skipped (maxDepth t s : Z) : bool :=
  let depth := t + s - 2 in
  ((s =? 1) && (t =? 1)) || (depth <? 0) || (maxDepth <? depth).

(** "Execute all BDPT connection strategies": the two nested loops, from
    [Spectrum L(0.f)] to the value of [L] after them. *)
Definition execute_strategies (rp : RenderParams) (lightDistr : Distribution1D)
    (lightToIndex : LightToIndex) (pFilm : Point2f) (nCamera nLight : Z)
    : M Spectrum :=
  for_loop (Z.to_nat nCamera) 1
    (fun t L =>
       for_loop (Z.to_nat (nLight + 1)) 0
         (fun s L =>
            if skipped (rp_maxDepth rp) t s then ret L
            else execute_strategy rp lightDistr lightToIndex pFilm t s L)
         L)
    (Spectrum_const 0).

(** *** The loop as the specification words it *)

(** The pairs [(s, t)] with [1 <= t <= nCamera], [0 <= s <= nLight],
    [0 <= s + t - 2 <= maxDepth] and [(s, t) <> (1, 1)], by increasing [t]
    and, for equal [t], increasing [s]. *)
Definition strategies (maxDepth nCamera nLight : Z) : list (Z * Z) :=
  t ← seqZ 1 nCamera;
  s ← seqZ 0 (nLight + 1);
  if decide (0 <= s + t - 2 <= maxDepth /\ (s, t) <> (1, 1))
  then [(s, t)] else [].

(** Runs [f] on every element of a list, in order. *)
Fixpoint foldM {A B} (f : B -> A -> M A) (l : list B) (a : A) : M A :=
  match l with
  | [] => ret a
  | b :: l' => let* a' := f b a in foldM f l' a'
  end.

End Strategies.

(** ** Subpath generation *)

Section Walk.
Context {T : Types} {W : World}.

Definition CorrectShadingNormal (isect : SurfaceInteraction) (wo wi : Vector3f)
    (mode : TransportMode) : Float :=
  match mode with
  | Importance =>
      let num := (AbsDot wo (si_shading_n isect) * AbsDot wi (si_n isect))%Q in
      let denom := (AbsDot wo (si_n isect) * AbsDot wi (si_shading_n isect))%Q in
      (* wi is occasionally perpendicular to isect.shading.n *)
      if Qeq_bool denom 0 then 0%Q else (num / denom)%Q
  | Radiance => 1%Q
  end.

(** The local variables of [RandomWalk] that live across iterations. *)
Record WalkState := mkWalk {
  w_ray : RayDifferential;
  w_beta : Spectrum;
  w_pdfFwd : Float;
  w_pdfRev : Float;
  w_bounces : Z;
}.

(** How an iteration of the loop ends: by [break], by [continue] at a
    medium boundary, or by reaching the end of the body after a direction
    was sampled at the new vertex ([specular] tells whether the sampled
    lobe was specular; it is false for a medium vertex). *)
Inductive Flow :=
| Break
| SkipBoundary
| Scattered (specular : bool).

(** "Compute reverse area density at preceding vertex":
    [prev.pdfRev = vertex.ConvertDensity(pdfRev, prev)]. *)
Definition update_prev_pdfRev (pv pprev : VertexPtr) (pdfRev : Float) : M unit :=
  let* vertex := load pv in
  let* prev := load pprev in
  store pprev (set_pdfRev (ConvertDensity vertex pdfRev prev) prev).

(** One iteration of [while (true)]; [path] is the pointer the caller
    passed, so that [path[bounces - 1]] is the caller's vertex when
    [bounces] is 0. *)
Definition RandomWalk_iter (scene : Scene) (maxDepth : Z) (mode : TransportMode)
    (path : VertexPtr) (w : WalkState) : M (Flow * WalkState) :=
  let pdfFwd := w_pdfFwd w in
  let pdfRev := w_pdfRev w in
  let bounces := w_bounces w in
  (* Trace a ray and sample the medium, if any *)
  let '(foundIntersection, ray) := Intersect scene (w_ray w) in
  let* '(beta, mi) :=
    match ray_medium ray with
    | Some medium =>
        let* '(weight, mi) := with_sampler (Medium_Sample medium ray) in
        ret (Spec.mul (w_beta w) weight, mi)
    | None => ret (w_beta w, None)
    end in
  if Spec.IsBlack beta then ret (Break, mkWalk ray beta pdfFwd pdfRev bounces)
  else
    let pv : VertexPtr := (path.1, path.2 + bounces) in
    let pprev : VertexPtr := (path.1, path.2 + bounces - 1) in
    match mi with
    | Some m =>
        (* Record medium interaction in path and compute forward density *)
        let* prev := load pprev in
        let* _ := store pv (CreateMedium m beta pdfFwd prev) in
        let bounces := bounces + 1 in
        if maxDepth <=? bounces
        then ret (Break, mkWalk ray beta pdfFwd pdfRev bounces)
        else
          (* Sample direction and compute reverse density at preceding vertex *)
          let* u := with_sampler Get2D in
          let '(p, wi) := Sample_p m (vneg (ray_d ray)) u in
          let pdfFwd := p in
          let pdfRev := p in
          let ray := mi_SpawnRay m wi in
          let* _ := update_prev_pdfRev pv pprev pdfRev in
          ret (Scattered false, mkWalk ray beta pdfFwd pdfRev bounces)
    | None =>
        (* Handle surface interaction for path generation *)
        match foundIntersection with
        | None =>
            (* Capture escaped rays when tracing from the camera *)
            match mode with
            | Radiance =>
                let* _ :=
                  store pv (CreateLight_ei (EndpointInteraction_ray ray) beta pdfFwd) in
                ret (Break, mkWalk ray beta pdfFwd pdfRev (bounces + 1))
            | Importance => ret (Break, mkWalk ray beta pdfFwd pdfRev bounces)
            end
        | Some isect =>
            (* Compute scattering functions for mode and skip over medium
               boundaries *)
            match ComputeScatteringFunctions isect ray mode with
            | None =>
                let ray := si_SpawnRay isect (ray_d ray) in
                ret (SkipBoundary, mkWalk ray beta pdfFwd pdfRev bounces)
            | Some bsdf =>
                (* Initialize vertex with surface intersection information *)
                let* prev := load pprev in
                let* _ := store pv (CreateSurface isect beta pdfFwd prev) in
                let bounces := bounces + 1 in
                if maxDepth <=? bounces
                then ret (Break, mkWalk ray beta pdfFwd pdfRev bounces)
                else
                  (* Sample BSDF at current vertex and compute reverse
                     probability *)
                  let wo := si_wo isect in
                  let* u := with_sampler Get2D in
                  let r := Sample_f bsdf wo u in
                  let wi := bs_wi r in
                  let f := bs_f r in
                  let pdfFwd := bs_pdf r in
                  if Spec.IsBlack f || Qeq_bool pdfFwd 0
                  then ret (Break, mkWalk ray beta pdfFwd pdfRev bounces)
                  else
                    let beta :=
                      Spec.mul beta
                        (Spec.div (Spec.scale f (AbsDot wi (si_shading_n isect)))
                           pdfFwd) in
                    let pdfRev := BSDF_Pdf bsdf wi wo in
                    let* '(pdfFwd, pdfRev) :=
                      (if bs_specular r then
                         let* vertex := load pv in
                         let* _ := store pv (set_delta true vertex) in
                         ret (0%Q, 0%Q)
                       else ret (pdfFwd, pdfRev)) in
                    let beta :=
                      Spec.scale beta (CorrectShadingNormal isect wo wi mode) in
                    let ray := si_SpawnRay isect wi in
                    let* _ := update_prev_pdfRev pv pprev pdfRev in
                    ret (Scattered (bs_specular r),
                         mkWalk ray beta pdfFwd pdfRev bounces)
            end
        end
    end.

(** The loop, cut after [fuel] iterations: [None] when the walk has not
    left the loop by then. *)
Fixpoint RandomWalk_loop (fuel : nat) (scene : Scene) (maxDepth : Z)
    (mode : TransportMode) (path : VertexPtr) (w : WalkState) : M (option Z) :=
  match fuel with
  | O => ret None
  | S fuel' =>
      let* '(flow, w') := RandomWalk_iter scene maxDepth mode path w in
      match flow with
      | Break => ret (Some (w_bounces w'))
      | _ => RandomWalk_loop fuel' scene maxDepth mode path w'
      end
  end.

Definition RandomWalk (fuel : nat) (scene : Scene) (ray : RayDifferential)
    (beta : Spectrum) (pdf : Float) (maxDepth : Z) (mode : TransportMode)
    (path : VertexPtr) : M (option Z) :=
  if maxDepth =? 0 then ret (Some 0)
  else
    let bounces := 0 in
    (* Declare variables for forward and reverse probability densities *)
    let pdfFwd := pdf in
    let pdfRev := 0%Q in
    RandomWalk_loop fuel scene maxDepth mode path
      (mkWalk ray beta pdfFwd pdfRev bounces).

(** The number of [continue]s among the first [fuel] iterations. *)
Fixpoint boundary_skips (fuel : nat) (scene : Scene) (maxDepth : Z)
    (mode : TransportMode) (path : VertexPtr) (w : WalkState) (st : St) : nat :=
  match fuel with
  | O => O
  | S fuel' =>
      match RandomWalk_iter scene maxDepth mode path w st with
      | Some ((SkipBoundary, w'), st') =>
          S (boundary_skips fuel' scene maxDepth mode path w' st')
      | Some ((Scattered _, w'), st') =>
          boundary_skips fuel' scene maxDepth mode path w' st'
      | _ => O
      end
  end.

Definition GenerateCameraSubpath (fuel : nat) (scene : Scene) (maxDepth : Z)
    (camera : Camera) (pFilm : Point2f) (path : VertexPtr) : M (option Z) :=
  if maxDepth =? 0 then ret (Some 0)
  else
    (* Sample initial ray for camera subpath *)
    let* time := with_sampler Get1D in
    let* pLens := with_sampler Get2D in
    let '(beta, ray) := GenerateRayDifferential camera pFilm time pLens in
    let* st := get_state in
    let ray :=
      ScaleDifferentials ray (1 / fsqrt (samplesPerPixel (sampler st)))%Q in
    (* Generate first vertex on camera subpath and start random walk *)
    let* _ := store path (CreateCamera camera ray beta) in
    let '(pdfPos, pdfDir) := Pdf_We camera ray in
    let* n :=
      RandomWalk fuel scene ray beta pdfDir (maxDepth - 1) Radiance
        (path.1, path.2 + 1) in
    ret (option_map (fun n => n + 1) n).

Definition GenerateLightSubpath (fuel : nat) (scene : Scene) (maxDepth : Z)
    (time : Float) (lightDistr : Distribution1D) (lightToIndex : LightToIndex)
    (path : VertexPtr) : M (option Z) :=
  if maxDepth =? 0 then ret (Some 0)
  else
    (* Sample initial ray for light subpath *)
    let* u := with_sampler Get1D in
    let '(lightNum, lightPdf) := SampleDiscrete lightDistr u in
    let* light :=
      lift (if 0 <=? lightNum then lights scene !! Z.to_nat lightNum
            else None) in
    (* the two calls of Get2D are arguments of one call; the model takes
       them left to right *)
    let* u1 := with_sampler Get2D in
    let* u2 := with_sampler Get2D in
    let r := Sample_Le light u1 u2 time in
    let ray := le_ray r in
    let pdfPos := le_pdfPos r in
    let pdfDir := le_pdfDir r in
    if Qeq_bool pdfPos 0 || Qeq_bool pdfDir 0 || Spec.IsBlack (Le_L r)
    then ret (Some 0)
    else
      (* Generate first vertex on light subpath and start random walk *)
      let* _ :=
        store path
          (CreateLight light ray (le_nLight r) (Le_L r) (pdfPos * lightPdf)%Q) in
      let beta :=
        Spec.div (Spec.scale (Le_L r) (AbsDot (ray_d ray) (le_nLight r)))
          (lightPdf * pdfPos * pdfDir)%Q in
      let* n :=
        RandomWalk fuel scene ray beta pdfDir (maxDepth - 1) Importance
          (path.1, path.2 + 1) in
      match n with
      | None => ret None
      | Some nVertices =>
          (* Correct subpath sampling densities for infinite area lights *)
          let* v0 := load path in
          let* _ :=
            (if IsInfiniteLight v0 then
               (* Set spatial density of path[1] for infinite area light *)
               let* _ :=
                 (if 0 <? nVertices then
                    let p1 : VertexPtr := (path.1, path.2 + 1) in
                    let* v1 := load p1 in
                    let v1 := set_pdfFwd pdfPos v1 in
                    let v1 :=
                      if IsOnSurface v1
                      then set_pdfFwd
                             (pdfFwd v1 * AbsDot (ray_d ray) (Vertex_ng v1))%Q v1
                      else v1 in
                    store p1 v1
                  else ret tt) in
               (* Set spatial density of path[0] for infinite area light *)
               let* v0 := load path in
               store path
                 (set_pdfFwd
                    (InfiniteLightDensity scene lightDistr lightToIndex (ray_d ray))
                    v0)
             else ret tt) in
          ret (Some (nVertices + 1))
      end.

End Walk.

(** ** Predicates on computations and states

    The vocabulary of the statements below: what a computation may
    change, when its accesses are defined, and which states it keeps. *)

Section Predicates.
Context {T : Types}.

(** The lengths of the two arrays: what decides whether an access is
    defined. *)
Definition shape (st : St) : nat * nat :=
  (length (lightVertices st), length (cameraVertices st)).

Definition lawful {A} (F : Field A) : Prop :=
  forall (v : Vertex) (a : A), fset F (fget F v) (fset F a v) = v.

(** A computation that only reads the state. *)
Definition readonly {A} (c : M A) : Prop :=
  forall st x st', c st = Some (x, st') -> st' = st.

(** [a] was set up between [st] and [st'], and its destructor leads back. *)
Definition undoable {A} (a : ScopedAssignment A) (st st' : St) : Prop :=
  scoped_restore a st' = Some (tt, st) /\ shape st' = shape st.

(** [c] is defined, and keeps the array lengths, on every state whose
    arrays have the lengths [n]. *)
Definition safe {A} (n : nat * nat) (c : M A) : Prop :=
  forall st, shape st = n ->
    exists a st', c st = Some (a, st') /\ shape st' = n.

Definition ptr_ok (n : nat * nat) (p : VertexPtr) : Prop :=
  0 <= p.2 < Z.of_nat (match p.1 with LightArr => n.1 | CameraArr => n.2 end).

Definition nonneg_state (st : St) : Prop :=
  Forall vertex_nonneg (lightVertices st)
  /\ Forall vertex_nonneg (cameraVertices st).

(** Every value [c] can return satisfies [Q]. *)
Definition returns {A} (Q : A -> Prop) (c : M A) : Prop :=
  forall st x st', c st = Some (x, st') -> Q x.

(** What the film and the estimators have received is unchanged. *)
Definition outputs_kept (st st' : St) : Prop :=
  splats st' = splats st
  /\ rectifierLog st' = rectifierLog st
  /\ varianceLog st' = varianceLog st.

Definition keeps_outputs {A} (c : M A) : Prop :=
  forall st a st', c st = Some (a, st') -> outputs_kept st st'.

Definition other (a : Array) : Array :=
  match a with LightArr => CameraArr | CameraArr => LightArr end.

(** Between [st] and [st'] only the sampler and the entries [lo .. hi-1]
    of the array [a] may differ. *)
Definition frame (a : Array) (lo hi : Z) (st st' : St) : Prop :=
  shape st' = shape st
  /\ array_of (other a) st' = array_of (other a) st
  /\ (forall i : nat,
         Z.of_nat i < lo \/ hi <= Z.of_nat i ->
         array_of a st' !! i = array_of a st !! i)
  /\ outputs_kept st st'.

End Predicates.

(** ** Image tiles

    [Render] partitions the sample bounds of the film into tiles of
    16 x 16 samples and seeds the sampler of every tile from its index. *)

Record Bounds2i := mkBounds2i { pMin : Point2i; pMax : Point2i }.

Definition tileSize : Z := 16.

(** [(sampleExtent.x + tileSize - 1) / tileSize]; the division of [int]
    truncates toward zero. *)
Definition nXTiles (sampleExtent : Z * Z) : Z :=
  Z.quot (sampleExtent.1 + tileSize - 1) tileSize.

Definition nYTiles (sampleExtent : Z * Z) : Z :=
  Z.quot (sampleExtent.2 + tileSize - 1) tileSize.

(** The bounds of the tile [tile], as the body of the parallel loop
    computes them. *)
Definition tileBounds (sampleBounds : Bounds2i) (tile : Point2i) : Bounds2i :=
  let x0 := (pMin sampleBounds).1 + tile.1 * tileSize in
  let x1 := Z.min (x0 + tileSize) (pMax sampleBounds).1 in
  let y0 := (pMin sampleBounds).2 + tile.2 * tileSize in
  let y1 := Z.min (y0 + tileSize) (pMax sampleBounds).2 in
  mkBounds2i (x0, y0) (x1, y1).

(** ** Writing the variance estimators

    The loops at the end of [Render] that write one pair of files per
    estimator: every entry is the estimator index [idx] with the depth
    [d] and the strategy [t] that go into the file names
    [variance-d%d-t%d.exr] and [factor-d%d-t%d.exr]. *)
Definition variance_files (maxDepth : Z) : list (Z * (Z * Z)) :=
  (fold_left
     (fun (acc : Z * list (Z * (Z * Z))) (d : Z) =>
        fold_left
          (fun (acc : Z * list (Z * (Z * Z))) (t : Z) =>
             let idx := acc.1 in
             (idx + 1, acc.2 ++ [(idx, (d, t))]))
          (seqZ 1 (d + 2)) acc)
     (seqZ 0 (maxDepth + 1)) (0, [])).2.

(** The samples the loop over a tile visits: [pMin <= p < pMax] in both
    coordinates. *)
Definition visits (b : Bounds2i) (p : Point2i) : Prop :=
  ((pMin b).1 <= p.1 < (pMax b).1) /\ ((pMin b).2 <= p.2 < (pMax b).2).

(** The tiles the parallel loop runs: [0 <= tile < (nXTiles, nYTiles)]. *)
Definition is_tile (sampleExtent : Z * Z) (tile : Point2i) : Prop :=
  (0 <= tile.1 < nXTiles sampleExtent) /\ (0 <= tile.2 < nYTiles sampleExtent).

(** ** Computations that only draw samples *)

Section SamplerOnly.
Context {T : Types}.

(** Between [st] and [st'] at most the sampler differs. *)
Definition sampler_only (st st' : St) : Prop :=
  lightVertices st' = lightVertices st
  /\ cameraVertices st' = cameraVertices st
  /\ outputs_kept st st'.

Definition draws_only {A} (c : M A) : Prop :=
  forall st a st', c st = Some (a, st') -> sampler_only st st'.

End SamplerOnly.

(** ** Recorded vertices *)

Section Recorded.
Context {T : Types}.

(** A vertex in the interior of a subpath: a scattering event on a
    surface or in a medium, carrying a throughput that is not black. *)
Definition scattering_vertex (v : Vertex) : Prop :=
  Spec.IsBlack (beta v) = false
  /\ (type v = VertexType.Surface \/ type v = VertexType.Medium).

(** The light vertex that records an escaped ray. *)
Definition escaped_vertex (v : Vertex) : Prop :=
  Spec.IsBlack (beta v) = false /\ type v = VertexType.Light.

End Recorded.

(** ** The two passes of [Render] *)

(** The fields of [BDPTIntegrator] that [Render] reads in the code
    modelled here. *)
Record BDPTIntegrator := mkIntegrator {
  i_maxDepth : Z;
  i_misStrategy : MisStrategy;
  i_misMod : MisModification;
  i_prepassSamples : Z;
  i_estimateVariances : bool;
  i_useReferenceVariances : bool;
}.

(** [bool enableRectification = misMod != MIS_MOD_NONE] *)
Definition enableRectification (I : BDPTIntegrator) : bool :=
  match i_misMod I with
  | MIS_MOD_NONE => false
  | _ => true
  end.

(** The two calls of [renderIterFn]. *)
Inductive Pass := Prepass | MainPass.

(** The arguments [sampleCount], [sampleOffset], [estimateFactors] and
    [rectify] of the two calls; [samplesPerPixel] is the sample count of
    the sampler. *)
Definition sampleCount (I : BDPTIntegrator) (samplesPerPixel : Z) (p : Pass) : Z :=
  match p with
  | Prepass => i_prepassSamples I
  | MainPass => samplesPerPixel - i_prepassSamples I
  end.

Definition sampleOffset (p : Pass) : Z :=
  match p with Prepass => 0 | MainPass => 1 end.

Definition estimateFactors (I : BDPTIntegrator) (p : Pass) : bool :=
  match p with
  | Prepass => enableRectification I
  | MainPass => false
  end.

Definition rectify (I : BDPTIntegrator) (p : Pass) : bool :=
  match p with
  | Prepass => i_useReferenceVariances I
  | MainPass => enableRectification I || i_useReferenceVariances I
  end.

Section Passes.
Context {T : Types} {W : World}.

(** "Configure the rectifier": [rectifier] stays null unless
    rectification or the reference variances are enabled; [created] is
    the object that [new SAMISRectifier(...)] yields. *)
Definition configure_rectifier (I : BDPTIntegrator) (created : SAMISRectifier)
    : option SAMISRectifier :=
  if enableRectification I || i_useReferenceVariances I
  then Some created else None.

(** What the strategy loop of a pass reads. *)
Definition pass_params (I : BDPTIntegrator) (scene : Scene) (camera : Camera)
    (created : SAMISRectifier) (p : Pass) : RenderParams :=
  mkRenderParams scene camera (i_maxDepth I) (i_misStrategy I)
    (configure_rectifier I created) (rectify I p) (estimateFactors I p)
    (i_estimateVariances I).

(** [arena.Alloc<Vertex>(n)]: [n] default-constructed vertices.  A
    negative [n], converted to [size_t], has no defined outcome here. *)
Definition Alloc (n : Z) : option (list Vertex) :=
  if 0 <=? n then Some (replicate (Z.to_nat n) Vertex_default) else None.

Definition set_arrays (lv cv : list Vertex) : M unit :=
  fun st =>
    Some (tt, mkSt (sampler st) lv cv (splats st) (rectifierLog st)
                (varianceLog st)).

(** "Generate a single sample using BDPT": the body of the [do] loop up
    to the call of [filmTile->AddSample], whose two arguments are the
    result.  [Lookup] is [lightDistribution->Lookup].  [None] when a
    random walk has run out of fuel. *)
Definition generate_sample (Lookup : Point3f -> Distribution1D) (fuel : nat)
    (rp : RenderParams) (lightToIndex : LightToIndex) (pPixel : Point2i)
    : M (option (Point2f * Spectrum)) :=
  let maxDepth := rp_maxDepth rp in
  let* u := with_sampler Get2D in
  let pFilm :=
    mkPoint2f (inject_Z pPixel.1 + x u)%Q (inject_Z pPixel.2 + y u)%Q in
  (* Trace the camera subpath *)
  let* cameraVertices := lift (Alloc (maxDepth + 2)) in
  let* lightVertices := lift (Alloc (maxDepth + 1)) in
  let* _ := set_arrays lightVertices cameraVertices in
  let* nCamera :=
    GenerateCameraSubpath fuel (rp_scene rp) (maxDepth + 2) (rp_camera rp)
      pFilm (CameraArr, 0) in
  match nCamera with
  | None => ret None
  | Some nCamera =>
      let* c0 := load (CameraArr, 0) in
      let lightDistr := Lookup (Vertex_p c0) in
      (* Now trace the light subpath *)
      let* c0 := load (CameraArr, 0) in
      let* nLight :=
        GenerateLightSubpath fuel (rp_scene rp) (maxDepth + 1) (Vertex_time c0)
          lightDistr lightToIndex (LightArr, 0) in
      match nLight with
      | None => ret None
      | Some nLight =>
          (* Execute all BDPT connection strategies *)
          let* L :=
            execute_strategies rp lightDistr lightToIndex pFilm nCamera nLight in
          ret (Some (pFilm, L))
      end
  end.

(** [do { body } while (curSample++ < sampleCount &&
    tileSampler->StartNextSample());] with [remaining] the number of
    times the test [curSample++ < sampleCount] still succeeds:
    [sampleCount - curSample], or 0 when that is negative. *)
Fixpoint sample_loop (StartNextSample : Sampler -> bool * Sampler)
    (remaining : nat) (body : M unit) : M unit :=
  let* _ := body in
  match remaining with
  | O => ret tt
  | S remaining' =>
      let* more := with_sampler StartNextSample in
      if more then sample_loop StartNextSample remaining' body else ret tt
  end.

(** The loop of a pixel, entered with [int curSample = 1]. *)
Definition pixel_samples (StartNextSample : Sampler -> bool * Sampler)
    (sampleCount : Z) (body : M unit) : M unit :=
  sample_loop StartNextSample (Z.to_nat (sampleCount - 1)) body.

End Passes.

(** ** Merging the two frame buffers *)

Section Merge.
Context {T : Types}.

(** [Float invSampleCount = 1.0f / sampler->samplesPerPixel] and the two
    weights. *)
Definition invSampleCount (samplesPerPixel : Z) : Float :=
  (1 / inject_Z samplesPerPixel)%Q.

Definition weightPrepass (I : BDPTIntegrator) (samplesPerPixel : Z) : Float :=
  (inject_Z (i_prepassSamples I) * invSampleCount samplesPerPixel)%Q.

Definition weightRectified (I : BDPTIntegrator) (samplesPerPixel : Z) : Float :=
  (inject_Z (samplesPerPixel - i_prepassSamples I)
   * invSampleCount samplesPerPixel)%Q.

(** [v[i]] and [v[i] = a] on a [std::vector<Float>]: outside the vector
    there is no defined behaviour. *)
Definition vget (v : list Float) (i : nat) : option Float := v !! i.

Definition vset (v : list Float) (i : nat) (a : Float) : option (list Float) :=
  if (i <? length v)%nat then Some (<[i := a]> v) else None.

(** [enableRectification && rectifier->IsMasked(px)] *)
Definition masked (IsMasked : SAMISRectifier -> Point2i -> bool)
    (I : BDPTIntegrator) (rectifier : option SAMISRectifier) (px : Point2i)
    : option bool :=
  if enableRectification I then
    match rectifier with
    | Some r => Some (IsMasked r px)
    | None => None
    end
  else Some false.

(** One assignment [out[offset + c] = ...] of the merge loop.  [out] and
    [prepass] are two references to [frameBuffers[0]], here [fb0];
    [rectified] is [frameBuffers[1]]. *)
Definition merge_channel (m : bool) (wP wR : Float) (rectified : list Float)
    (i : nat) (fb0 : list Float) : option (list Float) :=
  if m then
    r ← vget rectified i;
    vset fb0 i r
  else
    p ← vget fb0 i;
    r ← vget rectified i;
    vset fb0 i (p * wP + r * wR)%Q.

(** "Weight and merge the buffers": the loop over the pixels of
    [film->croppedPixelBounds], given in iteration order as [pixels]; the
    result is [frameBuffers[0]], that is [out], after the loop. *)
Fixpoint merge_buffers (IsMasked : SAMISRectifier -> Point2i -> bool)
    (I : BDPTIntegrator) (rectifier : option SAMISRectifier)
    (samplesPerPixel : Z) (rectified : list Float) (pixels : list Point2i)
    (offset : nat) (fb0 : list Float) : option (list Float) :=
  match pixels with
  | [] => Some fb0
  | px :: pixels' =>
      m ← masked IsMasked I rectifier px;
      let wP := weightPrepass I samplesPerPixel in
      let wR := weightRectified I samplesPerPixel in
      fb0 ← merge_channel m wP wR rectified (offset + 0) fb0;
      fb0 ← merge_channel m wP wR rectified (offset + 1) fb0;
      fb0 ← merge_channel m wP wR rectified (offset + 2) fb0;
      merge_buffers IsMasked I rectifier samplesPerPixel rectified pixels'
        (offset + 3) fb0
  end.

End Merge.

(** ** Computations that leave the subpaths alone *)

Section PathsKept.
Context {T : Types}.

Definition paths_kept (st st' : St) : Prop :=
  lightVertices st' = lightVertices st
  /\ cameraVertices st' = cameraVertices st.

Definition keeps_paths {A} (c : M A) : Prop :=
  forall st a st', c st = Some (a, st') -> paths_kept st st'.

End PathsKept.

(** ** The index of the lights

    "Compute a reverse mapping from light pointers to offsets into the
    scene lights vector": the loop
    [for (size_t i = 0; i < scene.lights.size(); ++i)
       lightToIndex[scene.lights[i].get()] = i;]
    over an [unordered_map] that starts empty.  [LightPtr] is the type of
    the keys, [const Light *]. *)

Section LightIndex.
Context `{Countable LightPtr}.

Definition build_lightToIndex (lights : list LightPtr) : gmap LightPtr nat :=
  fold_left
    (fun (lightToIndex : gmap LightPtr nat) (i : nat) =>
       match lights !! i with
       | Some light => <[light := i]> lightToIndex
       | None => lightToIndex
       end)
    (seq 0 (length lights)) ∅.

End LightIndex.

(** ** Hypotheses on the sampled densities *)

Section SamplingHypotheses.
Context {T : Types} {W : World}.

(** What the sampling routines of the collaborators return as densities
    is not negative, nor are the Jacobian and the absolute cosine. *)
Definition sampling_nonneg : Prop :=
  (forall v next, (0 <= Jacobian v next)%Q)
  /\ (forall bsdf wo u, (0 <= bs_pdf (Sample_f bsdf wo u))%Q)
  /\ (forall bsdf wi wo, (0 <= BSDF_Pdf bsdf wi wo)%Q)
  /\ (forall m w u, (0 <= (Sample_p m w u).1)%Q)
  /\ (forall camera ray, (0 <= (Pdf_We camera ray).2)%Q)
  /\ (forall light u1 u2 time,
         (0 <= le_pdfPos (Sample_Le light u1 u2 time))%Q
         /\ (0 <= le_pdfDir (Sample_Le light u1 u2 time))%Q)
  /\ (forall distr u, (0 <= (SampleDiscrete distr u).2)%Q)
  /\ (forall scene distr idx d,
         (0 <= InfiniteLightDensity scene distr idx d)%Q)
  /\ (forall w n, (0 <= AbsDot w n)%Q).

End SamplingHypotheses.


(** ** The arithmetic of the weight, over any number format

    The two loops and the last line of [MISWeight] use [*], [/], [+] and
    the test [f != 0] of [Float] and nothing else of it.  They are written
    here over an arbitrary number type, on the forward density, the
    reverse density and the delta flag of the vertices as the temporary
    update has left them, so that the same text can be run on exact
    rationals and on binary32. *)

Record Densities (F : Type) := mkDensities {
  d_pdfFwd : F;
  d_pdfRev : F;
  d_delta : bool;
}.

Arguments mkDensities {F}.
Arguments d_pdfFwd {F}.
Arguments d_pdfRev {F}.
Arguments d_delta {F}.

Section NumberFormat.
Variable F : Type.
Variables (one : F) (mul div add : F -> F -> F) (nonzero : F -> bool).

(** [auto remap0 = [](Float f) -> Float { return f != 0 ? f : 1; };] *)
Definition remap0_in (f : F) : F := if nonzero f then f else one.

(** [effDensRatio] under the three heuristics. *)
Definition effDensRatio_in (mode : MisStrategy) (ri : F) : F :=
  match mode with
  | MIS_POWER => mul ri ri
  | MIS_UNIFORM => one
  | MIS_BALANCE => ri
  end.

(** [for (int i = t - 1; i > 0; --i)]; [factor i] is
    [rectifier ? rectifier->Get(pxCoords, s+t, i) : 1.0f]. *)
Fixpoint camera_walk_in (cameraVertices : list (Densities F))
    (mode : MisStrategy) (factor : Z -> F) (i : nat) (ri sumRi : F)
    : option F :=
  match i with
  | O => Some sumRi
  | S i' =>
      match cameraVertices !! i with
      | None => None
      | Some vi =>
          let ri := mul ri (div (remap0_in (d_pdfRev vi))
                                (remap0_in (d_pdfFwd vi))) in
          let term := mul (effDensRatio_in mode ri) (factor (Z.of_nat i)) in
          if d_delta vi
          then camera_walk_in cameraVertices mode factor i' ri sumRi
          else
            match cameraVertices !! i' with
            | None => None
            | Some vprev =>
                camera_walk_in cameraVertices mode factor i' ri
                  (if d_delta vprev then sumRi else add sumRi term)
            end
      end
  end.

(** [for (int i = s - 1; i >= 0; --i)]; [n] is [i + 1] and
    [deltaLight] is [lightVertices[0].IsDeltaLight()]. *)
Fixpoint light_walk_in (lightVertices : list (Densities F))
    (deltaLight : bool) (mode : MisStrategy) (factor : Z -> F) (s t : Z)
    (n : nat) (ri sumRi : F) : option F :=
  match n with
  | O => Some sumRi
  | S i =>
      match lightVertices !! i with
      | None => None
      | Some vi =>
          let ri := mul ri (div (remap0_in (d_pdfRev vi))
                                (remap0_in (d_pdfFwd vi))) in
          let term :=
            mul (effDensRatio_in mode ri) (factor (s + t - Z.of_nat i)) in
          match
            (match i with
             | O => Some deltaLight
             | S i' => option_map d_delta (lightVertices !! i')
             end)
          with
          | None => None
          | Some deltaLightvertex =>
              light_walk_in lightVertices deltaLight mode factor s t i ri
                (if negb (d_delta vi) && negb deltaLightvertex
                 then add sumRi term else sumRi)
          end
      end
  end.

(** [MISWeight] from [Float ri = 1;] to its [return], after the early
    exit; [zero] is the initial [sumRi]. *)
Definition weight_in (zero : F) (lightVertices cameraVertices : list (Densities F))
    (deltaLight : bool) (mode : MisStrategy) (factor : Z -> F) (s t : Z)
    : option F :=
  if s + t =? 2 then Some one
  else
    match camera_walk_in cameraVertices mode factor (Z.to_nat (t - 1)) one zero with
    | None => None
    | Some sumRi =>
        match
          light_walk_in lightVertices deltaLight mode factor s t (Z.to_nat s)
            one sumRi
        with
        | None => None
        | Some sumRi =>
            let stratFactorCurTech := factor t in
            Some (div one (add one (div sumRi stratFactorCurTech)))
        end
    end.

End NumberFormat.

Arguments remap0_in {F}.
Arguments effDensRatio_in {F}.
Arguments camera_walk_in {F}.
Arguments light_walk_in {F}.
Arguments weight_in {F}.

Section ExactWeight.
Context {T : Types} {W : World}.

(** What the loops read of a vertex. *)
Definition densities_of (v : Vertex) : Densities Float :=
  mkDensities (pdfFwd v) (pdfRev v) (delta v).

(** The loops on [Float] as this development has it, the exact
    rationals. *)
Definition exact_weight (lv cv : list (Densities Float)) (deltaLight : bool)
    (mode : MisStrategy) (factor : Z -> Float) (s t : Z) : option Float :=
  weight_in 1%Q Qmult Qdiv Qplus fnonzero 0%Q lv cv deltaLight mode factor s t.

End ExactWeight.

(** ** binary32

    The [Float] of the build is IEEE 754 binary32 (24 bits of precision,
    largest exponent 127), rounding to nearest even; the operations are
    those of the standard library's specification of IEEE arithmetic. *)

Module Binary32.

Definition prec : Z := 24.
Definition emax : Z := 128.

Definition float32 : Type := spec_float.

Definition zero : float32 := S754_zero false.

(** [2 ^ k] for [-126 <= k <= 127]. *)
Definition pow2 (k : Z) : float32 := S754_finite false (2 ^ 23) (k - 23).

Definition one : float32 := pow2 0.

Definition mul : float32 -> float32 -> float32 := SFmul prec emax.
Definition div : float32 -> float32 -> float32 := SFdiv prec emax.
Definition add : float32 -> float32 -> float32 := SFadd prec emax.

(** [f != 0]: true on a NaN, false on both zeros. *)
Definition nonzero (f : float32) : bool := negb (SFeqb f zero).

(** [a <= b]: false as soon as one side is a NaN. *)
Definition leb : float32 -> float32 -> bool := SFleb.

(** A finite number that is not negative. *)
Definition finite_nonneg (f : float32) : bool :=
  match f with
  | S754_zero _ => true
  | S754_finite false m e =>
      (Z.pos (SpecFloat.digits2_pos m) =? prec)
      && (-149 <=? e) && (e <=? emax - prec)
  | _ => false
  end.

(** The rational a finite binary32 number stands for. *)
Definition to_Q (f : float32) : Q :=
  match f with
  | S754_finite s m e =>
      let q := (inject_Z (Z.pos m) * (if 0 <=? e then inject_Z (2 ^ e) else / inject_Z (2 ^ (- e))))%Q in
      if s then (- q)%Q else q
  | _ => 0%Q
  end.

(** The loops and the return of [MISWeight] in binary32. *)
Definition weight (lv cv : list (Densities float32)) (deltaLight : bool)
    (mode : MisStrategy) (factor : Z -> float32) (s t : Z) : option float32 :=
  weight_in one mul div add nonzero zero lv cv deltaLight mode factor s t.

(** A camera subpath of four vertices, none of them delta, seen by the
    strategy [s = 0], [t = 4] after the temporary update has put the
    densities 1 returned by [PdfLightOrigin] and [PdfLight] into the
    reverse densities of the last two:

      vertex   pdfFwd    pdfRev
        0        1         1
        1      2^-100    2^127
        2      2^100       1
        3      2^100       1                                         *)
Definition steep_camera : list (Densities float32) :=
  [ mkDensities one one false;
    mkDensities (pow2 (-100)) (pow2 127) false;
    mkDensities (pow2 100) one false;
    mkDensities (pow2 100) one false ].

(** The same subpath in exact rationals. *)
Definition steep_camera_exact : list (Densities Float) :=
  map (fun d => mkDensities (to_Q (d_pdfFwd d)) (to_Q (d_pdfRev d)) (d_delta d))
    steep_camera.

End Binary32.

(** ** What the strategy loop has done

    A connection the loop has executed: the strategy [(s, t)], the
    contribution [Lpath] that [ConnectBDPT] returned and the raster
    position [pFilmNew] it left. *)

Section Connections.
Context {T : Types} {W : World}.

Record Connection := mkConnection {
  c_strategy : Z * Z;
  c_Lpath : Spectrum;
  c_pFilmNew : Point2f;
}.

(** "added to the pixel's accumulated radiance when [t != 1]": the sum,
    from [Spectrum L(0.f)], of the contributions of the connections with
    [t != 1], in order. *)
Definition accumulated (cs : list Connection) : Spectrum :=
  fold_left
    (fun L c => if (c_strategy c).2 =? 1 then L else Spec.add L (c_Lpath c))
    cs (Spectrum_const 0).

(** "splatted to the film at the sampled raster position when [t = 1]":
    one splat for every connection with [t = 1], in order. *)
Definition splatted (cs : list Connection) : list (Point2f * Spectrum) :=
  (fun c => (c_pFilmNew c, c_Lpath c))
    <$> List.filter (fun c => (c_strategy c).2 =? 1) cs.

(** A connection of the trace is what [ConnectBDPT] returned on the two
    subpaths of [st]. *)
Definition connected (rp : RenderParams) (lightDistr : Distribution1D)
    (lightToIndex : LightToIndex) (pFilm : Point2f) (st : St)
    (c : Connection) : Prop :=
  exists st1 misWeight st2,
    paths_kept st st1
    /\ ConnectBDPT (rp_scene rp) (c_strategy c).1 (c_strategy c).2 lightDistr
         lightToIndex (rp_camera rp) pFilm (Some 0%Q)
         (if rp_rectify rp then rp_rectifier rp else None)
         (rp_misStrategy rp) st1
       = Some ((c_Lpath c, c_pFilmNew c, misWeight), st2).

End Connections.

(** ** The specular events of a walk *)

Section SpecularEvents.
Context {T : Types} {W : World}.

(** The indices in [path] of the vertices at which the walk has sampled a
    specular lobe ([type & BSDF_SPECULAR]), in the order of the walk: the
    value of [bounces] with which the vertex was written.  The fuel is the
    one of [RandomWalk_loop]. *)
Fixpoint specular_events (fuel : nat) (scene : Scene) (maxDepth : Z)
    (mode : TransportMode) (path : VertexPtr) (w : WalkState) (st : St)
    : list Z :=
  match fuel with
  | O => []
  | S fuel' =>
      match RandomWalk_iter scene maxDepth mode path w st with
      | Some ((Scattered specular, w'), st') =>
          (if specular then [w_bounces w] else [])
          ++ specular_events fuel' scene maxDepth mode path w' st'
      | Some ((SkipBoundary, w'), st') =>
          specular_events fuel' scene maxDepth mode path w' st'
      | _ => []
      end
  end.

(** The specular events of a call of [RandomWalk]. *)
Definition RandomWalk_specular (fuel : nat) (scene : Scene)
    (ray : RayDifferential) (beta : Spectrum) (pdf : Float) (maxDepth : Z)
    (mode : TransportMode) (path : VertexPtr) (st : St) : list Z :=
  if maxDepth =? 0 then []
  else
    specular_events fuel scene maxDepth mode path (mkWalk ray beta pdf 0%Q 0) st.

(** The vertex [path[i]] is marked delta and the vertex in front of it
    has reverse density 0. *)
Definition marked_delta (path : VertexPtr) (i : Z) (st : St) : Prop :=
  exists vertex prev,
    array_of path.1 st !! Z.to_nat (path.2 + i) = Some vertex
    /\ array_of path.1 st !! Z.to_nat (path.2 + i - 1) = Some prev
    /\ delta vertex = true
    /\ (pdfRev prev == 0)%Q.

(** The vertex [path[i]] has forward density 0. *)
Definition reached_with_zero (path : VertexPtr) (i : Z) (st : St) : Prop :=
  exists next,
    array_of path.1 st !! Z.to_nat (path.2 + i) = Some next
    /\ (pdfFwd next == 0)%Q.

End SpecularEvents.

(** ** The weight as the specification words it, from the caller's arrays

    Section 4.D of the specification, written on the two subpaths as
    plain lists, [y] the light subpath and [z] the camera subpath, with
    no pointer, no scoped assignment and none of the helpers of the
    embedding of [MISWeight] above. *)

Section SpecWeight.
Context {T : Types} {W : World}.

(** [path[i]], nothing for an [i] outside the list. *)
Definition vertex_at (path : list Vertex) (i : Z) : option Vertex :=
  if i <? 0 then None else path !! Z.to_nat i.

(** [path] with [f] applied to [path[i]]. *)
Definition amend (path : list Vertex) (i : Z) (f : Vertex -> Vertex)
    : list Vertex :=
  match vertex_at path i with
  | Some v => <[Z.to_nat i := f v]> path
  | None => path
  end.

(** "the freshly sampled endpoint (for [s=1] or [t=1]) into the
    corresponding subpath slot" *)
Definition substitute_sampled (sampled : Vertex) (s t : Z)
    (y z : list Vertex) : list Vertex * list Vertex :=
  if s =? 1 then (amend y (s - 1) (fun _ => sampled), z)
  else if t =? 1 then (y, amend z (t - 1) (fun _ => sampled))
  else (y, z).

(** "clear the [delta] flag on the two connection endpoints" *)
Definition clear_delta (s t : Z) (y z : list Vertex)
    : list Vertex * list Vertex :=
  (amend y (s - 1) (set_delta false), amend z (t - 1) (set_delta false)).

(** "overwrite their [pdfRev] fields using the current strategy's
    viewpoint", the four assignments in the order of the
    specification. *)
Definition overwrite_pdfRev (scene : Scene) (s t : Z)
    (lightDistr : Distribution1D) (lightToIndex : LightToIndex)
    (y z : list Vertex) : option (list Vertex * list Vertex) :=
  (* z_{t-1}.pdfRev *)
  zt1 ← vertex_at z (t - 1);
  rev ← (if 0 <? s
         then ys1 ← vertex_at y (s - 1);
              Some (Pdf ys1 scene (vertex_at y (s - 2)) zt1)
         else zt2 ← vertex_at z (t - 2);
              Some (PdfLightOrigin zt1 scene zt2 lightDistr lightToIndex));
  let z := amend z (t - 1) (set_pdfRev rev) in
  (* z_{t-2}.pdfRev *)
  z ← (if 1 <? t
       then zt1 ← vertex_at z (t - 1);
            zt2 ← vertex_at z (t - 2);
            Some (amend z (t - 2)
                    (set_pdfRev
                       (if 0 <? s
                        then Pdf zt1 scene (vertex_at y (s - 1)) zt2
                        else PdfLight zt1 scene zt2)))
       else Some z);
  (* y_{s-1}.pdfRev *)
  y ← (if 0 <? s
       then zt1 ← vertex_at z (t - 1);
            ys1 ← vertex_at y (s - 1);
            Some (amend y (s - 1)
                    (set_pdfRev (Pdf zt1 scene (vertex_at z (t - 2)) ys1)))
       else Some y);
  (* y_{s-2}.pdfRev *)
  y ← (if 1 <? s
       then ys1 ← vertex_at y (s - 1);
            ys2 ← vertex_at y (s - 2);
            Some (amend y (s - 2)
                    (set_pdfRev (Pdf ys1 scene (vertex_at z (t - 1)) ys2)))
       else Some y);
  Some (y, z).

(** Step 1 of the specification: the two subpaths as the evaluated
    strategy sees them. *)
Definition spec_substituted (scene : Scene) (sampled : Vertex) (s t : Z)
    (lightDistr : Distribution1D) (lightToIndex : LightToIndex)
    (y z : list Vertex) : option (list Vertex * list Vertex) :=
  let '(y, z) := substitute_sampled sampled s t y z in
  let '(y, z) := clear_delta s t y z in
  overwrite_pdfRev scene s t lightDistr lightToIndex y z.

(** "Let [remap0(x) = x if x ≠ 0 else 1]." *)
Definition spec_remap0 (x : Float) : Float :=
  if Qeq_bool x 0 then 1%Q else x.

(** "[α] is the rectifier factor (or 1 when no rectifier)". *)
Definition spec_alpha (rectifier : option SAMISRectifier) (pxCoords : Point2i)
    (d i : Z) : Float :=
  match rectifier with
  | None => 1%Q
  | Some r => Get r pxCoords d i
  end.

(** "a running ratio [r_i = Π_{k=i..n-1} remap0(pdfRev_k) /
    remap0(pdfFwd_k)]" on the first [n] vertices of [path]. *)
Definition spec_r (path : list Vertex) (n i : nat) : Float :=
  fold_right
    (fun v r => (spec_remap0 (pdfRev v) / spec_remap0 (pdfFwd v) * r)%Q)
    1%Q (firstn (n - i) (skipn i path)).

(** "accumulate [r_i² · α] (power heuristic), [r_i · α] (balance), or
    [α] (uniform)". *)
Definition spec_term (mode : MisStrategy) (r alpha : Float) : Float :=
  match mode with
  | MIS_POWER => (r * r * alpha)%Q
  | MIS_BALANCE => (r * alpha)%Q
  | MIS_UNIFORM => alpha
  end.

Definition spec_delta (path : list Vertex) (i : nat) : bool :=
  match path !! i with
  | Some v => delta v
  | None => true
  end.

(** Step 2: "Walk the camera subpath from [i = t-1] down to [1] ... For
    each [i] where neither [z_i] nor [z_{i-1}] is delta". *)
Definition spec_camera_terms (z : list Vertex) (mode : MisStrategy)
    (alpha : Z -> Float) (t : nat) : list Float :=
  map (fun i => spec_term mode (spec_r z t i) (alpha (Z.of_nat i)))
    (List.filter (fun i => negb (spec_delta z i) && negb (spec_delta z (i - 1)))
       (rev (seq 1 (t - 1)))).

(** Step 3: "Similarly walk the light subpath from [i = s-1] down to [0]
    ...; at [i = 0], treat the previous delta check as
    [lightVertices[0].IsDeltaLight()]".  The hypothetical strategy with
    [i] light vertices has [s + t - i] camera vertices, which is the
    strategy index of its factor. *)
Definition spec_light_terms (y : list Vertex) (mode : MisStrategy)
    (alpha : Z -> Float) (s : nat) (t : Z) : list Float :=
  map (fun i => spec_term mode (spec_r y s i)
                  (alpha (Z.of_nat s + t - Z.of_nat i)%Z))
    (List.filter
       (fun i =>
          negb (spec_delta y i)
          && negb (match i with
                   | O => match y !! O with
                          | Some v => IsDeltaLight v
                          | None => true
                          end
                   | S i' => spec_delta y i'
                   end))
       (rev (seq 0 s))).

(** The sum [Σ] of steps 2 and 3 on the substituted subpaths [y] and
    [z]. *)
Definition spec_sigma (y z : list Vertex) (mode : MisStrategy)
    (rectifier : option SAMISRectifier) (pxCoords : Point2i) (s t : Z)
    : Float :=
  let alpha := spec_alpha rectifier pxCoords (s + t) in
  fold_right Qplus 0%Q
    (spec_camera_terms z mode alpha (Z.to_nat t)
     ++ spec_light_terms y mode alpha (Z.to_nat s) t).

(** Step 4: "Let [β = α(pxCoords, s+t, t)] ... Return
    [1 / (1 + Σ / β)]". *)
Definition spec_weight (y z : list Vertex) (mode : MisStrategy)
    (rectifier : option SAMISRectifier) (pxCoords : Point2i) (s t : Z)
    : Float :=
  let sigma := spec_sigma y z mode rectifier pxCoords s t in
  let beta := spec_alpha rectifier pxCoords (s + t) t in
  (1 / (1 + sigma / beta))%Q.

End SpecWeight.

(** ** The temporary update, assignment by assignment

    The seven scoped assignments of [update_for_strategy], each as a
    computation of its own, and the state with its two arrays replaced. *)

Section UpdateSteps.
Context {T : Types} {W : World}.









End UpdateSteps.
(** ** A small concrete world

    A ray is the number of surfaces already crossed; a scene is the list
    of surfaces a ray meets in order (a medium boundary without BSDF, a
    diffuse surface or a mirror), after which it escapes.  There are no
    media, one light, one colour channel; all cosines are 1 and the
    Jacobian between any two vertices is 2. *)

Module Toy.

Inductive Kind := Boundary | Diffuse | Mirror.

#[export] Instance types : Types := {|
  Scene := list Kind;
  Camera := unit;
  Light := unit;
  Medium := unit;
  BSDF := bool;
  RayDifferential := nat;
  Vector3f := unit;
  Normal3f := unit;
  Point3f := unit;
  Interaction := unit;
  SurfaceInteraction := nat * Kind;
  MediumInteraction := unit;
  EndpointInteraction := unit;
  VisibilityTester := unit;
  Sampler := nat;
  Distribution1D := unit;
  LightToIndex := unit;
  SAMISRectifier := unit;
  nSpectrumSamples := 1;
|}.

Definition half2 : Point2f := mkPoint2f (1 # 2) (1 # 2).

#[export] Instance world : @World types := {|
  Get1D := fun smp : nat => ((1 # 2)%Q, S smp);
  Get2D := fun smp : nat => (half2, S smp);
  samplesPerPixel := fun _ => 1%Q;
  Intersect := fun (scene : list Kind) (ray : nat) =>
                 (match scene !! ray with
                  | Some k => Some (ray, k)
                  | None => None
                  end, ray);
  lights := fun _ => [tt];
  ray_d := fun _ => tt;
  ray_medium := fun _ => None;
  ScaleDifferentials := fun ray _ => ray;
  vneg := fun v => v;
  vscale := fun v _ => v;
  psub := fun _ _ => tt;
  LengthSquared := fun _ => 1%Q;
  AbsDot := fun _ _ => 1%Q;
  fsqrt := fun f => f;
  Medium_Sample := fun _ _ smp => (([1%Q], None), smp);
  Sample_p := fun _ _ _ => (1%Q, tt);
  mi_SpawnRay := fun _ _ => O;
  ComputeScatteringFunctions :=
    fun (isect : nat * Kind) _ _ =>
      match isect.2 with
      | Boundary => None
      | Diffuse => Some false
      | Mirror => Some true
      end;
  si_SpawnRay := fun (isect : nat * Kind) _ => S isect.1;
  si_wo := fun _ => tt;
  si_n := fun _ => tt;
  si_shading_n := fun _ => tt;
  Sample_f := fun (bsdf : bool) _ _ =>
                mkBSDFSample [1%Q] tt (if bsdf then 1%Q else (1 # 2)%Q) bsdf;
  BSDF_Pdf := fun _ _ _ => (1 # 3)%Q;
  GenerateRayDifferential := fun _ _ _ _ => ([1%Q], O);
  Pdf_We := fun _ _ => (1%Q, 1%Q);
  Sample_Wi := fun _ _ _ _ => mkWiSample [1%Q] tt 1%Q (mkPoint2f 3 4) tt;
  SampleDiscrete := fun _ _ => (0, 1%Q);
  Sample_Le := fun _ _ _ _ => mkLeSample [1%Q] O tt 1%Q 1%Q;
  Sample_Li := fun _ _ _ => mkLiSample [1%Q] tt 1%Q tt;
  InfiniteLightDensity := fun _ _ _ _ => 1%Q;
  VisibilityTester_new := fun _ _ => tt;
  P1 := fun _ => tt;
  Tr := fun _ _ smp => ([1%Q], smp);
  EndpointInteraction_default := tt;
  EndpointInteraction_camera_ray := fun _ _ => tt;
  EndpointInteraction_camera_it := fun _ _ => tt;
  EndpointInteraction_light_ray := fun _ _ _ => tt;
  EndpointInteraction_light_it := fun _ _ => tt;
  EndpointInteraction_ray := fun _ => tt;
  GetInteraction := fun _ => tt;
  Vertex_p := fun _ => tt;
  Vertex_time := fun _ => 0%Q;
  Vertex_ns := fun _ => tt;
  Vertex_ng := fun _ => tt;
  IsOnSurface := fun v => VertexType.eqb (type v) VertexType.Surface;
  IsLight := fun v => VertexType.eqb (type v) VertexType.Light;
  IsDeltaLight := fun _ => false;
  IsInfiniteLight := fun _ => false;
  IsConnectible := fun v => negb (delta v);
  Vertex_Le := fun _ _ _ => [1%Q];
  Vertex_f := fun _ _ _ => [1%Q];
  Jacobian := fun _ _ => 2%Q;
  Pdf := fun _ _ _ _ => (1 # 2)%Q;
  PdfLight := fun _ _ _ => (1 # 4)%Q;
  PdfLightOrigin := fun _ _ _ _ _ => (1 # 8)%Q;
  Get := fun _ _ _ _ => 2%Q;
|}.

(** A vertex of the given type with throughput 1 and the given flag and
    densities. *)
Definition vertex (ty : VertexType.t) (d : bool) (fwd rev : Float) : Vertex :=
  mkVertex ty [1%Q] (EI tt) d fwd rev.

(** A state with a three-vertex light subpath and a three-vertex camera
    subpath. *)
Definition paths : St :=
  mkSt O
    [vertex VertexType.Light false 1 (1 # 2);
     vertex VertexType.Surface false (1 # 3) 2;
     vertex VertexType.Surface false 3 0]
    [vertex VertexType.Camera false 1 1;
     vertex VertexType.Surface false 2 (1 # 5);
     vertex VertexType.Surface true 0 0]
    [] [] [].

(** A state whose camera array has room for four vertices and holds the
    camera endpoint in its first slot. *)
Definition fresh : St :=
  mkSt O
    (replicate 3 Vertex_default)
    (vertex VertexType.Camera false 1 0 :: replicate 3 Vertex_default)
    [] [] [].

(** A camera subpath whose second vertex is the light vertex of an
    escaped ray. *)
Definition escaped : St :=
  mkSt O
    [vertex VertexType.Light false 1 0]
    [vertex VertexType.Camera false 1 0;
     vertex VertexType.Light false 1 0]
    [] [] [].

(** The state [paths] after one draw from the sampler. *)
Definition paths_drawn : St :=
  mkSt 1%nat (lightVertices paths) (cameraVertices paths) [] [] [].

(** The state after a camera walk of depth 3 from the second camera
    vertex, through a mirror, a medium boundary and a diffuse surface. *)
Definition walked : St :=
  Eval vm_compute in
    match RandomWalk 10 [Mirror; Boundary; Diffuse] O [1%Q] 1 3 Radiance
            (CameraArr, 1) fresh
    with
    | Some (_, st) => st
    | None => fresh
    end.

(** The state after generating a camera subpath of depth 4 in a scene
    with a mirror and a diffuse surface. *)
Definition camera_generated : St :=
  Eval vm_compute in
    match GenerateCameraSubpath 10 [Mirror; Diffuse] 4 tt (mkPoint2f 0 0)
            (CameraArr, 0) fresh
    with
    | Some (_, st) => st
    | None => fresh
    end.

(** The state after generating a light subpath of depth 3 in a scene with
    two diffuse surfaces. *)
Definition light_generated : St :=
  Eval vm_compute in
    match GenerateLightSubpath 10 [Diffuse; Diffuse] 3 0 tt tt (LightArr, 0)
            fresh
    with
    | Some (_, st) => st
    | None => fresh
    end.

(** An integrator of maximum depth 2 that rectifies by the moment scheme,
    and one of maximum depth 0 that estimates variances. *)
Definition moment_integrator : BDPTIntegrator :=
  mkIntegrator 2 MIS_BALANCE MIS_MOD_MOMENT_OVER_VARIANCE 1 false false.

Definition flat_integrator : BDPTIntegrator :=
  mkIntegrator 0 MIS_BALANCE MIS_MOD_NONE 1 true false.

(** A rectifier mask that holds the pixels of the column [x = 1]. *)
Definition column_mask (r : unit) (px : Point2i) : bool := px.1 =? 1.

(** The parameters of a prepass that estimates factors and variances,
    and the state after its strategy loop on the two subpaths of
    [paths]. *)
Definition logging_params : RenderParams :=
  mkRenderParams [] tt 2 MIS_BALANCE (Some tt) false true true.

Definition logged : St :=
  Eval vm_compute in
    match execute_strategies logging_params tt tt (mkPoint2f 0 0) 3 3 paths with
    | Some (_, st) => st
    | None => paths
    end.

End Toy.

(** * Properties *)

(** ** Variance-estimator buffer index *)

Lemma BufferIndex_shift (s t : Z) : BufferIndex (s + 2) t = BufferIndex s (t + 1).
Proof. unfold BufferIndex. lia. Qed.

(** C9 (as stated, at its example): [BufferIndex] sends (0,2) to 2 and
    (1,1) to 1, so these two strategies do not share an index and (0,2)
    is not sent to 1. *)
Lemma BufferIndex_0_2_vs_1_1 :
  BufferIndex 0 2 = 2 /\ BufferIndex 1 1 = 1
  /\ (BufferIndex 0 2 =? BufferIndex 1 1) = false.
Proof. repeat split. Qed.

(** C9 (amended): [BufferIndex] is not injective on valid strategies: the
    strategies (0,2) and (2,1) both get index 2, and in general (s+2, t)
    and (s, t+1) always share an index. *)
Theorem BufferIndex_collides :
  BufferIndex 0 2 = 2 /\ BufferIndex 2 1 = 2
  /\ (0, 2) <> (2, 1)
  /\ forall s t : Z, BufferIndex (s + 2) t = BufferIndex s (t + 1).
Proof.
  split; [reflexivity|]. split; [reflexivity|].
  split; [discriminate|]. apply BufferIndex_shift.
Qed.

(** ** Sampler seeding *)

Module FnvFacts.
Import Fnv.

Lemma low_byte (d : Z) : Z.land d 0xFF = d mod 256.
Proof. change 0xFF with (Z.ones 8). rewrite Z.land_ones by lia. reflexivity. Qed.

Lemma fnv_hash_fold (h d : Z) :
  fnv_hash h d = fold_left fnv1_step (le_bytes d) h.
Proof.
  unfold fnv_hash, le_bytes, fnv1_step. cbn [fold_left].
  rewrite !low_byte, !Z.shiftr_div_pow2 by lia. reflexivity.
Qed.

Lemma uint32_range (z : Z) : 0 <= uint32 z < 2 ^ 32.
Proof. unfold uint32. apply Z.mod_pos_bound. lia. Qed.

Lemma lxor_range (a b : Z) :
  0 <= a < 2 ^ 32 -> 0 <= b < 2 ^ 32 -> 0 <= Z.lxor a b < 2 ^ 32.
Proof.
  intros Ha Hb.
  assert (Hnn : 0 <= Z.lxor a b) by (apply Z.lxor_nonneg; lia).
  split; [exact Hnn|].
  destruct (Z.eq_dec (Z.lxor a b) 0) as [E|E]; [rewrite E; lia|].
  apply Z.log2_lt_pow2; [lia|].
  pose proof (Z.log2_lxor a b ltac:(lia) ltac:(lia)) as Hl.
  assert (Z.log2 a < 32).
  { destruct (Z.eq_dec a 0) as [->|]; [cbn; lia|]. apply Z.log2_lt_pow2; lia. }
  assert (Z.log2 b < 32).
  { destruct (Z.eq_dec b 0) as [->|]; [cbn; lia|]. apply Z.log2_lt_pow2; lia. }
  lia.
Qed.

Lemma byte_range (d k : Z) : 0 <= (d / k) mod 256 < 2 ^ 32.
Proof. pose proof (Z.mod_pos_bound (d / k) 256 ltac:(lia)). lia. Qed.

Lemma fnv_hash_range (h d : Z) : 0 <= fnv_hash h d < 2 ^ 32.
Proof.
  unfold fnv_hash. cbv zeta. rewrite !low_byte.
  apply lxor_range; [apply uint32_range|].
  rewrite Z.shiftr_div_pow2 by lia. apply byte_range.
Qed.

Lemma int_of_uint32_wrap (z : Z) :
  0 <= z < 2 ^ 32 -> uint32 (int_of_uint32 z) = z.
Proof.
  intros Hz. unfold int_of_uint32, uint32.
  destruct (z <? 2 ^ 31) eqn:E.
  - apply Z.mod_small. lia.
  - apply Z.ltb_ge in E.
    replace (z - 2 ^ 32) with (z + (-1) * 2 ^ 32) by lia.
    rewrite Z.mod_add by lia. apply Z.mod_small. lia.
Qed.

(** C8 (as stated, at tile 1 of the first pass): the seed differs from the
    FNV-1a hash of the eight bytes. *)
Lemma seed_differs_from_fnv1a :
  tile_seed 1 0 1 0 = 1737233514
  /\ fnv1a_32 (le_bytes 1 ++ le_bytes 0) = 1048580676
  /\ (uint32 (tile_seed 1 0 1 0) =? fnv1a_32 (le_bytes 1 ++ le_bytes 0)) = false.
Proof. repeat split; vm_compute; reflexivity. Qed.

(** C8 (amended): the seed is the 32-bit FNV-1 hash (multiply by the prime,
    then xor the byte in; offset basis 0x811C9DC5, prime 16777619,
    arithmetic modulo 2^32) of the eight bytes of (tileIndex, passOffset),
    tileIndex first, least significant byte first; the [int] handed to the
    sampler carries that hash as its 32-bit pattern. *)
Theorem seed_is_fnv1 (tile_x tile_y nXTiles sampleOffset : Z) :
  let tileIndex := uint32 (tile_y * nXTiles + tile_x) in
  let passOffset := uint32 sampleOffset in
  sampler_seed tileIndex passOffset
    = fnv1_32 (le_bytes tileIndex ++ le_bytes passOffset)
  /\ uint32 (tile_seed tile_x tile_y nXTiles sampleOffset)
    = fnv1_32 (le_bytes tileIndex ++ le_bytes passOffset)
  /\ fnv_init = 0x811C9DC5 /\ fnv_prime = 16777619.
Proof.
  intros tileIndex passOffset.
  assert (E : sampler_seed tileIndex passOffset
              = fnv1_32 (le_bytes tileIndex ++ le_bytes passOffset)).
  { unfold sampler_seed, fnv1_32. rewrite fold_left_app, !fnv_hash_fold.
    reflexivity. }
  split; [exact E|]. split; [|split; reflexivity].
  unfold tile_seed. fold tileIndex passOffset.
  rewrite int_of_uint32_wrap; [exact E|].
  unfold sampler_seed. apply fnv_hash_range.
Qed.

End FnvFacts.

(** ** Rectifier factor scheme *)

Lemma Qeq_bool_false_iff (a b : Q) : Qeq_bool a b = false <-> ~ (a == b)%Q.
Proof.
  split.
  - intros E H. apply Qeq_bool_iff in H. congruence.
  - intros H. destruct (Qeq_bool a b) eqn:E; [|reflexivity].
    apply Qeq_bool_iff in E. contradiction.
Qed.

Lemma fnonzero_true (f : Float) : fnonzero f = true <-> ~ (f == 0)%Q.
Proof.
  unfold fnonzero. rewrite negb_true_iff. apply Qeq_bool_false_iff.
Qed.

Lemma fnonzero_false (f : Float) : fnonzero f = false <-> (f == 0)%Q.
Proof.
  unfold fnonzero. rewrite negb_false_iff. apply Qeq_bool_iff.
Qed.

Lemma fgt_true (a b : Float) : fgt a b = true <-> (b < a)%Q.
Proof.
  unfold fgt. rewrite negb_true_iff. split.
  - intros E. apply Qnot_le_lt. intros H. apply Qle_bool_iff in H. congruence.
  - intros H. destruct (Qle_bool a b) eqn:E; [|reflexivity].
    apply Qle_bool_iff in E. exfalso. eapply Qlt_not_le; eassumption.
Qed.

Lemma fgt_false (a b : Float) : fgt a b = false <-> (a <= b)%Q.
Proof.
  unfold fgt. rewrite negb_false_iff. apply Qle_bool_iff.
Qed.

(** The lambda tests [var == 0] and [var != 0], not the sign: on a
    negative number in place of a variance it divides all the same. *)
Lemma factorScheme_negative_variance :
  factorScheme MIS_MOD_RECIPROCAL_VARIANCE 0 1 (-1) 0 = (-1)%Q
  /\ spec_factor MIS_MOD_RECIPROCAL_VARIANCE (-1) 0 = 1%Q
  /\ Qeq_bool (factorScheme MIS_MOD_RECIPROCAL_VARIANCE 0 1 (-1) 0)
              (spec_factor MIS_MOD_RECIPROCAL_VARIANCE (-1) 0) = false.
Proof. repeat split. Qed.

(** The tests of the lambda as it writes them: the factor is 1 under
    [none]; [1 / var] if [var != 0], else 1, under [reciprocal_variance];
    and [1 + mean^2 / var] if [var != 0] and [mean != 0], else 1, under
    [moment_over_variance]. *)
Lemma factorScheme_cases (d t : Z) (var mean : Float) :
  factorScheme MIS_MOD_NONE d t var mean = 1%Q
  /\ ((var == 0)%Q ->
      factorScheme MIS_MOD_RECIPROCAL_VARIANCE d t var mean = 1%Q)
  /\ (~ (var == 0)%Q ->
      factorScheme MIS_MOD_RECIPROCAL_VARIANCE d t var mean = (1 / var)%Q)
  /\ (~ (var == 0)%Q -> ~ (mean == 0)%Q ->
      factorScheme MIS_MOD_MOMENT_OVER_VARIANCE d t var mean
      = (1 + mean * mean / var)%Q)
  /\ ((var == 0)%Q \/ (mean == 0)%Q ->
      factorScheme MIS_MOD_MOMENT_OVER_VARIANCE d t var mean = 1%Q).
Proof.
  cbn. repeat split.
  - intros H. apply Qeq_bool_iff in H. rewrite H. reflexivity.
  - intros H. apply Qeq_bool_false_iff in H. rewrite H. reflexivity.
  - intros Hv Hm. apply fnonzero_true in Hv, Hm. rewrite Hv, Hm. reflexivity.
  - intros [H|H]; apply fnonzero_false in H; rewrite H;
      [reflexivity | apply andb_false_r || (destruct (fnonzero var); reflexivity)].
Qed.

(** C7: for every depth, strategy, mean and variance (a variance is not
    negative), the factor is 1 under [none]; [1 / var] if [var > 0], else
    1, under [reciprocal_variance]; and [1 + mean^2 / var] if [var > 0]
    and [mean != 0], else 1, under [moment_over_variance]. *)
Theorem factorScheme_nonneg_var (m : MisModification) (d t : Z) (var mean : Float) :
  (0 <= var)%Q -> factorScheme m d t var mean = spec_factor m var mean.
Proof.
  intros Hv. destruct m; cbn; [reflexivity| |].
  - destruct (Qeq_bool var 0) eqn:E.
    + apply Qeq_bool_iff in E.
      replace (fgt var 0) with false; [reflexivity|].
      symmetry. apply fgt_false. rewrite E. apply Qle_refl.
    + apply Qeq_bool_false_iff in E.
      replace (fgt var 0) with true; [reflexivity|].
      symmetry. apply fgt_true.
      apply Qle_lt_or_eq in Hv. destruct Hv as [H|H]; [exact H|].
      exfalso. apply E. symmetry. exact H.
  - replace (fgt var 0) with (fnonzero var); [reflexivity|].
    destruct (fnonzero var) eqn:E; symmetry.
    + apply fnonzero_true in E. apply fgt_true.
      apply Qle_lt_or_eq in Hv. destruct Hv as [H|H]; [exact H|].
      exfalso. apply E. symmetry. exact H.
    + apply fnonzero_false in E. apply fgt_false. rewrite E. apply Qle_refl.
Qed.

(** The moment scheme on variance 1/2 and mean 3, and the reciprocal
    variance on variance 0. *)
Lemma factorScheme_nonneg_var_witness :
  factorScheme MIS_MOD_MOMENT_OVER_VARIANCE 1 1 (1 # 2) 3
  = spec_factor MIS_MOD_MOMENT_OVER_VARIANCE (1 # 2) 3
  /\ factorScheme MIS_MOD_RECIPROCAL_VARIANCE 1 1 0 3
     = spec_factor MIS_MOD_RECIPROCAL_VARIANCE 0 3.
Proof.
  split.
  - apply (factorScheme_nonneg_var MIS_MOD_MOMENT_OVER_VARIANCE 1 1 (1 # 2) 3).
    discriminate.
  - apply (factorScheme_nonneg_var MIS_MOD_RECIPROCAL_VARIANCE 1 1 0 3).
    discriminate.
Defined.

(** ** The execution monad *)

Section MonadFacts.
Context {T : Types}.

Lemma bind_Some {A B} (c : M A) (k : A -> M B) (st : St) (b : B) (st' : St) :
  bind c k st = Some (b, st')
  <-> exists a st1, c st = Some (a, st1) /\ k a st1 = Some (b, st').
Proof.
  unfold bind. split.
  - destruct (c st) as [[a st1]|]; [|discriminate]. intros H. eauto.
  - intros (a & st1 & -> & H). exact H.
Qed.

Lemma bind_run {A B} (c : M A) (k : A -> M B) (st : St) (a : A) (st1 : St) :
  c st = Some (a, st1) -> bind c k st = k a st1.
Proof. unfold bind. intros ->. reflexivity. Qed.

Lemma array_of_set_array (a : Array) (l : list Vertex) (st : St) :
  array_of a (set_array a l st) = l.
Proof. destruct a; reflexivity. Qed.

Lemma set_array_same (a : Array) (st : St) : set_array a (array_of a st) st = st.
Proof. destruct a, st; reflexivity. Qed.

Lemma set_array_twice (a : Array) (l l' : list Vertex) (st : St) :
  set_array a l (set_array a l' st) = set_array a l st.
Proof. destruct a; reflexivity. Qed.

Lemma in_bounds_shape (p : VertexPtr) (st st' : St) :
  shape st = shape st' -> in_bounds p st = in_bounds p st'.
Proof.
  unfold shape, in_bounds. intros E. injection E as El Ec.
  destruct p as [[] i]; cbn; congruence.
Qed.

Lemma in_bounds_lt (p : VertexPtr) (st : St) :
  in_bounds p st = true
  <-> 0 <= p.2 /\ (Z.to_nat p.2 < length (array_of p.1 st))%nat.
Proof.
  unfold in_bounds. rewrite andb_true_iff, Z.leb_le, Z.ltb_lt. lia.
Qed.

Lemma load_Some (p : VertexPtr) (st : St) (v : Vertex) (st' : St) :
  load p st = Some (v, st')
  <-> st' = st /\ in_bounds p st = true
      /\ array_of p.1 st !! Z.to_nat p.2 = Some v.
Proof.
  unfold load. destruct (in_bounds p st).
  - destruct (array_of p.1 st !! Z.to_nat p.2) as [u|]; split.
    + intros [= -> ->]. auto.
    + intros (-> & _ & [= ->]). reflexivity.
    + discriminate.
    + intros (_ & _ & ?). discriminate.
  - split; [discriminate|]. intros (_ & ? & _). discriminate.
Qed.

Lemma load_defined (p : VertexPtr) (st : St) :
  in_bounds p st = true -> exists v, load p st = Some (v, st).
Proof.
  intros Hb. pose proof Hb as Hb'. apply in_bounds_lt in Hb' as [_ Hlt].
  apply lookup_lt_is_Some_2 in Hlt as [v Hv].
  exists v. apply load_Some. auto.
Qed.

Lemma store_Some (p : VertexPtr) (v : Vertex) (st : St) (u : unit) (st' : St) :
  store p v st = Some (u, st')
  <-> in_bounds p st = true
      /\ st' = set_array p.1 (<[Z.to_nat p.2 := v]> (array_of p.1 st)) st.
Proof.
  unfold store. destruct (in_bounds p st); destruct u; split.
  - intros [= <-]. auto.
  - intros (_ & ->). reflexivity.
  - discriminate.
  - intros (? & _). discriminate.
Qed.

Lemma shape_set_array_insert (a : Array) (i : nat) (v : Vertex) (st : St) :
  shape (set_array a (<[i := v]> (array_of a st)) st) = shape st.
Proof. destruct a; unfold shape; cbn; rewrite length_insert; reflexivity. Qed.

Lemma store_shape (p : VertexPtr) (v : Vertex) (st : St) (u : unit) (st' : St) :
  store p v st = Some (u, st') -> shape st' = shape st.
Proof.
  intros H. apply store_Some in H as [_ ->]. apply shape_set_array_insert.
Qed.

Lemma load_opt_Some (p : option VertexPtr) (st : St) (o : option Vertex) (st' : St) :
  load_opt p st = Some (o, st') -> st' = st.
Proof.
  destruct p as [q|]; cbn.
  - intros H. apply bind_Some in H as (v & st1 & Hl & Hr).
    apply load_Some in Hl as [-> _]. unfold ret in Hr. congruence.
  - unfold ret. congruence.
Qed.

Lemma deref_Some (p : option VertexPtr) (st : St) (v : Vertex) (st' : St) :
  deref p st = Some (v, st') -> st' = st.
Proof.
  destruct p as [q|]; cbn; [|discriminate].
  intros H. apply load_Some in H as [-> _]. reflexivity.
Qed.

(** *** Scoped assignments are undone by their destructor *)

Lemma whole_lawful : lawful whole.
Proof. intros v a. reflexivity. Qed.

Lemma delta_of_lawful : lawful delta_of.
Proof. intros [] a. reflexivity. Qed.

Lemma pdfRev_of_lawful : lawful pdfRev_of.
Proof. intros [] a. reflexivity. Qed.

Lemma scoped_assign_Some {A} (p : VertexPtr) (F : Field A) (value : A)
    (st : St) (a : ScopedAssignment A) (st' : St) :
  scoped_assign p F value st = Some (a, st')
  <-> exists v,
      in_bounds p st = true
      /\ array_of p.1 st !! Z.to_nat p.2 = Some v
      /\ a = mkScoped A (Some (p, F)) (Some (fget F v))
      /\ st' = set_array p.1
                 (<[Z.to_nat p.2 := fset F value v]> (array_of p.1 st)) st.
Proof.
  unfold scoped_assign. split.
  - intros H. apply bind_Some in H as (v & st1 & Hl & H).
    apply load_Some in Hl as (-> & Hb & Hv).
    apply bind_Some in H as (u & st2 & Hs & H).
    apply store_Some in Hs as (_ & ->).
    unfold ret in H. injection H as <- <-. eauto 6.
  - intros (v & Hb & Hv & -> & ->).
    erewrite bind_run by (apply load_Some; eauto).
    erewrite bind_run by (apply (store_Some _ _ _ tt); eauto).
    reflexivity.
Qed.

Lemma scoped_assign_shape {A} (p : VertexPtr) (F : Field A) (value : A)
    (st : St) (a : ScopedAssignment A) (st' : St) :
  scoped_assign p F value st = Some (a, st') -> shape st' = shape st.
Proof.
  intros H. apply scoped_assign_Some in H as (v & _ & _ & _ & ->).
  apply shape_set_array_insert.
Qed.

Lemma scoped_assign_undone {A} (p : VertexPtr) (F : Field A) (value : A)
    (st : St) (a : ScopedAssignment A) (st' : St) :
  lawful F ->
  scoped_assign p F value st = Some (a, st') ->
  scoped_restore a st' = Some (tt, st).
Proof.
  intros HF H. apply scoped_assign_Some in H as (v & Hb & Hv & -> & ->).
  unfold scoped_restore. cbn [target backup].
  pose proof Hb as Hlt. apply in_bounds_lt in Hlt as [_ Hlt].
  set (st1 := set_array p.1 _ st).
  assert (Hb1 : in_bounds p st1 = true).
  { rewrite <- Hb. apply in_bounds_shape. apply shape_set_array_insert. }
  erewrite bind_run.
  2:{ apply load_Some. split; [reflexivity|]. split; [exact Hb1|].
      unfold st1. rewrite array_of_set_array.
      apply list_lookup_insert_eq. exact Hlt. }
  rewrite HF. unfold store. rewrite Hb1. f_equal. f_equal.
  unfold st1. rewrite array_of_set_array, set_array_twice.
  rewrite list_insert_insert_eq, list_insert_id by exact Hv.
  apply set_array_same.
Qed.

Lemma scoped_null_undone {A} (st : St) :
  scoped_restore (@scoped_null T A) st = Some (tt, st).
Proof. reflexivity. Qed.

End MonadFacts.

(** ** Scoped mutation in [MISWeight] *)

Section ScopedFacts.
Context {T : Types}.

Lemma readonly_ret {A} (a : A) : readonly (ret a).
Proof. intros st x st'. unfold ret. congruence. Qed.

Lemma readonly_load (p : VertexPtr) : readonly (load p).
Proof. intros st x st' H. apply load_Some in H as [-> _]. reflexivity. Qed.

Lemma readonly_deref (p : option VertexPtr) : readonly (deref p).
Proof. intros st x st'. apply deref_Some. Qed.

Lemma readonly_load_opt (p : option VertexPtr) : readonly (load_opt p).
Proof. intros st x st'. apply load_opt_Some. Qed.

Lemma readonly_bind {A B} (c : M A) (k : A -> M B) :
  readonly c -> (forall a, readonly (k a)) -> readonly (bind c k).
Proof.
  intros Hc Hk st x st' H. apply bind_Some in H as (a & st1 & H1 & H2).
  apply Hc in H1 as ->. eapply Hk. exact H2.
Qed.

Lemma readonly_if {A} (b : bool) (c1 c2 : M A) :
  readonly c1 -> readonly c2 -> readonly (if b then c1 else c2).
Proof. destruct b; auto. Qed.

Lemma readonly_lift {A} (o : option A) : readonly (lift o).
Proof. intros st x st'. unfold lift. destruct o; congruence. Qed.

Lemma readonly_get_state : readonly get_state.
Proof. intros st x st'. unfold get_state. congruence. Qed.

Lemma undoable_assign {A} (p : VertexPtr) (F : Field A) (value : A)
    (st : St) (a : ScopedAssignment A) (st' : St) :
  lawful F ->
  scoped_assign p F value st = Some (a, st') -> undoable a st st'.
Proof.
  intros HF H. split.
  - eapply scoped_assign_undone; eassumption.
  - eapply scoped_assign_shape; eassumption.
Qed.

Lemma undoable_null {A} (st : St) (a : ScopedAssignment A) (st' : St) :
  ret scoped_null st = Some (a, st') -> undoable a st st'.
Proof. unfold ret. intros [= <- <-]. split; reflexivity. Qed.

Lemma undoable_read {A B} (c : M B) (k : B -> M (ScopedAssignment A))
    (st : St) (a : ScopedAssignment A) (st' : St) :
  readonly c ->
  (forall x, k x st = Some (a, st') -> undoable a st st') ->
  bind c k st = Some (a, st') -> undoable a st st'.
Proof.
  intros Hc Hk H. apply bind_Some in H as (x & st1 & H1 & H2).
  apply Hc in H1 as ->. eapply Hk. exact H2.
Qed.

Lemma undoable_match {A} (p : option VertexPtr)
    (body : VertexPtr -> M (ScopedAssignment A))
    (st : St) (a : ScopedAssignment A) (st' : St) :
  (forall q, body q st = Some (a, st') -> undoable a st st') ->
  match p with Some q => body q | None => ret scoped_null end st = Some (a, st') ->
  undoable a st st'.
Proof.
  destruct p as [q|]; intros H.
  - apply H.
  - apply undoable_null.
Qed.

Lemma undoable_if {A} (b : bool) (c1 c2 : M (ScopedAssignment A))
    (st : St) (a : ScopedAssignment A) (st' : St) :
  (c1 st = Some (a, st') -> undoable a st st') ->
  (c2 st = Some (a, st') -> undoable a st st') ->
  (if b then c1 else c2) st = Some (a, st') -> undoable a st st'.
Proof. destruct b; intros H1 H2; assumption. Qed.

End ScopedFacts.

Create HintDb readonly.
#[export] Hint Resolve readonly_ret readonly_load readonly_deref
  readonly_load_opt readonly_lift readonly_get_state : readonly.

Ltac readonly_tac :=
  repeat first
    [ apply readonly_bind; [|intros ?]
    | apply readonly_if
    | solve [auto with readonly] ].

Ltac undoable_tac :=
  repeat first
    [ apply undoable_assign;
      solve [apply whole_lawful | apply delta_of_lawful | apply pdfRev_of_lawful]
    | apply undoable_null
    | apply undoable_match; intros ?
    | apply undoable_if
    | apply undoable_read; [solve [readonly_tac] | intros ?] ].

Section UndoFacts.
Context {T : Types} {W : World}.

Lemma update_for_strategy_undone (scene : Scene) (sampled : Vertex) (s t : Z)
    (lightPdf : Distribution1D) (lightToIndex : LightToIndex)
    (st : St) (sc : Scopes) (st' : St) :
  update_for_strategy scene sampled s t lightPdf lightToIndex st = Some (sc, st') ->
  restore_all sc st' = Some (tt, st) /\ shape st' = shape st.
Proof.
  intros H. unfold update_for_strategy in H. cbv zeta in H.
  apply bind_Some in H as (x1 & st1 & H1 & H).
  apply bind_Some in H as (x2 & st2 & H2 & H).
  apply bind_Some in H as (x3 & st3 & H3 & H).
  apply bind_Some in H as (x4 & st4 & H4 & H).
  apply bind_Some in H as (x5 & st5 & H5 & H).
  apply bind_Some in H as (x6 & st6 & H6 & H).
  apply bind_Some in H as (x7 & st7 & H7 & H).
  unfold ret in H. injection H as <- <-.
  assert (U1 : undoable x1 st st1) by (revert H1; undoable_tac).
  assert (U2 : undoable x2 st1 st2) by (revert H2; undoable_tac).
  assert (U3 : undoable x3 st2 st3) by (revert H3; undoable_tac).
  assert (U4 : undoable x4 st3 st4) by (revert H4; undoable_tac).
  assert (U5 : undoable x5 st4 st5) by (revert H5; undoable_tac).
  assert (U6 : undoable x6 st5 st6) by (revert H6; undoable_tac).
  assert (U7 : undoable x7 st6 st7) by (revert H7; undoable_tac).
  destruct U1 as [R1 S1], U2 as [R2 S2], U3 as [R3 S3], U4 as [R4 S4],
    U5 as [R5 S5], U6 as [R6 S6], U7 as [R7 S7].
  split; [|congruence].
  unfold restore_all. cbn [a1 a2 a3 a4 a5 a6 a7].
  rewrite (bind_run _ _ _ _ _ R7), (bind_run _ _ _ _ _ R6),
    (bind_run _ _ _ _ _ R5), (bind_run _ _ _ _ _ R4),
    (bind_run _ _ _ _ _ R3), (bind_run _ _ _ _ _ R2).
  exact R1.
Qed.

(** Every call of [MISWeight] that returns leaves the state as it
    found it. *)
Lemma MISWeight_frame (scene : Scene) (sampled : Vertex) (s t : Z)
    (lightPdf : Distribution1D) (lightToIndex : LightToIndex)
    (pxCoords : Point2i) (rectifier : option SAMISRectifier)
    (mode : MisStrategy) (st : St) (w : Float) (st' : St) :
  MISWeight scene sampled s t lightPdf lightToIndex pxCoords rectifier mode st
    = Some (w, st') ->
  st' = st.
Proof.
  unfold MISWeight. destruct (s + t =? 2).
  - unfold ret. congruence.
  - intros H. apply bind_Some in H as (sc & st1 & Hu & H).
    apply update_for_strategy_undone in Hu as [Hr _].
    apply bind_Some in H as (st1' & st2 & Hg & H).
    apply readonly_get_state in Hg as ->.
    apply bind_Some in H as (sum1 & st3 & Hc & H).
    apply readonly_lift in Hc as ->.
    apply bind_Some in H as (sum2 & st4 & Hl & H).
    apply readonly_lift in Hl as ->.
    apply bind_Some in H as (u & st5 & Hr' & H).
    rewrite Hr in Hr'. injection Hr' as _ <-.
    unfold ret in H. congruence.
Qed.

End UndoFacts.

(** ** The two walks of [MISWeight] compute the sum of the specification *)

Section SumFacts.
Context {T : Types} {W : World}.

Lemma density_ratio_end (path : list Vertex) (n : nat) :
  density_ratio path n n = 1%Q.
Proof. unfold density_ratio. rewrite Nat.sub_diag. reflexivity. Qed.

Lemma density_ratio_step (path : list Vertex) (n i : nat) (v : Vertex) :
  (i < n)%nat -> path !! i = Some v ->
  density_ratio path n i = (density_ratio path n (S i) * ratio v)%Q.
Proof.
  intros Hi Hv. unfold density_ratio.
  replace (n - i)%nat with (S (n - S i)) by lia.
  rewrite (drop_S _ _ _ Hv). cbn [firstn rev].
  rewrite map_app, fold_left_app. reflexivity.
Qed.

Lemma rev_seq_S (a n : nat) : rev (seq a (S n)) = (a + n)%nat :: rev (seq a n).
Proof. rewrite seq_S, rev_app_distr. reflexivity. Qed.

Lemma is_delta_lookup (path : list Vertex) (i : nat) (v : Vertex) :
  path !! i = Some v -> is_delta path i = delta v.
Proof. unfold is_delta. intros ->. reflexivity. Qed.

Lemma camera_walk_spec (cam : list Vertex) (mode : MisStrategy)
    (rectifier : option SAMISRectifier) (pxCoords : Point2i) (s t : Z) (n : nat) :
  (n <= length cam)%nat ->
  forall (i : nat) (ri sumRi : Float),
    (i < n)%nat ->
    ri = density_ratio cam n (S i) ->
    camera_walk cam mode rectifier pxCoords s t i ri sumRi
    = Some (fold_left Qplus
              (map (fun i => (effDensRatio mode (density_ratio cam n i)
                              * stratFactor rectifier pxCoords (s + t) (Z.of_nat i))%Q)
                 (List.filter
                    (fun i => negb (is_delta cam i) && negb (is_delta cam (i - 1)))
                    (rev (seq 1 i))))
              sumRi).
Proof.
  intros Hn. induction i as [|i IH]; intros ri sumRi Hi Hri.
  - reflexivity.
  - destruct (lookup_lt_is_Some_2 cam (S i) ltac:(lia)) as [vi Hvi].
    destruct (lookup_lt_is_Some_2 cam i ltac:(lia)) as [vp Hvp].
    cbn [camera_walk]. rewrite Hvi, Hvp.
    rewrite rev_seq_S. cbn [List.filter].
    replace (1 + i)%nat with (S i) by lia.
    replace (S i - 1)%nat with i by lia.
    rewrite (is_delta_lookup _ _ _ Hvi), (is_delta_lookup _ _ _ Hvp).
    assert (Hr : (ri * (remap0 (pdfRev vi) / remap0 (pdfFwd vi)))%Q
                 = density_ratio cam n (S i)).
    { rewrite (density_ratio_step cam n (S i) vi) by (lia || assumption).
      rewrite Hri. reflexivity. }
    destruct (delta vi); cbn [negb andb].
    + apply IH; [lia | exact Hr].
    + destruct (delta vp); cbn [negb map fold_left].
      * apply IH; [lia | exact Hr].
      * rewrite IH by (lia || exact Hr). rewrite Hr. reflexivity.
Qed.

Lemma light_walk_spec (lv : list Vertex) (mode : MisStrategy)
    (rectifier : option SAMISRectifier) (pxCoords : Point2i) (s t : Z) (n : nat) :
  (n <= length lv)%nat ->
  forall (k : nat) (ri sumRi : Float),
    (k <= n)%nat ->
    ri = density_ratio lv n k ->
    light_walk lv mode rectifier pxCoords s t k ri sumRi
    = Some (fold_left Qplus
              (map (fun i => (effDensRatio mode (density_ratio lv n i)
                              * stratFactor rectifier pxCoords (s + t)
                                  (s + t - Z.of_nat i))%Q)
                 (List.filter
                    (fun i =>
                       negb (is_delta lv i)
                       && negb (match i with
                                | O => match lv !! O with
                                       | Some v => IsDeltaLight v
                                       | None => true
                                       end
                                | S i' => is_delta lv i'
                                end))
                    (rev (seq 0 k))))
              sumRi).
Proof.
  intros Hn. induction k as [|i IH]; intros ri sumRi Hi Hri.
  - reflexivity.
  - destruct (lookup_lt_is_Some_2 lv i ltac:(lia)) as [vi Hvi].
    cbn [light_walk]. rewrite Hvi.
    rewrite rev_seq_S. cbn [List.filter Nat.add].
    rewrite (is_delta_lookup _ _ _ Hvi).
    assert (Hr : (ri * (remap0 (pdfRev vi) / remap0 (pdfFwd vi)))%Q
                 = density_ratio lv n i).
    { rewrite (density_ratio_step lv n i vi) by (lia || assumption).
      rewrite Hri. reflexivity. }
    destruct i as [|i'].
    + rewrite Hvi. cbn [option_map].
      destruct (negb (delta vi) && negb (IsDeltaLight vi)); cbn [map fold_left].
      * rewrite IH by (lia || exact Hr). rewrite Hr. reflexivity.
      * apply IH; [lia | exact Hr].
    + destruct (lookup_lt_is_Some_2 lv i' ltac:(lia)) as [vp Hvp].
      rewrite Hvp. cbn [option_map]. rewrite (is_delta_lookup _ _ _ Hvp).
      destruct (negb (delta vi) && negb (delta vp)); cbn [map fold_left].
      * rewrite IH by (lia || exact Hr). rewrite Hr. reflexivity.
      * apply IH; [lia | exact Hr].
Qed.

End SumFacts.

(** ** Definedness of the accesses *)

Section SafeFacts.
Context {T : Types}.

Lemma ptr_ok_in_bounds (n : nat * nat) (p : VertexPtr) (st : St) :
  shape st = n -> ptr_ok n p -> in_bounds p st = true.
Proof.
  unfold shape, ptr_ok, in_bounds. intros <-. destruct p as [[] i]; cbn; lia.
Qed.

Lemma safe_ret {A} (n : nat * nat) (a : A) : safe n (ret a).
Proof. intros st Hs. exists a, st. auto. Qed.

Lemma safe_bind {A B} (n : nat * nat) (c : M A) (k : A -> M B) :
  safe n c -> (forall a, safe n (k a)) -> safe n (bind c k).
Proof.
  intros Hc Hk st Hs. destruct (Hc st Hs) as (a & st1 & H1 & Hs1).
  destruct (Hk a st1 Hs1) as (b & st2 & H2 & Hs2).
  exists b, st2. split; [|exact Hs2]. rewrite (bind_run _ _ _ _ _ H1). exact H2.
Qed.

Lemma safe_if {A} (n : nat * nat) (b : bool) (c1 c2 : M A) :
  safe n c1 -> safe n c2 -> safe n (if b then c1 else c2).
Proof. destruct b; intros H1 H2; assumption. Qed.

Lemma safe_load (n : nat * nat) (p : VertexPtr) : ptr_ok n p -> safe n (load p).
Proof.
  intros Hp st Hs.
  destruct (load_defined p st (ptr_ok_in_bounds _ _ _ Hs Hp)) as [v Hv].
  eauto.
Qed.

Lemma safe_store (n : nat * nat) (p : VertexPtr) (v : Vertex) :
  ptr_ok n p -> safe n (store p v).
Proof.
  intros Hp st Hs. eexists tt, _. split.
  - apply store_Some. split; [|reflexivity]. eapply ptr_ok_in_bounds; eassumption.
  - rewrite shape_set_array_insert. exact Hs.
Qed.

Lemma safe_deref (n : nat * nat) (p : VertexPtr) :
  ptr_ok n p -> safe n (deref (Some p)).
Proof. apply safe_load. Qed.

Lemma safe_load_opt_Some (n : nat * nat) (p : VertexPtr) :
  ptr_ok n p -> safe n (load_opt (Some p)).
Proof.
  intros Hp. cbn. apply safe_bind; [apply safe_load; exact Hp|].
  intros v. apply safe_ret.
Qed.

Lemma safe_load_opt_None (n : nat * nat) : safe n (load_opt None).
Proof. apply safe_ret. Qed.

Lemma safe_scoped_assign {A} (n : nat * nat) (p : VertexPtr) (F : Field A)
    (value : A) :
  ptr_ok n p -> safe n (scoped_assign p F value).
Proof.
  intros Hp. unfold scoped_assign.
  apply safe_bind; [apply safe_load; exact Hp|]. intros v.
  apply safe_bind; [apply safe_store; exact Hp|]. intros _.
  apply safe_ret.
Qed.

End SafeFacts.

Ltac safe_tac :=
  repeat first
    [ apply safe_ret
    | apply safe_load_opt_None
    | apply safe_scoped_assign
    | apply safe_load_opt_Some
    | apply safe_deref
    | apply safe_load
    | apply safe_bind; [|intros ?] ].

Section UpdateSafe.
Context {T : Types} {W : World}.

Lemma update_for_strategy_safe (scene : Scene) (sampled : Vertex) (s t : Z)
    (lightPdf : Distribution1D) (lightToIndex : LightToIndex) (n : nat * nat) :
  0 <= s <= Z.of_nat n.1 -> 1 <= t <= Z.of_nat n.2 -> 3 <= s + t ->
  safe n (update_for_strategy scene sampled s t lightPdf lightToIndex).
Proof.
  intros Hs Ht Hst. unfold update_for_strategy, ptr_if. cbv zeta.
  destruct (Z.ltb_spec 0 s), (Z.ltb_spec 1 s), (Z.eqb_spec s 1),
    (Z.ltb_spec 0 t), (Z.ltb_spec 1 t), (Z.eqb_spec t 1);
    try lia; safe_tac; unfold ptr_ok; cbn; lia.
Qed.

End UpdateSafe.

(** ** The value and the frame of [MISWeight] *)

Section MISWeightFacts.
Context {T : Types} {W : World}.

Lemma lift_Some {A} (a : A) (st : St) : lift (Some a) st = Some (a, st).
Proof. reflexivity. Qed.

Lemma MISWeight_run (scene : Scene) (sampled : Vertex) (s t : Z)
    (lightPdf : Distribution1D) (lightToIndex : LightToIndex)
    (pxCoords : Point2i) (rectifier : option SAMISRectifier)
    (mode : MisStrategy) (st : St) :
  valid_call s t st -> s + t <> 2 ->
  exists sc view,
    update_for_strategy scene sampled s t lightPdf lightToIndex st = Some (sc, view)
    /\ shape view = shape st
    /\ MISWeight scene sampled s t lightPdf lightToIndex pxCoords rectifier mode st
       = Some ((1 / (1 + spec_sumRi view mode rectifier pxCoords s t
                        / stratFactor rectifier pxCoords (s + t) t))%Q, st).
Proof.
  intros (Hs & Ht & Hst) Hne.
  destruct (update_for_strategy_safe scene sampled s t lightPdf lightToIndex
              (shape st) Hs Ht ltac:(lia) st eq_refl)
    as (sc & view & Hu & Hshape).
  exists sc, view. split; [exact Hu|]. split; [exact Hshape|].
  unfold MISWeight. destruct (Z.eqb_spec (s + t) 2) as [|_]; [contradiction|].
  rewrite (bind_run _ _ _ _ _ Hu).
  erewrite bind_run by reflexivity.
  injection Hshape as Hl Hc.
  rewrite (camera_walk_spec (cameraVertices view) mode rectifier pxCoords s t
             (Z.to_nat t)); [|lia|lia|].
  2:{ replace (S (Z.to_nat (t - 1))) with (Z.to_nat t) by lia.
      symmetry. apply density_ratio_end. }
  erewrite bind_run by apply lift_Some.
  rewrite (light_walk_spec (lightVertices view) mode rectifier pxCoords s t
             (Z.to_nat s)); [|lia|lia|].
  2:{ symmetry. apply density_ratio_end. }
  erewrite bind_run by apply lift_Some.
  destruct (update_for_strategy_undone _ _ _ _ _ _ _ _ _ Hu) as [Hr _].
  rewrite (bind_run _ _ _ _ _ Hr). unfold ret. f_equal. f_equal.
  unfold spec_sumRi, camera_terms, light_terms.
  rewrite fold_left_app.
  replace (Z.to_nat t - 1)%nat with (Z.to_nat (t - 1)) by lia.
  rewrite Z2Nat.id by lia. reflexivity.
Qed.

(** C4: [MISWeight] leaves both vertex arrays (and the rest of the state)
    as it found them: whenever it returns, on either exit path, the state
    is the initial one, and it does return on every call the render loop
    can make. *)
Theorem MISWeight_restores (scene : Scene) (sampled : Vertex) (s t : Z)
    (lightPdf : Distribution1D) (lightToIndex : LightToIndex)
    (pxCoords : Point2i) (rectifier : option SAMISRectifier)
    (mode : MisStrategy) (st : St) :
  (forall w st',
      MISWeight scene sampled s t lightPdf lightToIndex pxCoords rectifier mode st
      = Some (w, st') ->
      lightVertices st' = lightVertices st
      /\ cameraVertices st' = cameraVertices st
      /\ st' = st)
  /\ (valid_call s t st ->
      exists w,
        MISWeight scene sampled s t lightPdf lightToIndex pxCoords rectifier
          mode st
        = Some (w, st)).
Proof.
  split.
  - intros w st' H. apply MISWeight_frame in H as ->. auto.
  - intros Hv. destruct (Z.eq_dec (s + t) 2) as [E|Hne].
    + exists 1%Q. unfold MISWeight. rewrite E. reflexivity.
    + destruct (MISWeight_run scene sampled s t lightPdf lightToIndex pxCoords
                  rectifier mode st Hv Hne) as (sc & view & _ & _ & Hw).
      eauto.
Qed.

End MISWeightFacts.

(** ** The range of the MIS weight *)

Section DensityInvariant.
Context {T : Types} {W : World}.

Lemma returns_ret {A} (Q : A -> Prop) (a : A) : Q a -> returns Q (ret a).
Proof. intros Ha st x st'. unfold ret. intros [= <- _]. exact Ha. Qed.

Lemma returns_bind {A B} (Q : B -> Prop) (c : M A) (k : A -> M B) :
  (forall a, returns Q (k a)) -> returns Q (bind c k).
Proof.
  intros Hk st x st' H. apply bind_Some in H as (a & st1 & _ & H2).
  eapply Hk. exact H2.
Qed.

Lemma returns_if {A} (Q : A -> Prop) (b : bool) (c1 c2 : M A) :
  returns Q c1 -> returns Q c2 -> returns Q (if b then c1 else c2).
Proof. destruct b; intros H1 H2; assumption. Qed.

Lemma nonneg_set_array (a : Array) (i : nat) (v : Vertex) (st : St) :
  nonneg_state st -> vertex_nonneg v ->
  nonneg_state (set_array a (<[i := v]> (array_of a st)) st).
Proof.
  intros [Hl Hc] Hv.
  destruct a; unfold nonneg_state, set_array, array_of;
    cbn [lightVertices cameraVertices]; split;
    first [assumption | apply Forall_insert; assumption].
Qed.

Lemma nonneg_lookup (a : Array) (i : nat) (v : Vertex) (st : St) :
  nonneg_state st -> array_of a st !! i = Some v -> vertex_nonneg v.
Proof.
  intros [Hl Hc] Hv. destruct a; cbn in Hv.
  - exact (Forall_lookup_1 _ _ _ _ Hl Hv).
  - exact (Forall_lookup_1 _ _ _ _ Hc Hv).
Qed.

Lemma nonneg_assign {A} (p : VertexPtr) (F : Field A) (value : A)
    (st : St) (a : ScopedAssignment A) (st' : St) :
  (forall v, vertex_nonneg v -> vertex_nonneg (fset F value v)) ->
  nonneg_state st ->
  scoped_assign p F value st = Some (a, st') -> nonneg_state st'.
Proof.
  intros HF Hst H. apply scoped_assign_Some in H as (v & _ & Hv & _ & ->).
  apply nonneg_set_array; [exact Hst|]. apply HF.
  eapply nonneg_lookup; eassumption.
Qed.

Lemma nonneg_null {A} (st : St) (a : ScopedAssignment A) (st' : St) :
  nonneg_state st -> ret scoped_null st = Some (a, st') -> nonneg_state st'.
Proof. unfold ret. intros Hst [= _ <-]. exact Hst. Qed.

Lemma nonneg_read {A B} (Q : B -> Prop) (c : M B)
    (k : B -> M (ScopedAssignment A))
    (st : St) (a : ScopedAssignment A) (st' : St) :
  readonly c -> returns Q c ->
  (forall x, Q x -> k x st = Some (a, st') -> nonneg_state st') ->
  bind c k st = Some (a, st') -> nonneg_state st'.
Proof.
  intros Hc HQ Hk H. apply bind_Some in H as (x & st1 & H1 & H2).
  pose proof (HQ _ _ _ H1) as Hx. apply Hc in H1 as ->. eapply Hk; eassumption.
Qed.

Lemma nonneg_match {A} (p : option VertexPtr)
    (body : VertexPtr -> M (ScopedAssignment A))
    (st : St) (a : ScopedAssignment A) (st' : St) :
  nonneg_state st ->
  (forall q, body q st = Some (a, st') -> nonneg_state st') ->
  match p with Some q => body q | None => ret scoped_null end st = Some (a, st') ->
  nonneg_state st'.
Proof.
  intros Hst. destruct p as [q|]; intros H.
  - apply H.
  - apply nonneg_null. exact Hst.
Qed.

Lemma nonneg_if {A} (b : bool) (c1 c2 : M (ScopedAssignment A))
    (st : St) (a : ScopedAssignment A) (st' : St) :
  (c1 st = Some (a, st') -> nonneg_state st') ->
  (c2 st = Some (a, st') -> nonneg_state st') ->
  (if b then c1 else c2) st = Some (a, st') -> nonneg_state st'.
Proof. destruct b; intros H1 H2; assumption. Qed.

Lemma set_delta_nonneg (d : bool) (v : Vertex) :
  vertex_nonneg v -> vertex_nonneg (fset delta_of d v).
Proof. intros H. exact H. Qed.

Lemma set_pdfRev_nonneg (x : Float) (v : Vertex) :
  (0 <= x)%Q -> vertex_nonneg v -> vertex_nonneg (fset pdfRev_of x v).
Proof. intros Hx [Hf _]. split; [exact Hf | exact Hx]. Qed.

Lemma set_whole_nonneg (x v : Vertex) :
  vertex_nonneg x -> vertex_nonneg v -> vertex_nonneg (fset whole x v).
Proof. intros Hx _. exact Hx. Qed.

End DensityInvariant.

Ltac returns_tac :=
  repeat first
    [ apply returns_ret; solve [auto]
    | apply returns_if
    | apply returns_bind; intros ? ].

Ltac nonneg_tac :=
  repeat first
    [ apply nonneg_assign;
      [ intros ? ?;
        first [ apply set_delta_nonneg; assumption
              | apply set_whole_nonneg; assumption
              | apply set_pdfRev_nonneg; [solve [auto] | assumption] ]
      | assumption ]
    | apply nonneg_null; assumption
    | apply nonneg_match; [assumption | intros ?]
    | apply nonneg_if
    | apply (nonneg_read (fun x => (0 <= x)%Q));
      [ solve [readonly_tac] | solve [returns_tac] | intros ? ? ]
    | apply (nonneg_read (fun _ => True));
      [ solve [readonly_tac] | intros ? ? ? ?; exact I | intros ? _ ] ].

Section ViewNonneg.
Context {T : Types} {W : World}.

Lemma update_for_strategy_nonneg (scene : Scene) (sampled : Vertex) (s t : Z)
    (lightPdf : Distribution1D) (lightToIndex : LightToIndex)
    (st : St) (sc : Scopes) (st' : St) :
  densities_nonneg -> vertex_nonneg sampled -> nonneg_state st ->
  update_for_strategy scene sampled s t lightPdf lightToIndex st = Some (sc, st') ->
  nonneg_state st'.
Proof.
  intros (Hd1 & Hd2 & Hd3) Hsampled Hst H.
  unfold update_for_strategy in H. cbv zeta in H.
  apply bind_Some in H as (x1 & st1 & H1 & H).
  apply bind_Some in H as (x2 & st2 & H2 & H).
  apply bind_Some in H as (x3 & st3 & H3 & H).
  apply bind_Some in H as (x4 & st4 & H4 & H).
  apply bind_Some in H as (x5 & st5 & H5 & H).
  apply bind_Some in H as (x6 & st6 & H6 & H).
  apply bind_Some in H as (x7 & st7 & H7 & H).
  unfold ret in H. injection H as _ <-.
  assert (N1 : nonneg_state st1) by (revert H1; nonneg_tac).
  assert (N2 : nonneg_state st2) by (revert H2; nonneg_tac).
  assert (N3 : nonneg_state st3) by (revert H3; nonneg_tac).
  assert (N4 : nonneg_state st4) by (revert H4; nonneg_tac).
  assert (N5 : nonneg_state st5) by (revert H5; nonneg_tac).
  assert (N6 : nonneg_state st6) by (revert H6; nonneg_tac).
  revert H7; nonneg_tac.
Qed.

End ViewNonneg.

Section WeightRange.
Context {T : Types} {W : World}.

Lemma remap0_pos (x : Float) : (0 <= x)%Q -> (0 < remap0 x)%Q.
Proof.
  intros Hx. unfold remap0. destruct (fnonzero x) eqn:E.
  - apply fnonzero_true in E. apply Qle_lt_or_eq in Hx as [H|H]; [exact H|].
    exfalso. apply E. symmetry. exact H.
  - reflexivity.
Qed.

Lemma Qdiv_pos (a b : Q) : (0 < a)%Q -> (0 < b)%Q -> (0 < a / b)%Q.
Proof.
  intros Ha Hb. apply Qlt_shift_div_l; [exact Hb|]. rewrite Qmult_0_l. exact Ha.
Qed.

Lemma Qmult_pos (a b : Q) : (0 < a)%Q -> (0 < b)%Q -> (0 < a * b)%Q.
Proof.
  intros Ha Hb. rewrite <- (Qmult_0_l b). apply Qmult_lt_compat_r; assumption.
Qed.

Lemma ratio_pos (v : Vertex) : vertex_nonneg v -> (0 < ratio v)%Q.
Proof. intros [Hf Hr]. apply Qdiv_pos; apply remap0_pos; assumption. Qed.

Lemma fold_ratio_pos (l : list Vertex) (a : Q) :
  Forall vertex_nonneg l -> (0 < a)%Q ->
  (0 < fold_left Qmult (map ratio l) a)%Q.
Proof.
  intros Hl. revert a. induction Hl as [|v l Hv _ IH]; intros a Ha; cbn.
  - exact Ha.
  - apply IH. apply Qmult_pos; [exact Ha | apply ratio_pos; exact Hv].
Qed.

Lemma density_ratio_pos (path : list Vertex) (n i : nat) :
  Forall vertex_nonneg path -> (0 < density_ratio path n i)%Q.
Proof.
  intros Hp. unfold density_ratio. apply fold_ratio_pos; [|reflexivity].
  apply List.Forall_rev. apply Forall_take, Forall_drop. exact Hp.
Qed.

Lemma effDensRatio_pos (mode : MisStrategy) (r : Float) :
  (0 < r)%Q -> (0 < effDensRatio mode r)%Q.
Proof.
  intros Hr. destruct mode; cbn; [exact Hr | apply Qmult_pos; exact Hr | reflexivity].
Qed.

Lemma stratFactor_pos (rectifier : option SAMISRectifier) (pxCoords : Point2i)
    (d t : Z) :
  rectifier_positive rectifier -> (0 < stratFactor rectifier pxCoords d t)%Q.
Proof.
  intros Hr. unfold stratFactor. destruct rectifier as [r|]; [|reflexivity].
  apply (Hr r eq_refl).
Qed.

Lemma fold_Qplus_nonneg (l : list Q) (a : Q) :
  Forall (fun x => (0 <= x)%Q) l -> (0 <= a)%Q -> (0 <= fold_left Qplus l a)%Q.
Proof.
  intros Hl. revert a. induction Hl as [|x l Hx _ IH]; intros a Ha; cbn.
  - exact Ha.
  - apply IH. rewrite <- (Qplus_0_l 0). apply Qplus_le_compat; assumption.
Qed.

Lemma spec_sumRi_nonneg (st : St) (mode : MisStrategy)
    (rectifier : option SAMISRectifier) (pxCoords : Point2i) (s t : Z) :
  nonneg_state st -> rectifier_positive rectifier ->
  (0 <= spec_sumRi st mode rectifier pxCoords s t)%Q.
Proof.
  intros [Hl Hc] Hr. unfold spec_sumRi.
  apply fold_Qplus_nonneg; [|apply Qle_refl].
  apply Forall_app. split.
  - unfold camera_terms. apply Forall_map, Forall_forall. intros i _. cbn.
    apply Qlt_le_weak, Qmult_pos.
    + apply effDensRatio_pos, density_ratio_pos. exact Hc.
    + apply stratFactor_pos. exact Hr.
  - unfold light_terms. apply Forall_map, Forall_forall. intros i _. cbn.
    apply Qlt_le_weak, Qmult_pos.
    + apply effDensRatio_pos, density_ratio_pos. exact Hl.
    + apply stratFactor_pos. exact Hr.
Qed.

Lemma balance_weight_range (sumRi beta : Q) :
  (0 <= sumRi)%Q -> (0 < beta)%Q ->
  (0 <= 1 / (1 + sumRi / beta) <= 1)%Q.
Proof.
  intros Hs Hb.
  assert (Hq : (0 <= sumRi / beta)%Q).
  { apply Qle_shift_div_l; [exact Hb|]. rewrite Qmult_0_l. exact Hs. }
  assert (Hd : (0 < 1 + sumRi / beta)%Q) by lra.
  split.
  - apply Qle_shift_div_l; [exact Hd|]. lra.
  - apply Qle_shift_div_r; [exact Hd|]. lra.
Qed.

(** In exact arithmetic, with non-negative densities in the two subpaths
    and in the sampled endpoint, non-negative densities from the vertex
    queries, and positive rectifier factors (or no rectifier), the weight
    returned by [MISWeight] lies between 0 and 1.  This is what the
    arithmetic aims at; it says nothing of a run in which a product of
    ratios overflows or underflows (see [Binary32]). *)
Lemma MISWeight_range (scene : Scene) (sampled : Vertex) (s t : Z)
    (lightPdf : Distribution1D) (lightToIndex : LightToIndex)
    (pxCoords : Point2i) (rectifier : option SAMISRectifier)
    (mode : MisStrategy) (st : St) :
  densities_nonneg ->
  rectifier_positive rectifier ->
  Forall vertex_nonneg (lightVertices st) ->
  Forall vertex_nonneg (cameraVertices st) ->
  vertex_nonneg sampled ->
  valid_call s t st ->
  exists misWeight,
    MISWeight scene sampled s t lightPdf lightToIndex pxCoords rectifier mode st
    = Some (misWeight, st)
    /\ (0 <= misWeight <= 1)%Q.
Proof.
  intros Hd Hr Hl Hc Hsampled Hv.
  destruct (Z.eq_dec (s + t) 2) as [E|Hne].
  - exists 1%Q. split; [|lra]. unfold MISWeight. rewrite E. reflexivity.
  - destruct (MISWeight_run scene sampled s t lightPdf lightToIndex pxCoords
                rectifier mode st Hv Hne) as (sc & view & Hu & _ & Hw).
    eexists. split; [exact Hw|].
    apply balance_weight_range.
    + apply spec_sumRi_nonneg; [|exact Hr].
      eapply update_for_strategy_nonneg; [exact Hd | exact Hsampled | | exact Hu].
      split; assumption.
    + apply stratFactor_pos. exact Hr.
Qed.

End WeightRange.

(** ** [ConnectBDPT] *)

Section ConnectFacts.
Context {T : Types} {W : World}.

Lemma scale_black (L : Spectrum) (k : Float) :
  Spec.IsBlack L = true -> Spec.IsBlack (Spec.scale L k) = true.
Proof.
  unfold Spec.IsBlack, Spec.scale. induction L as [|c L IH]; cbn; [reflexivity|].
  rewrite !andb_true_iff. intros [Hc HL]. split; [|apply IH; exact HL].
  apply Qeq_bool_iff in Hc. apply Qeq_bool_iff. rewrite Hc. apply Qmult_0_l.
Qed.

Lemma Spectrum_const_0_black : Spec.IsBlack (Spectrum_const 0) = true.
Proof.
  unfold Spectrum_const, Spec.IsBlack.
  induction nSpectrumSamples as [|n IH]; cbn; [reflexivity | exact IH].
Qed.

(** A connection the guard rejects returns the black spectrum and leaves
    the Float behind [misWeightPtr] as it was. *)
Lemma ConnectBDPT_rejected (mis : Vertex -> Point2i -> M Float)
    (scene : Scene) (s t : Z) (lightDistr : Distribution1D)
    (lightToIndex : LightToIndex) (camera : Camera) (pRaster : Point2f)
    (misWeightPtr : option Float) (st st0 : St) :
  infinite_light_guard s t st = Some (true, st0) ->
  ConnectBDPT_with mis scene s t lightDistr lightToIndex camera pRaster
    misWeightPtr st
  = Some ((Spectrum_const 0, pRaster, misWeightPtr), st0).
Proof.
  intros Hg. unfold ConnectBDPT_with. rewrite (bind_run _ _ _ _ _ Hg).
  reflexivity.
Qed.

(** C10 (amended): for every connection that the infinite-area-light guard
    does not reject, with [L] the unweighted contribution the connection
    computes: when [L] is black, [ConnectBDPT] returns a black spectrum
    and stores 0 through a non-null [misWeightPtr] whatever the weight
    function is, even one that never returns, so [MISWeight] is not
    invoked; when [L] is not black, it stores the weight that [MISWeight]
    computes and returns [L] multiplied by it. *)
Theorem ConnectBDPT_black_or_weighted
    (scene : Scene) (s t : Z) (lightDistr : Distribution1D)
    (lightToIndex : LightToIndex) (camera : Camera) (pRaster : Point2f)
    (misWeightPtr : option Float) (rectifier : option SAMISRectifier)
    (misStrategy : MisStrategy)
    (st st0 st1 : St) (L : Spectrum) (sampled : Vertex) (pRaster' : Point2f) :
  infinite_light_guard s t st = Some (false, st0) ->
  connect scene s t lightDistr lightToIndex camera pRaster st0
    = Some ((L, sampled, pRaster'), st1) ->
  (Spec.IsBlack L = true ->
   (forall mis : Vertex -> Point2i -> M Float,
       ConnectBDPT_with mis scene s t lightDistr lightToIndex camera pRaster
         misWeightPtr st
       = Some ((Spec.scale L 0, pRaster',
                match misWeightPtr with Some _ => Some 0%Q | None => None end),
               st1))
   /\ Spec.IsBlack (Spec.scale L 0) = true)
  /\ (Spec.IsBlack L = false ->
      forall (misWeight : Float) (st2 : St),
        MISWeight scene sampled s t lightDistr lightToIndex
          (Point2i_of pRaster') rectifier misStrategy st1
        = Some (misWeight, st2) ->
        ConnectBDPT scene s t lightDistr lightToIndex camera pRaster
          misWeightPtr rectifier misStrategy st
        = Some ((Spec.scale L misWeight, pRaster',
                 match misWeightPtr with
                 | Some _ => Some misWeight
                 | None => None
                 end),
                st2)).
Proof.
  intros Hg Hc. split.
  - intros Hb. split; [|apply scale_black; exact Hb].
    intros mis. unfold ConnectBDPT_with.
    rewrite (bind_run _ _ _ _ _ Hg). cbv iota.
    rewrite (bind_run _ _ _ _ _ Hc). cbv iota beta.
    rewrite Hb. reflexivity.
  - intros Hb misWeight st2 Hw. unfold ConnectBDPT, ConnectBDPT_with.
    rewrite (bind_run _ _ _ _ _ Hg). cbv iota.
    rewrite (bind_run _ _ _ _ _ Hc). cbv iota beta.
    rewrite Hb. rewrite (bind_run _ _ _ _ _ Hw). reflexivity.
Qed.

End ConnectFacts.

(** ** The strategy loop *)

Section OutputFacts.
Context {T : Types}.

Lemma outputs_kept_refl (st : St) : outputs_kept st st.
Proof. repeat split. Qed.

Lemma outputs_kept_trans (st1 st2 st3 : St) :
  outputs_kept st1 st2 -> outputs_kept st2 st3 -> outputs_kept st1 st3.
Proof. unfold outputs_kept. intros (?&?&?) (?&?&?). repeat split; congruence. Qed.

Lemma keeps_readonly {A} (c : M A) : readonly c -> keeps_outputs c.
Proof. intros Hc st a st' H. apply Hc in H as ->. apply outputs_kept_refl. Qed.

Lemma keeps_ret {A} (a : A) : keeps_outputs (ret a).
Proof. apply keeps_readonly, readonly_ret. Qed.

Lemma keeps_bind {A B} (c : M A) (k : A -> M B) :
  keeps_outputs c -> (forall a, keeps_outputs (k a)) -> keeps_outputs (bind c k).
Proof.
  intros Hc Hk st b st' H. apply bind_Some in H as (a & st1 & H1 & H2).
  eapply outputs_kept_trans; [eapply Hc | eapply Hk]; eassumption.
Qed.

Lemma keeps_if {A} (b : bool) (c1 c2 : M A) :
  keeps_outputs c1 -> keeps_outputs c2 -> keeps_outputs (if b then c1 else c2).
Proof. destruct b; intros H1 H2; assumption. Qed.

Lemma keeps_load (p : VertexPtr) : keeps_outputs (load p).
Proof. apply keeps_readonly, readonly_load. Qed.

Lemma keeps_lift {A} (o : option A) : keeps_outputs (lift o).
Proof. apply keeps_readonly, readonly_lift. Qed.

Lemma keeps_store (p : VertexPtr) (v : Vertex) : keeps_outputs (store p v).
Proof.
  intros st [] st' H. apply store_Some in H as [_ ->].
  destruct p as [[] i]; repeat split.
Qed.

Lemma keeps_with_sampler {A} (q : Sampler -> A * Sampler) :
  keeps_outputs (with_sampler q).
Proof.
  intros st a st'. unfold with_sampler. destruct (q (sampler st)) as [x smp].
  intros [= _ <-]. repeat split.
Qed.

End OutputFacts.

Create HintDb keeps.
#[export] Hint Resolve keeps_ret keeps_load keeps_store keeps_lift
  keeps_with_sampler : keeps.

Ltac keeps_tac :=
  repeat first
    [ solve [auto 1 with keeps]
    | apply keeps_if
    | apply keeps_bind; [|intros ?]
    | match goal with
      | |- keeps_outputs (match ?x with _ => _ end) => destruct x
      end ].

Section ConnectOutputs.
Context {T : Types} {W : World}.

Lemma keeps_MISWeight (scene : Scene) (sampled : Vertex) (s t : Z)
    (lightPdf : Distribution1D) (lightToIndex : LightToIndex)
    (pxCoords : Point2i) (rectifier : option SAMISRectifier)
    (mode : MisStrategy) :
  keeps_outputs
    (MISWeight scene sampled s t lightPdf lightToIndex pxCoords rectifier mode).
Proof.
  intros st w st' H. apply MISWeight_frame in H as ->. apply outputs_kept_refl.
Qed.

Lemma keeps_G (scene : Scene) (v0 v1 : Vertex) : keeps_outputs (G scene v0 v1).
Proof. unfold G. keeps_tac. Qed.

#[local] Hint Resolve keeps_MISWeight keeps_G : keeps.

Lemma keeps_connect (scene : Scene) (s t : Z) (lightDistr : Distribution1D)
    (lightToIndex : LightToIndex) (camera : Camera) (pRaster : Point2f) :
  keeps_outputs (connect scene s t lightDistr lightToIndex camera pRaster).
Proof. unfold connect. keeps_tac. Qed.

#[local] Hint Resolve keeps_connect : keeps.

Lemma keeps_ConnectBDPT (scene : Scene) (s t : Z) (lightDistr : Distribution1D)
    (lightToIndex : LightToIndex) (camera : Camera) (pRaster : Point2f)
    (misWeightPtr : option Float) (rectifier : option SAMISRectifier)
    (misStrategy : MisStrategy) :
  keeps_outputs
    (ConnectBDPT scene s t lightDistr lightToIndex camera pRaster misWeightPtr
       rectifier misStrategy).
Proof.
  unfold ConnectBDPT, ConnectBDPT_with, infinite_light_guard.
  keeps_tac.
Qed.

End ConnectOutputs.

Section FoldFacts.
Context {T : Types} {W : World}.

Lemma bind_ext {A B} (c : M A) (k k' : A -> M B) (st : St) :
  (forall a st1, k a st1 = k' a st1) -> bind c k st = bind c k' st.
Proof. intros H. unfold bind. destruct (c st) as [[a st1]|]; [apply H | reflexivity]. Qed.

Lemma foldM_ext {A B} (f g : B -> A -> M A) (l : list B) (a : A) (st : St) :
  (forall b a st, f b a st = g b a st) -> foldM f l a st = foldM g l a st.
Proof.
  intros H. revert a st. induction l as [|b l IH]; intros a st; cbn; [reflexivity|].
  unfold bind. rewrite H. destruct (g b a st) as [[a' st']|]; [apply IH | reflexivity].
Qed.

Lemma foldM_app {A B} (f : B -> A -> M A) (l1 l2 : list B) (a : A) (st : St) :
  foldM f (l1 ++ l2) a st = bind (foldM f l1 a) (foldM f l2) st.
Proof.
  revert a st. induction l1 as [|b l1 IH]; intros a st; cbn.
  - reflexivity.
  - unfold bind. destruct (f b a st) as [[a' st']|]; [|reflexivity].
    rewrite IH. reflexivity.
Qed.

Lemma foldM_bind {A B C} (f : C -> A -> M A) (g : B -> list C) (l : list B)
    (a : A) (st : St) :
  foldM f (l ≫= g) a st = foldM (fun b a => foldM f (g b) a) l a st.
Proof.
  revert a st. induction l as [|b l IH]; intros a st; cbn; [reflexivity|].
  rewrite foldM_app. apply bind_ext. intros a' st'. apply IH.
Qed.

Lemma for_loop_foldM {A} (n : nat) (i : Z) (body : Z -> A -> M A) (a : A) (st : St) :
  for_loop n i body a st = foldM body (seqZ i (Z.of_nat n)) a st.
Proof.
  revert i a st. induction n as [|n IH]; intros i a st.
  - reflexivity.
  - rewrite seqZ_cons by lia. cbn [for_loop foldM].
    apply bind_ext. intros a' st'. rewrite IH. do 3 f_equal; lia.
Qed.

Lemma skipped_false (maxDepth t s : Z) :
  skipped maxDepth t s = false
  <-> 0 <= s + t - 2 <= maxDepth /\ (s, t) <> (1, 1).
Proof.
  unfold skipped. rewrite !orb_false_iff, andb_false_iff.
  rewrite !Z.eqb_neq, !Z.ltb_ge. split.
  - intros ((H1 & H2) & H3). split; [lia|]. intros [= -> ->]. lia.
  - intros (H1 & H2). split; [split|]; try lia.
    destruct (Z.eq_dec s 1) as [->|]; [|auto].
    destruct (Z.eq_dec t 1) as [->|]; [|auto]. contradiction.
Qed.

Lemma elem_of_strategies (maxDepth nCamera nLight s t : Z) :
  (s, t) ∈ strategies maxDepth nCamera nLight
  <-> 1 <= t <= nCamera /\ 0 <= s <= nLight
      /\ 0 <= s + t - 2 <= maxDepth /\ (s, t) <> (1, 1).
Proof.
  unfold strategies. rewrite list_elem_of_bind. split.
  - intros (t' & Hin & Ht). apply list_elem_of_bind in Hin as (s' & Hin & Hs).
    apply elem_of_seqZ in Ht, Hs. case_decide as Hc.
    + apply list_elem_of_singleton in Hin as [= -> ->].
      destruct Hc as [Hc1 Hc2]. repeat split; try lia. exact Hc2.
    + apply elem_of_nil in Hin. contradiction.
  - intros (Ht & Hs & Hc). exists t. split; [|apply elem_of_seqZ; lia].
    apply list_elem_of_bind. exists s. split; [|apply elem_of_seqZ; lia].
    rewrite decide_True by exact Hc. apply list_elem_of_singleton. reflexivity.
Qed.

End FoldFacts.

Section StrategyLoop.
Context {T : Types} {W : World}.

Lemma bind_ret_r {A} (c : M A) (st : St) : bind c ret st = c st.
Proof. unfold bind, ret. destruct (c st) as [[a st']|]; reflexivity. Qed.

Lemma seqZ_to_nat (m n : Z) : seqZ m (Z.of_nat (Z.to_nat n)) = seqZ m n.
Proof. unfold seqZ. rewrite Nat2Z.id. reflexivity. Qed.

Lemma elem_of_guarded {A} (P : Prop) `{Decision P} (x y : A) :
  y ∈ (if decide P then [x] else []) -> y = x /\ P.
Proof.
  destruct (decide P) as [HP|HP]; intros Hin.
  - apply list_elem_of_singleton in Hin. auto.
  - apply elem_of_nil in Hin. contradiction.
Qed.

Lemma NoDup_strategies (maxDepth nCamera nLight : Z) :
  NoDup (strategies maxDepth nCamera nLight).
Proof.
  unfold strategies. apply NoDup_bind; [| |apply NoDup_seqZ].
  - intros t1 t2 [s t] _ _ H1 H2.
    apply list_elem_of_bind in H1 as (s1 & H1 & _).
    apply list_elem_of_bind in H2 as (s2 & H2 & _).
    apply elem_of_guarded in H1 as [H1 _], H2 as [H2 _]. congruence.
  - intros t _. apply NoDup_bind; [| |apply NoDup_seqZ].
    + intros s1 s2 [s t'] _ _ H1 H2.
      apply elem_of_guarded in H1 as [H1 _], H2 as [H2 _]. congruence.
    + intros s _. destruct (decide _); [apply NoDup_singleton | apply NoDup_nil_2].
Qed.

Lemma execute_strategies_foldM (rp : RenderParams) (lightDistr : Distribution1D)
    (lightToIndex : LightToIndex) (pFilm : Point2f) (nCamera nLight : Z) (st : St) :
  execute_strategies rp lightDistr lightToIndex pFilm nCamera nLight st
  = foldM (fun p L => execute_strategy rp lightDistr lightToIndex pFilm p.2 p.1 L)
      (strategies (rp_maxDepth rp) nCamera nLight) (Spectrum_const 0) st.
Proof.
  unfold execute_strategies, strategies.
  rewrite for_loop_foldM, seqZ_to_nat, foldM_bind.
  apply foldM_ext. intros t L st1.
  rewrite for_loop_foldM, seqZ_to_nat, foldM_bind.
  apply foldM_ext. intros s L1 st2.
  destruct (skipped (rp_maxDepth rp) t s) eqn:E.
  - rewrite decide_False; [reflexivity|].
    intros Hc. apply skipped_false in Hc. congruence.
  - apply skipped_false in E. rewrite decide_True by exact E.
    cbn [foldM]. rewrite bind_ret_r. reflexivity.
Qed.

Lemma execute_strategy_effect (rp : RenderParams) (lightDistr : Distribution1D)
    (lightToIndex : LightToIndex) (pFilm : Point2f) (t s : Z) (L : Spectrum)
    (st : St) (L' : Spectrum) (st' : St) :
  execute_strategy rp lightDistr lightToIndex pFilm t s L st = Some (L', st') ->
  exists Lpath pFilmNew misWeight st1,
    ConnectBDPT (rp_scene rp) s t lightDistr lightToIndex (rp_camera rp) pFilm
      (Some 0%Q) (if rp_rectify rp then rp_rectifier rp else None)
      (rp_misStrategy rp) st
    = Some ((Lpath, pFilmNew, misWeight), st1)
    /\ (t <> 1 -> L' = Spec.add L Lpath /\ splats st' = splats st)
    /\ (t = 1 -> L' = L /\ splats st' = splats st ++ [(pFilmNew, Lpath)]).
Proof.
  unfold execute_strategy. intros H.
  apply bind_Some in H as ([[Lpath pFilmNew] mw] & st1 & Hc & H).
  exists Lpath, pFilmNew, mw, st1. split; [exact Hc|].
  apply keeps_ConnectBDPT in Hc as (Hs1 & _ & _).
  apply bind_Some in H as (L1 & st2 & HL & H).
  apply bind_Some in H as (u1 & st3 & Hr & H).
  apply bind_Some in H as (u2 & st4 & Hv & H).
  unfold ret in H. injection H as <- <-.
  assert (Hs3 : splats st3 = splats st2).
  { destruct (rp_estimateFactors rp).
    - unfold Rectifier_AddEstimate in Hr. destruct (rp_rectifier rp); [|discriminate].
      injection Hr as _ <-. reflexivity.
    - unfold ret in Hr. injection Hr as _ <-. reflexivity. }
  assert (Hs4 : splats st4 = splats st3).
  { destruct (rp_estimateVariances rp).
    - unfold Variance_AddEstimate in Hv.
      destruct (_ && _); [|discriminate]. injection Hv as _ <-. reflexivity.
    - unfold ret in Hv. injection Hv as _ <-. reflexivity. }
  rewrite Hs4, Hs3. split; intros Ht.
  - apply Z.eqb_neq in Ht. rewrite Ht in HL. cbn in HL.
    unfold ret in HL. injection HL as <- <-. auto.
  - subst t. cbn in HL. unfold bind, AddSplat, ret in HL.
    injection HL as <- <-. cbn. rewrite Hs1. auto.
Qed.

End StrategyLoop.

(** ** The random walk *)

Section FrameFacts.
Context {T : Types}.

Lemma frame_refl (a : Array) (lo hi : Z) (st : St) : frame a lo hi st st.
Proof. repeat split. Qed.

Lemma frame_trans (a : Array) (lo hi : Z) (st1 st2 st3 : St) :
  frame a lo hi st1 st2 -> frame a lo hi st2 st3 -> frame a lo hi st1 st3.
Proof.
  intros (S1 & O1 & E1 & K1) (S2 & O2 & E2 & K2). split; [congruence|].
  split; [congruence|]. split.
  - intros i Hi. rewrite E2, E1 by exact Hi. reflexivity.
  - eapply outputs_kept_trans; eassumption.
Qed.

Lemma frame_weaken (a : Array) (lo hi lo' hi' : Z) (st st' : St) :
  frame a lo hi st st' -> lo' <= lo -> hi <= hi' -> frame a lo' hi' st st'.
Proof.
  intros (S1 & O1 & E1 & K1) Hlo Hhi. repeat split; try assumption; try apply K1.
  intros i Hi. apply E1. lia.
Qed.

Lemma frame_store (p : VertexPtr) (v : Vertex) (st : St) (u : unit) (st' : St) :
  store p v st = Some (u, st') -> frame p.1 p.2 (p.2 + 1) st st'.
Proof.
  intros H. pose proof (keeps_store _ _ _ _ _ H) as K.
  apply store_Some in H as [Hb ->]. apply in_bounds_lt in Hb as [H0 _].
  split; [apply shape_set_array_insert|]. split; [|split; [|exact K]].
  - destruct p as [[] i]; reflexivity.
  - intros i Hi. rewrite array_of_set_array.
    apply list_lookup_insert_ne. lia.
Qed.

Lemma frame_sampler {A} (q : Sampler -> A * Sampler) (a : Array) (lo hi : Z)
    (st : St) (x : A) (st' : St) :
  with_sampler q st = Some (x, st') -> frame a lo hi st st'.
Proof.
  unfold with_sampler. destruct (q (sampler st)) as [y smp].
  intros [= _ <-]. destruct a; repeat split.
Qed.

Lemma frame_step_store (a : Array) (lo hi : Z) (p : VertexPtr) (v : Vertex)
    (st : St) (u : unit) (st1 st' : St) :
  store p v st = Some (u, st1) ->
  p.1 = a -> lo <= p.2 < hi ->
  frame a lo hi st1 st' -> frame a lo hi st st'.
Proof.
  intros H <- Hp F. eapply frame_trans; [|exact F].
  eapply frame_weaken; [eapply frame_store; exact H | lia | lia].
Qed.

Lemma frame_step_sampler {A} (q : Sampler -> A * Sampler) (a : Array)
    (lo hi : Z) (st : St) (x : A) (st1 st' : St) :
  with_sampler q st = Some (x, st1) ->
  frame a lo hi st1 st' -> frame a lo hi st st'.
Proof.
  intros H F. eapply frame_trans; [|exact F]. eapply frame_sampler. exact H.
Qed.

End FrameFacts.

(** Decomposes a run [c st = Some _] into the runs of its primitive
    steps; loads are resolved, stores and sampler queries are kept. *)
Ltac invert_run :=
  repeat match goal with
    | H : ret _ _ = Some _ |- _ => unfold ret in H
    | H : Some _ = Some _ |- _ => injection H; clear H; intros; subst
    | H : load _ _ = Some _ |- _ => apply load_Some in H as (-> & ? & ?)
    | H : (if ?c then _ else _) _ = Some _ |- _ => destruct c eqn:?
    | H : (let '(_, _) := ?x in _) _ = Some _ |- _ => destruct x eqn:?
    | H : match ?x with _ => _ end _ = Some _ |- _ => destruct x eqn:?
    | H : bind _ _ _ = Some _ |- _ =>
        let a := fresh "a" in let st := fresh "st" in let H1 := fresh "H" in
        apply bind_Some in H; destruct H as (a & st & H1 & H); cbv beta in H
    end.

Ltac leb_facts :=
  repeat match goal with
    | H : (_ <=? _) = false |- _ => apply Z.leb_gt in H
    | H : (_ <=? _) = true |- _ => apply Z.leb_le in H
    end.

Ltac frame_chain :=
  repeat first
    [ apply frame_refl
    | eapply frame_step_store; [eassumption | reflexivity | cbn; lia | ]
    | eapply frame_step_sampler; [eassumption | ] ].

Section WalkPost.
Context {T : Types} {W : World}.

Lemma RandomWalk_iter_post (scene : Scene) (maxDepth : Z) (mode : TransportMode)
    (path : VertexPtr) (w : WalkState) (st : St)
    (flow : Flow) (w' : WalkState) (st' : St) :
  0 <= w_bounces w < maxDepth ->
  RandomWalk_iter scene maxDepth mode path w st = Some ((flow, w'), st') ->
  frame path.1 (path.2 + w_bounces w - 1) (path.2 + w_bounces w') st st'
  /\ match flow with
     | Break => w_bounces w <= w_bounces w' <= maxDepth
     | SkipBoundary => w_bounces w' = w_bounces w
     | Scattered _ => w_bounces w' = w_bounces w + 1 /\ w_bounces w' < maxDepth
     end.
Proof.
  intros Hb H. unfold RandomWalk_iter, update_prev_pdfRev in H. cbv zeta in H.
  invert_run; cbn [w_bounces]; leb_facts; (split; [frame_chain | lia]).
Qed.

Lemma RandomWalk_loop_post (scene : Scene) (maxDepth : Z) (mode : TransportMode)
    (path : VertexPtr) (fuel : nat) :
  forall (w : WalkState) (st : St) (n : Z) (st' : St),
    0 <= w_bounces w < maxDepth ->
    RandomWalk_loop fuel scene maxDepth mode path w st = Some (Some n, st') ->
    w_bounces w <= n <= maxDepth
    /\ frame path.1 (path.2 + w_bounces w - 1) (path.2 + n) st st'.
Proof.
  induction fuel as [|fuel IH]; intros w st n st' Hb H.
  - discriminate.
  - cbn [RandomWalk_loop] in H.
    apply bind_Some in H as ([flow w1] & st1 & Hi & H).
    destruct (RandomWalk_iter_post _ _ _ _ _ _ _ _ _ Hb Hi) as [F Hf].
    destruct flow as [| |specular].
    + unfold ret in H. injection H as <- <-. split; [lia | exact F].
    + apply IH in H as [Hn F']; [|lia]. split; [lia|].
      eapply frame_trans; eapply frame_weaken; try eassumption; lia.
    + apply IH in H as [Hn F']; [|lia]. split; [lia|].
      eapply frame_trans; eapply frame_weaken; try eassumption; lia.
Qed.

End WalkPost.

Section SafeSampler.
Context {T : Types}.

Lemma safe_with_sampler {A} (n : nat * nat) (q : Sampler -> A * Sampler) :
  safe n (with_sampler q).
Proof.
  intros st Hs. unfold with_sampler. destruct (q (sampler st)) as [x smp].
  eexists _, _. split; [reflexivity | exact Hs].
Qed.

End SafeSampler.

Ltac safe_walk_tac :=
  repeat first
    [ apply safe_ret
    | apply safe_with_sampler
    | apply safe_load; assumption
    | apply safe_store; assumption
    | apply safe_bind; [|intros ?]
    | match goal with
      | |- safe _ (if ?c then _ else _) => destruct c
      | |- safe _ (let '(_, _) := ?x in _) => destruct x
      | |- safe _ (match ?x with _ => _ end) => destruct x
      end ].

Section WalkReturns.
Context {T : Types} {W : World}.

Lemma RandomWalk_iter_safe (scene : Scene) (maxDepth : Z) (mode : TransportMode)
    (path : VertexPtr) (w : WalkState) (n : nat * nat) :
  ptr_ok n (path.1, path.2 + w_bounces w) ->
  ptr_ok n (path.1, path.2 + w_bounces w - 1) ->
  safe n (RandomWalk_iter scene maxDepth mode path w).
Proof.
  intros Hv Hp. unfold RandomWalk_iter, update_prev_pdfRev. cbv zeta.
  safe_walk_tac.
Qed.

(** With a vertex in front of [path] and room for [maxDepth] vertices
    behind it, the loop leaves through a [break] as soon as the fuel
    covers the medium boundaries it skips and the remaining depth. *)
Lemma RandomWalk_loop_returns (scene : Scene) (maxDepth : Z)
    (mode : TransportMode) (path : VertexPtr) (n : nat * nat) (fuel : nat) :
  1 <= path.2 ->
  path.2 + maxDepth
  <= Z.of_nat (match path.1 with LightArr => n.1 | CameraArr => n.2 end) ->
  forall (w : WalkState) (st : St),
    shape st = n ->
    0 <= w_bounces w < maxDepth ->
    (boundary_skips fuel scene maxDepth mode path w st
     + Z.to_nat (maxDepth - w_bounces w) <= fuel)%nat ->
    exists k st',
      RandomWalk_loop fuel scene maxDepth mode path w st = Some (Some k, st').
Proof.
  intros Hlo Hhi. induction fuel as [|fuel IH]; intros w st Hs Hb Hf.
  - cbn in Hf. lia.
  - destruct (RandomWalk_iter_safe scene maxDepth mode path w n) with (st := st)
      as ([flow w1] & st1 & Hi & Hs1); try exact Hs.
    { unfold ptr_ok. cbn. lia. }
    { unfold ptr_ok. cbn. lia. }
    cbn [RandomWalk_loop boundary_skips] in *. rewrite Hi in Hf.
    rewrite (bind_run _ _ _ _ _ Hi).
    destruct (RandomWalk_iter_post _ _ _ _ _ _ _ _ _ Hb Hi) as [_ Hflow].
    destruct flow as [| |specular].
    + eexists _, _. reflexivity.
    + apply IH; [exact Hs1 | lia | lia].
    + apply IH; [exact Hs1 | lia | lia].
Qed.

End WalkReturns.

(** ** Specular events *)

Section SpecularFacts.
Context {T : Types} {W : World}.

Lemma with_sampler_Some {A} (q : Sampler -> A * Sampler) (st : St) (x : A)
    (st' : St) :
  with_sampler q st = Some (x, st') ->
  lightVertices st' = lightVertices st /\ cameraVertices st' = cameraVertices st.
Proof.
  unfold with_sampler. destruct (q (sampler st)) as [y smp].
  intros [= _ <-]. split; reflexivity.
Qed.

Lemma with_sampler_array {A} (q : Sampler -> A * Sampler) (st : St) (x : A)
    (st' : St) (a : Array) :
  with_sampler q st = Some (x, st') -> array_of a st' = array_of a st.
Proof.
  intros H. apply with_sampler_Some in H as [Hl Hc]. destruct a; assumption.
Qed.

Lemma lookup_store_same (p : VertexPtr) (v : Vertex) (st : St) (u : unit)
    (st' : St) :
  store p v st = Some (u, st') ->
  array_of p.1 st' !! Z.to_nat p.2 = Some v.
Proof.
  intros H. apply store_Some in H as [Hb ->].
  rewrite array_of_set_array. apply list_lookup_insert_eq.
  apply in_bounds_lt in Hb. apply Hb.
Qed.

Lemma lookup_store_other (p : VertexPtr) (v : Vertex) (st : St) (u : unit)
    (st' : St) (k : Z) :
  store p v st = Some (u, st') -> 0 <= k -> k <> p.2 ->
  array_of p.1 st' !! Z.to_nat k = array_of p.1 st !! Z.to_nat k.
Proof.
  intros H Hk Hne. apply store_Some in H as [Hb ->].
  rewrite array_of_set_array. apply list_lookup_insert_ne.
  apply in_bounds_lt in Hb. lia.
Qed.

Lemma ConvertDensity_zero (v next : Vertex) (pdf : Float) :
  (pdf == 0)%Q -> (ConvertDensity v pdf next == 0)%Q.
Proof. intros H. unfold ConvertDensity. rewrite H. apply Qmult_0_l. Qed.

Lemma store_in_bounds (p : VertexPtr) (v : Vertex) (st : St) (u : unit) (st' : St) :
  store p v st = Some (u, st') -> 0 <= p.2.
Proof. intros H. apply store_Some in H as [Hb _]. apply in_bounds_lt in Hb. lia. Qed.

(** What a specular sample does within its own iteration. *)
Lemma specular_event_now (scene : Scene) (maxDepth : Z) (mode : TransportMode)
    (path : VertexPtr) (w : WalkState) (st : St) (w' : WalkState) (st' : St) :
  RandomWalk_iter scene maxDepth mode path w st
    = Some ((Scattered true, w'), st') ->
  (exists vertex prev,
      array_of path.1 st' !! Z.to_nat (path.2 + w_bounces w) = Some vertex
      /\ array_of path.1 st' !! Z.to_nat (path.2 + w_bounces w - 1) = Some prev
      /\ delta vertex = true
      /\ (pdfRev prev == 0)%Q)
  /\ w_pdfFwd w' = 0%Q /\ w_pdfRev w' = 0%Q
  /\ w_bounces w' = w_bounces w + 1
  /\ (forall isect b prev,
         (pdfFwd (CreateSurface isect b (w_pdfFwd w') prev) == 0)%Q)
  /\ (forall m b prev,
         (pdfFwd (CreateMedium m b (w_pdfFwd w') prev) == 0)%Q)
  /\ (forall e b, (pdfFwd (CreateLight_ei e b (w_pdfFwd w')) == 0)%Q).
Proof.
  intros H. unfold RandomWalk_iter, update_prev_pdfRev in H. cbv zeta in H.
  invert_run; try discriminate.
  all: cbn [w_pdfFwd w_pdfRev w_bounces].
  all: (split; [|split; [reflexivity|]; split; [reflexivity|]; split; [reflexivity|];
                 split; [|split]; intros; cbn;
                 try apply ConvertDensity_zero; reflexivity]).
  all: match goal with
       | Hd : store ?pv (set_delta true ?v5) _ = Some (_, ?s3),
         Hp : store ?pp (set_pdfRev (ConvertDensity ?a 0 ?a3) ?a3) ?s3
              = Some (_, _),
         Hl : array_of _ ?s3 !! _ = Some ?a |- _ =>
           pose proof (lookup_store_same _ _ _ _ _ Hd) as Hsame;
           pose proof (lookup_store_same _ _ _ _ _ Hp) as Hprev;
           pose proof (lookup_store_other _ _ _ _ _ (path.2 + w_bounces w) Hp)
             as Hkeep;
           pose proof (store_in_bounds _ _ _ _ _ Hd) as Hnn;
           cbn [fst snd] in *;
           exists a, (set_pdfRev (ConvertDensity a 0 a3) a3);
           split; [rewrite Hkeep by lia; exact Hl|];
           split; [exact Hprev|];
           split; [rewrite Hsame in Hl; injection Hl as <-; reflexivity|];
           cbn; apply ConvertDensity_zero; reflexivity
       end.
Qed.

End SpecularFacts.

Section SpecularNext.
Context {T : Types} {W : World}.

Lemma set_delta_pdfFwd (d : bool) (v : Vertex) : pdfFwd (set_delta d v) = pdfFwd v.
Proof. reflexivity. Qed.

(** Turns the kept stores and sampler queries of an inverted run of the
    loop body into equations on the entry [path[bounces]]. *)
Ltac entry_facts path w :=
  repeat match goal with
    | H : with_sampler _ ?s = Some (_, ?s') |- _ =>
        let E := fresh "E" in
        pose proof (with_sampler_array _ _ _ _ path.1 H) as E; clear H
    | H : store (_, path.2 + w_bounces w) ?v ?s = Some (_, ?s') |- _ =>
        let E := fresh "E" in let N := fresh "N" in
        pose proof (lookup_store_same _ _ _ _ _ H) as E;
        pose proof (store_in_bounds _ _ _ _ _ H) as N;
        clear H
    | H : store (_, path.2 + w_bounces w - 1) ?v ?s = Some (_, ?s') |- _ =>
        let E := fresh "E" in
        pose proof (lookup_store_other _ _ _ _ _ (path.2 + w_bounces w) H) as E;
        clear H
    end;
  cbn [fst snd] in *.

Lemma created_vertex_pdfFwd (scene : Scene) (maxDepth : Z) (mode : TransportMode)
    (path : VertexPtr) (w : WalkState) (st : St)
    (flow : Flow) (w' : WalkState) (st' : St) :
  (w_pdfFwd w == 0)%Q ->
  RandomWalk_iter scene maxDepth mode path w st = Some ((flow, w'), st') ->
  w_bounces w' = w_bounces w + 1 ->
  exists next,
    array_of path.1 st' !! Z.to_nat (path.2 + w_bounces w) = Some next
    /\ (pdfFwd next == 0)%Q.
Proof.
  intros H0 H Hb. unfold RandomWalk_iter, update_prev_pdfRev in H. cbv zeta in H.
  invert_run; cbn [w_bounces] in Hb; try lia.
  all: entry_facts path w.
  all: repeat match goal with
         | E : array_of _ ?s' = array_of _ ?s |- _ =>
             rewrite E in *; clear E
         | E : 0 <= ?k -> ?k <> _ -> array_of _ ?s' !! _ = array_of _ ?s !! _
           |- _ =>
             specialize (E ltac:(lia) ltac:(lia)); rewrite E in *; clear E
         end.
  all: repeat match goal with
         | H1 : ?x = Some ?u, H2 : ?x = Some ?v |- _ =>
             rewrite H1 in H2; injection H2 as ?; subst
         end.
  all: eexists; (split; [eassumption|]); cbn;
    first [exact H0 | apply ConvertDensity_zero; exact H0].
Qed.

Lemma skip_keeps_pdfFwd (scene : Scene) (maxDepth : Z) (mode : TransportMode)
    (path : VertexPtr) (w : WalkState) (st : St) (w' : WalkState) (st' : St) :
  RandomWalk_iter scene maxDepth mode path w st = Some ((SkipBoundary, w'), st') ->
  w_pdfFwd w' = w_pdfFwd w /\ w_bounces w' = w_bounces w.
Proof.
  intros H. unfold RandomWalk_iter, update_prev_pdfRev in H. cbv zeta in H.
  invert_run; try discriminate; split; reflexivity.
Qed.

End SpecularNext.

(** ** Subpaths fit their buffers *)

Section FitFacts.
Context {T : Types} {W : World}.

(** Whenever [RandomWalk] returns, whatever the fuel, the count is within
    [0, maxDepth] and only [path[-1] .. path[n-1]] may have changed. *)
Lemma RandomWalk_post (fuel : nat) (scene : Scene) (ray : RayDifferential)
    (beta : Spectrum) (pdf : Float) (maxDepth : Z) (mode : TransportMode)
    (path : VertexPtr) (st : St) (n : Z) (st' : St) :
  0 <= maxDepth ->
  RandomWalk fuel scene ray beta pdf maxDepth mode path st = Some (Some n, st') ->
  0 <= n <= maxDepth /\ frame path.1 (path.2 - 1) (path.2 + n) st st'.
Proof.
  intros H0 H. unfold RandomWalk in H.
  destruct (Z.eqb_spec maxDepth 0) as [E|E].
  - unfold ret in H. injection H as <- <-. split; [lia | apply frame_refl].
  - apply RandomWalk_loop_post in H as [Hn F]; [|cbn; lia].
    cbn [w_bounces] in *. split; [lia|].
    eapply frame_weaken; [exact F | lia | lia].
Qed.

(** The camera subpath generated for depth [maxDepth] has at most
    [maxDepth] vertices, stored in [path[0] .. path[n-1]]. *)
Lemma GenerateCameraSubpath_fits (fuel : nat) (scene : Scene) (maxDepth : Z)
    (camera : Camera) (pFilm : Point2f) (path : VertexPtr)
    (st : St) (n : Z) (st' : St) :
  0 <= maxDepth ->
  GenerateCameraSubpath fuel scene maxDepth camera pFilm path st
    = Some (Some n, st') ->
  0 <= n <= maxDepth /\ frame path.1 path.2 (path.2 + n) st st'.
Proof.
  intros H0 H. unfold GenerateCameraSubpath in H.
  destruct (Z.eqb_spec maxDepth 0) as [E|E].
  - unfold ret in H. injection H as <- <-. split; [lia | apply frame_refl].
  - apply bind_Some in H as (time & st1 & H1 & H).
    apply bind_Some in H as (pLens & st2 & H2 & H).
    destruct (GenerateRayDifferential camera pFilm time pLens) as [beta ray].
    apply bind_Some in H as (st2' & st3 & H3 & H).
    apply readonly_get_state in H3 as ->.
    apply bind_Some in H as (u & st4 & H4 & H).
    destruct (Pdf_We camera _) as [pdfPos pdfDir].
    apply bind_Some in H as (r & st5 & H5 & H).
    unfold ret in H. injection H as Hn <-.
    destruct r as [k|]; [|discriminate]. cbn in Hn. injection Hn as <-.
    apply RandomWalk_post in H5 as [Hk F]; [|lia]. cbn [fst snd] in F.
    split; [lia|].
    eapply frame_step_sampler; [exact H1|].
    eapply frame_step_sampler; [exact H2|].
    eapply frame_step_store; [exact H4 | reflexivity | lia |].
    eapply frame_weaken; [exact F | lia | lia].
Qed.

(** The light subpath generated for depth [maxDepth] has at most
    [maxDepth] vertices, stored in [path[0] .. path[n-1]]. *)
Lemma GenerateLightSubpath_fits (fuel : nat) (scene : Scene) (maxDepth : Z)
    (time : Float) (lightDistr : Distribution1D) (lightToIndex : LightToIndex)
    (path : VertexPtr) (st : St) (n : Z) (st' : St) :
  0 <= maxDepth ->
  GenerateLightSubpath fuel scene maxDepth time lightDistr lightToIndex path st
    = Some (Some n, st') ->
  0 <= n <= maxDepth /\ frame path.1 path.2 (path.2 + n) st st'.
Proof.
  intros H0 H. unfold GenerateLightSubpath in H.
  destruct (Z.eqb_spec maxDepth 0) as [E|E].
  - unfold ret in H. injection H as <- <-. split; [lia | apply frame_refl].
  - apply bind_Some in H as (u & st1 & H1 & H).
    destruct (SampleDiscrete lightDistr u) as [lightNum lightPdf].
    apply bind_Some in H as (light & st1' & Hl & H).
    apply readonly_lift in Hl as ->.
    apply bind_Some in H as (u1 & st2 & H2 & H).
    apply bind_Some in H as (u2 & st3 & H3 & H).
    cbv zeta in H.
    destruct (_ || _).
    { unfold ret in H. injection H as <- <-. split; [lia|].
      eapply frame_step_sampler; [exact H1|].
      eapply frame_step_sampler; [exact H2|].
      eapply frame_step_sampler; [exact H3|]. apply frame_refl. }
    apply bind_Some in H as (u0 & st4 & H4 & H).
    apply bind_Some in H as (r & st5 & H5 & H).
    destruct r as [k|]; [|discriminate].
    apply RandomWalk_post in H5 as [Hk F]; [|lia]. cbn [fst snd] in F.
    apply bind_Some in H as (v0 & st5' & H6 & H).
    apply readonly_load in H6 as ->.
    apply bind_Some in H as (u3 & st6 & H7 & H).
    unfold ret in H. injection H as <- <-. split; [lia|].
    eapply frame_step_sampler; [exact H1|].
    eapply frame_step_sampler; [exact H2|].
    eapply frame_step_sampler; [exact H3|].
    eapply frame_step_store; [exact H4 | reflexivity | lia |].
    eapply frame_trans; [eapply frame_weaken; [exact F | lia | lia]|].
    destruct (IsInfiniteLight v0).
    + invert_run; leb_facts.
      all: repeat match goal with H : (_ <? _) = true |- _ => apply Z.ltb_lt in H end.
      all: frame_chain.
    + unfold ret in H7. injection H7 as _ <-. apply frame_refl.
Qed.

End FitFacts.

(** ** The vertex in front of the walk *)

Section PrevFacts.
Context {T : Types} {W : World}.

Lemma set_pdfRev_twice (r r' : Float) (v : Vertex) :
  set_pdfRev r' (set_pdfRev r v) = set_pdfRev r' v.
Proof. reflexivity. Qed.

Lemma set_pdfRev_same (v : Vertex) : set_pdfRev (pdfRev v) v = v.
Proof. destruct v. reflexivity. Qed.

(** Turns the kept stores and sampler queries of an inverted run of the
    loop body into equations on the entry [path[bounces - 1]]. *)
Ltac prev_facts path w :=
  repeat match goal with
    | H : with_sampler _ ?s = Some (_, ?s') |- _ =>
        let E := fresh "E" in
        pose proof (with_sampler_array _ _ _ _ path.1 H) as E; clear H
    | H : store (_, path.2 + w_bounces w - 1) ?v ?s = Some (_, ?s') |- _ =>
        let E := fresh "E" in
        pose proof (lookup_store_same _ _ _ _ _ H) as E; clear H
    | H : store (_, path.2 + w_bounces w) ?v ?s = Some (_, ?s') |- _ =>
        let E := fresh "E" in
        pose proof (lookup_store_other _ _ _ _ _ (path.2 + w_bounces w - 1) H)
          as E;
        clear H
    end;
  cbn [fst snd] in *.

(** An iteration changes at most the reverse density of the vertex in
    front of the one it creates. *)
Lemma RandomWalk_iter_prev (scene : Scene) (maxDepth : Z) (mode : TransportMode)
    (path : VertexPtr) (w : WalkState) (st : St)
    (flow : Flow) (w' : WalkState) (st' : St) (e : Vertex) :
  0 <= path.2 + w_bounces w - 1 ->
  array_of path.1 st !! Z.to_nat (path.2 + w_bounces w - 1) = Some e ->
  RandomWalk_iter scene maxDepth mode path w st = Some ((flow, w'), st') ->
  exists r,
    array_of path.1 st' !! Z.to_nat (path.2 + w_bounces w - 1)
    = Some (set_pdfRev r e).
Proof.
  intros H0 He H. unfold RandomWalk_iter, update_prev_pdfRev in H. cbv zeta in H.
  invert_run.
  all: prev_facts path w.
  all: repeat match goal with
         | E : array_of _ ?s' = array_of _ ?s |- _ =>
             rewrite E in *; clear E
         | E : 0 <= ?k -> ?k <> _ -> array_of _ ?s' !! _ = array_of _ ?s !! _
           |- _ =>
             specialize (E ltac:(lia) ltac:(lia)); rewrite E in *; clear E
         end.
  all: repeat match goal with
         | H1 : ?x = Some ?u, H2 : ?x = Some ?v |- _ =>
             rewrite H1 in H2; injection H2 as ?; subst
         end.
  all: first
         [ eexists; eassumption
         | match goal with
           | Hv : ?x = Some ?v |- exists _, ?x = Some (set_pdfRev _ ?v) =>
               exists (pdfRev v); rewrite set_pdfRev_same; exact Hv
           end ].
Qed.

(** Over the whole loop, the vertex in front of the buffer changes at most
    in its reverse density. *)
Lemma RandomWalk_loop_prev (scene : Scene) (maxDepth : Z) (mode : TransportMode)
    (path : VertexPtr) (fuel : nat) :
  1 <= path.2 ->
  forall (w : WalkState) (st : St) (n : Z) (st' : St) (e : Vertex),
    0 <= w_bounces w < maxDepth ->
    array_of path.1 st !! Z.to_nat (path.2 - 1) = Some e ->
    RandomWalk_loop fuel scene maxDepth mode path w st = Some (Some n, st') ->
    exists r,
      array_of path.1 st' !! Z.to_nat (path.2 - 1) = Some (set_pdfRev r e).
Proof.
  intros Hlo. induction fuel as [|fuel IH]; intros w st n st' e Hb He H.
  - discriminate.
  - cbn [RandomWalk_loop] in H.
    apply bind_Some in H as ([flow w1] & st1 & Hi & H).
    destruct (RandomWalk_iter_post _ _ _ _ _ _ _ _ _ Hb Hi) as [F Hf].
    assert (He1 : exists r,
               array_of path.1 st1 !! Z.to_nat (path.2 - 1)
               = Some (set_pdfRev r e)).
    { destruct (Z.eq_dec (w_bounces w) 0) as [E0|E0].
      - replace (path.2 - 1) with (path.2 + w_bounces w - 1) by lia.
        eapply RandomWalk_iter_prev; [lia | | exact Hi].
        replace (path.2 + w_bounces w - 1) with (path.2 - 1) by lia. exact He.
      - exists (pdfRev e). rewrite set_pdfRev_same.
        destruct F as (_ & _ & Hk & _). rewrite Hk; [exact He|]. lia. }
    destruct He1 as [r He1].
    destruct flow as [| |specular].
    + unfold ret in H. injection H as _ <-. eauto.
    + destruct (IH w1 st1 n st' _ ltac:(lia) He1 H) as [r' Hr'].
      exists r'. rewrite Hr'. reflexivity.
    + destruct (IH w1 st1 n st' _ ltac:(lia) He1 H) as [r' Hr'].
      exists r'. rewrite Hr'. reflexivity.
Qed.



(** C5 (amended): for [maxDepth >= 0], a path pointer with one vertex in
    front of it and [maxDepth] slots behind it, and fuel that covers the
    skipped medium boundaries, [RandomWalk] returns a bounce count [n]
    with [0 <= n <= maxDepth], and it writes only the first [n] entries
    of the supplied buffer and the reverse density of the caller's vertex
    [path[-1]] in front of it: every entry at index [n] or above, the
    other fields of [path[-1]], the entries before it, the other array
    and the outputs are unchanged. *)
Theorem RandomWalk_bounds (fuel : nat) (scene : Scene) (ray : RayDifferential)
    (beta : Spectrum) (pdf : Float) (maxDepth : Z) (mode : TransportMode)
    (path : VertexPtr) (st : St) :
  0 <= maxDepth ->
  1 <= path.2 ->
  path.2 + maxDepth <= Z.of_nat (length (array_of path.1 st)) ->
  (boundary_skips fuel scene maxDepth mode path (mkWalk ray beta pdf 0 0) st
   + Z.to_nat maxDepth <= fuel)%nat ->
  exists n st',
    RandomWalk fuel scene ray beta pdf maxDepth mode path st = Some (Some n, st')
    /\ 0 <= n <= maxDepth
    /\ length (array_of path.1 st') = length (array_of path.1 st)
    /\ (forall i : nat,
           Z.of_nat i < path.2 - 1 \/ path.2 + n <= Z.of_nat i ->
           array_of path.1 st' !! i = array_of path.1 st !! i)
    /\ (forall e : Vertex,
           array_of path.1 st !! Z.to_nat (path.2 - 1) = Some e ->
           exists r,
             array_of path.1 st' !! Z.to_nat (path.2 - 1)
             = Some (set_pdfRev r e))
    /\ array_of (other path.1) st' = array_of (other path.1) st
    /\ outputs_kept st st'.
Proof.
  intros H0 Hlo Hhi Hf. unfold RandomWalk.
  destruct (Z.eqb_spec maxDepth 0) as [E|E].
  - exists 0, st. split; [reflexivity|]. split; [lia|].
    split; [reflexivity|]. split; [reflexivity|]. split; [|repeat split].
    intros e He. exists (pdfRev e). rewrite set_pdfRev_same. exact He.
  - assert (Hret : exists n st',
               RandomWalk_loop fuel scene maxDepth mode path
                 (mkWalk ray beta pdf 0 0) st = Some (Some n, st')).
    { apply (RandomWalk_loop_returns scene maxDepth mode path (shape st) fuel).
      - exact Hlo.
      - destruct path as [[] i]; cbn in *; lia.
      - reflexivity.
      - cbn. lia.
      - cbn [w_bounces]. replace (maxDepth - 0) with maxDepth by lia. exact Hf. }
    destruct Hret as (n & st' & Hr).
    exists n, st'. split; [exact Hr|].
    pose proof (RandomWalk_loop_prev scene maxDepth mode path fuel Hlo
                  (mkWalk ray beta pdf 0 0) st n st') as Hprev.
    pose proof Hr as Hrun.
    apply RandomWalk_loop_post in Hr as [Hn (Hs & Ho & He & Hk)]; [|cbn; lia].
    cbn [w_bounces] in *. split; [lia|]. split.
    { unfold shape in Hs. injection Hs as Hl Hc.
      destruct path as [[] i]; cbn; assumption. }
    split; [|split; [|split; assumption]].
    + intros i Hi. apply He. lia.
    + intros e Hlook. apply Hprev; [lia | exact Hlook | exact Hrun].
Qed.

End PrevFacts.

(** * Further properties *)

(** ** Sampler seeds of tiles and passes *)

Module SeedFacts.
Import Fnv.

(** The inverse of the FNV prime modulo 2^32. *)
Lemma fnv_prime_inverse : uint32 (fnv_prime * 899433627) = 1.
Proof. reflexivity. Qed.

(** Multiplication by the (odd) prime loses nothing modulo 2^32. *)
Lemma mul_prime_inj (a b : Z) :
  0 <= a < 2 ^ 32 -> 0 <= b < 2 ^ 32 ->
  uint32 (a * fnv_prime) = uint32 (b * fnv_prime) -> a = b.
Proof.
  intros Ha Hb E. unfold uint32 in *.
  assert (Hi : forall x, 0 <= x < 2 ^ 32 ->
                 ((x * fnv_prime) mod 2 ^ 32 * 899433627) mod 2 ^ 32 = x).
  { intros x Hx. rewrite Z.mul_mod_idemp_l by lia.
    rewrite <- Z.mul_assoc, <- Z.mul_mod_idemp_r by lia.
    change ((fnv_prime * 899433627) mod 2 ^ 32) with 1.
    rewrite Z.mul_1_r. apply Z.mod_small. exact Hx. }
  rewrite <- (Hi a Ha), <- (Hi b Hb), E. reflexivity.
Qed.

Lemma lxor_cancel_r (a a' b : Z) : Z.lxor a b = Z.lxor a' b -> a = a'.
Proof.
  intros E.
  rewrite <- (Z.lxor_0_r a), <- (Z.lxor_0_r a'), <- (Z.lxor_nilpotent b),
    <- !Z.lxor_assoc, E.
  reflexivity.
Qed.

Lemma lxor_cancel_l (a b b' : Z) : Z.lxor a b = Z.lxor a b' -> b = b'.
Proof. rewrite !(Z.lxor_comm a). apply lxor_cancel_r. Qed.

(** Xor with a byte stays within the 256-aligned block. *)
Lemma lxor_byte_block (x b : Z) : 0 <= b < 256 -> Z.lxor x b / 256 = x / 256.
Proof.
  intros Hb. change 256 with (2 ^ 8).
  rewrite <- !Z.shiftr_div_pow2 by lia.
  rewrite Z.shiftr_lxor.
  replace (Z.shiftr b 8) with 0; [apply Z.lxor_0_r|].
  rewrite Z.shiftr_div_pow2 by lia. symmetry. apply Z.div_small. lia.
Qed.

(** Chaining a word into the hash loses nothing of the state. *)
Lemma fnv1_step_inj_state (h h' b : Z) :
  0 <= h < 2 ^ 32 -> 0 <= h' < 2 ^ 32 ->
  fnv1_step h b = fnv1_step h' b -> h = h'.
Proof.
  unfold fnv1_step. intros Hh Hh' E.
  apply lxor_cancel_r in E. apply mul_prime_inj; assumption.
Qed.

Lemma fnv1_step_range (h b : Z) :
  0 <= b < 256 -> 0 <= fnv1_step h b < 2 ^ 32.
Proof.
  intros Hb. unfold fnv1_step.
  apply FnvFacts.lxor_range; [apply FnvFacts.uint32_range | lia].
Qed.

Lemma byte_lt (d k : Z) : 0 <= (d / k) mod 256 < 256.
Proof. apply Z.mod_pos_bound. lia. Qed.

Lemma fnv_hash_steps (h d : Z) :
  fnv_hash h d
  = fnv1_step
      (fnv1_step
         (fnv1_step (fnv1_step h (d mod 256)) ((d / 2 ^ 8) mod 256))
         ((d / 2 ^ 16) mod 256))
      ((d / 2 ^ 24) mod 256).
Proof. rewrite FnvFacts.fnv_hash_fold. reflexivity. Qed.

Lemma fnv_hash_inj_state (h h' d : Z) :
  0 <= h < 2 ^ 32 -> 0 <= h' < 2 ^ 32 ->
  fnv_hash h d = fnv_hash h' d -> h = h'.
Proof.
  intros Hh Hh'. rewrite !fnv_hash_steps. intros E.
  pose proof (byte_lt d 1) as B0. rewrite Z.div_1_r in B0.
  pose proof (byte_lt d (2 ^ 8)) as B1.
  pose proof (byte_lt d (2 ^ 16)) as B2.
  apply fnv1_step_inj_state in E; try (apply fnv1_step_range; assumption).
  apply fnv1_step_inj_state in E; try (apply fnv1_step_range; assumption).
  apply fnv1_step_inj_state in E; try (apply fnv1_step_range; assumption).
  apply fnv1_step_inj_state in E; assumption.
Qed.

(** Two words below 2^16 that differ hash differently from any state. *)
Lemma fnv_hash_inj_16 (h d d' : Z) :
  0 <= d < 2 ^ 16 -> 0 <= d' < 2 ^ 16 ->
  fnv_hash h d = fnv_hash h d' -> d = d'.
Proof.
  intros Hd Hd'. rewrite !fnv_hash_steps.
  rewrite !(Z.div_small _ (2 ^ 24)), !(Z.div_small _ (2 ^ 16)) by lia.
  change (0 mod 256) with 0.
  pose proof (byte_lt d 1) as B0. rewrite Z.div_1_r in B0.
  pose proof (byte_lt d' 1) as B0'. rewrite Z.div_1_r in B0'.
  pose proof (byte_lt d (2 ^ 8)) as B1.
  pose proof (byte_lt d' (2 ^ 8)) as B1'.
  set (b0 := d mod 256) in *. set (b0' := d' mod 256) in *.
  set (b1 := (d / 2 ^ 8) mod 256) in *. set (b1' := (d' / 2 ^ 8) mod 256) in *.
  intros E.
  apply fnv1_step_inj_state in E; try (apply fnv1_step_range; lia).
  apply fnv1_step_inj_state in E; try (apply fnv1_step_range; lia).
  (* the states after the first byte lie in one block of 256 *)
  set (c := uint32 (h * fnv_prime)) in *.
  assert (Hs : fnv1_step h b0 / 256 = fnv1_step h b0' / 256).
  { unfold fnv1_step. fold c. rewrite !lxor_byte_block by lia. reflexivity. }
  assert (Hr : 0 <= fnv1_step h b0 < 2 ^ 32) by (apply fnv1_step_range; lia).
  assert (Hr' : 0 <= fnv1_step h b0' < 2 ^ 32) by (apply fnv1_step_range; lia).
  set (s1 := fnv1_step h b0) in *. set (s1' := fnv1_step h b0') in *.
  (* so do their products with the prime, reduced *)
  assert (Ha : uint32 (s1 * fnv_prime) / 256 = uint32 (s1' * fnv_prime) / 256).
  { unfold fnv1_step in E.
    rewrite <- (lxor_byte_block (uint32 (s1 * fnv_prime)) b1) by lia.
    rewrite <- (lxor_byte_block (uint32 (s1' * fnv_prime)) b1') by lia.
    rewrite E. reflexivity. }
  assert (Es : s1 = s1').
  { unfold uint32, fnv_prime in Ha.
    pose proof (Z.div_mod (s1 * 16777619) (2 ^ 32) ltac:(lia)) as D.
    pose proof (Z.div_mod (s1' * 16777619) (2 ^ 32) ltac:(lia)) as D'.
    pose proof (Z.mod_pos_bound (s1 * 16777619) (2 ^ 32) ltac:(lia)) as M.
    pose proof (Z.mod_pos_bound (s1' * 16777619) (2 ^ 32) ltac:(lia)) as M'.
    set (A := (s1 * 16777619) mod 2 ^ 32) in *.
    set (A' := (s1' * 16777619) mod 2 ^ 32) in *.
    set (k := s1 * 16777619 / 2 ^ 32) in *.
    set (k' := s1' * 16777619 / 2 ^ 32) in *.
    pose proof (Z.div_mod A 256 ltac:(lia)) as DA.
    pose proof (Z.div_mod A' 256 ltac:(lia)) as DA'.
    pose proof (Z.mod_pos_bound A 256 ltac:(lia)).
    pose proof (Z.mod_pos_bound A' 256 ltac:(lia)).
    pose proof (Z.div_mod s1 256 ltac:(lia)) as Ds.
    pose proof (Z.div_mod s1' 256 ltac:(lia)) as Ds'.
    pose proof (Z.mod_pos_bound s1 256 ltac:(lia)).
    pose proof (Z.mod_pos_bound s1' 256 ltac:(lia)).
    change (2 ^ 32) with 4294967296 in *.
    lia. }
  assert (E0 : b0 = b0').
  { subst s1 s1'. unfold fnv1_step in Es. apply lxor_cancel_l in Es. exact Es. }
  assert (E1 : b1 = b1').
  { unfold fnv1_step in E. rewrite Es in E. apply lxor_cancel_l in E. exact E. }
  subst b0 b0' b1 b1'.
  pose proof (Z.div_mod d 256 ltac:(lia)) as Dd.
  pose proof (Z.div_mod d' 256 ltac:(lia)) as Dd'.
  change (2 ^ 8) with 256 in *.
  rewrite (Z.mod_small (d / 256)) in E1 by (split; [apply Z.div_pos; lia | apply Z.div_lt_upper_bound; lia]).
  rewrite (Z.mod_small (d' / 256)) in E1 by (split; [apply Z.div_pos; lia | apply Z.div_lt_upper_bound; lia]).
  lia.
Qed.

Lemma int_of_uint32_inj (a b : Z) :
  0 <= a < 2 ^ 32 -> 0 <= b < 2 ^ 32 ->
  int_of_uint32 a = int_of_uint32 b -> a = b.
Proof.
  intros Ha Hb E.
  rewrite <- (FnvFacts.int_of_uint32_wrap a Ha),
    <- (FnvFacts.int_of_uint32_wrap b Hb), E.
  reflexivity.
Qed.

Lemma tile_index_inj (tile_x tile_y tile_x' tile_y' nXTiles : Z) :
  0 <= tile_x < nXTiles -> 0 <= tile_x' < nXTiles ->
  tile_y * nXTiles + tile_x = tile_y' * nXTiles + tile_x' ->
  tile_x = tile_x' /\ tile_y = tile_y'.
Proof.
  intros Hx Hx' E.
  assert (Hy : tile_y = tile_y') by nia.
  subst tile_y'. split; [lia | reflexivity].
Qed.

Lemma fnv_hash_differs_16 (h d d' : Z) :
  0 <= d < 2 ^ 16 -> 0 <= d' < 2 ^ 16 -> d <> d' ->
  fnv_hash h d <> fnv_hash h d'.
Proof. intros Hd Hd' Hne E. apply Hne. eapply fnv_hash_inj_16; eassumption. Qed.

Lemma fnv_hash_differs_state (h h' d : Z) :
  0 <= h < 2 ^ 32 -> 0 <= h' < 2 ^ 32 -> h <> h' ->
  fnv_hash h d <> fnv_hash h' d.
Proof. intros Hh Hh' Hne E. apply Hne. eapply fnv_hash_inj_state; eassumption. Qed.

Lemma int_of_uint32_differs (a b : Z) :
  0 <= a < 2 ^ 32 -> 0 <= b < 2 ^ 32 -> a <> b ->
  int_of_uint32 a <> int_of_uint32 b.
Proof. intros Ha Hb Hne E. apply Hne. apply int_of_uint32_inj; assumption. Qed.

(** In every tile the prepass, which [Render] runs with sample offset 0,
    and the main pass, run with sample offset 1, seed the sampler
    differently. *)
Theorem tile_seed_passes_differ (tile_x tile_y nXTiles : Z) :
  (tile_seed tile_x tile_y nXTiles 0 =? tile_seed tile_x tile_y nXTiles 1)
  = false.
Proof.
  apply Z.eqb_neq. unfold tile_seed, sampler_seed.
  change (uint32 0) with 0. change (uint32 1) with 1.
  apply int_of_uint32_differs; try apply FnvFacts.fnv_hash_range.
  apply fnv_hash_differs_16; lia.
Qed.

(** Within one pass, two different tiles of an image of at most 2^16
    tiles never get the same seed. *)
Theorem tile_seed_tiles_differ
    (tile_x tile_y tile_x' tile_y' nXTiles sampleOffset : Z) :
  0 <= tile_x < nXTiles -> 0 <= tile_y ->
  0 <= tile_x' < nXTiles -> 0 <= tile_y' ->
  tile_y * nXTiles + tile_x < 2 ^ 16 ->
  tile_y' * nXTiles + tile_x' < 2 ^ 16 ->
  (tile_x, tile_y) <> (tile_x', tile_y') ->
  (tile_seed tile_x tile_y nXTiles sampleOffset
   =? tile_seed tile_x' tile_y' nXTiles sampleOffset) = false.
Proof.
  intros Hx Hy Hx' Hy' Hi Hi' Hne.
  assert (H0 : 0 <= tile_y * nXTiles + tile_x) by nia.
  assert (H0' : 0 <= tile_y' * nXTiles + tile_x') by nia.
  apply Z.eqb_neq. unfold tile_seed, sampler_seed.
  unfold uint32 at 1 3. rewrite !Z.mod_small by lia.
  apply int_of_uint32_differs; try apply FnvFacts.fnv_hash_range.
  apply fnv_hash_differs_state; try apply FnvFacts.fnv_hash_range.
  apply fnv_hash_differs_16; [lia | lia |].
  intros E. apply Hne.
  apply tile_index_inj in E as [-> ->]; [reflexivity | lia | lia].
Qed.

(** The first two tiles of a row of two, in the prepass. *)
Lemma tile_seed_tiles_differ_witness :
  (tile_seed 0 0 2 0 =? tile_seed 1 0 2 0) = false.
Proof.
  apply (tile_seed_tiles_differ 0 0 1 0 2 0); try lia. discriminate.
Defined.

End SeedFacts.

(** ** Image tiles *)

Lemma tile_count (extent tile : Z) :
  0 <= tile < Z.quot (extent + tileSize - 1) tileSize <->
  0 <= tile /\ tile * tileSize < extent.
Proof.
  unfold tileSize. destruct (Z_lt_le_dec (extent + 16 - 1) 0) as [Hn|Hp].
  - pose proof (Z.quot_opp_l (- (extent + 16 - 1)) 16 ltac:(lia)) as E.
    rewrite Z.opp_involutive in E.
    pose proof (Z.quot_pos (- (extent + 16 - 1)) 16 ltac:(lia) ltac:(lia)).
    lia.
  - rewrite Z.quot_div_nonneg by lia.
    pose proof (Z.div_mod (extent + 16 - 1) 16 ltac:(lia)).
    pose proof (Z.mod_pos_bound (extent + 16 - 1) 16 ltac:(lia)).
    lia.
Qed.

Lemma tile_of_sample (lo hi x : Z) :
  lo <= x < hi ->
  let tile := (x - lo) / tileSize in
  (0 <= tile /\ tile * tileSize < hi - lo)
  /\ lo + tile * tileSize <= x < Z.min (lo + tile * tileSize + tileSize) hi
  /\ forall tile',
       lo + tile' * tileSize <= x < Z.min (lo + tile' * tileSize + tileSize) hi ->
       tile' = tile.
Proof.
  intros Hx tile. unfold tileSize in *.
  pose proof (Z.div_mod (x - lo) 16 ltac:(lia)) as D.
  pose proof (Z.mod_pos_bound (x - lo) 16 ltac:(lia)) as M.
  fold tile in D. repeat split; try lia.
Qed.

(** The tiles partition the sample bounds: every tile of the grid is a
    non-empty box of at most 16 x 16 samples inside the sample bounds,
    and every sample of the bounds is visited by exactly one tile. *)
Theorem tiles_partition (sampleBounds : Bounds2i) :
  let sampleExtent :=
    ((pMax sampleBounds).1 - (pMin sampleBounds).1,
     (pMax sampleBounds).2 - (pMin sampleBounds).2) in
  (forall tile : Point2i,
      is_tile sampleExtent tile ->
      let b := tileBounds sampleBounds tile in
      ((pMin sampleBounds).1 <= (pMin b).1 < (pMax b).1
       /\ (pMax b).1 <= (pMax sampleBounds).1
       /\ (pMax b).1 - (pMin b).1 <= tileSize)
      /\ ((pMin sampleBounds).2 <= (pMin b).2 < (pMax b).2
          /\ (pMax b).2 <= (pMax sampleBounds).2
          /\ (pMax b).2 - (pMin b).2 <= tileSize))
  /\ (forall p : Point2i,
         visits sampleBounds p ->
         exists tile : Point2i,
           is_tile sampleExtent tile
           /\ visits (tileBounds sampleBounds tile) p
           /\ forall tile' : Point2i,
                visits (tileBounds sampleBounds tile') p -> tile' = tile).
Proof.
  intros sampleExtent. split.
  - intros [tx ty] [Hx Hy]. unfold nXTiles, nYTiles in *.
    apply tile_count in Hx, Hy. cbn in *. unfold tileSize in *. lia.
  - intros [px py] [Hx Hy]. cbn in Hx, Hy.
    destruct (tile_of_sample _ _ _ Hx) as (Cx & Ix & Ux).
    destruct (tile_of_sample _ _ _ Hy) as (Cy & Iy & Uy).
    exists ((px - (pMin sampleBounds).1) / tileSize,
            (py - (pMin sampleBounds).2) / tileSize).
    split; [|split].
    + split; unfold nXTiles, nYTiles; apply tile_count; cbn; assumption.
    + split; cbn; assumption.
    + intros [tx' ty'] [Hx' Hy']. cbn in Hx', Hy'.
      rewrite (Ux tx' Hx'), (Uy ty' Hy'). reflexivity.
Qed.

(** ** The variance estimators: allocation, accumulation, files *)

Section EstimatorFacts.

(** The number of estimators allocated for the depths below [n]. *)
Lemma estimator_count_fold (n : nat) (a : Z) :
  fold_left (fun (k : Z) (d : Z) => k + (d + 2)) (seqZ 0 (Z.of_nat n)) a
  = a + Z.of_nat n * (Z.of_nat n + 3) / 2.
Proof.
  induction n as [|n IH].
  - change (a = a + 0). lia.
  - replace (Z.of_nat (S n)) with (Z.of_nat n + 1) by lia.
    rewrite seqZ_app by lia. rewrite fold_left_app, IH. cbn [seqZ].
    change (seqZ (0 + Z.of_nat n) 1) with (seqZ (0 + Z.of_nat n) (Z.succ 0)).
    rewrite seqZ_cons by lia. cbn.
    replace ((Z.of_nat n + 1) * (Z.of_nat n + 1 + 3))
      with (Z.of_nat n * (Z.of_nat n + 3) + (Z.of_nat n + 2) * 2) by lia.
    rewrite Z.div_add by lia.
    replace (seqZ (Z.succ (0 + Z.of_nat n)) (Z.pred (Z.succ 0))) with (@nil Z)
      by reflexivity.
    cbn [fold_left]. lia.
Qed.

Lemma nVarianceEstimators_closed (maxDepth : Z) :
  0 <= maxDepth ->
  nVarianceEstimators maxDepth = (maxDepth + 1) * (maxDepth + 4) / 2.
Proof.
  intros H. unfold nVarianceEstimators.
  rewrite <- (Z2Nat.id (maxDepth + 1)) by lia.
  rewrite estimator_count_fold. rewrite Z2Nat.id by lia.
  replace (maxDepth + 1 + 3) with (maxDepth + 4) by lia. lia.
Qed.

Lemma seqZ_snoc (m : Z) (n : nat) :
  seqZ m (Z.of_nat (S n)) = seqZ m (Z.of_nat n) ++ [m + Z.of_nat n].
Proof.
  replace (Z.of_nat (S n)) with (Z.of_nat n + 1) by lia.
  rewrite seqZ_app by lia. reflexivity.
Qed.

Lemma triangle_step (d : Z) :
  (d + 1) * (d + 1 + 3) / 2 = d * (d + 3) / 2 + (d + 2).
Proof.
  replace ((d + 1) * (d + 1 + 3)) with (d * (d + 3) + (d + 2) * 2) by lia.
  apply Z.div_add. lia.
Qed.

(** The inner loop over [t] of the file-writing code. *)
Lemma variance_files_inner (d : Z) (n : nat) (idx : Z)
    (out : list (Z * (Z * Z))) :
  fold_left
    (fun (acc : Z * list (Z * (Z * Z))) (t : Z) =>
       let idx := acc.1 in (idx + 1, acc.2 ++ [(idx, (d, t))]))
    (seqZ 1 (Z.of_nat n)) (idx, out)
  = (idx + Z.of_nat n,
     out ++ ((fun t => (idx + t - 1, (d, t))) <$> seqZ 1 (Z.of_nat n))).
Proof.
  induction n as [|n IH].
  - change (Z.of_nat 0) with 0. cbn. rewrite app_nil_r, Z.add_0_r. reflexivity.
  - rewrite seqZ_snoc, fold_left_app, IH. cbn [fold_left fst snd].
    rewrite fmap_app, app_assoc. cbn [fmap list_fmap]. f_equal; [lia|].
    do 3 f_equal. lia.
Qed.

(** The two loops: the estimators are numbered depth by depth and, within
    a depth, by increasing [t]. *)
Lemma variance_files_outer (k : nat) :
  fold_left
    (fun (acc : Z * list (Z * (Z * Z))) (d : Z) =>
       fold_left
         (fun (acc : Z * list (Z * (Z * Z))) (t : Z) =>
            let idx := acc.1 in (idx + 1, acc.2 ++ [(idx, (d, t))]))
         (seqZ 1 (d + 2)) acc)
    (seqZ 0 (Z.of_nat k)) (0, [])
  = (Z.of_nat k * (Z.of_nat k + 3) / 2,
     seqZ 0 (Z.of_nat k) ≫=
       (fun d => (fun t => (d * (d + 3) / 2 + t - 1, (d, t))) <$> seqZ 1 (d + 2))).
Proof.
  induction k as [|k IH].
  - reflexivity.
  - rewrite seqZ_snoc, fold_left_app, IH. cbn [fold_left].
    rewrite <- (Z2Nat.id (0 + Z.of_nat k + 2)) at 1 by lia.
    rewrite variance_files_inner, Z2Nat.id by lia.
    rewrite bind_app. cbn [mbind list_bind]. rewrite app_nil_r.
    rewrite Z.add_0_l. f_equal.
    replace (Z.of_nat (S k)) with (Z.of_nat k + 1) by lia.
    rewrite triangle_step. reflexivity.
Qed.

Lemma elem_of_variance_files (maxDepth idx d t : Z) :
  0 <= maxDepth ->
  (idx, (d, t)) ∈ variance_files maxDepth
  <-> 0 <= d <= maxDepth /\ 1 <= t <= d + 2 /\ idx = d * (d + 3) / 2 + t - 1.
Proof.
  intros H0. unfold variance_files.
  rewrite <- (Z2Nat.id (maxDepth + 1)) by lia.
  rewrite variance_files_outer. cbn [snd]. rewrite Z2Nat.id by lia.
  rewrite list_elem_of_bind. split.
  - intros (d' & Hin & Hd). apply elem_of_seqZ in Hd.
    apply list_elem_of_fmap in Hin as (t' & E & Ht). apply elem_of_seqZ in Ht.
    injection E as -> -> ->. lia.
  - intros (Hd & Ht & ->). exists d. split; [|apply elem_of_seqZ; lia].
    apply list_elem_of_fmap. exists t. split; [reflexivity|].
    apply elem_of_seqZ. lia.
Qed.

Lemma length_variance_files (maxDepth : Z) :
  0 <= maxDepth ->
  Z.of_nat (length (variance_files maxDepth)) = nVarianceEstimators maxDepth.
Proof.
  intros H0. unfold variance_files, nVarianceEstimators.
  rewrite <- (Z2Nat.id (maxDepth + 1)) by lia.
  rewrite variance_files_outer, estimator_count_fold. cbn [snd].
  generalize (Z.to_nat (maxDepth + 1)). intros k.
  induction k as [|k IH].
  - reflexivity.
  - rewrite seqZ_snoc, bind_app, length_app, Nat2Z.inj_add, IH.
    cbn [mbind list_bind]. rewrite app_nil_r, length_fmap, length_seqZ.
    replace (Z.of_nat (S k)) with (Z.of_nat k + 1) by lia.
    rewrite triangle_step. lia.
Qed.

(** For a maximum depth of at least 1, every strategy the loop of a pixel
    sample executes addresses one of the allocated variance estimators.
    For maximum depth 0 the two estimators have the indices 0 and 1, and
    the strategy (0,2), executed as soon as the camera subpath has two
    vertices, addresses index 2. *)
Theorem BufferIndex_in_range (maxDepth nCamera nLight : Z) :
  (1 <= maxDepth ->
   forall s t : Z,
     (s, t) ∈ strategies maxDepth nCamera nLight ->
     0 <= BufferIndex s t < nVarianceEstimators maxDepth)
  /\ (maxDepth = 0 -> 2 <= nCamera -> 0 <= nLight ->
      (0, 2) ∈ strategies maxDepth nCamera nLight
      /\ BufferIndex 0 2 = nVarianceEstimators maxDepth).
Proof.
  split.
  - intros Hm s t Hin. apply elem_of_strategies in Hin as (Ht & Hs & Hd & _).
    rewrite nVarianceEstimators_closed by lia. unfold BufferIndex.
    split; [lia|].
    assert (2 * maxDepth + 3 <= (maxDepth + 1) * (maxDepth + 4) / 2).
    { apply Z.div_le_lower_bound; [lia | nia]. }
    lia.
  - intros -> Hc Hl. split; [|reflexivity].
    apply elem_of_strategies. repeat split; try lia. discriminate.
Qed.

(** The estimator written to the files named after depth [d] and strategy
    [t] is number [d (d + 3) / 2 + t - 1], for every [0 <= d <= maxDepth]
    and [1 <= t <= d + 2]: the files cover the allocated estimators.  The
    strategy loop, however, accumulates the strategy of depth [d] with [t]
    camera vertices, which has [s = d + 2 - t], in estimator
    [BufferIndex s t]: the two numbers agree exactly for depth 1. *)
Theorem variance_files_slots (maxDepth : Z) :
  0 <= maxDepth ->
  Z.of_nat (length (variance_files maxDepth)) = nVarianceEstimators maxDepth
  /\ (forall idx d t : Z,
         (idx, (d, t)) ∈ variance_files maxDepth
         <-> 0 <= d <= maxDepth /\ 1 <= t <= d + 2
             /\ idx = d * (d + 3) / 2 + t - 1)
  /\ (forall idx d t : Z,
         (idx, (d, t)) ∈ variance_files maxDepth ->
         (idx = BufferIndex (d + 2 - t) t <-> d = 1)).
Proof.
  intros H0. split; [apply length_variance_files; exact H0|].
  split; [intros idx d t; apply elem_of_variance_files; exact H0|].
  intros idx d t Hin. apply elem_of_variance_files in Hin as (Hd & Ht & ->);
    [|exact H0].
  unfold BufferIndex.
  pose proof (Z.div_mod (d * (d + 3)) 2 ltac:(lia)) as D.
  pose proof (Z.mod_pos_bound (d * (d + 3)) 2 ltac:(lia)) as M.
  split.
  - intros E. nia.
  - intros ->. change (1 * (1 + 3) / 2) with 2. lia.
Qed.

(** The files of a render with maximum depth 1. *)
Lemma variance_files_slots_witness :
  Z.of_nat (length (variance_files 1)) = nVarianceEstimators 1
  /\ (forall idx d t : Z,
         (idx, (d, t)) ∈ variance_files 1
         <-> 0 <= d <= 1 /\ 1 <= t <= d + 2
             /\ idx = d * (d + 3) / 2 + t - 1)
  /\ (forall idx d t : Z,
         (idx, (d, t)) ∈ variance_files 1 ->
         (idx = BufferIndex (d + 2 - t) t <-> d = 1)).
Proof. apply (variance_files_slots 1). lia. Defined.

End EstimatorFacts.

(** ** Connections leave the subpaths alone *)

Section DrawFacts.
Context {T : Types}.

Lemma sampler_only_refl (st : St) : sampler_only st st.
Proof. repeat split. Qed.

Lemma sampler_only_trans (st1 st2 st3 : St) :
  sampler_only st1 st2 -> sampler_only st2 st3 -> sampler_only st1 st3.
Proof.
  intros (L1 & C1 & O1) (L2 & C2 & O2). split; [congruence|].
  split; [congruence|]. eapply outputs_kept_trans; eassumption.
Qed.

Lemma draws_readonly {A} (c : M A) : readonly c -> draws_only c.
Proof. intros Hc st a st' H. apply Hc in H as ->. apply sampler_only_refl. Qed.

Lemma draws_ret {A} (a : A) : draws_only (ret a).
Proof. apply draws_readonly, readonly_ret. Qed.

Lemma draws_load (p : VertexPtr) : draws_only (load p).
Proof. apply draws_readonly, readonly_load. Qed.

Lemma draws_lift {A} (o : option A) : draws_only (lift o).
Proof. apply draws_readonly, readonly_lift. Qed.

Lemma draws_with_sampler {A} (q : Sampler -> A * Sampler) :
  draws_only (with_sampler q).
Proof.
  intros st a st'. unfold with_sampler. destruct (q (sampler st)) as [x smp].
  intros [= _ <-]. repeat split.
Qed.

Lemma draws_bind {A B} (c : M A) (k : A -> M B) :
  draws_only c -> (forall a, draws_only (k a)) -> draws_only (bind c k).
Proof.
  intros Hc Hk st b st' H. apply bind_Some in H as (a & st1 & H1 & H2).
  eapply sampler_only_trans; [eapply Hc | eapply Hk]; eassumption.
Qed.

Lemma draws_if {A} (b : bool) (c1 c2 : M A) :
  draws_only c1 -> draws_only c2 -> draws_only (if b then c1 else c2).
Proof. destruct b; intros H1 H2; assumption. Qed.

End DrawFacts.

Create HintDb draws.
#[export] Hint Resolve draws_ret draws_load draws_lift draws_with_sampler
  : draws.

Ltac draws_tac :=
  repeat first
    [ solve [auto 1 with draws]
    | apply draws_if
    | apply draws_bind; [|intros ?]
    | match goal with
      | |- draws_only (match ?x with _ => _ end) => destruct x
      end ].

Section ConnectDraws.
Context {T : Types} {W : World}.

Lemma draws_MISWeight (scene : Scene) (sampled : Vertex) (s t : Z)
    (lightPdf : Distribution1D) (lightToIndex : LightToIndex)
    (pxCoords : Point2i) (rectifier : option SAMISRectifier)
    (mode : MisStrategy) :
  draws_only
    (MISWeight scene sampled s t lightPdf lightToIndex pxCoords rectifier mode).
Proof.
  intros st w st' H. apply MISWeight_frame in H as ->. apply sampler_only_refl.
Qed.

Lemma draws_G (scene : Scene) (v0 v1 : Vertex) : draws_only (G scene v0 v1).
Proof. unfold G. draws_tac. Qed.

#[local] Hint Resolve draws_MISWeight draws_G : draws.

Lemma draws_connect (scene : Scene) (s t : Z) (lightDistr : Distribution1D)
    (lightToIndex : LightToIndex) (camera : Camera) (pRaster : Point2f) :
  draws_only (connect scene s t lightDistr lightToIndex camera pRaster).
Proof. unfold connect. draws_tac. Qed.

#[local] Hint Resolve draws_connect : draws.

Lemma draws_ConnectBDPT (scene : Scene) (s t : Z)
    (lightDistr : Distribution1D) (lightToIndex : LightToIndex)
    (camera : Camera) (pRaster : Point2f) (misWeightPtr : option Float)
    (rectifier : option SAMISRectifier) (misStrategy : MisStrategy) :
  draws_only
    (ConnectBDPT scene s t lightDistr lightToIndex camera pRaster misWeightPtr
       rectifier misStrategy).
Proof.
  unfold ConnectBDPT, ConnectBDPT_with, infinite_light_guard.
  draws_tac.
Qed.

(** Whenever [ConnectBDPT] returns, the two subpaths are as they were
    before the call, although [MISWeight] has overwritten vertices, flags
    and densities in between, and nothing has been sent to the film or the
    estimators: the call has at most advanced the sampler. *)
Theorem ConnectBDPT_keeps_subpaths (scene : Scene) (s t : Z)
    (lightDistr : Distribution1D) (lightToIndex : LightToIndex)
    (camera : Camera) (pRaster : Point2f) (misWeightPtr : option Float)
    (rectifier : option SAMISRectifier) (misStrategy : MisStrategy)
    (st : St) (r : Spectrum * Point2f * option Float) (st' : St) :
  ConnectBDPT scene s t lightDistr lightToIndex camera pRaster misWeightPtr
    rectifier misStrategy st
  = Some (r, st') ->
  lightVertices st' = lightVertices st
  /\ cameraVertices st' = cameraVertices st
  /\ splats st' = splats st
  /\ rectifierLog st' = rectifierLog st
  /\ varianceLog st' = varianceLog st.
Proof.
  intros H.
  exact (draws_ConnectBDPT scene s t lightDistr lightToIndex camera pRaster
           misWeightPtr rectifier misStrategy st r st' H).
Qed.

Lemma connect_raster (scene : Scene) (s t : Z) (lightDistr : Distribution1D)
    (lightToIndex : LightToIndex) (camera : Camera) (pRaster : Point2f)
    (st : St) (L : Spectrum) (sampled : Vertex) (pRaster' : Point2f) (st' : St) :
  connect scene s t lightDistr lightToIndex camera pRaster st
  = Some ((L, sampled, pRaster'), st') ->
  t <> 1 \/ s = 0 ->
  pRaster' = pRaster.
Proof.
  intros H Hts. unfold connect in H. cbv zeta in H.
  destruct (Z.eqb_spec s 0) as [Es|Es].
  - invert_run; reflexivity.
  - destruct (Z.eqb_spec t 1) as [Et|Et]; [lia|].
    invert_run; reflexivity.
Qed.

(** [ConnectBDPT] moves the raster position behind [pRaster] only in a
    strategy that samples the camera: for [t <> 1], and for [s = 0], the
    position it hands back is the one it was given. *)
Theorem ConnectBDPT_raster (scene : Scene) (s t : Z)
    (lightDistr : Distribution1D) (lightToIndex : LightToIndex)
    (camera : Camera) (pRaster : Point2f) (misWeightPtr : option Float)
    (rectifier : option SAMISRectifier) (misStrategy : MisStrategy)
    (st : St) (L : Spectrum) (pRaster' : Point2f) (w : option Float)
    (st' : St) :
  ConnectBDPT scene s t lightDistr lightToIndex camera pRaster misWeightPtr
    rectifier misStrategy st
  = Some ((L, pRaster', w), st') ->
  t <> 1 \/ s = 0 ->
  pRaster' = pRaster.
Proof.
  intros H Hts. unfold ConnectBDPT, ConnectBDPT_with in H.
  apply bind_Some in H as (invalid & st0 & Hg & H).
  destruct invalid.
  - unfold ret in H. injection H as _ <- _ _. reflexivity.
  - apply bind_Some in H as ([[L0 sampled] p] & st1 & Hc & H).
    apply connect_raster in Hc; [|exact Hts]. subst p.
    apply bind_Some in H as (mw & st2 & Hw & H).
    unfold ret in H. injection H as _ <- _ _. reflexivity.
Qed.

Lemma safe_G (n : nat * nat) (scene : Scene) (v0 v1 : Vertex) :
  safe n (G scene v0 v1).
Proof. unfold G. safe_walk_tac. Qed.

Lemma safe_MISWeight (n : nat * nat) (scene : Scene) (sampled : Vertex)
    (s t : Z) (lightPdf : Distribution1D) (lightToIndex : LightToIndex)
    (pxCoords : Point2i) (rectifier : option SAMISRectifier)
    (mode : MisStrategy) :
  0 <= s <= Z.of_nat n.1 -> 1 <= t <= Z.of_nat n.2 -> 2 <= s + t ->
  safe n
    (MISWeight scene sampled s t lightPdf lightToIndex pxCoords rectifier mode).
Proof.
  intros Hs Ht Hst st Hn. destruct (Z.eq_dec (s + t) 2) as [E|E].
  - exists 1%Q, st. unfold MISWeight. rewrite E. split; [reflexivity | exact Hn].
  - destruct (MISWeight_run scene sampled s t lightPdf lightToIndex pxCoords
                rectifier mode st) as (sc & view & _ & _ & Hw); [|exact E|].
    + unfold valid_call. unfold shape in Hn. subst n. cbn in Hs, Ht. lia.
    + eexists _, st. split; [exact Hw | exact Hn].
Qed.

(** A valid light index makes the lookup in [scene.lights] defined. *)
Lemma safe_light (n : nat * nat) (scene : Scene) (lightNum : Z) :
  0 <= lightNum < Z.of_nat (length (lights scene)) ->
  safe n
    (lift (if 0 <=? lightNum then lights scene !! Z.to_nat lightNum else None)).
Proof.
  intros Hl st Hn. destruct (Z.leb_spec 0 lightNum) as [_|]; [|lia].
  destruct (lookup_lt_is_Some_2 (lights scene) (Z.to_nat lightNum) ltac:(lia))
    as [light El].
  rewrite El. exists light, st. split; [reflexivity | exact Hn].
Qed.

Lemma safe_connect (n : nat * nat) (scene : Scene) (s t : Z)
    (lightDistr : Distribution1D) (lightToIndex : LightToIndex)
    (camera : Camera) (pRaster : Point2f) :
  0 <= s <= Z.of_nat n.1 -> 1 <= t <= Z.of_nat n.2 -> 2 <= s + t ->
  (forall u : Float,
      0 <= (SampleDiscrete lightDistr u).1 < Z.of_nat (length (lights scene))) ->
  safe n (connect scene s t lightDistr lightToIndex camera pRaster).
Proof.
  intros Hs Ht Hst Hl. unfold connect. cbv zeta.
  assert (Pc : ptr_ok n (CameraArr, t - 1)) by (unfold ptr_ok; cbn; lia).
  destruct (Z.eqb_spec s 0) as [Es|Es].
  { assert (Pc2 : ptr_ok n (CameraArr, t - 2)) by (unfold ptr_ok; cbn; lia).
    safe_walk_tac. }
  assert (Pl : ptr_ok n (LightArr, s - 1)) by (unfold ptr_ok; cbn; lia).
  destruct (t =? 1); [safe_walk_tac|].
  destruct (s =? 1); [|safe_walk_tac; apply safe_G].
  apply safe_bind; [apply safe_load; exact Pc|]. intros pt.
  destruct (IsConnectible pt); [|apply safe_ret].
  apply safe_bind; [apply safe_with_sampler|]. intros u1.
  specialize (Hl u1). destruct (SampleDiscrete lightDistr u1) as [lightNum lightPdf].
  apply safe_bind; [apply safe_light; exact Hl|]. intros light.
  safe_walk_tac.
Qed.

Lemma safe_ConnectBDPT (n : nat * nat) (scene : Scene) (s t : Z)
    (lightDistr : Distribution1D) (lightToIndex : LightToIndex)
    (camera : Camera) (pRaster : Point2f) (misWeightPtr : option Float)
    (rectifier : option SAMISRectifier) (misStrategy : MisStrategy) :
  0 <= s <= Z.of_nat n.1 -> 1 <= t <= Z.of_nat n.2 -> 2 <= s + t ->
  (forall u : Float,
      0 <= (SampleDiscrete lightDistr u).1 < Z.of_nat (length (lights scene))) ->
  safe n
    (ConnectBDPT scene s t lightDistr lightToIndex camera pRaster misWeightPtr
       rectifier misStrategy).
Proof.
  intros Hs Ht Hst Hl.
  unfold ConnectBDPT, ConnectBDPT_with, infinite_light_guard.
  assert (Pc : ptr_ok n (CameraArr, t - 1)) by (unfold ptr_ok; cbn; lia).
  apply safe_bind; [safe_walk_tac|]. intros invalid.
  destruct invalid; [apply safe_ret|].
  apply safe_bind; [apply safe_connect; assumption|]. intros [[L sampled] p].
  apply safe_bind; [|intros mw; apply safe_ret].
  destruct (Spec.IsBlack L); [apply safe_ret|].
  apply safe_MISWeight; assumption.
Qed.

(** [ConnectBDPT] is defined on every strategy the render loop can issue:
    with [s] light and [t >= 1] camera vertices in the two arrays,
    [s + t >= 2], and a light distribution that returns indices of
    [scene.lights], every vertex it reads is inside its array and no null
    pointer is dereferenced. *)
Theorem ConnectBDPT_defined (scene : Scene) (s t : Z)
    (lightDistr : Distribution1D) (lightToIndex : LightToIndex)
    (camera : Camera) (pRaster : Point2f) (misWeightPtr : option Float)
    (rectifier : option SAMISRectifier) (misStrategy : MisStrategy) (st : St) :
  valid_call s t st ->
  (forall u : Float,
      0 <= (SampleDiscrete lightDistr u).1 < Z.of_nat (length (lights scene))) ->
  exists r st',
    ConnectBDPT scene s t lightDistr lightToIndex camera pRaster misWeightPtr
      rectifier misStrategy st
    = Some (r, st').
Proof.
  intros (Hs & Ht & Hst) Hl.
  destruct (safe_ConnectBDPT (shape st) scene s t lightDistr lightToIndex
              camera pRaster misWeightPtr rectifier misStrategy Hs Ht Hst Hl
              st eq_refl)
    as (r & st' & H & _).
  eauto.
Qed.

End ConnectDraws.


(** ** The calls on which [MISWeight] is defined *)

Section DefinedFacts.
Context {T : Types} {W : World}.

Lemma bind_None {A B} (c : M A) (k : A -> M B) (st : St) (a : A) (st1 : St) :
  c st = Some (a, st1) -> k a st1 = None -> bind c k st = None.
Proof. intros Hc Hk. unfold bind. rewrite Hc. exact Hk. Qed.

Lemma bind_None_l {A B} (c : M A) (k : A -> M B) (st : St) :
  c st = None -> bind c k st = None.
Proof. intros Hc. unfold bind. rewrite Hc. reflexivity. Qed.

(** With light vertices but no camera vertex, the update of [qs->pdfRev]
    calls [pt->Pdf] through the null pointer [pt]. *)
Lemma update_for_strategy_no_camera (scene : Scene) (sampled : Vertex) (s : Z)
    (lightPdf : Distribution1D) (lightToIndex : LightToIndex) (st : St) :
  1 <= s <= Z.of_nat (length (lightVertices st)) ->
  update_for_strategy scene sampled s 0 lightPdf lightToIndex st = None.
Proof.
  intros Hs. unfold update_for_strategy, ptr_if. cbv zeta.
  destruct (Z.ltb_spec 0 s) as [_|]; [|lia].
  change (0 <? 0) with false. change (1 <? 0) with false.
  change (0 =? 1) with false. cbv iota.
  assert (Pq : ptr_ok (shape st) (LightArr, s - 1)) by (unfold ptr_ok; cbn; lia).
  assert (S1 : safe (shape st)
                 (if s =? 1
                  then scoped_assign (LightArr, s - 1) whole sampled
                  else ret scoped_null)).
  { destruct (s =? 1); safe_tac; exact Pq. }
  destruct (S1 st eq_refl) as (x1 & st1 & H1 & Hs1).
  eapply bind_None; [exact H1|].
  eapply bind_None; [reflexivity|].
  destruct (safe_scoped_assign (shape st) (LightArr, s - 1) delta_of false Pq
              st1 Hs1) as (x3 & st3 & H3 & Hs3).
  eapply bind_None; [exact H3|].
  eapply bind_None; [reflexivity|].
  eapply bind_None; [reflexivity|].
  reflexivity.
Qed.

(** With one camera vertex and no light vertex, the update of
    [pt->pdfRev] passes [*ptMinus] for the null pointer [ptMinus]. *)
Lemma update_for_strategy_camera_only (scene : Scene) (sampled : Vertex)
    (lightPdf : Distribution1D) (lightToIndex : LightToIndex) (st : St) :
  1 <= Z.of_nat (length (cameraVertices st)) ->
  update_for_strategy scene sampled 0 1 lightPdf lightToIndex st = None.
Proof.
  intros Ht. unfold update_for_strategy, ptr_if. cbv zeta.
  change (0 <? 0) with false. change (1 <? 0) with false.
  change (0 =? 1) with false. change (1 =? 1) with true.
  change (0 <? 1) with true. change (1 <? 1) with false. cbv iota.
  assert (Pp : ptr_ok (shape st) (CameraArr, 1 - 1)) by (unfold ptr_ok; cbn; lia).
  destruct (safe_scoped_assign (shape st) (CameraArr, 1 - 1) whole sampled Pp
              st eq_refl) as (x1 & st1 & H1 & Hs1).
  eapply bind_None; [exact H1|].
  destruct (safe_scoped_assign (shape st) (CameraArr, 1 - 1) delta_of false Pp
              st1 Hs1) as (x2 & st2 & H2 & Hs2).
  eapply bind_None; [exact H2|].
  eapply bind_None; [reflexivity|].
  apply bind_None_l. apply bind_None_l.
  destruct (safe_load (shape st) (CameraArr, 1 - 1) Pp st2 Hs2)
    as (v & st3 & H3 & _).
  eapply bind_None; [exact H3|]. reflexivity.
Qed.

(** Among the calls whose [s] and [t] stay within the two arrays,
    [MISWeight] has no defined behaviour exactly on those with light
    vertices but no camera vertex (other than [s = 2], answered before
    any vertex is read) and on [s = 0], [t = 1]: both dereference a null
    pointer.  The render loop issues neither, since it keeps [t >= 1] and
    [s + t >= 2]. *)
Theorem MISWeight_defined_iff (scene : Scene) (sampled : Vertex) (s t : Z)
    (lightPdf : Distribution1D) (lightToIndex : LightToIndex)
    (pxCoords : Point2i) (rectifier : option SAMISRectifier)
    (mode : MisStrategy) (st : St) :
  0 <= s <= Z.of_nat (length (lightVertices st)) ->
  0 <= t <= Z.of_nat (length (cameraVertices st)) ->
  MISWeight scene sampled s t lightPdf lightToIndex pxCoords rectifier mode st
  = None
  <-> (t = 0 /\ 1 <= s /\ s <> 2) \/ (s = 0 /\ t = 1).
Proof.
  intros Hs Ht. split.
  - intros HN.
    destruct (Z.eq_dec (s + t) 2) as [E2|E2].
    { unfold MISWeight in HN. rewrite E2 in HN. discriminate. }
    destruct (Z.eq_dec t 0) as [Et|Et].
    { destruct (Z.eq_dec s 0) as [Es|Es]; [|left; lia].
      subst s t. discriminate HN. }
    destruct (Z.eq_dec (s + t) 1) as [E1|E1]; [right; lia|].
    destruct (MISWeight_run scene sampled s t lightPdf lightToIndex pxCoords
                rectifier mode st) as (sc & view & _ & _ & Hw); [|exact E2|].
    + unfold valid_call. lia.
    + rewrite Hw in HN. discriminate.
  - intros [(-> & Hs1 & Hs2) | (-> & ->)]; unfold MISWeight.
    + destruct (Z.eqb_spec (s + 0) 2) as [|_]; [lia|].
      apply bind_None_l. apply update_for_strategy_no_camera. lia.
    + apply bind_None_l. apply update_for_strategy_camera_only. lia.
Qed.

End DefinedFacts.

(** ** The weight under the uniform heuristic and under a constant rectifier *)

Section WeightShape.
Context {T : Types} {W : World}.

Lemma fold_Qplus_map_scale {A} (f g : A -> Q) (c : Q) (l : list A) :
  (forall x, f x == c * g x)%Q ->
  forall a b : Q,
    (a == c * b)%Q ->
    (fold_left Qplus (map f l) a == c * fold_left Qplus (map g l) b)%Q.
Proof.
  intros Hf. induction l as [|x l IH]; intros a b Hab; cbn [map fold_left].
  - exact Hab.
  - apply IH. rewrite Hab, Hf. ring.
Qed.

Lemma fold_Qplus_map_ones {A} (f : A -> Q) (l : list A) :
  (forall x, f x == 1)%Q ->
  forall a : Q,
    (fold_left Qplus (map f l) a == a + inject_Z (Z.of_nat (length l)))%Q.
Proof.
  intros Hf. induction l as [|x l IH]; intros a; cbn [map fold_left length].
  - change (inject_Z (Z.of_nat 0)) with 0%Q. ring.
  - rewrite IH, Hf, Nat2Z.inj_succ. unfold Z.succ. rewrite inject_Z_plus.
    change (inject_Z 1) with 1%Q. ring.
Qed.

(** A rectifier whose factors all equal [c] scales the sum by [c]. *)
Lemma spec_sumRi_constant (st : St) (mode : MisStrategy) (r : SAMISRectifier)
    (pxCoords : Point2i) (s t : Z) (c : Q) :
  (forall px d t', Get r px d t' == c)%Q ->
  (spec_sumRi st mode (Some r) pxCoords s t
   == c * spec_sumRi st mode None pxCoords s t)%Q.
Proof.
  intros Hc. unfold spec_sumRi, camera_terms, light_terms. cbv zeta.
  rewrite !fold_left_app.
  apply fold_Qplus_map_scale.
  - intros i. cbn [stratFactor]. rewrite Hc. ring.
  - apply fold_Qplus_map_scale.
    + intros i. cbn [stratFactor]. rewrite Hc. ring.
    + ring.
Qed.

(** The number of hypothetical strategies that enter the sum: those on
    either subpath whose two vertices are not delta. *)
Lemma spec_sumRi_uniform (st : St) (pxCoords : Point2i) (s t : Z) :
  (spec_sumRi st MIS_UNIFORM None pxCoords s t
   == inject_Z
        (Z.of_nat
           (length (camera_terms (cameraVertices st) MIS_UNIFORM
                      (stratFactor None pxCoords (s + t)) (Z.to_nat t))
            + length (light_terms (lightVertices st) MIS_UNIFORM
                        (stratFactor None pxCoords (s + t)) (Z.to_nat s) t))))%Q.
Proof.
  unfold spec_sumRi, camera_terms, light_terms. cbv zeta.
  rewrite fold_left_app, !length_map.
  rewrite fold_Qplus_map_ones by (intros i; reflexivity).
  rewrite fold_Qplus_map_ones by (intros i; reflexivity).
  rewrite Nat2Z.inj_add, inject_Z_plus. ring.
Qed.

(** Under the uniform heuristic and without a rectifier, the weight of
    a strategy is [1 / (1 + n)], where [n] counts the hypothetical
    strategies of the two subpaths, as updated for the current strategy,
    whose two vertices are not delta: every admissible strategy of a path
    gets the same weight. *)
Theorem MISWeight_uniform (scene : Scene) (sampled : Vertex) (s t : Z)
    (lightPdf : Distribution1D) (lightToIndex : LightToIndex)
    (pxCoords : Point2i) (st : St) :
  valid_call s t st -> s + t <> 2 ->
  exists sc view w,
    update_for_strategy scene sampled s t lightPdf lightToIndex st
    = Some (sc, view)
    /\ MISWeight scene sampled s t lightPdf lightToIndex pxCoords None
         MIS_UNIFORM st
       = Some (w, st)
    /\ let n :=
         (length (camera_terms (cameraVertices view) MIS_UNIFORM
                    (fun _ => 1%Q) (Z.to_nat t))
          + length (light_terms (lightVertices view) MIS_UNIFORM
                      (fun _ => 1%Q) (Z.to_nat s) t))%nat in
       (w == 1 / (1 + inject_Z (Z.of_nat n)))%Q.
Proof.
  intros Hv Hne.
  destruct (MISWeight_run scene sampled s t lightPdf lightToIndex pxCoords
              None MIS_UNIFORM st Hv Hne) as (sc & view & Hu & _ & Hw).
  eexists sc, view, _. split; [exact Hu|]. split; [exact Hw|].
  cbv zeta. rewrite spec_sumRi_uniform. cbn [stratFactor].
  unfold Qdiv at 2. change (/ 1)%Q with 1%Q. rewrite Qmult_1_r.
  reflexivity.
Qed.

(** A rectifier that returns the same positive factor for every pixel,
    depth and strategy leaves every weight as it is without rectifier,
    under each of the three heuristics (in exact arithmetic). *)
Theorem MISWeight_constant_rectifier (scene : Scene) (sampled : Vertex)
    (s t : Z) (lightPdf : Distribution1D) (lightToIndex : LightToIndex)
    (pxCoords : Point2i) (r : SAMISRectifier) (c : Q) (mode : MisStrategy)
    (st : St) :
  valid_call s t st ->
  (0 < c)%Q ->
  (forall px d t', Get r px d t' == c)%Q ->
  exists w w',
    MISWeight scene sampled s t lightPdf lightToIndex pxCoords (Some r) mode st
    = Some (w, st)
    /\ MISWeight scene sampled s t lightPdf lightToIndex pxCoords None mode st
       = Some (w', st)
    /\ (w == w')%Q.
Proof.
  intros Hv Hpos Hc. destruct (Z.eq_dec (s + t) 2) as [E|Hne].
  - exists 1%Q, 1%Q. unfold MISWeight. rewrite E. repeat split; reflexivity.
  - destruct (MISWeight_run scene sampled s t lightPdf lightToIndex pxCoords
                (Some r) mode st Hv Hne) as (sc & view & Hu & _ & Hw).
    destruct (MISWeight_run scene sampled s t lightPdf lightToIndex pxCoords
                None mode st Hv Hne) as (sc' & view' & Hu' & _ & Hw').
    rewrite Hu in Hu'. injection Hu' as _ <-.
    eexists _, _. split; [exact Hw|]. split; [exact Hw'|].
    cbn [stratFactor]. rewrite (spec_sumRi_constant view mode r pxCoords s t c Hc).
    rewrite Hc.
    assert (E1 : (c * spec_sumRi view mode None pxCoords s t / c
                  == spec_sumRi view mode None pxCoords s t)%Q).
    { rewrite Qmult_comm. apply Qdiv_mult_l. intros E0. rewrite E0 in Hpos.
      apply (Qlt_irrefl 0). exact Hpos. }
    rewrite E1. unfold Qdiv at 3. change (/ 1)%Q with 1%Q. rewrite Qmult_1_r.
    reflexivity.
Qed.

End WeightShape.


(** ** The shading-normal correction *)

Section ShadingFacts.
Context {T : Types} {W : World}.

(** Where the shading normal of the intersection is its geometric
    normal, the correction factor is 1 in either transport mode, except
    when, under importance transport, one of the two cosines vanishes:
    there it is 0 and not the result of a division by zero. *)
Theorem CorrectShadingNormal_same_normal (isect : SurfaceInteraction)
    (wo wi : Vector3f) (mode : TransportMode) :
  si_shading_n isect = si_n isect ->
  let denom := (AbsDot wo (si_n isect) * AbsDot wi (si_n isect))%Q in
  (CorrectShadingNormal isect wo wi mode
   == if (match mode with Importance => true | Radiance => false end)
         && Qeq_bool denom 0
      then 0 else 1)%Q.
Proof.
  intros E denom. unfold CorrectShadingNormal. rewrite E. fold denom.
  destruct mode; cbn [andb]; [reflexivity|].
  destruct (Qeq_bool denom 0) eqn:D; [reflexivity|].
  apply Qeq_bool_false_iff in D. field. exact D.
Qed.

End ShadingFacts.

(** ** The vertices a walk records *)

Section RecordedFacts.
Context {T : Types} {W : World}.

(** A vertex the walk may record: its throughput is not black, and it is
    a surface or a medium vertex, or the light vertex that ends a camera
    walk whose ray has escaped. *)
Ltac created_facts path w :=
  repeat match goal with
    | H : with_sampler _ ?s = Some (_, ?s') |- _ =>
        let E := fresh "E" in
        pose proof (with_sampler_array _ _ _ _ path.1 H) as E; clear H
    | H : store (_, path.2 + w_bounces w) ?v ?s = Some (_, ?s') |- _ =>
        let E := fresh "E" in let N := fresh "N" in
        pose proof (lookup_store_same _ _ _ _ _ H) as E;
        pose proof (store_in_bounds _ _ _ _ _ H) as N;
        clear H
    | H : store (_, path.2 + w_bounces w - 1) ?v ?s = Some (_, ?s') |- _ =>
        let E := fresh "E" in
        pose proof (lookup_store_other _ _ _ _ _ (path.2 + w_bounces w) H) as E;
        clear H
    end;
  cbn [fst snd] in *.

Lemma RandomWalk_iter_created (scene : Scene) (maxDepth : Z)
    (mode : TransportMode) (path : VertexPtr) (w : WalkState) (st : St)
    (flow : Flow) (w' : WalkState) (st' : St) :
  RandomWalk_iter scene maxDepth mode path w st = Some ((flow, w'), st') ->
  w_bounces w' = w_bounces w + 1 ->
  exists v,
    array_of path.1 st' !! Z.to_nat (path.2 + w_bounces w) = Some v
    /\ Spec.IsBlack (beta v) = false
    /\ (type v = VertexType.Surface \/ type v = VertexType.Medium
        \/ (type v = VertexType.Light /\ mode = Radiance /\ flow = Break)).
Proof.
  intros H Hb. unfold RandomWalk_iter, update_prev_pdfRev in H. cbv zeta in H.
  invert_run; cbn [w_bounces] in Hb; try lia.
  all: created_facts path w.
  all: repeat match goal with
         | E : array_of _ ?s' = array_of _ ?s |- _ =>
             rewrite E in *; clear E
         | E : 0 <= ?k -> ?k <> _ -> array_of _ ?s' !! _ = array_of _ ?s !! _
           |- _ =>
             specialize (E ltac:(lia) ltac:(lia)); rewrite E in *; clear E
         end.
  all: repeat match goal with
         | H1 : ?x = Some ?u, H2 : ?x = Some ?v |- _ =>
             rewrite H1 in H2; injection H2 as ?; subst
         end.
  all: eexists; (split; [eassumption|]); cbn; (split; [assumption|]); auto.
Qed.

Lemma RandomWalk_iter_one (scene : Scene) (maxDepth : Z)
    (mode : TransportMode) (path : VertexPtr) (w : WalkState) (st : St)
    (flow : Flow) (w' : WalkState) (st' : St) :
  RandomWalk_iter scene maxDepth mode path w st = Some ((flow, w'), st') ->
  w_bounces w' = w_bounces w \/ w_bounces w' = w_bounces w + 1.
Proof.
  intros H. unfold RandomWalk_iter, update_prev_pdfRev in H. cbv zeta in H.
  invert_run; cbn [w_bounces]; lia.
Qed.

(** An iteration keeps the type and the throughput of the vertices
    recorded before it. *)
Lemma RandomWalk_iter_kept (scene : Scene) (maxDepth : Z)
    (mode : TransportMode) (path : VertexPtr) (w : WalkState) (st : St)
    (flow : Flow) (w' : WalkState) (st' : St) (i : Z) (e : Vertex) :
  1 <= path.2 ->
  0 <= w_bounces w < maxDepth ->
  RandomWalk_iter scene maxDepth mode path w st = Some ((flow, w'), st') ->
  0 <= i < w_bounces w ->
  array_of path.1 st !! Z.to_nat (path.2 + i) = Some e ->
  exists e',
    array_of path.1 st' !! Z.to_nat (path.2 + i) = Some e'
    /\ type e' = type e /\ beta e' = beta e.
Proof.
  intros Hp Hb H Hi He.
  destruct (Z.eq_dec i (w_bounces w - 1)) as [E|E].
  - subst i.
    replace (path.2 + (w_bounces w - 1)) with (path.2 + w_bounces w - 1) in *
      by lia.
    assert (H0 : 0 <= path.2 + w_bounces w - 1) by lia.
    destruct (RandomWalk_iter_prev _ _ _ _ _ _ _ _ _ e H0 He H) as [r Hr].
    exists (set_pdfRev r e). split; [exact Hr|]. split; reflexivity.
  - destruct (RandomWalk_iter_post _ _ _ _ _ _ _ _ _ Hb H) as [F _].
    destruct F as (_ & _ & Hk & _).
    exists e. split; [|split; reflexivity].
    rewrite Hk; [exact He|]. lia.
Qed.

Lemma RandomWalk_loop_records (scene : Scene) (maxDepth : Z)
    (mode : TransportMode) (path : VertexPtr) (fuel : nat) :
  1 <= path.2 ->
  forall (w : WalkState) (st : St) (n : Z) (st' : St),
    0 <= w_bounces w < maxDepth ->
    (forall i, 0 <= i < w_bounces w ->
       exists v,
         array_of path.1 st !! Z.to_nat (path.2 + i) = Some v
         /\ scattering_vertex v) ->
    RandomWalk_loop fuel scene maxDepth mode path w st = Some (Some n, st') ->
    forall i, 0 <= i < n ->
      exists v,
        array_of path.1 st' !! Z.to_nat (path.2 + i) = Some v
        /\ (scattering_vertex v
            \/ (escaped_vertex v /\ mode = Radiance /\ i = n - 1)).
Proof.
  intros Hp. induction fuel as [|fuel IH]; intros w st n st' Hb Inv H.
  - discriminate.
  - cbn [RandomWalk_loop] in H.
    apply bind_Some in H as ([flow w1] & st1 & Hi & H).
    destruct (RandomWalk_iter_post _ _ _ _ _ _ _ _ _ Hb Hi) as [_ Hf].
    pose proof (RandomWalk_iter_one _ _ _ _ _ _ _ _ _ Hi) as H1.
    (* the vertices recorded so far, after the iteration *)
    assert (Old : forall i, 0 <= i < w_bounces w ->
              exists v,
                array_of path.1 st1 !! Z.to_nat (path.2 + i) = Some v
                /\ scattering_vertex v).
    { intros i Hi'. destruct (Inv i Hi') as (v & Hv & Hbl & Hty).
      destruct (RandomWalk_iter_kept _ _ _ _ _ _ _ _ _ i v Hp Hb Hi Hi' Hv)
        as (v' & Hv' & Et & Eb).
      exists v'. split; [exact Hv'|]. split; [rewrite Eb; exact Hbl|].
      rewrite Et. exact Hty. }
    (* the vertex the iteration has recorded, if any *)
    assert (New : w_bounces w1 = w_bounces w + 1 ->
              exists v,
                array_of path.1 st1 !! Z.to_nat (path.2 + w_bounces w) = Some v
                /\ (scattering_vertex v
                    \/ (escaped_vertex v /\ mode = Radiance /\ flow = Break))).
    { intros E. destruct (RandomWalk_iter_created _ _ _ _ _ _ _ _ _ Hi E)
        as (v & Hv & Hbl & Hty).
      exists v. split; [exact Hv|]. unfold scattering_vertex, escaped_vertex.
      destruct Hty as [Hs | [Hm | (Hl & Hr & Hf')]]; auto 6. }
    destruct flow as [| |specular].
    + unfold ret in H. injection H as <- <-. intros i Hi'.
      destruct (Z_lt_le_dec i (w_bounces w)) as [Hlt|Hge].
      * destruct (Old i ltac:(lia)) as (v & Hv & Hs). eauto.
      * assert (E : w_bounces w1 = w_bounces w + 1) by lia.
        assert (i = w_bounces w) by lia. subst i.
        destruct (New E) as (v & Hv & [Hs | (He & Hr & _)]).
        -- eauto.
        -- exists v. split; [exact Hv|]. right. repeat split; try assumption;
             try apply He. lia.
    + apply (IH w1 st1 n st'); [lia | | exact H].
      intros i Hi'. apply Old. lia.
    + apply (IH w1 st1 n st'); [lia | | exact H].
      intros i Hi'. destruct Hf as [E _].
      destruct (Z_lt_le_dec i (w_bounces w)) as [Hlt|Hge].
      * apply Old. lia.
      * assert (i = w_bounces w) by lia. subst i.
        destruct (New E) as (v & Hv & [Hs | (_ & _ & Hbr)]);
          [eauto | discriminate Hbr].
Qed.

(** The vertices [RandomWalk] leaves in [path[0] .. path[n-1]] all carry
    a throughput that is not black; they are surface or medium vertices,
    except that the last one may be the light vertex recording the escaped
    ray of a camera walk.  No light vertex is recorded under importance
    transport, and none before the last position. *)
Theorem RandomWalk_records (fuel : nat) (scene : Scene) (ray : RayDifferential)
    (b : Spectrum) (pdf : Float) (maxDepth : Z) (mode : TransportMode)
    (path : VertexPtr) (st : St) (n : Z) (st' : St) :
  0 <= maxDepth ->
  1 <= path.2 ->
  RandomWalk fuel scene ray b pdf maxDepth mode path st = Some (Some n, st') ->
  forall i, 0 <= i < n ->
    exists v,
      array_of path.1 st' !! Z.to_nat (path.2 + i) = Some v
      /\ (scattering_vertex v
          \/ (escaped_vertex v /\ mode = Radiance /\ i = n - 1)).
Proof.
  intros H0 Hp H. unfold RandomWalk in H.
  destruct (Z.eqb_spec maxDepth 0) as [E|E].
  - unfold ret in H. injection H as <- <-. intros i Hi. lia.
  - eapply RandomWalk_loop_records; [exact Hp | | | exact H].
    + cbn. lia.
    + cbn [w_bounces]. intros i Hi. lia.
Qed.

End RecordedFacts.

(** ** The shape of a generated subpath *)

Section SubpathShape.
Context {T : Types} {W : World}.

(** What a caller of [RandomWalk] that has put a vertex in front of the
    buffer finds afterwards. *)
Lemma RandomWalk_facts (fuel : nat) (scene : Scene) (ray : RayDifferential)
    (b : Spectrum) (pdf : Float) (maxDepth : Z) (mode : TransportMode)
    (path : VertexPtr) (st : St) (n : Z) (st' : St) (e : Vertex) :
  0 <= maxDepth ->
  1 <= path.2 ->
  array_of path.1 st !! Z.to_nat (path.2 - 1) = Some e ->
  RandomWalk fuel scene ray b pdf maxDepth mode path st = Some (Some n, st') ->
  (0 <= n <= maxDepth /\ frame path.1 (path.2 - 1) (path.2 + n) st st')
  /\ (exists r,
         array_of path.1 st' !! Z.to_nat (path.2 - 1) = Some (set_pdfRev r e))
  /\ (forall i, 0 <= i < n ->
        exists v,
          array_of path.1 st' !! Z.to_nat (path.2 + i) = Some v
          /\ (scattering_vertex v
              \/ (escaped_vertex v /\ mode = Radiance /\ i = n - 1))).
Proof.
  intros H0 Hp He H. split; [eapply RandomWalk_post; eassumption|].
  unfold RandomWalk in H. destruct (Z.eqb_spec maxDepth 0) as [E|E].
  - unfold ret in H. injection H as <- <-. split.
    + exists (pdfRev e). rewrite set_pdfRev_same. exact He.
    + intros i Hi. lia.
  - split.
    + eapply RandomWalk_loop_prev; [exact Hp | | exact He | exact H].
      cbn. lia.
    + eapply RandomWalk_loop_records; [exact Hp | | | exact H].
      * cbn. lia.
      * cbn [w_bounces]. intros i Hi. lia.
Qed.

Lemma frame_lookup (a : Array) (lo hi : Z) (st st' : St) (k : Z) :
  frame a lo hi st st' -> 0 <= k -> k < lo \/ hi <= k ->
  array_of a st' !! Z.to_nat k = array_of a st !! Z.to_nat k.
Proof. intros (_ & _ & Hk & _) H0 Hr. apply Hk. lia. Qed.

(** A camera subpath generated for a depth of at least 1 has between 1
    and [maxDepth] vertices, stored in [path[0] .. path[n-1]] with nothing
    else changed.  Its first vertex is the camera vertex of the sampled
    ray, in which the walk has filled in the reverse density; the others
    are surface or medium vertices with a throughput that is not black,
    except that the last one may be the light vertex of an escaped ray. *)
Theorem GenerateCameraSubpath_shape (fuel : nat) (scene : Scene) (maxDepth : Z)
    (camera : Camera) (pFilm : Point2f) (path : VertexPtr)
    (st : St) (n : Z) (st' : St) :
  1 <= maxDepth ->
  GenerateCameraSubpath fuel scene maxDepth camera pFilm path st
    = Some (Some n, st') ->
  1 <= n <= maxDepth
  /\ frame path.1 path.2 (path.2 + n) st st'
  /\ (exists b ray r,
         array_of path.1 st' !! Z.to_nat path.2
         = Some (set_pdfRev r (CreateCamera camera ray b)))
  /\ (forall i, 1 <= i < n ->
        exists v,
          array_of path.1 st' !! Z.to_nat (path.2 + i) = Some v
          /\ (scattering_vertex v \/ (escaped_vertex v /\ i = n - 1))).
Proof.
  intros H1 H.
  assert (H0 : 0 <= maxDepth) by lia.
  destruct (GenerateCameraSubpath_fits _ _ _ _ _ _ _ _ _ H0 H) as [Hn F].
  unfold GenerateCameraSubpath in H.
  destruct (Z.eqb_spec maxDepth 0) as [E|_]; [lia|].
  apply bind_Some in H as (time & st1 & _ & H).
  apply bind_Some in H as (pLens & st2 & _ & H).
  destruct (GenerateRayDifferential camera pFilm time pLens) as [b ray].
  apply bind_Some in H as (st2' & st3 & H3 & H).
  apply readonly_get_state in H3 as ->.
  apply bind_Some in H as (u & st4 & H4 & H).
  destruct (Pdf_We camera _) as [pdfPos pdfDir].
  apply bind_Some in H as (k & st5 & H5 & H).
  unfold ret in H. injection H as Hk <-.
  destruct k as [k|]; [|discriminate]. cbn in Hk. injection Hk as <-.
  pose proof (store_in_bounds _ _ _ _ _ H4) as Hp0.
  pose proof (lookup_store_same _ _ _ _ _ H4) as Hv0.
  assert (He : array_of (path.1, path.2 + 1).1 st4
                 !! Z.to_nat ((path.1, path.2 + 1).2 - 1)
               = Some (CreateCamera camera
                         (ScaleDifferentials ray
                            (1 / fsqrt (samplesPerPixel (sampler st2'))))
                         b)).
  { cbn [fst snd]. replace (path.2 + 1 - 1) with path.2 by lia. exact Hv0. }
  assert (Hm : 0 <= maxDepth - 1) by lia.
  assert (Hp1 : 1 <= (path.1, path.2 + 1).2) by (cbn; lia).
  destruct (RandomWalk_facts _ _ _ _ _ _ _ _ _ _ _ _ Hm Hp1 He H5)
    as ((Hk & _) & (r & Hr) & Hrec).
  cbn [fst snd] in *.
  split; [lia|]. split; [exact F|]. split.
  - eexists b, _, r. replace (path.2 + 1 - 1) with path.2 in Hr by lia.
    exact Hr.
  - intros i Hi.
    assert (Hi1 : 0 <= i - 1 < k) by lia.
    destruct (Hrec (i - 1) Hi1) as (v & Hv & Hs).
    replace (path.2 + 1 + (i - 1)) with (path.2 + i) in Hv by lia.
    exists v. split; [exact Hv|].
    destruct Hs as [Hs | (Hev & _ & Hi')]; [left; exact Hs|].
    right. split; [exact Hev | lia].
Qed.

Lemma set_pdfFwd_scattering (p : Float) (v : Vertex) :
  scattering_vertex v -> scattering_vertex (set_pdfFwd p v).
Proof. intros H. exact H. Qed.

(** A light subpath has at most [maxDepth] vertices, stored in
    [path[0] .. path[n-1]] with nothing else changed; it is empty when the
    sampled emission is unusable.  Its first vertex is the light vertex of
    the sampled ray, with an emission that is not black, in which the walk
    has filled in the reverse density and, for an infinite light, the
    forward density is replaced by [InfiniteLightDensity]; all others are
    surface or medium vertices with a throughput that is not black: a
    light subpath never ends in an escaped-ray vertex. *)
Theorem GenerateLightSubpath_shape (fuel : nat) (scene : Scene) (maxDepth : Z)
    (time : Float) (lightDistr : Distribution1D) (lightToIndex : LightToIndex)
    (path : VertexPtr) (st : St) (n : Z) (st' : St) :
  0 <= maxDepth ->
  GenerateLightSubpath fuel scene maxDepth time lightDistr lightToIndex path st
    = Some (Some n, st') ->
  0 <= n <= maxDepth
  /\ frame path.1 path.2 (path.2 + n) st st'
  /\ (1 <= n ->
      exists light ray nLight Le pdf r,
        Spec.IsBlack Le = false
        /\ let v := set_pdfRev r (CreateLight light ray nLight Le pdf) in
           array_of path.1 st' !! Z.to_nat path.2
           = Some (if IsInfiniteLight v
                   then set_pdfFwd
                          (InfiniteLightDensity scene lightDistr lightToIndex
                             (ray_d ray))
                          v
                   else v))
  /\ (forall i, 1 <= i < n ->
        exists v,
          array_of path.1 st' !! Z.to_nat (path.2 + i) = Some v
          /\ scattering_vertex v).
Proof.
  intros H0 H.
  destruct (GenerateLightSubpath_fits _ _ _ _ _ _ _ _ _ _ H0 H) as [Hn F].
  split; [exact Hn|]. split; [exact F|].
  unfold GenerateLightSubpath in H.
  destruct (Z.eqb_spec maxDepth 0) as [E|E].
  { unfold ret in H. injection H as <- <-. split; intros; lia. }
  apply bind_Some in H as (u & st1 & _ & H).
  destruct (SampleDiscrete lightDistr u) as [lightNum lightPdf].
  apply bind_Some in H as (light & st1' & _ & H).
  apply bind_Some in H as (u1 & st2 & _ & H).
  apply bind_Some in H as (u2 & st3 & _ & H).
  cbv zeta in H.
  destruct (_ || _) eqn:Hfail.
  { unfold ret in H. injection H as <- <-. split; intros; lia. }
  apply orb_false_iff in Hfail as [_ Hblack].
  apply bind_Some in H as (u0 & st4 & H4 & H).
  apply bind_Some in H as (k & st5 & H5 & H).
  destruct k as [k|]; [|discriminate].
  pose proof (store_in_bounds _ _ _ _ _ H4) as Hp0.
  pose proof (lookup_store_same _ _ _ _ _ H4) as Hv0.
  assert (He : array_of (path.1, path.2 + 1).1 st4
                 !! Z.to_nat ((path.1, path.2 + 1).2 - 1)
               = Some (CreateLight light (le_ray (Sample_Le light u1 u2 time))
                         (le_nLight (Sample_Le light u1 u2 time))
                         (Le_L (Sample_Le light u1 u2 time))
                         (le_pdfPos (Sample_Le light u1 u2 time) * lightPdf)%Q)).
  { cbn [fst snd]. replace (path.2 + 1 - 1) with path.2 by lia. exact Hv0. }
  assert (Hm : 0 <= maxDepth - 1) by lia.
  assert (Hp1 : 1 <= (path.1, path.2 + 1).2) by (cbn; lia).
  destruct (RandomWalk_facts _ _ _ _ _ _ _ _ _ _ _ _ Hm Hp1 He H5)
    as ((Hk & _) & (r & Hr) & Hrec).
  cbn [fst snd] in *.
  replace (path.2 + 1 - 1) with path.2 in Hr by lia.
  apply bind_Some in H as (v0 & st5' & H6 & H).
  apply load_Some in H6 as (-> & _ & Hl0).
  rewrite Hr in Hl0. injection Hl0 as <-.
  apply bind_Some in H as (u3 & st6 & H7 & H).
  unfold ret in H. injection H as <- <-.
  (* the interior vertices before the correction for infinite lights *)
  assert (Hrec5 : forall i, 1 <= i < k + 1 ->
            exists v,
              array_of path.1 st5 !! Z.to_nat (path.2 + i) = Some v
              /\ scattering_vertex v).
  { intros i Hi. assert (Hi1 : 0 <= i - 1 < k) by lia.
    destruct (Hrec (i - 1) Hi1) as (v & Hv & Hs).
    replace (path.2 + 1 + (i - 1)) with (path.2 + i) in Hv by lia.
    exists v. split; [exact Hv|].
    destruct Hs as [Hs | (_ & Hmode & _)]; [exact Hs | discriminate Hmode]. }
  destruct (IsInfiniteLight _) eqn:Hinf.
  - (* an infinite light: the densities of path[1] and path[0] are set *)
    apply bind_Some in H7 as (u4 & st7 & H8 & H7).
    apply bind_Some in H7 as (v0' & st7' & H9 & H7).
    apply load_Some in H9 as (-> & _ & Hl0').
    pose proof (lookup_store_same _ _ _ _ _ H7) as Hfin0.
    assert (Hst7 :
              array_of path.1 st7 !! Z.to_nat path.2
              = array_of path.1 st5 !! Z.to_nat path.2
              /\ forall i, 1 <= i < k + 1 ->
                   exists v,
                     array_of path.1 st7 !! Z.to_nat (path.2 + i) = Some v
                     /\ scattering_vertex v).
    { destruct (0 <? k) eqn:Hk0.
      - apply bind_Some in H8 as (v1 & st5' & H10 & H8).
        apply load_Some in H10 as (-> & _ & Hl1).
        pose proof (lookup_store_same _ _ _ _ _ H8) as Hs1.
        pose proof (lookup_store_other _ _ _ _ _ path.2 H8 Hp0) as Ho0.
        cbn [fst snd] in *. split; [apply Ho0; lia|].
        intros i Hi. destruct (Z.eq_dec i 1) as [->|Hi1].
        + destruct (Hrec5 1 Hi) as (v & Hv & Hs).
          rewrite Hv in Hl1. injection Hl1 as <-.
          eexists. split; [exact Hs1|].
          destruct (IsOnSurface _); repeat apply set_pdfFwd_scattering; exact Hs.
        + pose proof (lookup_store_other _ _ _ _ _ (path.2 + i) H8) as Ho.
          cbn [fst snd] in Ho. rewrite Ho by lia. apply Hrec5. exact Hi.
      - unfold ret in H8. injection H8 as _ <-. split; [reflexivity|].
        exact Hrec5. }
    destruct Hst7 as [Hst70 Hst7]. split.
    + intros _. eexists light, _, _, _, _, r. split; [exact Hblack|].
      cbv zeta. rewrite Hinf.
      rewrite Hst70, Hr in Hl0'. injection Hl0' as <-. exact Hfin0.
    + intros i Hi.
      pose proof (lookup_store_other _ _ _ _ _ (path.2 + i) H7) as Ho.
      cbn [fst snd] in Ho. rewrite Ho by lia. apply Hst7. exact Hi.
  - unfold ret in H7. injection H7 as _ <-. split.
    + intros _. eexists light, _, _, _, _, r. split; [exact Hblack|].
      cbv zeta. rewrite Hinf. exact Hr.
    + exact Hrec5.
Qed.

End SubpathShape.


(** ** Merging the two frame buffers *)

Section MergeFacts.
Context {T : Types}.
Variable IsMasked : SAMISRectifier -> Point2i -> bool.

Lemma vset_Some (v : list Float) (i : nat) (a : Float) :
  (i < length v)%nat -> vset v i a = Some (<[i := a]> v).
Proof.
  intros H. unfold vset. destruct (Nat.ltb_spec i (length v)); [reflexivity|lia].
Qed.

(** The value an assignment of the merge loop stores. *)
Lemma merge_channel_Some (m : bool) (wP wR : Float) (rectified : list Float)
    (i : nat) (fb0 : list Float) (p r : Float) :
  fb0 !! i = Some p -> rectified !! i = Some r ->
  merge_channel m wP wR rectified i fb0
  = Some (<[i := if m then r else (p * wP + r * wR)%Q]> fb0).
Proof.
  intros Hp Hr. unfold merge_channel, vget.
  pose proof (lookup_lt_Some _ _ _ Hp) as Hlt.
  destruct m; rewrite ?Hp, Hr; cbn; apply vset_Some; exact Hlt.
Qed.

Lemma weights_sum (I : BDPTIntegrator) (samplesPerPixel : Z) :
  samplesPerPixel <> 0 ->
  (weightPrepass I samplesPerPixel + weightRectified I samplesPerPixel == 1)%Q.
Proof.
  intros Hn. unfold weightPrepass, weightRectified, invSampleCount.
  unfold Z.sub. rewrite inject_Z_plus, inject_Z_opp. field.
  intros E. apply Hn. apply (inject_Z_injective samplesPerPixel 0). exact E.
Qed.

Lemma merge_buffers_from (I : BDPTIntegrator)
    (rectifier : option SAMISRectifier) (samplesPerPixel : Z)
    (rectified : list Float) (pixels : list Point2i) :
  (enableRectification I = true -> is_Some rectifier) ->
  forall (offset : nat) (fb0 : list Float),
    (offset + 3 * length pixels <= length fb0)%nat ->
    (offset + 3 * length pixels <= length rectified)%nat ->
    exists out,
      merge_buffers IsMasked I rectifier samplesPerPixel rectified pixels
        offset fb0
      = Some out
      /\ length out = length fb0
      /\ (forall i, (i < offset \/ offset + 3 * length pixels <= i)%nat ->
            out !! i = fb0 !! i)
      /\ (forall (j : nat) (px : Point2i) (c : nat),
            pixels !! j = Some px -> (c < 3)%nat ->
            exists p r m,
              fb0 !! (offset + 3 * j + c)%nat = Some p
              /\ rectified !! (offset + 3 * j + c)%nat = Some r
              /\ masked IsMasked I rectifier px = Some m
              /\ out !! (offset + 3 * j + c)%nat
                 = Some (if m then r
                         else (p * weightPrepass I samplesPerPixel
                               + r * weightRectified I samplesPerPixel)%Q)).
Proof.
  intros Hrect. induction pixels as [|px pixels IH]; intros offset fb0 Hf Hr.
  - exists fb0. split; [reflexivity|]. split; [reflexivity|].
    split; [reflexivity|]. intros j px c Hj. discriminate Hj.
  - cbn [length] in Hf, Hr. cbn [merge_buffers].
    assert (Hm : exists m, masked IsMasked I rectifier px = Some m).
    { unfold masked. destruct (enableRectification I); [|eauto].
      destruct (Hrect eq_refl) as [r0 ->]. eauto. }
    destruct Hm as [m Hm]. rewrite Hm. cbn [mbind option_bind].
    destruct (lookup_lt_is_Some_2 fb0 (offset + 0) ltac:(lia)) as [p0 Hp0].
    destruct (lookup_lt_is_Some_2 fb0 (offset + 1) ltac:(lia)) as [p1 Hp1].
    destruct (lookup_lt_is_Some_2 fb0 (offset + 2) ltac:(lia)) as [p2 Hp2].
    destruct (lookup_lt_is_Some_2 rectified (offset + 0) ltac:(lia)) as [r0 Hr0].
    destruct (lookup_lt_is_Some_2 rectified (offset + 1) ltac:(lia)) as [r1 Hr1].
    destruct (lookup_lt_is_Some_2 rectified (offset + 2) ltac:(lia)) as [r2 Hr2].
    set (wP := weightPrepass I samplesPerPixel) in *.
    set (wR := weightRectified I samplesPerPixel) in *.
    set (v0 := if m then r0 else (p0 * wP + r0 * wR)%Q).
    set (v1 := if m then r1 else (p1 * wP + r1 * wR)%Q).
    set (v2 := if m then r2 else (p2 * wP + r2 * wR)%Q).
    rewrite (merge_channel_Some m wP wR rectified _ fb0 p0 r0 Hp0 Hr0).
    cbn [mbind option_bind]. fold v0.
    rewrite (merge_channel_Some m wP wR rectified _ _ p1 r1); [|
      rewrite list_lookup_insert_ne by lia; exact Hp1 | exact Hr1].
    cbn [mbind option_bind]. fold v1.
    rewrite (merge_channel_Some m wP wR rectified _ _ p2 r2); [|
      rewrite !list_lookup_insert_ne by lia; exact Hp2 | exact Hr2].
    cbn [mbind option_bind]. fold v2.
    set (fb3 := <[(offset + 2)%nat := v2]>
                  (<[(offset + 1)%nat := v1]> (<[(offset + 0)%nat := v0]> fb0))).
    assert (Hlen : length fb3 = length fb0)
      by (unfold fb3; rewrite !length_insert; reflexivity).
    destruct (IH (offset + 3)%nat fb3 ltac:(lia) ltac:(lia))
      as (out & Hrun & Hl & Hout & Hin).
    exists out. split; [exact Hrun|]. split; [congruence|]. split.
    + intros i Hi. cbn [length] in Hi. rewrite Hout by lia. unfold fb3.
      rewrite !list_lookup_insert_ne by lia. reflexivity.
    + intros j px' c Hj Hc. destruct j as [|j].
      * cbn in Hj. injection Hj as <-.
        replace (offset + 3 * 0 + c)%nat with (offset + c)%nat by lia.
        rewrite Hout by lia. unfold fb3.
        destruct c as [|[|[|c]]]; [| | |lia].
        -- exists p0, r0, m. repeat split; try assumption.
           do 2 rewrite list_lookup_insert_ne by lia.
           apply list_lookup_insert_eq. exact (lookup_lt_Some _ _ _ Hp0).
        -- exists p1, r1, m. repeat split; try assumption.
           rewrite list_lookup_insert_ne by lia.
           apply list_lookup_insert_eq. rewrite length_insert.
           exact (lookup_lt_Some _ _ _ Hp1).
        -- exists p2, r2, m. repeat split; try assumption.
           apply list_lookup_insert_eq. rewrite !length_insert.
           exact (lookup_lt_Some _ _ _ Hp2).
      * cbn in Hj. destruct (Hin j px' c Hj Hc) as (p & r & m' & Hp & Hr' & Hm' & Ho).
        replace (offset + 3 * S j + c)%nat with (offset + 3 + 3 * j + c)%nat
          by lia.
        exists p, r, m'. repeat split; try assumption.
        unfold fb3 in Hp. rewrite !list_lookup_insert_ne in Hp by lia.
        exact Hp.
Qed.

(** Although the merge loop writes into the buffer it reads the prepass
    from, every channel of every pixel is computed from the prepass value
    of that channel before the merge: with both frame buffers holding
    three values per pixel, and a rectifier present when rectification is
    enabled, the loop is defined, keeps the length of the buffer, and
    leaves in channel [c] of pixel [j] the main-pass value when the pixel
    is masked and [prepass * weightPrepass + mainpass * weightRectified]
    otherwise.  The two weights sum to 1 (in exact arithmetic) whenever
    the sampler takes at least one sample per pixel. *)
Theorem merge_buffers_pixelwise (I : BDPTIntegrator)
    (rectifier : option SAMISRectifier) (samplesPerPixel : Z)
    (rectified : list Float) (pixels : list Point2i) (fb0 : list Float) :
  length fb0 = (3 * length pixels)%nat ->
  length rectified = (3 * length pixels)%nat ->
  (enableRectification I = true -> is_Some rectifier) ->
  exists out,
    merge_buffers IsMasked I rectifier samplesPerPixel rectified pixels O fb0
    = Some out
    /\ length out = length fb0
    /\ (forall (j : nat) (px : Point2i) (c : nat),
          pixels !! j = Some px -> (c < 3)%nat ->
          exists p r m,
            fb0 !! (3 * j + c)%nat = Some p
            /\ rectified !! (3 * j + c)%nat = Some r
            /\ masked IsMasked I rectifier px = Some m
            /\ out !! (3 * j + c)%nat
               = Some (if m then r
                       else (p * weightPrepass I samplesPerPixel
                             + r * weightRectified I samplesPerPixel)%Q))
    /\ (samplesPerPixel <> 0 ->
        (weightPrepass I samplesPerPixel + weightRectified I samplesPerPixel
         == 1)%Q).
Proof.
  intros Hf Hr Hrect.
  destruct (merge_buffers_from I rectifier samplesPerPixel rectified pixels
              Hrect O fb0 ltac:(lia) ltac:(lia))
    as (out & Hrun & Hl & _ & Hin).
  exists out. split; [exact Hrun|]. split; [exact Hl|]. split.
  - intros j px c Hj Hc. apply (Hin j px c Hj Hc).
  - apply weights_sum.
Qed.

End MergeFacts.

(** ** The samples of a pixel *)

Section SampleLoop.
Context {T : Types} {W : World}.
Variable StartNextSample : Sampler -> bool * Sampler.

Lemma bind_assoc {A B C} (c : M A) (k : A -> M B) (h : B -> M C) (st : St) :
  bind (bind c k) h st = bind c (fun a => bind (k a) h) st.
Proof. unfold bind. destruct (c st) as [[a st1]|]; reflexivity. Qed.

Lemma with_sampler_run {A} (q : Sampler -> A * Sampler) (st : St) :
  exists st1,
    with_sampler q st = Some ((q (sampler st)).1, st1).
Proof.
  unfold with_sampler. destruct (q (sampler st)) as [a smp]. eauto.
Qed.

Lemma sample_loop_unroll (body : M unit) :
  (forall smp, (StartNextSample smp).1 = true) ->
  forall (n : nat) (k : Z) (st : St),
    sample_loop StartNextSample n body st
    = (let* _ := body in
       foldM (fun (_ : Z) (_ : unit) =>
                let* _ := with_sampler StartNextSample in body)
         (seqZ k (Z.of_nat n)) tt) st.
Proof.
  intros Hmore. induction n as [|n IH]; intros k st.
  - reflexivity.
  - replace (Z.of_nat (S n)) with (Z.succ (Z.of_nat n)) by lia.
    rewrite seqZ_cons by lia. rewrite Z.pred_succ.
    cbn [sample_loop foldM]. apply bind_ext. intros [] st1.
    rewrite bind_assoc.
    destruct (with_sampler_run StartNextSample st1) as [st2 E].
    rewrite Hmore in E.
    rewrite !(bind_run _ _ _ _ _ E). rewrite (IH (Z.succ k)).
    apply bind_ext. intros [] st3. reflexivity.
Qed.

(** The loop of a pixel runs its body once before it looks at the
    sample count.  With a count of at most 1, which includes the count 0
    of a main pass whose samples were all spent in the prepass, it takes
    exactly one sample and never calls [StartNextSample]; with a sampler
    that always has a next sample it takes [max 1 sampleCount] samples,
    calling [StartNextSample] between any two. *)
Theorem pixel_samples_count (sampleCount : Z) (body : M unit) :
  (sampleCount <= 1 ->
   forall st,
     pixel_samples StartNextSample sampleCount body st
     = (let* _ := body in ret tt) st)
  /\ ((forall smp, (StartNextSample smp).1 = true) ->
      forall st,
        pixel_samples StartNextSample sampleCount body st
        = (let* _ := body in
           foldM (fun (_ : Z) (_ : unit) =>
                    let* _ := with_sampler StartNextSample in body)
             (seqZ 2 (Z.max 1 sampleCount - 1)) tt) st).
Proof.
  split.
  - intros H st. unfold pixel_samples.
    replace (Z.to_nat (sampleCount - 1)) with O by lia. reflexivity.
  - intros Hmore st. unfold pixel_samples.
    rewrite (sample_loop_unroll body Hmore _ 2).
    replace (Z.of_nat (Z.to_nat (sampleCount - 1)))
      with (Z.max 1 sampleCount - 1) by lia.
    reflexivity.
Qed.

End SampleLoop.

(** ** A pixel sample stays within its two buffers *)

Section SampleSafe.
Context {T : Types} {W : World}.

(** The loop of a walk never leaves the buffer, whatever the fuel. *)
Lemma RandomWalk_loop_safe (scene : Scene) (maxDepth : Z)
    (mode : TransportMode) (path : VertexPtr) (n : nat * nat) (fuel : nat) :
  1 <= path.2 ->
  path.2 + maxDepth
  <= Z.of_nat (match path.1 with LightArr => n.1 | CameraArr => n.2 end) ->
  forall (w : WalkState) (st : St),
    shape st = n ->
    0 <= w_bounces w < maxDepth ->
    exists r st',
      RandomWalk_loop fuel scene maxDepth mode path w st = Some (r, st')
      /\ shape st' = n.
Proof.
  intros Hlo Hhi. induction fuel as [|fuel IH]; intros w st Hs Hb.
  - exists None, st. split; [reflexivity | exact Hs].
  - destruct (RandomWalk_iter_safe scene maxDepth mode path w n) with (st := st)
      as ([flow w1] & st1 & Hi & Hs1); try exact Hs.
    { unfold ptr_ok. cbn. lia. }
    { unfold ptr_ok. cbn. lia. }
    cbn [RandomWalk_loop]. rewrite (bind_run _ _ _ _ _ Hi).
    destruct (RandomWalk_iter_post _ _ _ _ _ _ _ _ _ Hb Hi) as [_ Hflow].
    destruct flow as [| |specular].
    + eexists _, _. split; [reflexivity | exact Hs1].
    + apply IH; [exact Hs1 | lia].
    + apply IH; [exact Hs1 | lia].
Qed.

Lemma RandomWalk_safe (fuel : nat) (scene : Scene) (ray : RayDifferential)
    (b : Spectrum) (pdf : Float) (maxDepth : Z) (mode : TransportMode)
    (path : VertexPtr) (n : nat * nat) :
  0 <= maxDepth ->
  1 <= path.2 ->
  path.2 + maxDepth
  <= Z.of_nat (match path.1 with LightArr => n.1 | CameraArr => n.2 end) ->
  safe n (RandomWalk fuel scene ray b pdf maxDepth mode path).
Proof.
  intros H0 Hlo Hhi st Hs. unfold RandomWalk.
  destruct (Z.eqb_spec maxDepth 0) as [E|E].
  - eexists _, st. split; [reflexivity | exact Hs].
  - apply (RandomWalk_loop_safe scene maxDepth mode path n fuel Hlo Hhi);
      [exact Hs | cbn; lia].
Qed.

Lemma GenerateCameraSubpath_safe (fuel : nat) (scene : Scene) (maxDepth : Z)
    (camera : Camera) (pFilm : Point2f) (path : VertexPtr) (n : nat * nat) :
  0 <= maxDepth ->
  0 <= path.2 ->
  path.2 + maxDepth
  <= Z.of_nat (match path.1 with LightArr => n.1 | CameraArr => n.2 end) ->
  safe n (GenerateCameraSubpath fuel scene maxDepth camera pFilm path).
Proof.
  intros H0 Hlo Hhi. unfold GenerateCameraSubpath.
  destruct (Z.eqb_spec maxDepth 0) as [E|E]; [apply safe_ret|].
  apply safe_bind; [apply safe_with_sampler|]. intros time.
  apply safe_bind; [apply safe_with_sampler|]. intros pLens.
  destruct (GenerateRayDifferential camera pFilm time pLens) as [b ray].
  apply safe_bind.
  { intros st Hs. exists st, st. split; [reflexivity | exact Hs]. }
  intros st0.
  apply safe_bind.
  { apply safe_store. unfold ptr_ok. destruct path as [[] i]; cbn in *; lia. }
  intros _. destruct (Pdf_We camera _) as [pdfPos pdfDir].
  apply safe_bind; [|intros r; apply safe_ret].
  apply RandomWalk_safe; cbn; lia.
Qed.

Lemma GenerateLightSubpath_safe (fuel : nat) (scene : Scene) (maxDepth : Z)
    (time : Float) (lightDistr : Distribution1D) (lightToIndex : LightToIndex)
    (path : VertexPtr) (n : nat * nat) :
  0 <= maxDepth ->
  0 <= path.2 ->
  path.2 + maxDepth
  <= Z.of_nat (match path.1 with LightArr => n.1 | CameraArr => n.2 end) ->
  (forall u : Float,
      0 <= (SampleDiscrete lightDistr u).1 < Z.of_nat (length (lights scene))) ->
  safe n
    (GenerateLightSubpath fuel scene maxDepth time lightDistr lightToIndex path).
Proof.
  intros H0 Hlo Hhi Hl. unfold GenerateLightSubpath.
  destruct (Z.eqb_spec maxDepth 0) as [E|E]; [apply safe_ret|].
  assert (P0 : ptr_ok n path).
  { unfold ptr_ok. destruct path as [[] i]; cbn in *; lia. }
  apply safe_bind; [apply safe_with_sampler|]. intros u.
  specialize (Hl u). destruct (SampleDiscrete lightDistr u) as [lightNum lightPdf].
  apply safe_bind; [apply safe_light; exact Hl|]. intros light.
  apply safe_bind; [apply safe_with_sampler|]. intros u1.
  apply safe_bind; [apply safe_with_sampler|]. intros u2.
  cbv zeta. destruct (_ || _); [apply safe_ret|].
  apply safe_bind; [apply safe_store; exact P0|]. intros _.
  (* the walk, with the bound on its result *)
  intros st Hs.
  destruct (RandomWalk_safe fuel scene (le_ray (Sample_Le light u1 u2 time))
              (Spec.div
                 (Spec.scale (Le_L (Sample_Le light u1 u2 time))
                    (AbsDot (ray_d (le_ray (Sample_Le light u1 u2 time)))
                       (le_nLight (Sample_Le light u1 u2 time))))
                 (lightPdf * le_pdfPos (Sample_Le light u1 u2 time)
                  * le_pdfDir (Sample_Le light u1 u2 time))%Q)
              (le_pdfDir (Sample_Le light u1 u2 time)) (maxDepth - 1)
              Importance (path.1, path.2 + 1) n)
    with (st := st) as (r & st1 & Hw & Hs1); try exact Hs; cbn [fst snd];
    try lia.
  rewrite (bind_run _ _ _ _ _ Hw).
  destruct r as [k|]; [|eexists _, _; split; [reflexivity | exact Hs1]].
  apply RandomWalk_post in Hw as [Hk _]; [|lia].
  assert (S : safe n
                (let* v0 := load path in
                 let* _ :=
                   (if IsInfiniteLight v0 then
                      let* _ :=
                        (if 0 <? k then
                           let p1 : VertexPtr := (path.1, path.2 + 1) in
                           let* v1 := load p1 in
                           let v1 := set_pdfFwd
                                       (le_pdfPos (Sample_Le light u1 u2 time))
                                       v1 in
                           let v1 :=
                             if IsOnSurface v1
                             then set_pdfFwd
                                    (pdfFwd v1
                                     * AbsDot
                                         (ray_d (le_ray (Sample_Le light u1 u2 time)))
                                         (Vertex_ng v1))%Q v1
                             else v1 in
                           store p1 v1
                         else ret tt) in
                      let* v0 := load path in
                      store path
                        (set_pdfFwd
                           (InfiniteLightDensity scene lightDistr lightToIndex
                              (ray_d (le_ray (Sample_Le light u1 u2 time))))
                           v0)
                    else ret tt) in
                 ret (Some (k + 1)))).
  { apply safe_bind; [apply safe_load; exact P0|]. intros v0.
    apply safe_bind; [|intros _; apply safe_ret].
    destruct (IsInfiniteLight v0); [|apply safe_ret].
    apply safe_bind.
    - destruct (Z.ltb_spec 0 k) as [Hk0|]; [|apply safe_ret].
      assert (P1 : ptr_ok n (path.1, path.2 + 1)).
      { unfold ptr_ok. destruct path as [[] i]; cbn in *; lia. }
      cbv zeta. apply safe_bind; [apply safe_load; exact P1|]. intros v1.
      apply safe_store. exact P1.
    - intros _. apply safe_bind; [apply safe_load; exact P0|]. intros v0'.
      apply safe_store. exact P0. }
  exact (S st1 Hs1).
Qed.

Lemma safe_for_loop {A} (n : nat * nat) (k : nat) (body : Z -> A -> M A) :
  forall (lo : Z) (a : A),
    (forall i a, lo <= i < lo + Z.of_nat k -> safe n (body i a)) ->
    safe n (for_loop k lo body a).
Proof.
  induction k as [|k IH]; intros lo a Hb; cbn [for_loop].
  - apply safe_ret.
  - apply safe_bind; [apply Hb; lia|]. intros a'.
    apply IH. intros i a0 Hi. apply Hb. lia.
Qed.

Lemma safe_AddSplat (n : nat * nat) (p : Point2f) (v : Spectrum) :
  safe n (AddSplat p v).
Proof. intros st Hs. eexists tt, _. split; [reflexivity | exact Hs]. Qed.

Lemma BufferIndex_bound (maxDepth s t : Z) :
  1 <= maxDepth -> 0 <= s -> 1 <= t -> 0 <= s + t - 2 <= maxDepth ->
  0 <= BufferIndex s t < nVarianceEstimators maxDepth.
Proof.
  intros Hm Hs Ht Hd. rewrite nVarianceEstimators_closed by lia.
  unfold BufferIndex. split; [lia|].
  assert (2 * maxDepth + 3 <= (maxDepth + 1) * (maxDepth + 4) / 2).
  { apply Z.div_le_lower_bound; [lia | nia]. }
  lia.
Qed.

Lemma execute_strategy_safe (n : nat * nat) (rp : RenderParams)
    (lightDistr : Distribution1D) (lightToIndex : LightToIndex)
    (pFilm : Point2f) (t s : Z) (L : Spectrum) :
  0 <= s <= Z.of_nat n.1 -> 1 <= t <= Z.of_nat n.2 ->
  skipped (rp_maxDepth rp) t s = false ->
  (forall u : Float,
      0 <= (SampleDiscrete lightDistr u).1
      < Z.of_nat (length (lights (rp_scene rp)))) ->
  (rp_estimateFactors rp = true -> is_Some (rp_rectifier rp)) ->
  (rp_estimateVariances rp = true -> 1 <= rp_maxDepth rp) ->
  safe n (execute_strategy rp lightDistr lightToIndex pFilm t s L).
Proof.
  intros Hs Ht Hsk Hl Hr Hv. apply skipped_false in Hsk as [Hd _].
  unfold execute_strategy. cbv zeta.
  apply safe_bind; [apply safe_ConnectBDPT; try assumption; lia|].
  intros [[Lpath pFilmNew] mw].
  apply safe_bind.
  { destruct (negb (t =? 1)); [apply safe_ret|].
    apply safe_bind; [apply safe_AddSplat | intros _; apply safe_ret]. }
  intros L1. apply safe_bind.
  { destruct (rp_estimateFactors rp); [|apply safe_ret].
    destruct (Hr eq_refl) as [r Er]. rewrite Er.
    intros st Hst. eexists tt, _. split; [reflexivity | exact Hst]. }
  intros _. apply safe_bind; [|intros _; apply safe_ret].
  destruct (rp_estimateVariances rp); [|apply safe_ret].
  pose proof (BufferIndex_bound (rp_maxDepth rp) s t (Hv eq_refl)
                ltac:(lia) ltac:(lia) Hd) as Hb.
  intros st Hst. unfold Variance_AddEstimate.
  destruct (Z.leb_spec 0 (BufferIndex s t)); [|lia].
  destruct (Z.ltb_spec (BufferIndex s t) (nVarianceEstimators (rp_maxDepth rp)));
    [|lia].
  eexists tt, _. split; [reflexivity | exact Hst].
Qed.

Lemma execute_strategies_safe (n : nat * nat) (rp : RenderParams)
    (lightDistr : Distribution1D) (lightToIndex : LightToIndex)
    (pFilm : Point2f) (nCamera nLight : Z) :
  nCamera <= Z.of_nat n.2 -> nLight <= Z.of_nat n.1 ->
  (forall u : Float,
      0 <= (SampleDiscrete lightDistr u).1
      < Z.of_nat (length (lights (rp_scene rp)))) ->
  (rp_estimateFactors rp = true -> is_Some (rp_rectifier rp)) ->
  (rp_estimateVariances rp = true -> 1 <= rp_maxDepth rp) ->
  safe n (execute_strategies rp lightDistr lightToIndex pFilm nCamera nLight).
Proof.
  intros Hc Hl Hd Hr Hv. unfold execute_strategies.
  apply safe_for_loop. intros t L Ht.
  apply safe_for_loop. intros s L1 Hs.
  destruct (skipped (rp_maxDepth rp) t s) eqn:Hsk; [apply safe_ret|].
  apply execute_strategy_safe; try assumption; lia.
Qed.

End SampleSafe.

(** ** The strategy loop and the whole sample *)

Section LoopFacts.
Context {T : Types} {W : World}.

Lemma paths_kept_refl (st : St) : paths_kept st st.
Proof. split; reflexivity. Qed.

Lemma paths_kept_trans (st1 st2 st3 : St) :
  paths_kept st1 st2 -> paths_kept st2 st3 -> paths_kept st1 st3.
Proof. intros [L1 C1] [L2 C2]. split; congruence. Qed.

Lemma keeps_paths_ret {A} (a : A) : keeps_paths (ret a).
Proof. intros st x st' [= _ <-]. apply paths_kept_refl. Qed.

Lemma keeps_paths_bind {A B} (c : M A) (k : A -> M B) :
  keeps_paths c -> (forall a, keeps_paths (k a)) -> keeps_paths (bind c k).
Proof.
  intros Hc Hk st b st' H. apply bind_Some in H as (a & st1 & H1 & H2).
  eapply paths_kept_trans; [eapply Hc | eapply Hk]; eassumption.
Qed.

Lemma keeps_paths_for_loop {A} (k : nat) (body : Z -> A -> M A) :
  (forall i a, keeps_paths (body i a)) ->
  forall lo a, keeps_paths (for_loop k lo body a).
Proof.
  intros Hb. induction k as [|k IH]; intros lo a; cbn [for_loop].
  - apply keeps_paths_ret.
  - apply keeps_paths_bind; [apply Hb|]. intros a'. apply IH.
Qed.

Lemma keeps_paths_execute_strategy (rp : RenderParams)
    (lightDistr : Distribution1D) (lightToIndex : LightToIndex)
    (pFilm : Point2f) (t s : Z) (L : Spectrum) :
  keeps_paths (execute_strategy rp lightDistr lightToIndex pFilm t s L).
Proof.
  unfold execute_strategy. cbv zeta.
  apply keeps_paths_bind.
  { intros st r st' H. apply draws_ConnectBDPT in H as (Hl & Hc & _).
    split; assumption. }
  intros [[Lpath pFilmNew] mw].
  apply keeps_paths_bind.
  { destruct (negb (t =? 1)); [apply keeps_paths_ret|].
    apply keeps_paths_bind; [|intros _; apply keeps_paths_ret].
    intros st [] st' [= <-]. split; reflexivity. }
  intros L1. apply keeps_paths_bind.
  { destruct (rp_estimateFactors rp); [|apply keeps_paths_ret].
    intros st [] st'. unfold Rectifier_AddEstimate.
    destruct (rp_rectifier rp); [|discriminate].
    intros [= <-]. split; reflexivity. }
  intros _. apply keeps_paths_bind; [|intros _; apply keeps_paths_ret].
  destruct (rp_estimateVariances rp); [|apply keeps_paths_ret].
  intros st [] st'. unfold Variance_AddEstimate.
  destruct (_ && _); [|discriminate].
  intros [= <-]. split; reflexivity.
Qed.

Lemma keeps_paths_execute_strategies (rp : RenderParams)
    (lightDistr : Distribution1D) (lightToIndex : LightToIndex)
    (pFilm : Point2f) (nCamera nLight : Z) :
  keeps_paths
    (execute_strategies rp lightDistr lightToIndex pFilm nCamera nLight).
Proof.
  unfold execute_strategies.
  apply keeps_paths_for_loop. intros t L.
  apply keeps_paths_for_loop. intros s L1.
  destruct (skipped (rp_maxDepth rp) t s); [apply keeps_paths_ret|].
  apply keeps_paths_execute_strategy.
Qed.

(** The strategy loop is defined as soon as the two arrays hold the
    [nCamera] and [nLight] vertices it is told about, the light
    distribution returns indices of [scene.lights], a rectifier exists
    when factors are estimated, and the maximum depth is at least 1 when
    variances are estimated: every connection reads inside the arrays,
    every estimator index is inside the allocated estimators.  It leaves
    both subpaths as it found them. *)
Theorem execute_strategies_defined (rp : RenderParams)
    (lightDistr : Distribution1D) (lightToIndex : LightToIndex)
    (pFilm : Point2f) (nCamera nLight : Z) (st : St) :
  nCamera <= Z.of_nat (length (cameraVertices st)) ->
  nLight <= Z.of_nat (length (lightVertices st)) ->
  (forall u : Float,
      0 <= (SampleDiscrete lightDistr u).1
      < Z.of_nat (length (lights (rp_scene rp)))) ->
  (rp_estimateFactors rp = true -> is_Some (rp_rectifier rp)) ->
  (rp_estimateVariances rp = true -> 1 <= rp_maxDepth rp) ->
  exists L st',
    execute_strategies rp lightDistr lightToIndex pFilm nCamera nLight st
    = Some (L, st')
    /\ lightVertices st' = lightVertices st
    /\ cameraVertices st' = cameraVertices st.
Proof.
  intros Hc Hl Hd Hr Hv.
  destruct (execute_strategies_safe (shape st) rp lightDistr lightToIndex pFilm
              nCamera nLight Hc Hl Hd Hr Hv st eq_refl)
    as (L & st' & H & _).
  exists L, st'. split; [exact H|].
  apply keeps_paths_execute_strategies in H. exact H.
Qed.

Lemma Alloc_Some (n : Z) :
  0 <= n -> Alloc n = Some (replicate (Z.to_nat n) Vertex_default).
Proof. intros H. unfold Alloc. destruct (Z.leb_spec 0 n); [reflexivity|lia]. Qed.

(** In either pass, factors are estimated only when the rectifier has
    been created. *)
Lemma pass_rectifier (I : BDPTIntegrator) (scene : Scene) (camera : Camera)
    (created : SAMISRectifier) (p : Pass) :
  rp_estimateFactors (pass_params I scene camera created p) = true ->
  is_Some (rp_rectifier (pass_params I scene camera created p)).
Proof.
  cbn. unfold configure_rectifier. destruct p; cbn; [|discriminate].
  intros ->. cbn. eauto.
Qed.

(** A pixel sample of either pass never reads or writes outside the two
    vertex buffers it allocates, of [maxDepth + 2] and [maxDepth + 1]
    vertices, and never addresses a missing light, rectifier or variance
    estimator, whatever the fuel of its walks: it is defined as soon as
    the maximum depth is at least -1 (and at least 1 when variances are
    estimated) and the light distributions return indices of
    [scene.lights]. *)
Theorem generate_sample_defined (Lookup : Point3f -> Distribution1D)
    (fuel : nat) (I : BDPTIntegrator) (scene : Scene) (camera : Camera)
    (created : SAMISRectifier) (p : Pass) (lightToIndex : LightToIndex)
    (pPixel : Point2i) (st : St) :
  -1 <= i_maxDepth I ->
  (i_estimateVariances I = true -> 1 <= i_maxDepth I) ->
  (forall (pt : Point3f) (u : Float),
      0 <= (SampleDiscrete (Lookup pt) u).1 < Z.of_nat (length (lights scene))) ->
  exists r st',
    generate_sample Lookup fuel (pass_params I scene camera created p)
      lightToIndex pPixel st
    = Some (r, st')
    /\ length (cameraVertices st') = Z.to_nat (i_maxDepth I + 2)
    /\ length (lightVertices st') = Z.to_nat (i_maxDepth I + 1).
Proof.
  intros Hm Hv Hl. unfold generate_sample. cbv zeta.
  set (rp := pass_params I scene camera created p).
  change (rp_maxDepth rp) with (i_maxDepth I).
  change (rp_scene rp) with scene. change (rp_camera rp) with camera.
  set (n := (Z.to_nat (i_maxDepth I + 1), Z.to_nat (i_maxDepth I + 2))).
  destruct (with_sampler_run Get2D st) as [st1 E1].
  rewrite (bind_run _ _ _ _ _ E1).
  rewrite !Alloc_Some by lia.
  erewrite bind_run by apply lift_Some.
  erewrite bind_run by apply lift_Some.
  erewrite bind_run by reflexivity.
  match goal with
  | |- context [bind (GenerateCameraSubpath _ _ _ _ ?pf _) _ ?s] =>
      set (pFilm := pf); set (st2 := s)
  end.
  assert (Hs2 : shape st2 = n).
  { unfold shape, st2. cbn. rewrite !length_replicate. reflexivity. }
  destruct (GenerateCameraSubpath_safe fuel scene (i_maxDepth I + 2) camera
              pFilm (CameraArr, 0) n) with (st := st2)
    as (nc & st3 & Hc & Hs3); try exact Hs2; cbn; try lia.
  rewrite (bind_run _ _ _ _ _ Hc).
  assert (Hlen : forall s, shape s = n ->
            length (cameraVertices s) = Z.to_nat (i_maxDepth I + 2)
            /\ length (lightVertices s) = Z.to_nat (i_maxDepth I + 1)).
  { intros s Hs. unfold shape in Hs. injection Hs as H1 H2. split; assumption. }
  destruct nc as [nCamera|];
    [|eexists _, _; split; [reflexivity | apply Hlen; exact Hs3]].
  apply GenerateCameraSubpath_fits in Hc as [Hnc _]; [|lia].
  assert (P0 : ptr_ok n (CameraArr, 0)) by (unfold ptr_ok; cbn; lia).
  destruct (safe_load n (CameraArr, 0) P0 st3 Hs3) as (c0 & st3' & Hl0 & _).
  pose proof (readonly_load _ _ _ _ Hl0) as ->.
  rewrite !(bind_run _ _ _ _ _ Hl0).
  destruct (GenerateLightSubpath_safe fuel scene (i_maxDepth I + 1)
              (Vertex_time c0) (Lookup (Vertex_p c0)) lightToIndex
              (LightArr, 0) n) with (st := st3)
    as (nl & st4 & Hg & Hs4); try exact Hs3; cbn; try lia.
  { apply Hl. }
  rewrite (bind_run _ _ _ _ _ Hg).
  destruct nl as [nLight|];
    [|eexists _, _; split; [reflexivity | apply Hlen; exact Hs4]].
  apply GenerateLightSubpath_fits in Hg as [Hnl _]; [|lia].
  destruct (execute_strategies_safe n rp (Lookup (Vertex_p c0)) lightToIndex
              pFilm nCamera nLight) with (st := st4)
    as (L & st5 & He & Hs5); try exact Hs4; cbn; try lia.
  { apply Hl. }
  { apply (pass_rectifier I scene camera created p). }
  { exact Hv. }
  rewrite (bind_run _ _ _ _ _ He).
  eexists _, _. split; [reflexivity | apply Hlen; exact Hs5].
Qed.

End LoopFacts.


(** ** The factors of the three schemes *)

(** On a variance that is not negative, each scheme yields a positive
    factor, as the weight of a strategy needs it, and the moment scheme
    never yields less than 1. *)
Theorem factorScheme_positive (misMod : MisModification) (d t : Z)
    (var mean : Float) :
  (0 <= var)%Q ->
  (0 < factorScheme misMod d t var mean)%Q
  /\ (misMod = MIS_MOD_MOMENT_OVER_VARIANCE ->
      (1 <= factorScheme misMod d t var mean)%Q).
Proof.
  intros Hv. destruct misMod; cbn.
  - split; [reflexivity | discriminate].
  - split; [|discriminate].
    destruct (Qeq_bool var 0) eqn:E; [reflexivity|].
    apply Qeq_bool_false_iff in E.
    assert (Hpos : (0 < var)%Q).
    { apply Qle_lt_or_eq in Hv as [H|H]; [exact H|]. exfalso. apply E.
      symmetry. exact H. }
    unfold Qdiv. rewrite Qmult_1_l. apply Qinv_lt_0_compat. exact Hpos.
  - destruct (fnonzero var) eqn:E; cbn [andb].
    + apply fnonzero_true in E.
      assert (Hpos : (0 < var)%Q).
      { apply Qle_lt_or_eq in Hv as [H|H]; [exact H|]. exfalso. apply E.
        symmetry. exact H. }
      destruct (fnonzero mean); [|split; [reflexivity | intros _; apply Qle_refl]].
      assert (Hq : (0 <= mean * mean / var)%Q).
      { unfold Qdiv. apply Qmult_le_0_compat.
        - nra.
        - apply Qlt_le_weak, Qinv_lt_0_compat. exact Hpos. }
      split; [|intros _]; lra.
    + split; [reflexivity | intros _; apply Qle_refl].
Qed.

(** The moment scheme on variance 1/2 and mean 3. *)
Lemma factorScheme_positive_witness :
  (0 < factorScheme MIS_MOD_MOMENT_OVER_VARIANCE 1 1 (1 # 2) 3)%Q
  /\ (MIS_MOD_MOMENT_OVER_VARIANCE = MIS_MOD_MOMENT_OVER_VARIANCE ->
      (1 <= factorScheme MIS_MOD_MOMENT_OVER_VARIANCE 1 1 (1 # 2) 3)%Q).
Proof.
  apply (factorScheme_positive MIS_MOD_MOMENT_OVER_VARIANCE 1 1 (1 # 2) 3).
  discriminate.
Defined.

(** ** What the strategy loop reports *)

Section LogFacts.
Context {T : Types} {W : World}.

Lemma execute_strategy_logs (rp : RenderParams) (lightDistr : Distribution1D)
    (lightToIndex : LightToIndex) (pFilm : Point2f) (t s : Z) (L : Spectrum)
    (st : St) (L' : Spectrum) (st' : St) :
  execute_strategy rp lightDistr lightToIndex pFilm t s L st = Some (L', st') ->
  exists pFilmNew unweighted Lpath,
    rectifierLog st'
    = rectifierLog st
      ++ (if rp_estimateFactors rp
          then [(pFilmNew, s + t, t, unweighted, Lpath)] else [])
    /\ varianceLog st'
       = varianceLog st
         ++ (if rp_estimateVariances rp
             then [(BufferIndex s t, pFilmNew, unweighted)] else [])
    /\ splats st'
       = splats st ++ (if t =? 1 then [(pFilmNew, Lpath)] else []).
Proof.
  unfold execute_strategy. intros H.
  apply bind_Some in H as ([[Lpath pFilmNew] mw] & st1 & Hc & H).
  apply draws_ConnectBDPT in Hc as (_ & _ & Hs1 & Hr1 & Hv1).
  apply bind_Some in H as (L1 & st2 & HL & H).
  apply bind_Some in H as (u1 & st3 & Hr & H).
  apply bind_Some in H as (u2 & st4 & Hv & H).
  unfold ret in H. injection H as _ <-. destruct u1, u2.
  exists pFilmNew, (unweighted_of (default 0%Q mw) Lpath), Lpath.
  assert (E2 : splats st2 = splats st1 ++ (if t =? 1 then [(pFilmNew, Lpath)] else [])
               /\ rectifierLog st2 = rectifierLog st1
               /\ varianceLog st2 = varianceLog st1).
  { destruct (t =? 1); cbn [negb] in HL.
    - apply bind_Some in HL as ([] & st2' & Ha & HL).
      unfold ret in HL. injection HL as _ <-.
      unfold AddSplat in Ha. injection Ha as <-. repeat split.
    - unfold ret in HL. injection HL as _ <-. rewrite app_nil_r. repeat split. }
  destruct E2 as (Es2 & Er2 & Ev2).
  assert (E3 : splats st3 = splats st2
               /\ rectifierLog st3
                  = rectifierLog st2
                    ++ (if rp_estimateFactors rp
                        then [(pFilmNew, s + t, t,
                               unweighted_of (default 0%Q mw) Lpath, Lpath)]
                        else [])
               /\ varianceLog st3 = varianceLog st2).
  { destruct (rp_estimateFactors rp).
    - unfold Rectifier_AddEstimate in Hr. destruct (rp_rectifier rp); [|discriminate].
      injection Hr as <-. repeat split.
    - unfold ret in Hr. injection Hr as <-. rewrite app_nil_r. repeat split. }
  destruct E3 as (Es3 & Er3 & Ev3).
  assert (E4 : splats st4 = splats st3
               /\ rectifierLog st4 = rectifierLog st3
               /\ varianceLog st4
                  = varianceLog st3
                    ++ (if rp_estimateVariances rp
                        then [(BufferIndex s t, pFilmNew,
                               unweighted_of (default 0%Q mw) Lpath)]
                        else [])).
  { destruct (rp_estimateVariances rp).
    - unfold Variance_AddEstimate in Hv. destruct (_ && _); [|discriminate].
      injection Hv as <-. repeat split.
    - unfold ret in Hv. injection Hv as <-. rewrite app_nil_r. repeat split. }
  destruct E4 as (Es4 & Er4 & Ev4).
  split; [|split]; congruence.
Qed.

Lemma foldM_logs (rp : RenderParams) (lightDistr : Distribution1D)
    (lightToIndex : LightToIndex) (pFilm : Point2f) (l : list (Z * Z)) :
  forall (L : Spectrum) (st : St) (L' : Spectrum) (st' : St),
    foldM (fun p L => execute_strategy rp lightDistr lightToIndex pFilm p.2 p.1 L)
      l L st
    = Some (L', st') ->
    (fun e => (e.1.1.1.2, e.1.1.2)) <$> rectifierLog st'
    = ((fun e => (e.1.1.1.2, e.1.1.2)) <$> rectifierLog st)
      ++ (if rp_estimateFactors rp
          then (fun p : Z * Z => (p.1 + p.2, p.2)) <$> l else [])
    /\ (fun e => e.1.1) <$> varianceLog st'
       = ((fun e => e.1.1) <$> varianceLog st)
         ++ (if rp_estimateVariances rp
             then (fun p : Z * Z => BufferIndex p.1 p.2) <$> l else [])
    /\ length (splats st')
       = (length (splats st)
          + length (List.filter (fun p : Z * Z => (p.2 =? 1)%Z) l))%nat.
Proof.
  induction l as [|[s t] l IH]; intros L st L' st' H.
  - cbn in H. unfold ret in H. injection H as _ <-.
    destruct (rp_estimateFactors rp), (rp_estimateVariances rp);
      cbn; rewrite ?app_nil_r; repeat split; lia.
  - cbn [foldM] in H. apply bind_Some in H as (L1 & st1 & H1 & H).
    cbn [fst snd] in H1.
    apply execute_strategy_logs in H1 as (pf & u & Lp & Er & Ev & Es).
    apply IH in H as (Hr & Hv & Hs).
    rewrite Hr, Hv, Hs, Er, Ev, Es. cbn [List.filter fst snd].
    rewrite !fmap_app, length_app.
    destruct (rp_estimateFactors rp), (rp_estimateVariances rp), (t =? 1);
      cbn; rewrite <- ?app_assoc, ?app_nil_r; cbn; repeat split; lia.
Qed.

(** With factor estimation on, the rectifier receives exactly one
    estimate for every executed strategy, a black contribution included,
    in loop order and tagged with [s + t] and [t]; with variance
    estimation on, the estimator [BufferIndex s t] receives one for every
    executed strategy; and the film is splatted once for every executed
    strategy with [t = 1].  With the estimation off, nothing is logged. *)
Theorem execute_strategies_logs (rp : RenderParams)
    (lightDistr : Distribution1D) (lightToIndex : LightToIndex)
    (pFilm : Point2f) (nCamera nLight : Z) (st : St) (L : Spectrum) (st' : St) :
  execute_strategies rp lightDistr lightToIndex pFilm nCamera nLight st
  = Some (L, st') ->
  let executed := strategies (rp_maxDepth rp) nCamera nLight in
  (fun e => (e.1.1.1.2, e.1.1.2)) <$> rectifierLog st'
  = ((fun e => (e.1.1.1.2, e.1.1.2)) <$> rectifierLog st)
    ++ (if rp_estimateFactors rp
        then (fun p : Z * Z => (p.1 + p.2, p.2)) <$> executed else [])
  /\ (fun e => e.1.1) <$> varianceLog st'
     = ((fun e => e.1.1) <$> varianceLog st)
       ++ (if rp_estimateVariances rp
           then (fun p : Z * Z => BufferIndex p.1 p.2) <$> executed else [])
  /\ length (splats st')
     = (length (splats st)
        + length (List.filter (fun p : Z * Z => (p.2 =? 1)%Z) executed))%nat.
Proof.
  intros H. cbv zeta. rewrite execute_strategies_foldM in H.
  eapply foldM_logs. exact H.
Qed.

End LogFacts.


(** ** The index of the lights *)

Section LightIndexFacts.
Context `{Countable LightPtr}.

(** The map after the first [n] iterations of the loop. *)
Lemma lightToIndex_prefix (lights : list LightPtr) (n : nat) :
  (n <= length lights)%nat ->
  forall (light : LightPtr) (i : nat),
    fold_left
      (fun (lightToIndex : gmap LightPtr nat) (i : nat) =>
         match lights !! i with
         | Some light => <[light := i]> lightToIndex
         | None => lightToIndex
         end)
      (seq 0 n) ∅ !! light = Some i
    <-> (i < n)%nat /\ lights !! i = Some light
        /\ forall j, (j < n)%nat -> lights !! j = Some light -> (j <= i)%nat.
Proof.
  induction n as [|n IH]; intros Hn light i.
  - cbn. rewrite lookup_empty. split; [discriminate | intros [? _]; lia].
  - rewrite seq_S, fold_left_app. cbn [fold_left Nat.add].
    destruct (lookup_lt_is_Some_2 lights n ltac:(lia)) as [ln Eln].
    rewrite Eln. destruct (decide (ln = light)) as [->|Hne].
    + rewrite lookup_insert_eq. split.
      * intros [= <-]. split; [lia|]. split; [exact Eln|]. intros j Hj _. lia.
      * intros (Hi & Hl & Hmax). f_equal.
        specialize (Hmax n ltac:(lia) Eln). lia.
    + rewrite lookup_insert_ne by exact Hne. rewrite IH by lia. split.
      * intros (Hi & Hl & Hmax). split; [lia|]. split; [exact Hl|].
        intros j Hj Hlj. destruct (decide (j = n)) as [->|Hjn].
        -- rewrite Eln in Hlj. injection Hlj as ->. contradiction.
        -- apply Hmax; [lia | exact Hlj].
      * intros (Hi & Hl & Hmax). split; [|split; [exact Hl|]].
        -- destruct (decide (i = n)) as [->|]; [|lia].
           rewrite Eln in Hl. injection Hl as ->. contradiction.
        -- intros j Hj Hlj. apply Hmax; [lia | exact Hlj].
Qed.

(** The map sends a light to the position of its last occurrence in
    [scene.lights] and holds nothing else; when no light occurs twice,
    looking up the light at position [i] gives back [i]. *)
Theorem lightToIndex_lookup (lights : list LightPtr) :
  (forall (light : LightPtr) (i : nat),
      build_lightToIndex lights !! light = Some i
      <-> lights !! i = Some light
          /\ forall j, lights !! j = Some light -> (j <= i)%nat)
  /\ (forall light : LightPtr,
         build_lightToIndex lights !! light = None <-> light ∉ lights)
  /\ (NoDup lights ->
      forall (i : nat) (light : LightPtr),
        lights !! i = Some light ->
        build_lightToIndex lights !! light = Some i).
Proof.
  assert (Hchar : forall (light : LightPtr) (i : nat),
             build_lightToIndex lights !! light = Some i
             <-> lights !! i = Some light
                 /\ forall j, lights !! j = Some light -> (j <= i)%nat).
  { intros light i. unfold build_lightToIndex.
    rewrite (lightToIndex_prefix lights (length lights)) by lia. split.
    - intros (_ & Hl & Hmax). split; [exact Hl|]. intros j Hj.
      apply Hmax; [|exact Hj]. eapply lookup_lt_Some. exact Hj.
    - intros (Hl & Hmax). split; [eapply lookup_lt_Some; exact Hl|].
      split; [exact Hl|]. intros j _ Hj. apply Hmax. exact Hj. }
  split; [exact Hchar|]. split.
  - intros light. split.
    + intros HN Hin. apply list_elem_of_lookup in Hin as [i Hi].
      (* the last occurrence of the light is in the map *)
      assert (Hlast : exists k, lights !! k = Some light
                        /\ forall j, lights !! j = Some light -> (j <= k)%nat).
      { clear HN Hchar. revert i Hi.
        induction lights as [|x l IH] using rev_ind; intros i Hi;
          [discriminate|].
        destruct (decide (x = light)) as [->|Hne].
        - exists (length l). split.
          + rewrite lookup_app_r by lia. rewrite Nat.sub_diag. reflexivity.
          + intros j Hj. apply lookup_lt_Some in Hj.
            rewrite length_app in Hj. cbn in Hj. lia.
        - assert (Hil : l !! i = Some light).
          { destruct (Nat.lt_ge_cases i (length l)) as [Hlt|Hge].
            - rewrite lookup_app_l in Hi by exact Hlt. exact Hi.
            - rewrite lookup_app_r in Hi by exact Hge.
              destruct (i - length l)%nat; cbn in Hi; [|discriminate].
              injection Hi as ->. contradiction. }
          destruct (IH i Hil) as (k & Hk & Hmax). exists k. split.
          + rewrite lookup_app_l by (eapply lookup_lt_Some; exact Hk). exact Hk.
          + intros j Hj.
            destruct (Nat.lt_ge_cases j (length l)) as [Hlt|Hge].
            * rewrite lookup_app_l in Hj by exact Hlt. apply Hmax. exact Hj.
            * rewrite lookup_app_r in Hj by exact Hge.
              destruct (j - length l)%nat; cbn in Hj; [|discriminate].
              injection Hj as ->. contradiction. }
      destruct Hlast as (k & Hk & Hmax).
      assert (E : build_lightToIndex lights !! light = Some k)
        by (apply Hchar; split; assumption).
      rewrite HN in E. discriminate.
    + intros Hnin. destruct (build_lightToIndex lights !! light) as [i|] eqn:E;
        [|reflexivity].
      apply Hchar in E as [Hl _]. exfalso. apply Hnin.
      eapply list_elem_of_lookup_2. exact Hl.
  - intros Hnd i light Hl. apply Hchar. split; [exact Hl|].
    intros j Hj. rewrite (NoDup_lookup _ _ _ _ Hnd Hj Hl). lia.
Qed.

End LightIndexFacts.

(** ** Generated subpaths carry densities that are not negative *)

Section GeneratedDensities.
Context {T : Types} {W : World}.

Lemma nonneg_store (p : VertexPtr) (v : Vertex) (st : St) (u : unit) (st' : St) :
  nonneg_state st -> vertex_nonneg v ->
  store p v st = Some (u, st') -> nonneg_state st'.
Proof.
  intros Hst Hv H. apply store_Some in H as [_ ->].
  apply nonneg_set_array; assumption.
Qed.

Lemma nonneg_lift {A} (o : option A) (st : St) (a : A) (st' : St) :
  nonneg_state st -> lift o st = Some (a, st') -> nonneg_state st'.
Proof.
  intros N H. unfold lift in H. destruct o; [|discriminate].
  injection H as _ <-. exact N.
Qed.

Lemma nonneg_with_sampler {A} (q : Sampler -> A * Sampler) (st : St) (a : A)
    (st' : St) :
  nonneg_state st -> with_sampler q st = Some (a, st') -> nonneg_state st'.
Proof.
  intros [Hl Hc] H. apply with_sampler_Some in H as [El Ec].
  split; [rewrite El | rewrite Ec]; assumption.
Qed.

Lemma ConvertDensity_nonneg (v next : Vertex) (pdf : Float) :
  sampling_nonneg -> (0 <= pdf)%Q -> (0 <= ConvertDensity v pdf next)%Q.
Proof.
  intros (HJ & _) Hp. unfold ConvertDensity.
  apply Qmult_le_0_compat; [exact Hp | apply HJ].
Qed.

Lemma CreateSurface_nonneg (isect : SurfaceInteraction) (b : Spectrum)
    (pdf : Float) (prev : Vertex) :
  sampling_nonneg -> (0 <= pdf)%Q -> vertex_nonneg (CreateSurface isect b pdf prev).
Proof.
  intros HS Hp. split; cbn; [|apply Qle_refl].
  apply ConvertDensity_nonneg; assumption.
Qed.

Lemma CreateMedium_nonneg (m : MediumInteraction) (b : Spectrum)
    (pdf : Float) (prev : Vertex) :
  sampling_nonneg -> (0 <= pdf)%Q -> vertex_nonneg (CreateMedium m b pdf prev).
Proof.
  intros HS Hp. split; cbn; [|apply Qle_refl].
  apply ConvertDensity_nonneg; assumption.
Qed.

Lemma CreateLight_ei_nonneg (e : EndpointInteraction) (b : Spectrum)
    (pdf : Float) :
  (0 <= pdf)%Q -> vertex_nonneg (CreateLight_ei e b pdf).
Proof. intros Hp. split; cbn; [exact Hp | apply Qle_refl]. Qed.

Lemma CreateCamera_nonneg (camera : Camera) (ray : RayDifferential)
    (b : Spectrum) :
  vertex_nonneg (CreateCamera camera ray b).
Proof. split; cbn; apply Qle_refl. Qed.

Lemma CreateLight_nonneg (light : Light) (ray : RayDifferential)
    (nLight : Normal3f) (Le : Spectrum) (pdf : Float) :
  (0 <= pdf)%Q -> vertex_nonneg (CreateLight light ray nLight Le pdf).
Proof. intros Hp. split; cbn; [exact Hp | apply Qle_refl]. Qed.

Lemma set_pdfRev_vertex_nonneg (x : Float) (v : Vertex) :
  (0 <= x)%Q -> vertex_nonneg v -> vertex_nonneg (set_pdfRev x v).
Proof. intros Hx [Hf _]. split; [exact Hf | exact Hx]. Qed.

Lemma set_pdfFwd_vertex_nonneg (x : Float) (v : Vertex) :
  (0 <= x)%Q -> vertex_nonneg v -> vertex_nonneg (set_pdfFwd x v).
Proof. intros Hx [_ Hr]. split; [exact Hx | exact Hr]. Qed.

Lemma set_delta_vertex_nonneg (d : bool) (v : Vertex) :
  vertex_nonneg v -> vertex_nonneg (set_delta d v).
Proof. intros H. exact H. Qed.

(** Settles that a stored vertex has densities that are not negative. *)
Ltac vertex_nonneg_tac HS :=
  repeat match goal with
    | |- vertex_nonneg (CreateSurface _ _ _ _) =>
        apply CreateSurface_nonneg; [exact HS|]
    | |- vertex_nonneg (CreateMedium _ _ _ _) =>
        apply CreateMedium_nonneg; [exact HS|]
    | |- vertex_nonneg (CreateLight_ei _ _ _) => apply CreateLight_ei_nonneg
    | |- vertex_nonneg (CreateLight _ _ _ _ _) => apply CreateLight_nonneg
    | |- vertex_nonneg (CreateCamera _ _ _) => apply CreateCamera_nonneg
    | |- vertex_nonneg (set_delta _ _) => apply set_delta_vertex_nonneg
    | |- vertex_nonneg (set_pdfRev _ _) => apply set_pdfRev_vertex_nonneg
    | |- vertex_nonneg (set_pdfFwd _ _) => apply set_pdfFwd_vertex_nonneg
    | |- (0 <= ConvertDensity _ _ _)%Q =>
        apply ConvertDensity_nonneg; [exact HS|]
    | N : nonneg_state ?s, H : array_of _ ?s !! _ = Some ?v
      |- vertex_nonneg ?v => exact (nonneg_lookup _ _ _ _ N H)
    | H : forall bsdf wi wo, (0 <= BSDF_Pdf bsdf wi wo)%Q
      |- (0 <= BSDF_Pdf _ _ _)%Q => apply H
    | H : forall w n, (0 <= AbsDot w n)%Q
      |- (0 <= AbsDot _ _)%Q => apply H
    | H : forall scene distr idx d,
            (0 <= InfiniteLightDensity scene distr idx d)%Q
      |- (0 <= InfiniteLightDensity _ _ _ _)%Q => apply H
    | |- vertex_nonneg (if ?c then _ else _) => destruct c
    | |- (0 <= pdfFwd (set_pdfFwd ?x _))%Q => change (0 <= x)%Q
    | |- (0 <= _ * _)%Q => apply Qmult_le_0_compat
    | |- (0 <= 0)%Q => apply Qle_refl
    | |- _ => assumption
    end.

(** Carries [nonneg_state] along the stores and sampler queries of an
    inverted run. *)
Ltac carry_nonneg HS :=
  repeat match goal with
    | N : nonneg_state ?s, H : with_sampler _ ?s = Some (_, ?s') |- _ =>
        let N' := fresh "N" in
        pose proof (nonneg_with_sampler _ _ _ _ N H) as N'; clear H
    | N : nonneg_state ?s, H : lift _ ?s = Some (_, ?s') |- _ =>
        let N' := fresh "N" in
        pose proof (nonneg_lift _ _ _ _ N H) as N'; clear H
    | N : nonneg_state ?s, H : store _ ?v ?s = Some (_, ?s') |- _ =>
        let N' := fresh "N" in
        assert (N' : nonneg_state s');
        [ eapply nonneg_store; [exact N | | exact H];
          solve [ vertex_nonneg_tac HS ]
        | clear H ]
    end.

Lemma RandomWalk_iter_nonneg (scene : Scene) (maxDepth : Z)
    (mode : TransportMode) (path : VertexPtr) (w : WalkState) (st : St)
    (flow : Flow) (w' : WalkState) (st' : St) :
  sampling_nonneg ->
  nonneg_state st -> (0 <= w_pdfFwd w)%Q -> (0 <= w_pdfRev w)%Q ->
  RandomWalk_iter scene maxDepth mode path w st = Some ((flow, w'), st') ->
  nonneg_state st' /\ (0 <= w_pdfFwd w')%Q /\ (0 <= w_pdfRev w')%Q.
Proof.
  intros HS N Hf Hr H.
  pose proof HS as (HJ & Hbs & Hbp & Hsp & _).
  unfold RandomWalk_iter, update_prev_pdfRev in H. cbv zeta in H.
  invert_run; cbn [w_pdfFwd w_pdfRev].
  all: repeat match goal with
         | E : Sample_p ?m ?w ?u = (?p, _) |- _ =>
             let Hp := fresh "Hp" in
             pose proof (Hsp m w u) as Hp; rewrite E in Hp; cbn in Hp; clear E
         end.
  all: try (pose proof (Hbs a1 (si_wo s) a3)).
  all: carry_nonneg HS.
  all: try ((split; [assumption|]); split;
    first [assumption | apply Qle_refl | apply Hbp | apply Hbs | idtac]).
Qed.

Lemma RandomWalk_loop_nonneg (scene : Scene) (maxDepth : Z)
    (mode : TransportMode) (path : VertexPtr) (fuel : nat) :
  sampling_nonneg ->
  forall (w : WalkState) (st : St) (n : option Z) (st' : St),
    nonneg_state st -> (0 <= w_pdfFwd w)%Q -> (0 <= w_pdfRev w)%Q ->
    RandomWalk_loop fuel scene maxDepth mode path w st = Some (n, st') ->
    nonneg_state st'.
Proof.
  intros HS. induction fuel as [|fuel IH]; intros w st n st' N Hf Hr H.
  - injection H as _ <-. exact N.
  - cbn [RandomWalk_loop] in H.
    apply bind_Some in H as ([flow w1] & st1 & Hi & H).
    destruct (RandomWalk_iter_nonneg _ _ _ _ _ _ _ _ _ HS N Hf Hr Hi)
      as (N1 & Hf1 & Hr1).
    destruct flow.
    + injection H as _ <-. exact N1.
    + exact (IH _ _ _ _ N1 Hf1 Hr1 H).
    + exact (IH _ _ _ _ N1 Hf1 Hr1 H).
Qed.

Lemma RandomWalk_nonneg (fuel : nat) (scene : Scene) (ray : RayDifferential)
    (b : Spectrum) (pdf : Float) (maxDepth : Z) (mode : TransportMode)
    (path : VertexPtr) (st : St) (n : option Z) (st' : St) :
  sampling_nonneg -> nonneg_state st -> (0 <= pdf)%Q ->
  RandomWalk fuel scene ray b pdf maxDepth mode path st = Some (n, st') ->
  nonneg_state st'.
Proof.
  intros HS N Hp H. unfold RandomWalk in H.
  destruct (maxDepth =? 0).
  - injection H as _ <-. exact N.
  - eapply RandomWalk_loop_nonneg; [exact HS | exact N | | | exact H].
    + exact Hp.
    + apply Qle_refl.
Qed.

(** Whatever a camera subpath writes into the vertex arrays has forward
    and reverse densities that are not negative, as long as the
    collaborators' densities are not. *)
Theorem GenerateCameraSubpath_nonneg (fuel : nat) (scene : Scene)
    (maxDepth : Z) (camera : Camera) (pFilm : Point2f) (path : VertexPtr)
    (st : St) (n : option Z) (st' : St) :
  sampling_nonneg -> nonneg_state st ->
  GenerateCameraSubpath fuel scene maxDepth camera pFilm path st
    = Some (n, st') ->
  nonneg_state st'.
Proof.
  intros HS N H. unfold GenerateCameraSubpath in H.
  destruct (maxDepth =? 0); [injection H as _ <-; exact N|].
  invert_run.
  match goal with
  | G : get_state _ = Some _ |- _ => unfold get_state in G; injection G as <- <-
  end.
  carry_nonneg HS.
  pose proof HS as (_ & _ & _ & _ & Hwe & _).
  eapply RandomWalk_nonneg; [exact HS | | | eassumption].
  - assumption.
  - match goal with
    | E : Pdf_We ?c ?r = (_, ?f) |- (0 <= ?f)%Q =>
        pose proof (Hwe c r) as Hp; rewrite E in Hp; exact Hp
    end.
Qed.

(** The same for a light subpath, including the densities the code
    rewrites afterwards for an infinite area light. *)
Theorem GenerateLightSubpath_nonneg (fuel : nat) (scene : Scene)
    (maxDepth : Z) (time : Float) (lightDistr : Distribution1D)
    (lightToIndex : LightToIndex) (path : VertexPtr)
    (st : St) (n : option Z) (st' : St) :
  sampling_nonneg -> nonneg_state st ->
  GenerateLightSubpath fuel scene maxDepth time lightDistr lightToIndex path st
    = Some (n, st') ->
  nonneg_state st'.
Proof.
  intros HS N H. unfold GenerateLightSubpath in H.
  destruct (maxDepth =? 0); [injection H as _ <-; exact N|].
  pose proof HS as (_ & _ & _ & _ & _ & Hle & Hsd & Hinf & Hdot).
  invert_run.
  all: try match goal with
         | E : SampleDiscrete ?d ?u = (_, ?f) |- _ =>
             let Hp := fresh "Hp" in
             pose proof (Hsd d u) as Hp; rewrite E in Hp; cbn in Hp
         end.
  all: try match goal with
         | _ : context [Sample_Le ?l ?u1 ?u2 ?t] |- _ =>
             let Hp := fresh "Hp" in
             pose proof (Hle l u1 u2 t) as [? ?]
         end.
  all: carry_nonneg HS.
  all: try assumption.
  all: match goal with
       | N : nonneg_state ?s,
         H : RandomWalk _ _ _ _ _ _ _ _ ?s = Some (_, ?s') |- _ =>
           assert (nonneg_state s')
             by (eapply RandomWalk_nonneg; [exact HS | exact N | | exact H];
                 assumption);
           clear H
       end.
  all: carry_nonneg HS.
  all: assumption.
Qed.

End GeneratedDensities.


(** ** The weight over other number formats *)

Section ExactWeightFacts.
Context {T : Types} {W : World}.

Lemma remap0_in_exact (f : Float) : remap0_in 1%Q fnonzero f = remap0 f.
Proof. reflexivity. Qed.

Lemma effDensRatio_in_exact (mode : MisStrategy) (ri : Float) :
  effDensRatio_in 1%Q Qmult mode ri = effDensRatio mode ri.
Proof. destruct mode; reflexivity. Qed.

(** The camera loop of [MISWeight] is the loop over a number format, run
    on the rationals. *)
Lemma camera_walk_exact (cam : list Vertex) (mode : MisStrategy)
    (rectifier : option SAMISRectifier) (pxCoords : Point2i) (s t : Z)
    (i : nat) (ri sumRi : Float) :
  camera_walk cam mode rectifier pxCoords s t i ri sumRi
  = camera_walk_in 1%Q Qmult Qdiv Qplus fnonzero (densities_of <$> cam) mode
      (stratFactor rectifier pxCoords (s + t)) i ri sumRi.
Proof.
  revert ri sumRi. induction i as [|i IH]; intros ri sumRi; [reflexivity|].
  cbn [camera_walk camera_walk_in]. rewrite !list_lookup_fmap.
  destruct (cam !! S i) as [vi|]; [|reflexivity]. cbn [fmap option_fmap option_map].
  cbn [densities_of d_pdfFwd d_pdfRev d_delta].
  destruct (delta vi); [exact (IH _ _)|].
  destruct (cam !! i) as [vp|]; [|reflexivity].
  cbn [option_map densities_of d_delta]. exact (IH _ _).
Qed.

Lemma light_walk_exact (lv : list Vertex) (mode : MisStrategy)
    (rectifier : option SAMISRectifier) (pxCoords : Point2i) (s t : Z)
    (n : nat) (ri sumRi : Float) (v0 : Vertex) :
  lv !! O = Some v0 ->
  light_walk lv mode rectifier pxCoords s t n ri sumRi
  = light_walk_in 1%Q Qmult Qdiv Qplus fnonzero (densities_of <$> lv)
      (IsDeltaLight v0) mode (stratFactor rectifier pxCoords (s + t)) s t
      n ri sumRi.
Proof.
  intros H0. revert ri sumRi. induction n as [|i IH]; intros ri sumRi; [reflexivity|].
  cbn [light_walk light_walk_in]. rewrite !list_lookup_fmap.
  destruct (lv !! i) as [vi|] eqn:Ei; [|reflexivity].
  cbn [fmap option_fmap option_map densities_of d_pdfFwd d_pdfRev d_delta].
  destruct i as [|i'].
  - rewrite H0. cbn [option_map]. exact (IH _ _).
  - rewrite list_lookup_fmap. destruct (lv !! i') as [vp|]; [|reflexivity].
    cbn [fmap option_fmap option_map densities_of d_delta]. exact (IH _ _).
Qed.

Lemma light_walk_exact_nil (lv : list Vertex) (mode : MisStrategy)
    (rectifier : option SAMISRectifier) (pxCoords : Point2i) (s t : Z)
    (ri sumRi : Float) (b : bool) :
  light_walk lv mode rectifier pxCoords s t O ri sumRi
  = light_walk_in 1%Q Qmult Qdiv Qplus fnonzero (densities_of <$> lv)
      b mode (stratFactor rectifier pxCoords (s + t)) s t O ri sumRi.
Proof. reflexivity. Qed.

(** What [MISWeight] returns is the weight of the loops over a number
    format, run on the rationals and on the two arrays as the temporary
    update has left them. *)
Lemma MISWeight_exact (scene : Scene) (sampled : Vertex) (s t : Z)
    (lightPdf : Distribution1D) (lightToIndex : LightToIndex)
    (pxCoords : Point2i) (rectifier : option SAMISRectifier)
    (mode : MisStrategy) (st : St) (w : Float) (st' : St) :
  s + t <> 2 ->
  MISWeight scene sampled s t lightPdf lightToIndex pxCoords rectifier mode st
  = Some (w, st') ->
  exists sc view,
    update_for_strategy scene sampled s t lightPdf lightToIndex st
    = Some (sc, view)
    /\ exact_weight (densities_of <$> lightVertices view)
         (densities_of <$> cameraVertices view)
         (match lightVertices view !! O with
          | Some v0 => IsDeltaLight v0
          | None => false
          end)
         mode (stratFactor rectifier pxCoords (s + t)) s t
       = Some w.
Proof.
  intros Hne H. unfold MISWeight in H.
  destruct (Z.eqb_spec (s + t) 2) as [|_]; [contradiction|].
  apply bind_Some in H as (sc & view & Hu & H).
  exists sc, view. split; [exact Hu|].
  apply bind_Some in H as (st1 & st2 & Hg & H).
  unfold get_state in Hg. injection Hg as <- <-.
  apply bind_Some in H as (sum1 & st3 & Hc & H).
  apply bind_Some in H as (sum2 & st4 & Hl & H).
  apply bind_Some in H as (u & st5 & Hr & H).
  unfold ret in H. injection H as <- <-.
  unfold lift in Hc. destruct (camera_walk _ _ _ _ _ _ _ _ _) as [c|] eqn:Ec;
    [|discriminate]. injection Hc as <- <-.
  unfold lift in Hl. destruct (light_walk _ _ _ _ _ _ _ _ _) as [l|] eqn:El;
    [|discriminate]. injection Hl as <- <-.
  unfold exact_weight, weight_in.
  destruct (Z.eqb_spec (s + t) 2) as [|_]; [contradiction|].
  rewrite <- camera_walk_exact, Ec.
  destruct (lightVertices view !! O) as [v0|] eqn:E0.
  - rewrite <- (light_walk_exact _ _ _ _ _ _ _ _ _ v0 E0), El. reflexivity.
  - destruct (Z.to_nat s) as [|n] eqn:En.
    + rewrite <- light_walk_exact_nil, El. reflexivity.
    + exfalso. clear -El E0. revert El. generalize 1%Q at 1. generalize c.
      induction n as [|n IH]; intros c0 r0 El; cbn [light_walk] in El.
      * rewrite E0 in El. discriminate.
      * destruct (lightVertices view !! S n) as [vi|]; [|discriminate].
        destruct (option_map delta (lightVertices view !! n)) as [d|];
          [|discriminate].
        eapply IH. exact El.
Qed.

End ExactWeightFacts.

Module Binary32Facts.
Import Binary32.

(** C2 (the code at a failing input): on the camera subpath
    [steep_camera], whose densities are finite binary32 numbers that are
    not negative, with no light vertex, no rectifier and the balance
    heuristic, the loops of [MISWeight] for [s = 0], [t = 4] return a NaN:
    the running ratio underflows to 0 at vertex 2 and is then multiplied
    by the ratio of vertex 1, which has overflowed to infinity.  A NaN is
    neither [>= 0] nor [<= 1].  On the same densities the exact weight
    lies between 0 and 1. *)
Theorem MISWeight_not_a_number :
  forallb (fun d => finite_nonneg (d_pdfFwd d) && finite_nonneg (d_pdfRev d))
    steep_camera = true
  /\ weight [] steep_camera false MIS_BALANCE (fun _ => one) 0 4
     = Some S754_nan
  /\ leb zero S754_nan = false
  /\ leb S754_nan one = false
  /\ exists w,
       exact_weight [] steep_camera_exact false MIS_BALANCE (fun _ => 1%Q) 0 4
       = Some w
       /\ (0 <= w <= 1)%Q.
Proof.
  split; [vm_compute; reflexivity|].
  split; [vm_compute; reflexivity|].
  split; [reflexivity|]. split; [reflexivity|].
  eexists. split; [vm_compute; reflexivity|].
  split; vm_compute; discriminate.
Qed.

(** The running ratio of the walk above, vertex by vertex: [2^-100], then
    0 by underflow, then [0 * infinity]. *)
Lemma steep_camera_ratios :
  div (remap0_in one nonzero one) (remap0_in one nonzero (pow2 100))
  = pow2 (-100)
  /\ mul (pow2 (-100)) (pow2 (-100)) = zero
  /\ div (remap0_in one nonzero (pow2 127)) (remap0_in one nonzero (pow2 (-100)))
     = S754_infinity false
  /\ mul zero (S754_infinity false) = S754_nan.
Proof. repeat split; vm_compute; reflexivity. Qed.

(** With a rectifier factor 0 for the current strategy, binary32 divides
    the sum by zero and returns the weight 0, where the division of the
    rationals, [x / 0 = 0], would give 1: the exact model says nothing
    about such a call. *)
Lemma zero_factor_weight :
  let camera := [ mkDensities one one false; mkDensities one one false;
                  mkDensities one one false ] in
  let camera_exact := [ mkDensities 1%Q 1%Q false; mkDensities 1%Q 1%Q false;
                        mkDensities 1%Q 1%Q false ] in
  weight [] camera false MIS_BALANCE (fun i => if i =? 3 then zero else one) 0 3
  = Some zero
  /\ exact_weight [] camera_exact false MIS_BALANCE
       (fun i => if i =? 3 then 0%Q else 1%Q) 0 3
     = Some 1%Q.
Proof. split; vm_compute; reflexivity. Qed.

End Binary32Facts.

(** ** The strategy loop, connection by connection *)

Section LoopTrace.
Context {T : Types} {W : World}.

Lemma foldM_trace (rp : RenderParams) (lightDistr : Distribution1D)
    (lightToIndex : LightToIndex) (pFilm : Point2f) (n : nat * nat) (st : St)
    (l : list (Z * Z)) :
  (forall u : Float,
      0 <= (SampleDiscrete lightDistr u).1
      < Z.of_nat (length (lights (rp_scene rp)))) ->
  (rp_estimateFactors rp = true -> is_Some (rp_rectifier rp)) ->
  (rp_estimateVariances rp = true -> 1 <= rp_maxDepth rp) ->
  (forall s t, (s, t) ∈ l ->
     0 <= s <= Z.of_nat n.1 /\ 1 <= t <= Z.of_nat n.2
     /\ skipped (rp_maxDepth rp) t s = false) ->
  forall (L0 : Spectrum) (st0 : St),
    shape st0 = n -> paths_kept st st0 ->
    exists (cs : list Connection) (L : Spectrum) (st' : St),
      foldM (fun p L =>
               execute_strategy rp lightDistr lightToIndex pFilm p.2 p.1 L)
        l L0 st0
      = Some (L, st')
      /\ c_strategy <$> cs = l
      /\ Forall (connected rp lightDistr lightToIndex pFilm st) cs
      /\ L = fold_left
               (fun L c =>
                  if (c_strategy c).2 =? 1 then L else Spec.add L (c_Lpath c))
               cs L0
      /\ splats st' = splats st0 ++ splatted cs.
Proof.
  intros Hd Hr Hv. induction l as [|[s t] l IH]; intros Hl L0 st0 Hn Hk.
  - exists [], L0, st0. cbn. unfold ret, splatted. cbn.
    rewrite app_nil_r. repeat split. constructor.
  - destruct (Hl s t ltac:(left)) as (Hs & Ht & Hsk).
    destruct (execute_strategy_safe n rp lightDistr lightToIndex pFilm t s L0
                Hs Ht Hsk Hd Hr Hv st0 Hn) as (L1 & st1 & He & Hn1).
    pose proof (keeps_paths_execute_strategy _ _ _ _ _ _ _ _ _ _ He) as Hk1.
    destruct (execute_strategy_effect _ _ _ _ _ _ _ _ _ _ He)
      as (Lpath & pFilmNew & mw & st2 & Hc & Hne & Heq).
    destruct (IH (fun s' t' H => Hl s' t' ltac:(right; exact H)) L1 st1 Hn1
                (paths_kept_trans _ _ _ Hk Hk1))
      as (cs & L & st' & Hf & Hcs & Hall & HL & Hsp).
    exists (mkConnection (s, t) Lpath pFilmNew :: cs), L, st'.
    split.
    { cbn [foldM]. cbn [fst snd]. rewrite (bind_run _ _ _ _ _ He). exact Hf. }
    split; [cbn; rewrite Hcs; reflexivity|].
    split.
    { constructor; [|exact Hall].
      exists st0, mw, st2. split; [exact Hk | exact Hc]. }
    cbn [fold_left c_strategy c_Lpath snd]. unfold splatted.
    cbn [List.filter c_strategy snd].
    destruct (Z.eqb_spec t 1) as [E|E].
    + destruct (Heq E) as [-> Hs1]. split; [exact HL|].
      rewrite Hsp, Hs1. cbn. rewrite <- app_assoc. reflexivity.
    + destruct (Hne E) as [-> Hs1]. split; [exact HL|].
      rewrite Hsp, Hs1. reflexivity.
Qed.

(** C6: when the two arrays hold the [nCamera] and [nLight] vertices, the
    light distribution returns indices of [scene.lights], a rectifier
    exists when factors are estimated and the maximum depth is at least 1
    when variances are estimated, the strategy loop of a pixel sample
    returns, and it has called [ConnectBDPT] on the two subpaths exactly
    for the pairs (s,t) with 1 <= t <= nCamera, 0 <= s <= nLight,
    0 <= s + t - 2 <= maxDepth and (s,t) <> (1,1), each once and in loop
    order; the radiance [L] it returns is the sum of the contributions of
    the connections with t <> 1, and the film has received one splat, at
    the raster position the connection returned, for every connection
    with t = 1 and nothing else. *)
Theorem execute_strategies_exact (rp : RenderParams)
    (lightDistr : Distribution1D) (lightToIndex : LightToIndex)
    (pFilm : Point2f) (nCamera nLight : Z) (st : St) :
  nCamera <= Z.of_nat (length (cameraVertices st)) ->
  nLight <= Z.of_nat (length (lightVertices st)) ->
  (forall u : Float,
      0 <= (SampleDiscrete lightDistr u).1
      < Z.of_nat (length (lights (rp_scene rp)))) ->
  (rp_estimateFactors rp = true -> is_Some (rp_rectifier rp)) ->
  (rp_estimateVariances rp = true -> 1 <= rp_maxDepth rp) ->
  let executed := strategies (rp_maxDepth rp) nCamera nLight in
  NoDup executed
  /\ (forall s t,
         (s, t) ∈ executed
         <-> 1 <= t <= nCamera /\ 0 <= s <= nLight
             /\ 0 <= s + t - 2 <= rp_maxDepth rp /\ (s, t) <> (1, 1))
  /\ exists (cs : list Connection) (L : Spectrum) (st' : St),
       execute_strategies rp lightDistr lightToIndex pFilm nCamera nLight st
       = Some (L, st')
       /\ c_strategy <$> cs = executed
       /\ Forall (connected rp lightDistr lightToIndex pFilm st) cs
       /\ L = accumulated cs
       /\ splats st' = splats st ++ splatted cs.
Proof.
  intros Hc Hl Hd Hr Hv. cbv zeta.
  split; [apply NoDup_strategies|].
  split; [intros s t; apply elem_of_strategies|].
  rewrite execute_strategies_foldM.
  apply (foldM_trace rp lightDistr lightToIndex pFilm (shape st) st); try assumption.
  - intros s t H. apply elem_of_strategies in H as (Ht & Hs & Hdep).
    split; [cbn; lia|]. split; [cbn; lia|]. apply skipped_false. exact Hdep.
  - reflexivity.
  - apply paths_kept_refl.
Qed.

End LoopTrace.


(** ** Specular events along a walk *)

Section SpecularWalk.
Context {T : Types} {W : World}.

(** An iteration keeps the vertices recorded before it, up to the reverse
    density of the last of them. *)
Lemma RandomWalk_iter_old (scene : Scene) (maxDepth : Z)
    (mode : TransportMode) (path : VertexPtr) (w : WalkState) (st : St)
    (flow : Flow) (w' : WalkState) (st' : St) (i : Z) (e : Vertex) :
  1 <= path.2 ->
  0 <= w_bounces w < maxDepth ->
  RandomWalk_iter scene maxDepth mode path w st = Some ((flow, w'), st') ->
  -1 <= i < w_bounces w ->
  array_of path.1 st !! Z.to_nat (path.2 + i) = Some e ->
  exists e',
    array_of path.1 st' !! Z.to_nat (path.2 + i) = Some e'
    /\ delta e' = delta e /\ pdfFwd e' = pdfFwd e
    /\ (i < w_bounces w - 1 -> e' = e).
Proof.
  intros Hp Hb H Hi He.
  destruct (Z.eq_dec i (w_bounces w - 1)) as [E|E].
  - subst i.
    replace (path.2 + (w_bounces w - 1)) with (path.2 + w_bounces w - 1) in *
      by lia.
    assert (H0 : 0 <= path.2 + w_bounces w - 1) by lia.
    destruct (RandomWalk_iter_prev _ _ _ _ _ _ _ _ _ e H0 He H) as [r Hr].
    exists (set_pdfRev r e). split; [exact Hr|].
    split; [reflexivity|]. split; [reflexivity|]. lia.
  - destruct (RandomWalk_iter_post _ _ _ _ _ _ _ _ _ Hb H) as [F _].
    destruct F as (_ & _ & Hk & _).
    exists e. split; [|auto].
    rewrite Hk; [exact He|]. lia.
Qed.

Lemma marked_delta_kept (scene : Scene) (maxDepth : Z)
    (mode : TransportMode) (path : VertexPtr) (w : WalkState) (st : St)
    (flow : Flow) (w' : WalkState) (st' : St) (i : Z) :
  1 <= path.2 ->
  0 <= w_bounces w < maxDepth ->
  RandomWalk_iter scene maxDepth mode path w st = Some ((flow, w'), st') ->
  0 <= i < w_bounces w ->
  marked_delta path i st -> marked_delta path i st'.
Proof.
  intros Hp Hb H Hi (vertex & prev & Hv & Hpv & Hd & H0).
  destruct (RandomWalk_iter_old _ _ _ _ _ _ _ _ _ i vertex Hp Hb H
              ltac:(lia) Hv) as (v' & Hv' & Ed & _ & _).
  replace (path.2 + i - 1) with (path.2 + (i - 1)) in * by lia.
  destruct (RandomWalk_iter_old _ _ _ _ _ _ _ _ _ (i - 1) prev Hp Hb H
              ltac:(lia) Hpv) as (p' & Hp' & _ & _ & Ep).
  exists v', p'. split; [exact Hv'|].
  split; [replace (path.2 + i - 1) with (path.2 + (i - 1)) by lia; exact Hp'|].
  split; [congruence|]. rewrite Ep by lia. exact H0.
Qed.

Lemma reached_with_zero_kept (scene : Scene) (maxDepth : Z)
    (mode : TransportMode) (path : VertexPtr) (w : WalkState) (st : St)
    (flow : Flow) (w' : WalkState) (st' : St) (i : Z) :
  1 <= path.2 ->
  0 <= w_bounces w < maxDepth ->
  RandomWalk_iter scene maxDepth mode path w st = Some ((flow, w'), st') ->
  0 <= i < w_bounces w ->
  reached_with_zero path i st -> reached_with_zero path i st'.
Proof.
  intros Hp Hb H Hi (next & Hn & H0).
  destruct (RandomWalk_iter_old _ _ _ _ _ _ _ _ _ i next Hp Hb H
              ltac:(lia) Hn) as (n' & Hn' & _ & Ef & _).
  exists n'. split; [exact Hn'|]. rewrite Ef. exact H0.
Qed.

(** What has been established about an event stays true until the walk
    returns, and a forward density of 0 that is still carried ends up in
    the next vertex, if the walk creates one. *)
Lemma RandomWalk_loop_keeps (scene : Scene) (maxDepth : Z)
    (mode : TransportMode) (path : VertexPtr) (fuel : nat) :
  1 <= path.2 ->
  forall (w : WalkState) (st : St) (n : Z) (st' : St),
    0 <= w_bounces w < maxDepth ->
    RandomWalk_loop fuel scene maxDepth mode path w st = Some (Some n, st') ->
    (forall i, 0 <= i < w_bounces w ->
       (marked_delta path i st -> marked_delta path i st')
       /\ (reached_with_zero path i st -> reached_with_zero path i st'))
    /\ ((w_pdfFwd w == 0)%Q -> w_bounces w < n ->
        reached_with_zero path (w_bounces w) st').
Proof.
  intros Hp. induction fuel as [|fuel IH]; intros w st n st' Hb H.
  - discriminate.
  - cbn [RandomWalk_loop] in H.
    apply bind_Some in H as ([flow w1] & st1 & Hi & H).
    destruct (RandomWalk_iter_post _ _ _ _ _ _ _ _ _ Hb Hi) as [_ Hf].
    pose proof (RandomWalk_iter_one _ _ _ _ _ _ _ _ _ Hi) as Hone.
    assert (Kept : forall i, 0 <= i < w_bounces w ->
              (marked_delta path i st -> marked_delta path i st1)
              /\ (reached_with_zero path i st -> reached_with_zero path i st1)).
    { intros i Hi'. split; intros Hm.
      - eapply marked_delta_kept; eassumption.
      - eapply reached_with_zero_kept; eassumption. }
    assert (New : (w_pdfFwd w == 0)%Q -> w_bounces w1 = w_bounces w + 1 ->
              reached_with_zero path (w_bounces w) st1).
    { intros H0 Hb1.
      destruct (created_vertex_pdfFwd _ _ _ _ _ _ _ _ _ H0 Hi Hb1)
        as (next & Hn & Hz).
      exists next. split; assumption. }
    destruct flow as [| |specular].
    + unfold ret in H. injection H as <- <-. split; [exact Kept|].
      intros H0 Hlt. apply New; [exact H0 | lia].
    + destruct (IH w1 st1 n st' ltac:(lia) H) as [K1 N1]. split.
      * intros i Hi'. destruct (Kept i Hi') as [Ka Kb].
        destruct (K1 i ltac:(lia)) as [Ka1 Kb1]. split; auto.
      * intros H0 Hlt. apply skip_keeps_pdfFwd in Hi as [Ef Eb].
        rewrite <- Eb. apply N1; [rewrite Ef; exact H0 | lia].
    + destruct (IH w1 st1 n st' ltac:(lia) H) as [K1 N1]. split.
      * intros i Hi'. destruct (Kept i Hi') as [Ka Kb].
        destruct (K1 i ltac:(lia)) as [Ka1 Kb1]. split; auto.
      * intros H0 Hlt. destruct (K1 (w_bounces w) ltac:(lia)) as [_ Kb1].
        apply Kb1. apply New; [exact H0 | lia].
Qed.

Lemma RandomWalk_loop_specular (scene : Scene) (maxDepth : Z)
    (mode : TransportMode) (path : VertexPtr) (fuel : nat) :
  1 <= path.2 ->
  forall (w : WalkState) (st : St) (n : Z) (st' : St),
    0 <= w_bounces w < maxDepth ->
    RandomWalk_loop fuel scene maxDepth mode path w st = Some (Some n, st') ->
    forall i, i ∈ specular_events fuel scene maxDepth mode path w st ->
      w_bounces w <= i < n
      /\ marked_delta path i st'
      /\ (i + 1 < n -> reached_with_zero path (i + 1) st').
Proof.
  intros Hp. induction fuel as [|fuel IH]; intros w st n st' Hb H i Hin.
  - discriminate.
  - cbn [RandomWalk_loop] in H. cbn [specular_events] in Hin.
    apply bind_Some in H as ([flow w1] & st1 & Hi & H).
    rewrite Hi in Hin.
    destruct (RandomWalk_iter_post _ _ _ _ _ _ _ _ _ Hb Hi) as [_ Hf].
    destruct flow as [| |specular].
    + apply elem_of_nil in Hin. contradiction.
    + destruct (IH w1 st1 n st' ltac:(lia) H i Hin) as (Hr & Hm & Hz).
      split; [lia|]. split; assumption.
    + apply elem_of_app in Hin as [Hin|Hin].
      * destruct specular; [|apply elem_of_nil in Hin; contradiction].
        apply list_elem_of_singleton in Hin. subst i.
        destruct (specular_event_now _ _ _ _ _ _ _ _ Hi)
          as ((vertex & prev & Hv & Hpv & Hd & H0) & Hfw & _ & Hb1 & _).
        destruct (RandomWalk_loop_post scene maxDepth mode path fuel w1 st1 n st'
                    ltac:(lia) H) as [Hn _].
        destruct (RandomWalk_loop_keeps scene maxDepth mode path fuel Hp w1 st1 n st'
                    ltac:(lia) H)
          as [K N].
        split; [lia|]. split.
        -- apply (K (w_bounces w) ltac:(lia)).
           exists vertex, prev. repeat split; assumption.
        -- intros Hlt. rewrite <- Hb1. apply N; [rewrite Hfw; reflexivity | lia].
      * destruct (IH w1 st1 n st' ltac:(lia) H i Hin) as (Hr & Hm & Hz).
        split; [lia|]. split; assumption.
Qed.

End SpecularWalk.


(** ** The temporary update against the specification *)

Section UpdateSpec.
Context {T : Types} {W : World}.















End UpdateSpec.

(** ** The weight against the specification *)

Section WeightSpec.
Context {T : Types} {W : World}.


Lemma spec_alpha_eq (rectifier : option SAMISRectifier) (pxCoords : Point2i)
    (d i : Z) :
  spec_alpha rectifier pxCoords d i = stratFactor rectifier pxCoords d i.
Proof. destruct rectifier; reflexivity. Qed.








End WeightSpec.


(** ** The delta marks of a walk *)

Section SpecularMarks.
Context {T : Types} {W : World}.

Ltac written_facts path w :=
  repeat match goal with
    | H : with_sampler _ ?s = Some (_, ?s') |- _ =>
        let E := fresh "E" in
        pose proof (with_sampler_array _ _ _ _ path.1 H) as E; clear H
    | H : store (_, path.2 + w_bounces w) ?v ?s = Some (_, ?s') |- _ =>
        let E := fresh "E" in let N := fresh "N" in
        pose proof (lookup_store_same _ _ _ _ _ H) as E;
        pose proof (store_in_bounds _ _ _ _ _ H) as N;
        clear H
    | H : store (_, path.2 + w_bounces w - 1) ?v ?s = Some (_, ?s') |- _ =>
        let E := fresh "E" in
        pose proof (lookup_store_other _ _ _ _ _ (path.2 + w_bounces w) H) as E;
        clear H
    end;
  cbn [fst snd] in *.

(** The vertex an iteration writes is marked delta exactly when the
    iteration has sampled a specular lobe at it. *)
Lemma RandomWalk_iter_mark (scene : Scene) (maxDepth : Z)
    (mode : TransportMode) (path : VertexPtr) (w : WalkState) (st : St)
    (flow : Flow) (w' : WalkState) (st' : St) :
  RandomWalk_iter scene maxDepth mode path w st = Some ((flow, w'), st') ->
  w_bounces w' = w_bounces w + 1 ->
  exists v,
    array_of path.1 st' !! Z.to_nat (path.2 + w_bounces w) = Some v
    /\ delta v = match flow with Scattered true => true | _ => false end.
Proof.
  intros H Hb. unfold RandomWalk_iter, update_prev_pdfRev in H. cbv zeta in H.
  invert_run; cbn [w_bounces] in Hb; try lia.
  all: written_facts path w.
  all: repeat match goal with
         | E : array_of _ ?s' = array_of _ ?s |- _ =>
             rewrite E in *; clear E
         | E : 0 <= ?k -> ?k <> _ -> array_of _ ?s' !! _ = array_of _ ?s !! _
           |- _ =>
             specialize (E ltac:(lia) ltac:(lia)); rewrite E in *; clear E
         end.
  all: repeat match goal with
         | H1 : ?x = Some ?u, H2 : ?x = Some ?v |- _ =>
             rewrite H1 in H2; injection H2 as ?; subst
         end.
  all: eexists; (split; [eassumption|]); cbn;
    repeat match goal with
      | E : bs_specular _ = _ |- _ => rewrite E
      end; reflexivity.
Qed.

(** The rest of a walk keeps the delta flag of the vertices recorded so
    far. *)
Lemma RandomWalk_loop_delta (scene : Scene) (maxDepth : Z)
    (mode : TransportMode) (path : VertexPtr) (fuel : nat) :
  1 <= path.2 ->
  forall (w : WalkState) (st : St) (n : Z) (st' : St) (i : Z) (v : Vertex),
    0 <= w_bounces w < maxDepth ->
    RandomWalk_loop fuel scene maxDepth mode path w st = Some (Some n, st') ->
    0 <= i < w_bounces w ->
    array_of path.1 st !! Z.to_nat (path.2 + i) = Some v ->
    exists v',
      array_of path.1 st' !! Z.to_nat (path.2 + i) = Some v'
      /\ delta v' = delta v.
Proof.
  intros Hp. induction fuel as [|fuel IH]; intros w st n st' i v Hb H Hi Hv.
  - discriminate.
  - cbn [RandomWalk_loop] in H.
    apply bind_Some in H as ([flow w1] & st1 & Hit & H).
    destruct (RandomWalk_iter_post _ _ _ _ _ _ _ _ _ Hb Hit) as [_ Hf].
    destruct (RandomWalk_iter_old _ _ _ _ _ _ _ _ _ i v Hp Hb Hit
                ltac:(lia) Hv) as (v1 & Hv1 & Ed & _ & _).
    destruct flow as [| |specular].
    + unfold ret in H. injection H as <- <-. exists v1. split; assumption.
    + destruct (IH w1 st1 n st' i v1 ltac:(lia) H ltac:(lia) Hv1)
        as (v' & Hv' & Ed'). exists v'. split; [exact Hv' | congruence].
    + destruct (IH w1 st1 n st' i v1 ltac:(lia) H ltac:(lia) Hv1)
        as (v' & Hv' & Ed'). exists v'. split; [exact Hv' | congruence].
Qed.

(** A vertex the walk has recorded is marked delta only if a specular
    lobe was sampled at it. *)
Lemma RandomWalk_loop_marks (scene : Scene) (maxDepth : Z)
    (mode : TransportMode) (path : VertexPtr) (fuel : nat) :
  1 <= path.2 ->
  forall (w : WalkState) (st : St) (n : Z) (st' : St) (i : Z) (v : Vertex),
    0 <= w_bounces w < maxDepth ->
    RandomWalk_loop fuel scene maxDepth mode path w st = Some (Some n, st') ->
    w_bounces w <= i < n ->
    array_of path.1 st' !! Z.to_nat (path.2 + i) = Some v ->
    delta v = true ->
    i ∈ specular_events fuel scene maxDepth mode path w st.
Proof.
  intros Hp. induction fuel as [|fuel IH]; intros w st n st' i v Hb H Hi Hv Hd.
  - discriminate.
  - cbn [RandomWalk_loop] in H. cbn [specular_events].
    apply bind_Some in H as ([flow w1] & st1 & Hit & H).
    rewrite Hit.
    destruct (RandomWalk_iter_post _ _ _ _ _ _ _ _ _ Hb Hit) as [_ Hf].
    pose proof (RandomWalk_iter_one _ _ _ _ _ _ _ _ _ Hit) as Hone.
    destruct flow as [| |specular].
    + unfold ret in H. injection H as <- <-.
      assert (i = w_bounces w) by lia. subst i.
      destruct (RandomWalk_iter_mark _ _ _ _ _ _ _ _ _ Hit ltac:(lia))
        as (v1 & Hv1 & Ed). rewrite Hv in Hv1. injection Hv1 as <-.
      congruence.
    + apply (IH w1 st1 n st' i v ltac:(lia) H ltac:(lia) Hv Hd).
    + destruct Hf as [Hb1 Hlt]. apply elem_of_app.
      destruct (Z.eq_dec i (w_bounces w)) as [->|Hne].
      * left.
        destruct (RandomWalk_iter_mark _ _ _ _ _ _ _ _ _ Hit Hb1)
          as (v1 & Hv1 & Ed).
        destruct (RandomWalk_loop_delta scene maxDepth mode path fuel Hp
                    w1 st1 n st' (w_bounces w) v1 ltac:(lia) H ltac:(lia) Hv1)
          as (v' & Hv' & Ed').
        rewrite Hv in Hv'. injection Hv' as <-.
        destruct specular; [apply list_elem_of_here|congruence].
      * right. apply (IH w1 st1 n st' i v ltac:(lia) H ltac:(lia) Hv Hd).
Qed.

(** C3 (amended): for every specular scattering event of a walk that
    [RandomWalk] has returned from, at the vertex [path[i]]: that vertex
    is marked delta, the reverse density stored in the vertex in front of
    it is 0, and the next vertex the walk has created, [path[i + 1]], if
    there is one, has forward density 0.  No other vertex of the walk is
    marked delta. *)
Theorem specular_event (fuel : nat) (scene : Scene) (ray : RayDifferential)
    (beta : Spectrum) (pdf : Float) (maxDepth : Z) (mode : TransportMode)
    (path : VertexPtr) (st : St) (n : Z) (st' : St) :
  0 <= maxDepth ->
  1 <= path.2 ->
  RandomWalk fuel scene ray beta pdf maxDepth mode path st = Some (Some n, st') ->
  forall i,
    (i ∈ RandomWalk_specular fuel scene ray beta pdf maxDepth mode path st ->
     0 <= i < n
     /\ marked_delta path i st'
     /\ (i + 1 < n -> reached_with_zero path (i + 1) st'))
    /\ (0 <= i < n ->
        forall v,
          array_of path.1 st' !! Z.to_nat (path.2 + i) = Some v ->
          delta v = true ->
          i ∈ RandomWalk_specular fuel scene ray beta pdf maxDepth mode path st).
Proof.
  intros H0 Hp H i. unfold RandomWalk in H. unfold RandomWalk_specular.
  destruct (Z.eqb_spec maxDepth 0) as [E|E].
  - unfold ret in H. injection H as <- <-. split.
    + intros Hin. apply elem_of_nil in Hin. contradiction.
    + lia.
  - split.
    + intros Hin.
      destruct (RandomWalk_loop_specular scene maxDepth mode path fuel Hp
                  (mkWalk ray beta pdf 0%Q 0) st n st'
                  ltac:(cbn; lia) H i Hin) as (Hr & Hm & Hz).
      cbn [w_bounces] in Hr. split; [lia|]. split; assumption.
    + intros Hi v Hv Hd.
      apply (RandomWalk_loop_marks scene maxDepth mode path fuel Hp
               (mkWalk ray beta pdf 0%Q 0) st n st' i v
               ltac:(cbn; lia) H ltac:(cbn; lia) Hv Hd).
Qed.

End SpecularMarks.


(** * Runs of the small world *)

Module Examples.
Import Toy.

(** C10 (as stated, at a rejected connection): for [s = 1], [t = 2] and a
    camera subpath that ends in a light vertex, [ConnectBDPT] returns the
    black spectrum, and the Float behind [misWeightPtr], 1/2 before the
    call, is still 1/2 and not 0. *)
Lemma ConnectBDPT_rejected_keeps_weight :
  ConnectBDPT (W := world) [] 1 2 tt tt tt (mkPoint2f 0 0) (Some (1 # 2)%Q)
    None MIS_BALANCE escaped
  = Some ((Spectrum_const 0, mkPoint2f 0 0, Some (1 # 2)%Q), escaped)
  /\ Spec.IsBlack (Spectrum_const (T := types) 0) = true
  /\ Qeq_bool (1 # 2) 0 = false.
Proof. repeat split. Qed.

(** A connection of the small world that passes the guard with a non-black
    contribution. *)
Lemma ConnectBDPT_black_or_weighted_witness :
  (Spec.IsBlack [1%Q] = true ->
   (forall mis : Vertex -> Point2i -> M Float,
       ConnectBDPT_with (W := world) mis [] 2 2 tt tt tt (mkPoint2f 0 0)
         (Some 0%Q) paths
       = Some ((Spec.scale [1%Q] 0, mkPoint2f 0 0, Some 0%Q), paths))
   /\ Spec.IsBlack (Spec.scale [1%Q] 0) = true)
  /\ (Spec.IsBlack [1%Q] = false ->
      forall (misWeight : Float) (st2 : St),
        MISWeight (W := world) [] Vertex_default 2 2 tt tt
          (Point2i_of (mkPoint2f 0 0)) None MIS_BALANCE paths
        = Some (misWeight, st2) ->
        ConnectBDPT (W := world) [] 2 2 tt tt tt (mkPoint2f 0 0) (Some 0%Q)
          None MIS_BALANCE paths
        = Some ((Spec.scale [1%Q] misWeight, mkPoint2f 0 0, Some misWeight), st2)).
Proof.
  apply (ConnectBDPT_black_or_weighted (W := world) [] 2 2 tt tt tt
           (mkPoint2f 0 0) (Some 0%Q) None MIS_BALANCE
           paths paths paths [1%Q] Vertex_default (mkPoint2f 0 0)).
  - reflexivity.
  - reflexivity.
Defined.

(** The exact weight of the strategy (3,3) of the small world, under the
    power heuristic and with a rectifier, lies in [0, 1]. *)
Lemma MISWeight_range_witness :
  exists misWeight,
    MISWeight (W := world) [] Vertex_default 3 3 tt tt (0, 0) (Some tt)
      MIS_POWER paths
    = Some (misWeight, paths)
    /\ (0 <= misWeight <= 1)%Q.
Proof.
  apply (MISWeight_range (W := world) [] Vertex_default 3 3 tt tt (0, 0)
           (Some tt) MIS_POWER paths).
  - repeat split; intros; cbn; lra.
  - intros r _ pxCoords d t. cbn. lra.
  - repeat constructor; cbn; lra.
  - repeat constructor; cbn; lra.
  - split; cbn; lra.
  - unfold valid_call. cbn. lia.
Defined.

(** The same call evaluated: the weight is 6/13, and the state is the initial one. *)
Example MISWeight_paths_3_3 :
  exists misWeight,
    MISWeight (W := world) [] Vertex_default 3 3 tt tt (0, 0) None MIS_BALANCE paths
    = Some (misWeight, paths)
    /\ (misWeight == 6 # 13)%Q.
Proof. eexists. split; [vm_compute; reflexivity|]. vm_compute. reflexivity. Qed.

(** C3 (as stated, on a walk that meets a mirror and then diffuse
    surfaces): the vertex at which the specular lobe is sampled is marked
    delta but has non-zero forward and reverse densities, and the vertex
    reached through the specular event has forward density 0 but is not
    marked delta. *)
Lemma specular_vertex_densities :
  exists st' v1 v2,
    RandomWalk (W := world) 10 [Mirror; Diffuse; Diffuse; Diffuse] O [1%Q] 1 3
      Radiance (CameraArr, 1) fresh
    = Some (Some 3, st')
    /\ cameraVertices st' !! 1%nat = Some v1
    /\ cameraVertices st' !! 2%nat = Some v2
    /\ (delta v1 = true
        /\ Qeq_bool (pdfFwd v1) 0 = false /\ Qeq_bool (pdfRev v1) 0 = false)
    /\ (delta v2 = false /\ Qeq_bool (pdfFwd v2) 0 = true).
Proof.
  eexists _, _, _. split; [vm_compute; reflexivity|].
  split; [reflexivity|]. split; [reflexivity|]. repeat split.
Qed.

(** C5 (as stated, on a camera walk that meets one diffuse surface): the
    walk returns 2 and, besides the first two entries of the buffer that
    starts at the second camera vertex, it has written the reverse density
    of the camera endpoint in front of the buffer, 0 before and 2/3
    after. *)
Lemma RandomWalk_writes_in_front :
  exists st' v v',
    RandomWalk (W := world) 10 [Diffuse] O [1%Q] 1 3 Radiance (CameraArr, 1) fresh
    = Some (Some 2, st')
    /\ cameraVertices fresh !! 0%nat = Some v
    /\ cameraVertices st' !! 0%nat = Some v'
    /\ Qeq_bool (pdfRev v) 0 = true
    /\ Qeq_bool (pdfRev v') (2 # 3) = true
    /\ Qeq_bool (pdfRev v) (pdfRev v') = false.
Proof.
  eexists _, _, _. split; [vm_compute; reflexivity|].
  split; [reflexivity|]. split; [reflexivity|]. repeat split.
Qed.

(** A camera walk of depth 3 through a mirror, a medium boundary and a
    diffuse surface, with fuel 10. *)
Lemma RandomWalk_bounds_witness :
  exists n st',
    RandomWalk (W := world) 10 [Mirror; Boundary; Diffuse] O [1%Q] 1 3 Radiance
      (CameraArr, 1) fresh
    = Some (Some n, st')
    /\ 0 <= n <= 3
    /\ length (array_of CameraArr st') = length (array_of CameraArr fresh)
    /\ (forall i : nat,
           Z.of_nat i < 1 - 1 \/ 1 + n <= Z.of_nat i ->
           array_of CameraArr st' !! i = array_of CameraArr fresh !! i)
    /\ (forall e : Vertex,
           array_of CameraArr fresh !! Z.to_nat (1 - 1) = Some e ->
           exists r,
             array_of CameraArr st' !! Z.to_nat (1 - 1) = Some (set_pdfRev r e))
    /\ array_of (other CameraArr) st' = array_of (other CameraArr) fresh
    /\ outputs_kept fresh st'.
Proof.
  apply (RandomWalk_bounds (W := world) 10 [Mirror; Boundary; Diffuse] O [1%Q] 1 3
           Radiance (CameraArr, 1) fresh).
  - lia.
  - cbn. lia.
  - cbn. lia.
  - vm_compute. lia.
Defined.

(** That walk evaluated: the mirror and the diffuse surface give two
    vertices, then the ray escapes and is captured as a third. *)
Example RandomWalk_through_boundary :
  exists st',
    RandomWalk (W := world) 10 [Mirror; Boundary; Diffuse] O [1%Q] 1 3 Radiance
      (CameraArr, 1) fresh
    = Some (Some 3, st')
    /\ type <$> cameraVertices st'
       = [VertexType.Camera; VertexType.Surface; VertexType.Surface;
          VertexType.Light].
Proof. eexists. split; vm_compute; reflexivity. Qed.

(** With too little fuel the model reports that the loop has not been
    left. *)
Example RandomWalk_out_of_fuel :
  exists st',
    RandomWalk (W := world) 2 [Mirror; Boundary; Diffuse] O [1%Q] 1 3 Radiance
      (CameraArr, 1) fresh
    = Some (None, st').
Proof. eexists. vm_compute. reflexivity. Qed.

(** The strategies of a sample with three camera and three light
    vertices at [maxDepth = 2], in loop order. *)
Example strategies_2_3_3 :
  strategies 2 3 3 = [(2, 1); (3, 1); (0, 2); (1, 2); (2, 2); (0, 3); (1, 3)].
Proof. reflexivity. Qed.

Definition params : RenderParams :=
  mkRenderParams [] tt 2 MIS_BALANCE None false false false.

(** The loop on the two subpaths of the small world: the two strategies
    with [t = 1] are splatted at the raster position the camera sampled,
    the others are accumulated. *)
Example execute_strategies_paths :
  exists L st',
    execute_strategies (W := world) params tt tt (mkPoint2f 0 0) 3 3 paths
    = Some (L, st')
    /\ map fst (splats st') = [mkPoint2f 3 4; mkPoint2f 3 4]
    /\ lightVertices st' = lightVertices paths
    /\ cameraVertices st' = cameraVertices paths.
Proof. eexists _, _. split; [vm_compute; reflexivity|]. repeat split. Qed.

(** A camera subpath generated for depth 4 in a buffer of four vertices. *)
Example GenerateCameraSubpath_fresh :
  exists st',
    GenerateCameraSubpath (W := world) 10 [Mirror; Diffuse] 4 tt (mkPoint2f 0 0)
      (CameraArr, 0) fresh
    = Some (Some 4, st').
Proof. eexists. vm_compute. reflexivity. Qed.

(** A connection with a black contribution: the camera subpath of two
    vertices does not end on a light, so the strategy (0,2) returns black
    and overwrites the Float behind [misWeightPtr] with 0. *)
Example ConnectBDPT_black_run :
  ConnectBDPT (W := world) [] 0 2 tt tt tt (mkPoint2f 0 0) (Some (1 # 2)%Q)
    None MIS_BALANCE paths
  = Some (([0%Q], mkPoint2f 0 0, Some 0%Q), paths).
Proof. reflexivity. Qed.

(** A connection with a non-black contribution: the strategy (2,2) has
    weight 2/7, stored and multiplied into the unit contribution. *)
Example ConnectBDPT_weighted_run :
  exists L w,
    ConnectBDPT (W := world) [] 2 2 tt tt tt (mkPoint2f 0 0) (Some (1 # 2)%Q)
      None MIS_BALANCE paths
    = Some ((L, mkPoint2f 0 0, Some w), paths)
    /\ (w == 2 # 7)%Q /\ Spec.eqb L [w] = true.
Proof. eexists _, _. split; [vm_compute; reflexivity|]. split; reflexivity. Qed.

(** The strategy (2,1) of the small world samples the camera once and
    weights the contribution against the two alternatives. *)
Lemma ConnectBDPT_keeps_subpaths_witness :
  lightVertices paths_drawn = lightVertices paths
  /\ cameraVertices paths_drawn = cameraVertices paths
  /\ splats paths_drawn = splats paths
  /\ rectifierLog paths_drawn = rectifierLog paths
  /\ varianceLog paths_drawn = varianceLog paths.
Proof.
  eapply (ConnectBDPT_keeps_subpaths (W := world) [] 2 1 tt tt tt
            (mkPoint2f 0 0) (Some 0%Q) None MIS_BALANCE paths _ paths_drawn).
  vm_compute. reflexivity.
Defined.

(** That call evaluated: the camera hands back the raster position (3,4),
    and the contribution is weighted by 4/13. *)
Example ConnectBDPT_camera_run :
  exists L w,
    ConnectBDPT (W := world) [] 2 1 tt tt tt (mkPoint2f 0 0) (Some 0%Q)
      None MIS_BALANCE paths
    = Some ((L, mkPoint2f 3 4, Some w), paths_drawn)
    /\ Qeq_bool w (4 # 13) = true.
Proof. eexists _, _. split; [vm_compute; reflexivity|]. reflexivity. Qed.

(** The strategy (2,2) of the small world keeps the raster position. *)
Lemma ConnectBDPT_raster_witness : mkPoint2f 0 0 = mkPoint2f 0 0.
Proof.
  eapply (ConnectBDPT_raster (W := world) [] 2 2 tt tt tt (mkPoint2f 0 0)
            (Some 0%Q) None MIS_BALANCE paths _ _ _ paths).
  - vm_compute. reflexivity.
  - left. lia.
Defined.

(** The strategy (1,3) of the small world, which samples the one light. *)
Lemma ConnectBDPT_defined_witness :
  exists r st',
    ConnectBDPT (W := world) [] 1 3 tt tt tt (mkPoint2f 0 0) (Some 0%Q)
      None MIS_BALANCE paths
    = Some (r, st').
Proof.
  apply (ConnectBDPT_defined (W := world) [] 1 3 tt tt tt (mkPoint2f 0 0)
           (Some 0%Q) None MIS_BALANCE paths).
  - unfold valid_call. cbn. lia.
  - intros u. cbn. lia.
Defined.


(** The strategy (1,0) of the small world. *)
Lemma MISWeight_defined_iff_witness :
  MISWeight (W := world) [] Vertex_default 1 0 tt tt (0, 0) None MIS_BALANCE
    paths
  = None
  <-> (0 = 0 /\ 1 <= 1 /\ 1 <> 2) \/ (1 = 0 /\ 0 = 1).
Proof.
  apply (MISWeight_defined_iff (W := world) [] Vertex_default 1 0 tt tt (0, 0)
           None MIS_BALANCE paths); cbn; lia.
Defined.

(** Evaluated: the two calls outside the domain of [MISWeight], and the
    call without any vertex, which returns 1. *)
Example MISWeight_outside_domain :
  MISWeight (W := world) [] Vertex_default 3 0 tt tt (0, 0) None MIS_BALANCE
    paths = None
  /\ MISWeight (W := world) [] Vertex_default 0 1 tt tt (0, 0) None
       MIS_BALANCE paths = None
  /\ MISWeight (W := world) [] Vertex_default 0 0 tt tt (0, 0) None
       MIS_BALANCE paths = Some (1%Q, paths).
Proof. repeat split. Qed.

(** The strategy (3,3) of the small world under the uniform heuristic. *)
Lemma MISWeight_uniform_witness :
  exists sc view w,
    update_for_strategy (W := world) [] Vertex_default 3 3 tt tt paths
    = Some (sc, view)
    /\ MISWeight (W := world) [] Vertex_default 3 3 tt tt (0, 0) None
         MIS_UNIFORM paths
       = Some (w, paths)
    /\ let n :=
         (length (camera_terms (cameraVertices view) MIS_UNIFORM
                    (fun _ => 1%Q) (Z.to_nat 3))
          + length (light_terms (lightVertices view) MIS_UNIFORM
                      (fun _ => 1%Q) (Z.to_nat 3) 3))%nat in
       (w == 1 / (1 + inject_Z (Z.of_nat n)))%Q.
Proof.
  apply (MISWeight_uniform (W := world) [] Vertex_default 3 3 tt tt (0, 0) paths).
  - unfold valid_call. cbn. lia.
  - lia.
Defined.

(** Evaluated: five alternatives are admissible, the weight is 1/6. *)
Example MISWeight_uniform_paths :
  exists w,
    MISWeight (W := world) [] Vertex_default 3 3 tt tt (0, 0) None MIS_UNIFORM
      paths
    = Some (w, paths)
    /\ Qeq_bool w (1 # 6) = true.
Proof. eexists. split; [vm_compute; reflexivity|]. reflexivity. Qed.

(** The rectifier of the small world returns 2 everywhere. *)
Lemma MISWeight_constant_rectifier_witness :
  exists w w',
    MISWeight (W := world) [] Vertex_default 3 3 tt tt (0, 0) (Some tt)
      MIS_POWER paths
    = Some (w, paths)
    /\ MISWeight (W := world) [] Vertex_default 3 3 tt tt (0, 0) None MIS_POWER
         paths
       = Some (w', paths)
    /\ (w == w')%Q.
Proof.
  apply (MISWeight_constant_rectifier (W := world) [] Vertex_default 3 3 tt tt
           (0, 0) tt 2 MIS_POWER paths).
  - unfold valid_call. cbn. lia.
  - reflexivity.
  - intros px d t'. reflexivity.
Defined.


(** An intersection of the small world, where all cosines are 1. *)
Lemma CorrectShadingNormal_same_normal_witness :
  (CorrectShadingNormal (W := world) (O, Diffuse) tt tt Importance
   == if true && Qeq_bool (1 * 1) 0 then 0 else 1)%Q.
Proof.
  apply (CorrectShadingNormal_same_normal (W := world) (O, Diffuse) tt tt
           Importance).
  reflexivity.
Defined.

(** The camera walk through a mirror, a medium boundary and a diffuse
    surface records two surface vertices and the escaped ray. *)
Lemma RandomWalk_records_witness :
  0 <= 3
  /\ forall i, 0 <= i < 3 ->
       exists v,
         array_of CameraArr walked !! Z.to_nat (1 + i) = Some v
         /\ (scattering_vertex v
             \/ (escaped_vertex v /\ Radiance = Radiance /\ i = 3 - 1)).
Proof.
  split; [lia|].
  apply (RandomWalk_records (W := world) 10 [Mirror; Boundary; Diffuse] O
           [1%Q] 1 3 Radiance (CameraArr, 1) fresh 3 walked).
  - lia.
  - cbn. lia.
  - vm_compute. reflexivity.
Defined.

(** A camera subpath of four vertices: the camera, a mirror, a diffuse
    surface and the escaped ray. *)
Lemma GenerateCameraSubpath_shape_witness :
  1 <= 4 <= 4
  /\ frame CameraArr 0 (0 + 4) fresh camera_generated
  /\ (exists b ray r,
         array_of CameraArr camera_generated !! Z.to_nat 0
         = Some (set_pdfRev r (CreateCamera (W := world) tt ray b)))
  /\ (forall i, 1 <= i < 4 ->
        exists v,
          array_of CameraArr camera_generated !! Z.to_nat (0 + i) = Some v
          /\ (scattering_vertex v \/ (escaped_vertex v /\ i = 4 - 1))).
Proof.
  apply (GenerateCameraSubpath_shape (W := world) 10 [Mirror; Diffuse] 4 tt
           (mkPoint2f 0 0) (CameraArr, 0) fresh 4 camera_generated).
  - lia.
  - vm_compute. reflexivity.
Defined.

(** A light subpath of three vertices: the light and two diffuse
    surfaces. *)
Lemma GenerateLightSubpath_shape_witness :
  0 <= 3 <= 3
  /\ frame LightArr 0 (0 + 3) fresh light_generated
  /\ (1 <= 3 ->
      exists light ray nLight Le pdf r,
        Spec.IsBlack Le = false
        /\ let v := set_pdfRev r
                      (CreateLight (W := world) light ray nLight Le pdf) in
           array_of LightArr light_generated !! Z.to_nat 0
           = Some (if IsInfiniteLight v
                   then set_pdfFwd
                          (InfiniteLightDensity [Diffuse; Diffuse] tt tt
                             (ray_d ray))
                          v
                   else v))
  /\ (forall i, 1 <= i < 3 ->
        exists v,
          array_of LightArr light_generated !! Z.to_nat (0 + i) = Some v
          /\ scattering_vertex v).
Proof.
  apply (GenerateLightSubpath_shape (W := world) 10 [Diffuse; Diffuse] 3 0 tt tt
           (LightArr, 0) fresh 3 light_generated).
  - lia.
  - vm_compute. reflexivity.
Defined.

(** The types of the vertices of the two generated subpaths. *)
Example generated_types :
  type <$> cameraVertices camera_generated
  = [VertexType.Camera; VertexType.Surface; VertexType.Surface;
     VertexType.Light]
  /\ type <$> lightVertices light_generated
     = [VertexType.Light; VertexType.Surface; VertexType.Surface].
Proof. split; reflexivity. Qed.


(** Two pixels, the second one masked, merged after a prepass of one
    sample out of four. *)
Lemma merge_buffers_pixelwise_witness :
  exists out,
    merge_buffers (T := types) column_mask moment_integrator (Some tt) 4
      [3; 3; 3; 4; 4; 4]%Q [(0, 0); (1, 0)] O [1; 1; 1; 2; 2; 2]%Q
    = Some out
    /\ length out = length [1; 1; 1; 2; 2; 2]%Q
    /\ (forall (j : nat) (px : Point2i) (c : nat),
          [(0, 0); (1, 0)] !! j = Some px -> (c < 3)%nat ->
          exists p r m,
            [1; 1; 1; 2; 2; 2]%Q !! (3 * j + c)%nat = Some p
            /\ [3; 3; 3; 4; 4; 4]%Q !! (3 * j + c)%nat = Some r
            /\ masked (T := types) column_mask moment_integrator (Some tt) px
               = Some m
            /\ out !! (3 * j + c)%nat
               = Some (if m then r
                       else (p * weightPrepass moment_integrator 4
                             + r * weightRectified moment_integrator 4)%Q))
    /\ (4 <> 0 ->
        (weightPrepass moment_integrator 4 + weightRectified moment_integrator 4
         == 1)%Q).
Proof.
  apply (merge_buffers_pixelwise (T := types) column_mask moment_integrator
           (Some tt) 4 [3; 3; 3; 4; 4; 4]%Q [(0, 0); (1, 0)]
           [1; 1; 1; 2; 2; 2]%Q).
  - reflexivity.
  - reflexivity.
  - intros _. eauto.
Defined.

(** Evaluated: the first pixel is blended to 1/4 + 9/4 = 5/2 in every
    channel, the second is taken from the main pass. *)
Example merge_buffers_run :
  exists out,
    merge_buffers (T := types) column_mask moment_integrator (Some tt) 4
      [3; 3; 3; 4; 4; 4]%Q [(0, 0); (1, 0)] O [1; 1; 1; 2; 2; 2]%Q
    = Some out
    /\ Spec.eqb out [5 # 2; 5 # 2; 5 # 2; 4; 4; 4]%Q = true.
Proof. eexists. split; [vm_compute; reflexivity|]. reflexivity. Qed.

(** A frame buffer that is too short for the pixels: the loop indexes
    past its end. *)
Example merge_buffers_short :
  merge_buffers (T := types) column_mask moment_integrator (Some tt) 4
    [3; 3; 3; 4; 4; 4]%Q [(0, 0); (1, 0)] O [1; 1; 1; 2; 2]%Q
  = None.
Proof. reflexivity. Qed.

(** The strategy loop on the two subpaths of the small world. *)
Lemma execute_strategies_defined_witness :
  exists L st',
    execute_strategies (W := world) params tt tt (mkPoint2f 0 0) 3 3 paths
    = Some (L, st')
    /\ lightVertices st' = lightVertices paths
    /\ cameraVertices st' = cameraVertices paths.
Proof.
  apply (execute_strategies_defined (W := world) params tt tt (mkPoint2f 0 0)
           3 3 paths).
  - cbn. lia.
  - cbn. lia.
  - intros u. cbn. lia.
  - discriminate.
  - discriminate.
Defined.

(** A prepass sample of the small world at maximum depth 2. *)
Lemma generate_sample_defined_witness :
  exists r st',
    generate_sample (W := world) (fun _ => tt) 10
      (pass_params moment_integrator [Diffuse] tt tt Prepass) tt (0, 0) fresh
    = Some (r, st')
    /\ length (cameraVertices st') = Z.to_nat (i_maxDepth moment_integrator + 2)
    /\ length (lightVertices st') = Z.to_nat (i_maxDepth moment_integrator + 1).
Proof.
  apply (generate_sample_defined (W := world) (fun _ => tt) 10
           moment_integrator [Diffuse] tt tt Prepass tt (0, 0) fresh).
  - cbn. lia.
  - discriminate.
  - intros pt u. cbn. lia.
Defined.

(** Evaluated: that sample executes six strategies and logs each with
    the rectifier. *)
Example generate_sample_run :
  exists r st',
    generate_sample (W := world) (fun _ => tt) 10
      (pass_params moment_integrator [Diffuse] tt tt Prepass) tt (0, 0) fresh
    = Some (Some r, st')
    /\ length (rectifierLog st') = 6%nat.
Proof. eexists _, _. split; [vm_compute; reflexivity|]. reflexivity. Qed.

(** At maximum depth 0 with variance estimation, the sample whose camera
    ray hits a surface executes the strategy (0,2) and indexes the third
    of two estimators. *)
Example generate_sample_flat :
  generate_sample (W := world) (fun _ => tt) 10
    (pass_params flat_integrator [Diffuse] tt tt Prepass) tt (0, 0) fresh
  = None.
Proof. vm_compute. reflexivity. Qed.


(** The strategy loop of a prepass on the two subpaths of the small
    world. *)
Lemma execute_strategies_logs_witness :
  (fun e => (e.1.1.1.2, e.1.1.2)) <$> rectifierLog logged
  = ((fun e => (e.1.1.1.2, e.1.1.2)) <$> rectifierLog paths)
    ++ (if rp_estimateFactors logging_params
        then (fun p : Z * Z => (p.1 + p.2, p.2))
               <$> strategies (rp_maxDepth logging_params) 3 3
        else [])
  /\ (fun e => e.1.1) <$> varianceLog logged
     = ((fun e => e.1.1) <$> varianceLog paths)
       ++ (if rp_estimateVariances logging_params
           then (fun p : Z * Z => BufferIndex p.1 p.2)
                  <$> strategies (rp_maxDepth logging_params) 3 3
           else [])
  /\ length (splats logged)
     = (length (splats paths)
        + length (List.filter (fun p : Z * Z => (p.2 =? 1)%Z)
                    (strategies (rp_maxDepth logging_params) 3 3)))%nat.
Proof.
  eapply (execute_strategies_logs (W := world) logging_params tt tt
            (mkPoint2f 0 0) 3 3 paths _ logged).
  vm_compute. reflexivity.
Defined.

(** Evaluated: seven estimates, their tags and their estimator indices;
    the strategies (0,2) and (2,1) share estimator 2, (1,2) and (3,1)
    share estimator 3. *)
Example execute_strategies_logged :
  (fun e => (e.1.1.1.2, e.1.1.2)) <$> rectifierLog logged
  = [(3, 1); (4, 1); (2, 2); (3, 2); (4, 2); (3, 3); (4, 3)]
  /\ (fun e => e.1.1) <$> varianceLog logged = [2; 3; 2; 3; 4; 4; 5]
  /\ length (splats logged) = 2%nat.
Proof. repeat split. Qed.


(** The densities of the small world are constants that are not
    negative. *)
Lemma toy_sampling_nonneg : sampling_nonneg (W := world).
Proof.
  repeat split; intros; cbn; try discriminate.
  all: try (destruct bsdf; cbn; discriminate).
Qed.

Lemma fresh_nonneg : nonneg_state fresh.
Proof.
  split; cbn; repeat constructor; cbn; discriminate.
Qed.

(** The camera subpath of [camera_generated]. *)
Lemma GenerateCameraSubpath_nonneg_witness : nonneg_state camera_generated.
Proof.
  apply (GenerateCameraSubpath_nonneg (W := world) 10 [Mirror; Diffuse] 4 tt
           (mkPoint2f 0 0) (CameraArr, 0) fresh (Some 4) camera_generated).
  - exact toy_sampling_nonneg.
  - exact fresh_nonneg.
  - vm_compute. reflexivity.
Defined.

(** The light subpath of [light_generated]. *)
Lemma GenerateLightSubpath_nonneg_witness : nonneg_state light_generated.
Proof.
  apply (GenerateLightSubpath_nonneg (W := world) 10 [Diffuse; Diffuse] 3 0
           tt tt (LightArr, 0) fresh (Some 3) light_generated).
  - exact toy_sampling_nonneg.
  - exact fresh_nonneg.
  - vm_compute. reflexivity.
Defined.


(** The loop on the two subpaths of the small world at maximum depth 2:
    seven connections. *)
Lemma execute_strategies_exact_witness :
  NoDup (strategies 2 3 3)
  /\ (forall s t,
         (s, t) ∈ strategies 2 3 3
         <-> 1 <= t <= 3 /\ 0 <= s <= 3
             /\ 0 <= s + t - 2 <= 2 /\ (s, t) <> (1, 1))
  /\ exists (cs : list Connection) (L : Spectrum) (st' : St),
       execute_strategies (W := world) params tt tt (mkPoint2f 0 0) 3 3 paths
       = Some (L, st')
       /\ c_strategy <$> cs = strategies 2 3 3
       /\ Forall (connected params tt tt (mkPoint2f 0 0) paths) cs
       /\ L = accumulated cs
       /\ splats st' = splats paths ++ splatted cs.
Proof.
  apply (execute_strategies_exact (W := world) params tt tt (mkPoint2f 0 0)
           3 3 paths).
  - cbn. lia.
  - cbn. lia.
  - intros u. cbn. lia.
  - discriminate.
  - discriminate.
Defined.


(** The events of that walk and of one with two mirrors in a row. *)
Example specular_events_run :
  RandomWalk_specular (W := world) 10 [Mirror; Boundary; Diffuse] O [1%Q] 1 3
    Radiance (CameraArr, 1) fresh = [0]
  /\ RandomWalk_specular (W := world) 10 [Mirror; Mirror; Diffuse] O [1%Q] 1 3
       Radiance (CameraArr, 1) fresh = [0; 1].
Proof. split; vm_compute; reflexivity. Qed.



(** The same strategy under the balance heuristic and without rectifier,
    as the specification words it: the densities 1/2 that [Pdf] returns
    go into the reverse densities of the last two vertices of either
    subpath, the delta flag of the last camera vertex is cleared, and
    the weight is 6/13. *)
Example spec_weight_paths_3_3 :
  exists y z,
    spec_substituted (W := world) [] Vertex_default 3 3 tt tt
      (lightVertices paths) (cameraVertices paths)
    = Some (y, z)
    /\ (pdfRev <$> y) = [1 # 2; 1 # 2; 1 # 2]%Q
    /\ (pdfRev <$> z) = [1; 1 # 2; 1 # 2]%Q
    /\ (delta <$> z) = [false; false; false]
    /\ (spec_weight y z MIS_BALANCE None (0%Z, 0%Z) 3 3 == 6 # 13)%Q.
Proof.
  eexists _, _. split; [vm_compute; reflexivity|].
  split; [vm_compute; reflexivity|]. split; [vm_compute; reflexivity|].
  split; vm_compute; reflexivity.
Qed.


(** The walk of [walked], from the second camera vertex through a mirror,
    a medium boundary and a diffuse surface: the specular event is at
    [path[0]], and the vertex reached through it, after the boundary, is
    [path[1]]. *)
Lemma specular_event_witness :
  0 <= 0 < 3
  /\ marked_delta (CameraArr, 1) 0 walked
  /\ (0 + 1 < 3 -> reached_with_zero (CameraArr, 1) (0 + 1) walked).
Proof.
  apply (specular_event (W := world) 10 [Mirror; Boundary; Diffuse] O [1%Q] 1 3
           Radiance (CameraArr, 1) fresh 3 walked).
  - lia.
  - cbn. lia.
  - vm_compute. reflexivity.
  - vm_compute. apply list_elem_of_here.
Defined.


End Examples.
